(** * PiPedal ALSA driver: MIDI byte-stream decoder, sample codecs, stream
      configuration, device transfers, port names and the audio thread
      (src/src/AlsaDriver.cpp), and the UTF-8 decoder of
      src/PiPedalCommon/src/util.cpp, as a shallow embedding.

    Machine integers are [Z] with the wrap-around written out, vectors are
    lists updated by index, and code that can abort (a failed [assert], an
    ALSA error turned into an exception, an index outside a vector, a
    conversion the language leaves undefined) runs in a small result monad.
    [float] is IEEE binary32 as the standard library specifies it. *)

From Stdlib Require Import ZArith Lia Bool List QArith Qabs Qpower Qfield.
From Stdlib Require Import Floats.SpecFloat.
From Stdlib Require DecimalN.
From coqutil Require Import Z.bitblast.
From stdpp Require Import base list.
Import ListNotations.

Local Open Scope Z_scope.

(** ** Results of code that can abort *)

Inductive Result (A : Type) : Type :=
| Ok (a : A)
| AssertFailed
| OutOfRange
| NullPointer
| Undefined
| AlsaError (code : Z).

Arguments Ok {A} a.
Arguments AssertFailed {A}.
Arguments OutOfRange {A}.
Arguments NullPointer {A}.
Arguments Undefined {A}.
Arguments AlsaError {A} code.

Definition rbind {A B : Type} (r : Result A) (k : A -> Result B) : Result B :=
  match r with
  | Ok a => k a
  | AssertFailed => AssertFailed
  | OutOfRange => OutOfRange
  | NullPointer => NullPointer
  | Undefined => Undefined
  | AlsaError c => AlsaError c
  end.

Notation "'do' x <- r ; k" := (rbind r (fun x => k))
  (at level 10, x name, r at level 100, k at level 200).


(** [v[i] = x] on a std::vector: outside the vector the behaviour is
    undefined, which the model reports as [OutOfRange]. *)
Definition vec_set {A : Type} (l : list A) (i : Z) (x : A) : Result (list A) :=
  if (0 <=? i) && (i <? Z.of_nat (length l))
  then Ok (<[Z.to_nat i := x]> l)
  else OutOfRange.

Definition is_byte (v : Z) : Prop := 0 <= v < 256.

(** ** The MIDI decoder: AlsaDriverImpl::AlsaMidiDeviceImpl *)

Module Midi.

(** Modelled from the spec: the [MidiEvent] struct is declared in a header
    that is not part of the sources at hand; the spec gives it as a frame
    offset, a size and three bytes, and the driver's constructor points
    [buffer] at [MAX_MIDI_EVENT_SIZE] bytes of [midiEventMemory]. *)
Record MidiEvent : Type := mkEvent {
  time : Z;
  size : Z;
  buffer : list Z
}.

Definition MAX_MIDI_EVENT_SIZE : Z := 3.
Definition MIDI_BUFFER_SIZE : Z := 16 * 1024.
Definition MAX_MIDI_EVENT : Z := 4 * 1024.

(** The members of [AlsaMidiDeviceImpl] that the decoder reads and writes.
    [pInputEventBuffer] stands for the vector the pointer refers to. *)
Record MidiState : Type := mkState {
  runningStatus : Z;
  dataLength : Z;
  dataIndex : Z;
  data0 : Z;
  data1 : Z;
  inputProcessingSysex : bool;
  inputSysexBufferCount : Z;
  inputSysexBuffer : list Z;
  inputSampleFrame : Z;
  inputEventBufferIndex : Z;
  pInputEventBuffer : option (list MidiEvent)
}.

Definition set_runningStatus (st : MidiState) (x : Z) : MidiState :=
  mkState x (dataLength st) (dataIndex st) (data0 st) (data1 st)
    (inputProcessingSysex st) (inputSysexBufferCount st) (inputSysexBuffer st)
    (inputSampleFrame st) (inputEventBufferIndex st) (pInputEventBuffer st).

Definition set_dataLength (st : MidiState) (x : Z) : MidiState :=
  mkState (runningStatus st) x (dataIndex st) (data0 st) (data1 st)
    (inputProcessingSysex st) (inputSysexBufferCount st) (inputSysexBuffer st)
    (inputSampleFrame st) (inputEventBufferIndex st) (pInputEventBuffer st).

Definition set_dataIndex (st : MidiState) (x : Z) : MidiState :=
  mkState (runningStatus st) (dataLength st) x (data0 st) (data1 st)
    (inputProcessingSysex st) (inputSysexBufferCount st) (inputSysexBuffer st)
    (inputSampleFrame st) (inputEventBufferIndex st) (pInputEventBuffer st).

Definition set_data0 (st : MidiState) (x : Z) : MidiState :=
  mkState (runningStatus st) (dataLength st) (dataIndex st) x (data1 st)
    (inputProcessingSysex st) (inputSysexBufferCount st) (inputSysexBuffer st)
    (inputSampleFrame st) (inputEventBufferIndex st) (pInputEventBuffer st).

Definition set_data1 (st : MidiState) (x : Z) : MidiState :=
  mkState (runningStatus st) (dataLength st) (dataIndex st) (data0 st) x
    (inputProcessingSysex st) (inputSysexBufferCount st) (inputSysexBuffer st)
    (inputSampleFrame st) (inputEventBufferIndex st) (pInputEventBuffer st).

Definition set_inputProcessingSysex (st : MidiState) (x : bool) : MidiState :=
  mkState (runningStatus st) (dataLength st) (dataIndex st) (data0 st) (data1 st)
    x (inputSysexBufferCount st) (inputSysexBuffer st)
    (inputSampleFrame st) (inputEventBufferIndex st) (pInputEventBuffer st).

Definition set_inputSysexBufferCount (st : MidiState) (x : Z) : MidiState :=
  mkState (runningStatus st) (dataLength st) (dataIndex st) (data0 st) (data1 st)
    (inputProcessingSysex st) x (inputSysexBuffer st)
    (inputSampleFrame st) (inputEventBufferIndex st) (pInputEventBuffer st).

Definition set_inputSysexBuffer (st : MidiState) (x : list Z) : MidiState :=
  mkState (runningStatus st) (dataLength st) (dataIndex st) (data0 st) (data1 st)
    (inputProcessingSysex st) (inputSysexBufferCount st) x
    (inputSampleFrame st) (inputEventBufferIndex st) (pInputEventBuffer st).

Definition set_sink (st : MidiState) (frame idx : Z)
    (buf : option (list MidiEvent)) : MidiState :=
  mkState (runningStatus st) (dataLength st) (dataIndex st) (data0 st) (data1 st)
    (inputProcessingSysex st) (inputSysexBufferCount st) (inputSysexBuffer st)
    frame idx buf.

(** [int GetDataLength(uint8_t cc)] *)
Definition sDataLength : list Z :=
  [0; 0; 0; 0; 0; 0; 0; 0; 2; 2; 2; 2; 1; 1; 1; -1].

Definition GetDataLength (cc : Z) : Z :=
  nth (Z.to_nat (Z.shiftr cc 4)) sDataLength 0.

(** [int GetSystemCommonLength(uint8_t cc)] *)
Definition sizes : list Z := [-1; 1; 2; 1; -1; -1; 0; 0].

Definition GetSystemCommonLength (cc : Z) : Z :=
  nth (Z.to_nat (Z.land (Z.shiftr cc 4) 7)) sizes 0.

(** [void FlushSysex()]: the body of the [if] is commented out in the
    source, so only the flag is cleared. *)
Definition FlushSysex (st : MidiState) : MidiState :=
  set_inputProcessingSysex st false.

(** [void MidiPut(uint8_t cc, uint8_t d0, uint8_t d1)] *)
Definition MidiPut (st : MidiState) (cc d0 d1 : Z) : Result MidiState :=
  if cc =? 0 then Ok st
  else
    match pInputEventBuffer st with
    | None => NullPointer
    | Some events =>
        if Z.of_nat (length events) <=? inputEventBufferIndex st then Ok st
        else
          match events !! Z.to_nat (inputEventBufferIndex st) with
          | None => OutOfRange
          | Some event =>
              if negb (dataLength st + 1 <=? MAX_MIDI_EVENT_SIZE)
              then AssertFailed
              else
                do b0 <- vec_set (buffer event) 0 cc ;
                do b1 <- vec_set b0 1 d0 ;
                do b2 <- vec_set b1 2 d1 ;
                let event' :=
                  mkEvent (inputSampleFrame st) (dataLength st + 1) b2 in
                Ok (set_sink st (inputSampleFrame st)
                      (inputEventBufferIndex st + 1)
                      (Some (<[Z.to_nat (inputEventBufferIndex st) := event']>
                               events)))
          end
    end.

(** How the body of the [for] loop of [ProcessInputBuffer] is left. *)
Inductive Flow : Type := Next | Break.

(** The test that closes every iteration the loop does not leave early. *)
Definition emit_if_complete (st : MidiState) : Result (Flow * MidiState) :=
  if (dataIndex st =? dataLength st) && (0 <=? dataLength st)
     && negb (runningStatus st =? 0)
  then do st' <- MidiPut st (runningStatus st) (data0 st mod 256) (data1 st mod 256) ;
       Ok (Next, set_dataIndex st' 0)
  else Ok (Next, st).

(** One iteration of the loop, for the byte [v]. *)
Definition process_byte (st : MidiState) (v : Z) : Result (Flow * MidiState) :=
  if 128 <=? v then
    if 240 <=? v then
      if v =? 240 then
        let st1 := set_inputSysexBufferCount (set_inputProcessingSysex st true) 0 in
        do b <- vec_set (inputSysexBuffer st1) (inputSysexBufferCount st1) 240 ;
        let st2 := set_inputSysexBufferCount (set_inputSysexBuffer st1 b)
                     (inputSysexBufferCount st1 + 1) in
        emit_if_complete
          (set_dataIndex (set_dataLength (set_runningStatus st2 0) (-2)) (-1))
      else if 248 <=? v then Ok (Next, st)
      else
        let st1 := FlushSysex st in
        let length := GetSystemCommonLength v in
        if length =? -1 then Ok (Break, st1)
        else emit_if_complete
               (set_dataIndex (set_dataLength (set_runningStatus st1 v) length) 0)
    else
      let st1 := FlushSysex st in
      let dataLength := GetDataLength v in
      let st2 := set_runningStatus st1 v in
      if dataLength =? -1
      then emit_if_complete (set_dataIndex (set_dataLength st2 dataLength) (-1))
      else emit_if_complete (set_dataIndex (set_dataLength st2 dataLength) 0)
  else
    if inputProcessingSysex st then
      if negb (inputSysexBufferCount st =? Z.of_nat (length (inputSysexBuffer st)))
      then
        do b <- vec_set (inputSysexBuffer st) (inputSysexBufferCount st) v ;
        emit_if_complete
          (set_inputSysexBufferCount (set_inputSysexBuffer st b)
             (inputSysexBufferCount st + 1))
      else emit_if_complete st
    else
      if dataIndex st =? 0
      then emit_if_complete (set_dataIndex (set_data0 st v) 1)
      else if dataIndex st =? 1
      then emit_if_complete (set_dataIndex (set_data1 st v) 2)
      else emit_if_complete st.

(** [void ProcessInputBuffer(uint8_t *readBuffer, size_t nRead)] *)
Fixpoint ProcessInputBuffer (st : MidiState) (readBuffer : list Z)
  : Result MidiState :=
  match readBuffer with
  | [] => Ok st
  | v :: rest =>
      do r <- process_byte st v ;
      match r with
      | (Next, st') => ProcessInputBuffer st' rest
      | (Break, st') => Ok st'
      end
  end.

(** What [snd_rawmidi_read] hands back on one call of the drain loop; the
    call that returns [-EAGAIN] is the end of the list. *)
Inductive RawMidiRead : Type :=
| ReadBytes (bytes : list Z)
| ReadFailed (code : Z).

(** [void FillInputBuffer()] *)
Fixpoint FillInputBuffer (st : MidiState) (reads : list RawMidiRead)
  : Result MidiState :=
  match reads with
  | [] => Ok st
  | ReadFailed code :: _ => AlsaError code
  | ReadBytes bytes :: rest =>
      do st' <- ProcessInputBuffer st bytes ;
      FillInputBuffer st' rest
  end.

(** [size_t ReadMidiEvents(outputBuffer, startIndex, sampleFrame)]: the
    result carries the decoder, the vector written through the pointer and
    the number of events added. *)
Definition ReadMidiEvents (st : MidiState) (outputBuffer : list MidiEvent)
    (startIndex sampleFrame : Z) (reads : list RawMidiRead)
  : Result (MidiState * list MidiEvent * Z) :=
  let st1 := set_sink st sampleFrame startIndex (Some outputBuffer) in
  do st2 <- FillInputBuffer st1 reads ;
  match pInputEventBuffer st2 with
  | None => NullPointer
  | Some events =>
      Ok (set_sink st2 (inputSampleFrame st2) (inputEventBufferIndex st2) None,
          events, inputEventBufferIndex st2 - startIndex)
  end.

(** The decoder as the constructor and [Open] leave it. *)
Definition Opened : MidiState :=
  mkState 0 0 0 0 0 false 0 (replicate 1024 0) 4294967295 0 None.

(** [midiEvents] as the constructor of [AlsaDriverImpl] leaves it. *)
Definition midiEvents_init : list MidiEvent :=
  replicate (Z.to_nat MAX_MIDI_EVENT)
    (mkEvent 0 0 (replicate (Z.to_nat MAX_MIDI_EVENT_SIZE) 0)).

(** [void ReadMidiData(uint32_t audioFrame)] over the driver's devices, each
    with what its endpoint delivers during the call. *)
Fixpoint ReadMidiData (midiDevices : list (MidiState * list RawMidiRead))
    (midiEvents : list MidiEvent) (midiEventCount audioFrame : Z)
  : Result (list MidiState * list MidiEvent * Z) :=
  match midiDevices with
  | [] => Ok ([], midiEvents, midiEventCount)
  | (dev, reads) :: rest =>
      do r <- ReadMidiEvents dev midiEvents midiEventCount audioFrame reads ;
      let '(dev', midiEvents', nRead) := r in
      do r' <- ReadMidiData rest midiEvents' (midiEventCount + nRead) audioFrame ;
      let '(devs', midiEvents'', count) := r' in
      Ok (dev' :: devs', midiEvents'', count)
  end.

(** The bytes an event carries: the first [size] bytes of its buffer. *)
Definition event_bytes (e : MidiEvent) : list Z :=
  take (Z.to_nat (size e)) (buffer e).

(** The events the sink holds from position [start] up to the cursor. *)
Definition events_from (start : Z) (st : MidiState) : list (list Z) :=
  match pInputEventBuffer st with
  | None => []
  | Some events =>
      map event_bytes
        (take (Z.to_nat (inputEventBufferIndex st - start))
           (drop (Z.to_nat start) events))
  end.

(** A decoder attached to the sink of a period that starts empty. *)
Definition attach (st : MidiState) (sampleFrame : Z) : MidiState :=
  set_sink st sampleFrame 0 (Some midiEvents_init).

End Midi.

(** ** Stream configuration: AlsaDriverImpl::AlsaConfigureStream *)

(** The [snd_pcm_format_t] values the driver knows how to copy. *)
Inductive PcmFormat : Type :=
| FLOAT_LE | S32_LE | S24_LE | S24_3LE | S16_LE
| FLOAT_BE | S32_BE | S24_BE | S24_3BE | S16_BE.

Module Config.

Definition leFormats : list PcmFormat :=
  [FLOAT_LE; S32_LE; S24_LE; S24_3LE; S16_LE].

Definition beFormats : list PcmFormat :=
  [FLOAT_BE; S32_BE; S24_BE; S24_3BE; S16_BE].

(** What the sound library answers to each call [AlsaConfigureStream] makes,
    in the order it makes them: an error code, and for the calls that take a
    value by pointer the value they leave there. *)
Record AlsaPcm : Type := mkPcm {
  hw_params_any : Z;
  hw_set_access : Z;
  hw_test_format : PcmFormat -> Z;
  hw_set_format : PcmFormat -> Z;
  hw_set_rate_near : Z -> Z * Z;
  hw_get_channels_max : Z * Z;
  hw_get_channels_min : Z * Z;
  hw_test_channels : Z -> Z;
  hw_set_channels : Z -> Z;
  hw_set_period_size_near : Z -> Z * Z;
  hw_set_periods_min : Z -> Z;
  hw_set_periods_near : Z -> Z * Z;
  hw_params : Z;
  sw_set_start_threshold : Z -> Z;
  sw_set_stop_threshold : Z -> Z;
  sw_set_silence_threshold : Z -> Z;
  sw_set_avail_min : Z -> Z;
  sw_params : Z;
  pcm_prepare : Z
}.

(** The places where [AlsaConfigureStream] calls [AlsaError]. *)
Inductive ConfigFailure : Type :=
| NoConfigurations
| SetAccessFailed
| NoSupportedFormats
| CantSetSampleRate (rate : Z)
| CantGetChannelsMax
| CantGetChannelsMin
| CantSetChannelCount (channels : Z)
| CantSetPeriodSize (frames : Z)
| CantSetNumberOfPeriods (periods : Z)
| GotSmallerPeriods (periods wanted : Z)
| CantSetHardwareParameters
| CantSetStartMode
| CantSetStopMode
| CantSetSilenceThreshold
| CantSetAvailMin
| CantSetSoftwareParameters
| PrepareFailed.

(** The members and pointer arguments the function reads and writes. *)
Record StreamConfig : Type := mkConfig {
  sampleRate : Z;
  bufferSize : Z;
  numberOfBuffers : Z;
  channels : Z;
  periods : Z;
  format : option PcmFormat
}.

Inductive Outcome : Type :=
| Configured (c : StreamConfig)
| Failed (why : ConfigFailure).

Definition uint32 (z : Z) : Z := z mod 4294967296.
Definition int32 (z : Z) : Z := (z + 2147483648) mod 4294967296 - 2147483648.

(** [bool SetPreferredAlsaFormat(streamType, handle, hwParams, formats, n)] *)
Fixpoint SetPreferredAlsaFormat_in (dev : AlsaPcm) (formats : list PcmFormat)
  : option PcmFormat :=
  match formats with
  | [] => None
  | f :: rest =>
      if (hw_test_format dev f =? 0) && (hw_set_format dev f =? 0)
      then Some f
      else SetPreferredAlsaFormat_in dev rest
  end.

(** [void SetPreferredAlsaFormat(alsa_device_name, streamType, handle,
    hwParams)]; [None] is the call of [AlsaError]. *)
Definition SetPreferredAlsaFormat (native_big : bool) (dev : AlsaPcm)
  : option PcmFormat :=
  let '(first, second) :=
    if native_big then (beFormats, leFormats) else (leFormats, beFormats) in
  match SetPreferredAlsaFormat_in dev first with
  | Some f => Some f
  | None => SetPreferredAlsaFormat_in dev second
  end.

(** The channel count chosen when the caller passes [*channels == 0]. *)
Definition default_channels (dev : AlsaPcm) : ConfigFailure + Z :=
  let '(err_max, channels_max) := hw_get_channels_max dev in
  if err_max <? 0 then inl CantGetChannelsMax
  else
    let '(err_min, channels_min) := hw_get_channels_min dev in
    if err_min <? 0 then inl CantGetChannelsMin
    else
      let c0 := int32 channels_max in
      let c1 :=
        if (2 <? channels_max) && (channels_min <=? 2) && (0 <? channels_min)
        then (if 0 <=? hw_test_channels dev 2 then 2 else c0)
        else c0 in
      inr (if 1024 <? c1 then 2 else c1).

(** The value of [*periods] handed to [snd_pcm_hw_params_set_periods_near]. *)
Definition requested_periods (dev : AlsaPcm) (numberOfBuffers : Z) : Z :=
  let periods := hw_set_periods_min dev numberOfBuffers in
  if periods <? numberOfBuffers then numberOfBuffers else periods.

(** The value [snd_pcm_hw_params_set_periods_near] leaves in [*periods]. *)
Definition negotiated_periods (dev : AlsaPcm) (numberOfBuffers : Z) : Z :=
  snd (hw_set_periods_near dev (requested_periods dev numberOfBuffers)).

(** [void AlsaConfigureStream(alsa_device_name, streamType, handle, hwParams,
    swParams, channels, periods)]; [is_capture] is [handle == captureHandle],
    and the playback handle is the other one. *)
Definition AlsaConfigureStream (native_big soft_mode is_capture : bool)
    (dev : AlsaPcm) (c : StreamConfig) : Outcome :=
  if hw_params_any dev <? 0 then Failed NoConfigurations
  else if hw_set_access dev <? 0 then Failed SetAccessFailed
  else
    match SetPreferredAlsaFormat native_big dev with
    | None => Failed NoSupportedFormats
    | Some fmt =>
        let '(err, rate) := hw_set_rate_near dev (uint32 (sampleRate c)) in
        if err <? 0 then Failed (CantSetSampleRate rate)
        else
          match (if channels c =? 0 then default_channels dev
                 else inr (channels c)) with
          | inl why => Failed why
          | inr chans =>
              if hw_set_channels dev chans <? 0
              then Failed (CantSetChannelCount chans)
              else
                let '(err, effectivePeriodSize) :=
                  hw_set_period_size_near dev (bufferSize c) in
                if err <? 0 then Failed (CantSetPeriodSize (bufferSize c))
                else
                  let bufferSize' := uint32 effectivePeriodSize in
                  let '(err, periods') :=
                    hw_set_periods_near dev
                      (requested_periods dev (numberOfBuffers c)) in
                  if err <? 0 then Failed (CantSetNumberOfPeriods periods')
                  else if periods' <? numberOfBuffers c
                  then Failed (GotSmallerPeriods periods' (numberOfBuffers c))
                  else if hw_params dev <? 0
                  then Failed CantSetHardwareParameters
                  else if sw_set_start_threshold dev
                            (if is_capture then 0 else 2147483647) <? 0
                  then Failed CantSetStartMode
                  else
                    let stop_th :=
                      if soft_mode then 18446744073709551615
                      else uint32 (periods' * bufferSize') in
                    if sw_set_stop_threshold dev stop_th <? 0
                    then Failed CantSetStopMode
                    else if sw_set_silence_threshold dev 0 <? 0
                    then Failed CantSetSilenceThreshold
                    else if sw_set_avail_min dev
                              (if is_capture then bufferSize'
                               else uint32 (bufferSize'
                                            * (periods' - numberOfBuffers c + 1)))
                              <? 0
                    then Failed CantSetAvailMin
                    else if sw_params dev <? 0
                    then Failed CantSetSoftwareParameters
                    else if pcm_prepare dev <? 0 then Failed PrepareFailed
                    else Configured
                           (mkConfig rate bufferSize' (numberOfBuffers c)
                              chans periods' (Some fmt))
          end
    end.

Definition failed (o : Outcome) : Prop :=
  match o with Failed _ => True | Configured _ => False end.

End Config.

(** ** The sample codecs: AlsaDriverImpl::CopyCapture* and CopyPlayback* *)

Module Codec.

(** *** binary32 arithmetic *)

Definition prec : Z := 24.
Definition emax : Z := 128.

Abbreviation float := spec_float.

Definition fmul : float -> float -> float := SFmul prec emax.
Definition fdiv : float -> float -> float := SFdiv prec emax.
Definition fneg : float -> float := SFopp.
Definition flt : float -> float -> bool := SFltb.
Definition fgt (x y : float) : bool := SFltb y x.

(** Conversion of an integer to [float], to nearest. *)
Definition float_of_int (z : Z) : float := binary_normalize prec emax z 0 false.

(** The integer part of a float, towards zero. *)
Definition truncate (x : float) : option Z :=
  match x with
  | S754_zero _ => Some 0
  | S754_finite s m e =>
      Some (cond_Zopp s (if 0 <=? e then Zpos m * 2 ^ e else Zpos m / 2 ^ (- e)))
  | S754_infinity _ => None
  | S754_nan => None
  end.

(** Conversion of a [float] to a signed integer of [bits] bits: truncation,
    and undefined when the truncated value does not fit. *)
Definition int_of_float (bits : Z) (x : float) : Result Z :=
  match truncate x with
  | Some z =>
      if (- 2 ^ (bits - 1) <=? z) && (z <? 2 ^ (bits - 1)) then Ok z
      else Undefined
  | None => Undefined
  end.

(** The bits of a binary32 value, as an unsigned 32-bit number. *)
Definition bits_of_float (x : float) : Z :=
  match x with
  | S754_zero s => if s then 2147483648 else 0
  | S754_infinity s => (if s then 2147483648 else 0) + 2139095040
  | S754_nan => 2143289344
  | S754_finite s m e =>
      (if s then 2147483648 else 0)
      + (if Zpos m <? 8388608 then Zpos m
         else (e + 150) * 8388608 + (Zpos m - 8388608))
  end.

Definition float_of_bits (b : Z) : float :=
  let s := 2147483648 <=? b in
  let ex := (b / 8388608) mod 256 in
  let mant := b mod 8388608 in
  if ex =? 0 then
    match mant with
    | Zpos m => S754_finite s m (-149)
    | _ => S754_zero s
    end
  else if ex =? 255 then
    (if mant =? 0 then S754_infinity s else S754_nan)
  else
    match mant + 8388608 with
    | Zpos m => S754_finite s m (ex - 150)
    | _ => S754_nan
    end.

(** *** Machine integers and the raw buffers *)

Definition int16 (z : Z) : Z := (z + 32768) mod 65536 - 32768.
Definition int32 (z : Z) : Z := (z + 2147483648) mod 4294967296 - 2147483648.
Definition uint8 (z : Z) : Z := z mod 256.
Definition uint32 (z : Z) : Z := z mod 4294967296.

(** [int32_t EndianSwap(int32_t v)] *)
Definition EndianSwap32 (v : Z) : Z :=
  let b0 := Z.land v 255 in
  let b1 := Z.land (Z.shiftr v 8) 255 in
  let b2 := Z.land (Z.shiftr v 16) 255 in
  let b3 := Z.land (Z.shiftr v 24) 255 in
  Z.lor (Z.lor (Z.lor (int32 (Z.shiftl b0 24)) (int32 (Z.shiftl b1 16)))
           (int32 (Z.shiftl b2 8))) b3.

(** [int16_t EndianSwap(int16_t v)] *)
Definition EndianSwap16 (v : Z) : Z :=
  let b0 := int16 (Z.land v 255) in
  let b1 := int16 (Z.land (Z.shiftr v 8) 255) in
  int16 (Z.lor (Z.shiftl b0 8) b1).

(** Objects in the raw byte buffers, on the little-endian host the
    [...Le] functions are written for. *)
Definition store_int16 (v : Z) : list Z := [uint8 v; uint8 (v / 256)].

Definition store_int32 (v : Z) : list Z :=
  [uint8 v; uint8 (v / 256); uint8 (v / 65536); uint8 (v / 16777216)].

Definition load_int16 (bytes : list Z) : Z :=
  match bytes with
  | [b0; b1] => int16 (b0 + 256 * b1)
  | _ => 0
  end.

Definition load_int32 (bytes : list Z) : Z :=
  match bytes with
  | [b0; b1; b2; b3] => int32 (b0 + 256 * b1 + 65536 * b2 + 16777216 * b3)
  | _ => 0
  end.

Definition store_float (v : float) : list Z := store_int32 (bits_of_float v).
Definition load_float (bytes : list Z) : float :=
  float_of_bits (uint32 (load_int32 bytes)).

(** *** The bodies of the copy loops, one sample at a time *)

Definition one : float := float_of_int 1.

(** [if (v > 1.0f) v = 1.0f; else if (v < -1.0f) v = -1.0f;] *)
Definition clamp (v : float) : float :=
  if fgt v one then one
  else if flt v (fneg one) then fneg one
  else v.

Definition INT16_MAX : Z := 32767.
Definition INT32_MAX : Z := 2147483647.
Definition S24_MAX : Z := 16777215.

(** The [constexpr float scale] of the playback and of the capture functions. *)
Definition playback_scale16 : float := float_of_int INT16_MAX.
Definition playback_scale32 : float := float_of_int INT32_MAX.
Definition playback_scale24 : float := float_of_int S24_MAX.
Definition capture_scale16 : float := fdiv one (float_of_int (INT16_MAX + 1)).
Definition capture_scale32 : float := fdiv one (float_of_int (INT32_MAX + 1)).
Definition capture_scale24 : float := fdiv one (float_of_int (S24_MAX + 1)).

(** [(int16_t)(scale * v)] and [(int32_t)(scale * v)] after the clamp. *)
Definition quantize16 (v : float) : Result Z :=
  int_of_float 16 (fmul playback_scale16 (clamp v)).
Definition quantize32 (v : float) : Result Z :=
  int_of_float 32 (fmul playback_scale32 (clamp v)).
Definition quantize24 (v : float) : Result Z :=
  int_of_float 32 (fmul playback_scale24 (clamp v)).

Definition CopyPlaybackS16Le_sample (v : float) : Result (list Z) :=
  do i <- quantize16 v ; Ok (store_int16 i).
Definition CopyPlaybackS16Be_sample (v : float) : Result (list Z) :=
  do i <- quantize16 v ; Ok (store_int16 (EndianSwap16 i)).
Definition CopyPlaybackS32Le_sample (v : float) : Result (list Z) :=
  do i <- quantize32 v ; Ok (store_int32 i).
Definition CopyPlaybackS32Be_sample (v : float) : Result (list Z) :=
  do i <- quantize32 v ; Ok (store_int32 (EndianSwap32 i)).
Definition CopyPlaybackS24Le_sample (v : float) : Result (list Z) :=
  do i <- quantize24 v ; Ok (store_int32 i).
Definition CopyPlaybackS24Be_sample (v : float) : Result (list Z) :=
  do i <- quantize24 v ; Ok (store_int32 (EndianSwap32 i)).
Definition CopyPlaybackS24_3Be_sample (v : float) : Result (list Z) :=
  do iValue <- quantize32 v ;
  Ok [uint8 (Z.shiftr iValue 24); uint8 (Z.shiftr iValue 16);
      uint8 (Z.shiftr iValue 8)].
Definition CopyPlaybackS24_3Le_sample (v : float) : Result (list Z) :=
  do iValue <- quantize32 v ;
  Ok [uint8 (Z.shiftr iValue 8); uint8 (Z.shiftr iValue 16);
      uint8 (Z.shiftr iValue 24)].
Definition CopyPlaybackFloatLe_sample (v : float) : Result (list Z) :=
  Ok (store_float v).
Definition CopyPlaybackFloatBe_sample (v : float) : Result (list Z) :=
  Ok (store_int32 (EndianSwap32 (int32 (bits_of_float v)))).

(** [int32_t v = (p[0] << 8) + (p[1] << 16) | (p[2] << 24);], parsed as the
    language parses it: the sum first, then the bitwise or. *)
Definition s24_3_value (p0 p1 p2 : Z) : Z :=
  Z.lor (int32 (int32 (Z.shiftl p0 8) + int32 (Z.shiftl p1 16)))
    (int32 (Z.shiftl p2 24)).

Definition CopyCaptureS16Le_sample (bytes : list Z) : float :=
  fmul capture_scale16 (float_of_int (load_int16 bytes)).
Definition CopyCaptureS16Be_sample (bytes : list Z) : float :=
  fmul capture_scale16 (float_of_int (EndianSwap16 (load_int16 bytes))).
Definition CopyCaptureS32Le_sample (bytes : list Z) : float :=
  fmul capture_scale32 (float_of_int (load_int32 bytes)).
Definition CopyCaptureS32Be_sample (bytes : list Z) : float :=
  fmul capture_scale32 (float_of_int (EndianSwap32 (load_int32 bytes))).
Definition CopyCaptureS24Le_sample (bytes : list Z) : float :=
  fmul capture_scale24 (float_of_int (load_int32 bytes)).
Definition CopyCaptureS24Be_sample (bytes : list Z) : float :=
  fmul capture_scale24 (float_of_int (EndianSwap32 (load_int32 bytes))).
Definition CopyCaptureS24_3Le_sample (bytes : list Z) : float :=
  match bytes with
  | [p0; p1; p2] => fmul capture_scale32 (float_of_int (s24_3_value p0 p1 p2))
  | _ => S754_zero false
  end.
Definition CopyCaptureS24_3Be_sample (bytes : list Z) : float :=
  match bytes with
  | [p0; p1; p2] => fmul capture_scale32 (float_of_int (s24_3_value p2 p1 p0))
  | _ => S754_zero false
  end.
Definition CopyCaptureFloatLe_sample (bytes : list Z) : float :=
  load_float bytes.
Definition CopyCaptureFloatBe_sample (bytes : list Z) : float :=
  float_of_bits (uint32 (EndianSwap32 (load_int32 bytes))).

(** What [PrepareCaptureFunctions] and [PreparePlaybackFunctions] select. *)
Definition sample_size (f : PcmFormat) : Z :=
  match f with
  | FLOAT_LE | FLOAT_BE | S32_LE | S32_BE | S24_LE | S24_BE => 4
  | S24_3LE | S24_3BE => 3
  | S16_LE | S16_BE => 2
  end.

Definition copyOutputFn_sample (f : PcmFormat) : float -> Result (list Z) :=
  match f with
  | FLOAT_LE => CopyPlaybackFloatLe_sample
  | S24_3LE => CopyPlaybackS24_3Le_sample
  | S32_LE => CopyPlaybackS32Le_sample
  | S24_LE => CopyPlaybackS24Le_sample
  | S16_LE => CopyPlaybackS16Le_sample
  | FLOAT_BE => CopyPlaybackFloatBe_sample
  | S24_3BE => CopyPlaybackS24_3Be_sample
  | S32_BE => CopyPlaybackS32Be_sample
  | S24_BE => CopyPlaybackS24Be_sample
  | S16_BE => CopyPlaybackS16Be_sample
  end.

Definition copyInputFn_sample (f : PcmFormat) : list Z -> float :=
  match f with
  | FLOAT_LE => CopyCaptureFloatLe_sample
  | S24_3LE => CopyCaptureS24_3Le_sample
  | S32_LE => CopyCaptureS32Le_sample
  | S24_LE => CopyCaptureS24Le_sample
  | S16_LE => CopyCaptureS16Le_sample
  | FLOAT_BE => CopyCaptureFloatBe_sample
  | S24_3BE => CopyCaptureS24_3Be_sample
  | S32_BE => CopyCaptureS32Be_sample
  | S24_BE => CopyCaptureS24Be_sample
  | S16_BE => CopyCaptureS16Be_sample
  end.

(** *** The copy loops over a period *)

(** The members of [AlsaDriverImpl] the copy functions use. A vector of
    channel pointers is a list of channels, each a list of samples. *)
Record Driver : Type := mkDriver {
  captureChannels : Z;
  playbackChannels : Z;
  captureBuffers : list (list float);
  playbackBuffers : list (list float);
  rawCaptureBuffer : list Z;
  rawPlaybackBuffer : list Z
}.

Definition set_rawPlaybackBuffer (d : Driver) (raw : list Z) : Driver :=
  mkDriver (captureChannels d) (playbackChannels d) (captureBuffers d)
    (playbackBuffers d) (rawCaptureBuffer d) raw.

Definition set_captureBuffers (d : Driver) (b : list (list float)) : Driver :=
  mkDriver (captureChannels d) (playbackChannels d) b
    (playbackBuffers d) (rawCaptureBuffer d) (rawPlaybackBuffer d).

(** The (frame, channel) pairs in the order the nested [for] loops visit
    them: frames outside, channels inside. *)
Definition loop_order (frames channels : Z) : list (nat * nat) :=
  flat_map (fun frame => map (fun channel => (frame, channel))
                           (seq 0 (Z.to_nat channels)))
    (seq 0 (Z.to_nat frames)).

(** A playback loop: [buffers[channel][frame]] is encoded and written where
    the pointer [p] stands, and [p] moves past it. *)
Fixpoint copy_playback (sample : float -> Result (list Z))
    (buffers : list (list float)) (order : list (nat * nat)) (p : nat)
    (raw : list Z) : Result (list Z) :=
  match order with
  | [] => Ok raw
  | (frame, channel) :: rest =>
      match buffers !! channel with
      | None => OutOfRange
      | Some chan =>
          match chan !! frame with
          | None => OutOfRange
          | Some v =>
              do bytes <- sample v ;
              if (p + length bytes <=? length raw)%nat
              then copy_playback sample buffers rest (p + length bytes)
                     (take p raw ++ bytes ++ drop (p + length bytes) raw)
              else OutOfRange
          end
      end
  end.

(** A capture loop: [size] bytes are read at [p], decoded and stored in
    [buffers[channel][frame]]. *)
Fixpoint copy_capture (sample : list Z -> float) (size : nat) (raw : list Z)
    (order : list (nat * nat)) (p : nat) (buffers : list (list float))
  : Result (list (list float)) :=
  match order with
  | [] => Ok buffers
  | (frame, channel) :: rest =>
      if (p + size <=? length raw)%nat then
        match buffers !! channel with
        | None => OutOfRange
        | Some chan =>
            if (frame <? length chan)%nat
            then copy_capture sample size raw rest (p + size)
                   (<[channel := <[frame := sample (take size (drop p raw))]> chan]>
                      buffers)
            else OutOfRange
        end
      else OutOfRange
  end.

(** The integer formats run their loops over [playbackChannels]. *)
Definition copy_out (sample : float -> Result (list Z)) (channels : Z)
    (d : Driver) (frames : Z) : Result Driver :=
  do raw <- copy_playback sample (playbackBuffers d) (loop_order frames channels)
              0 (rawPlaybackBuffer d) ;
  Ok (set_rawPlaybackBuffer d raw).

Definition copy_in (sample : list Z -> float) (size : Z)
    (d : Driver) (frames : Z) : Result Driver :=
  do b <- copy_capture sample (Z.to_nat size) (rawCaptureBuffer d)
            (loop_order frames (captureChannels d)) 0 (captureBuffers d) ;
  Ok (set_captureBuffers d b).

Definition CopyPlaybackS16Le (d : Driver) : Z -> Result Driver :=
  copy_out CopyPlaybackS16Le_sample (playbackChannels d) d.
Definition CopyPlaybackS16Be (d : Driver) : Z -> Result Driver :=
  copy_out CopyPlaybackS16Be_sample (playbackChannels d) d.
Definition CopyPlaybackS32Le (d : Driver) : Z -> Result Driver :=
  copy_out CopyPlaybackS32Le_sample (playbackChannels d) d.
Definition CopyPlaybackS32Be (d : Driver) : Z -> Result Driver :=
  copy_out CopyPlaybackS32Be_sample (playbackChannels d) d.
Definition CopyPlaybackS24Le (d : Driver) : Z -> Result Driver :=
  copy_out CopyPlaybackS24Le_sample (playbackChannels d) d.
Definition CopyPlaybackS24Be (d : Driver) : Z -> Result Driver :=
  copy_out CopyPlaybackS24Be_sample (playbackChannels d) d.
Definition CopyPlaybackS24_3Le (d : Driver) : Z -> Result Driver :=
  copy_out CopyPlaybackS24_3Le_sample (playbackChannels d) d.
Definition CopyPlaybackS24_3Be (d : Driver) : Z -> Result Driver :=
  copy_out CopyPlaybackS24_3Be_sample (playbackChannels d) d.

(** The two float formats take [int channels = this->captureChannels]. *)
Definition CopyPlaybackFloatLe (d : Driver) : Z -> Result Driver :=
  copy_out CopyPlaybackFloatLe_sample (captureChannels d) d.
Definition CopyPlaybackFloatBe (d : Driver) : Z -> Result Driver :=
  copy_out CopyPlaybackFloatBe_sample (captureChannels d) d.

Definition CopyCaptureS16Le : Driver -> Z -> Result Driver :=
  copy_in CopyCaptureS16Le_sample 2.
Definition CopyCaptureS16Be : Driver -> Z -> Result Driver :=
  copy_in CopyCaptureS16Be_sample 2.
Definition CopyCaptureS32Le : Driver -> Z -> Result Driver :=
  copy_in CopyCaptureS32Le_sample 4.
Definition CopyCaptureS32Be : Driver -> Z -> Result Driver :=
  copy_in CopyCaptureS32Be_sample 4.
Definition CopyCaptureS24Le : Driver -> Z -> Result Driver :=
  copy_in CopyCaptureS24Le_sample 4.
Definition CopyCaptureS24Be : Driver -> Z -> Result Driver :=
  copy_in CopyCaptureS24Be_sample 4.
Definition CopyCaptureS24_3Le : Driver -> Z -> Result Driver :=
  copy_in CopyCaptureS24_3Le_sample 3.
Definition CopyCaptureS24_3Be : Driver -> Z -> Result Driver :=
  copy_in CopyCaptureS24_3Be_sample 3.
Definition CopyCaptureFloatLe : Driver -> Z -> Result Driver :=
  copy_in CopyCaptureFloatLe_sample 4.
Definition CopyCaptureFloatBe : Driver -> Z -> Result Driver :=
  copy_in CopyCaptureFloatBe_sample 4.

(** [copyOutputFn] and [copyInputFn] as the two [Prepare...Functions] set
    them. *)
Definition copyOutputFn (f : PcmFormat) : Driver -> Z -> Result Driver :=
  match f with
  | FLOAT_LE => CopyPlaybackFloatLe
  | S24_3LE => CopyPlaybackS24_3Le
  | S32_LE => CopyPlaybackS32Le
  | S24_LE => CopyPlaybackS24Le
  | S16_LE => CopyPlaybackS16Le
  | FLOAT_BE => CopyPlaybackFloatBe
  | S24_3BE => CopyPlaybackS24_3Be
  | S32_BE => CopyPlaybackS32Be
  | S24_BE => CopyPlaybackS24Be
  | S16_BE => CopyPlaybackS16Be
  end.

Definition copyInputFn (f : PcmFormat) : Driver -> Z -> Result Driver :=
  match f with
  | FLOAT_LE => CopyCaptureFloatLe
  | S24_3LE => CopyCaptureS24_3Le
  | S32_LE => CopyCaptureS32Le
  | S24_LE => CopyCaptureS24Le
  | S16_LE => CopyCaptureS16Le
  | FLOAT_BE => CopyCaptureFloatBe
  | S24_3BE => CopyCaptureS24_3Be
  | S32_BE => CopyCaptureS32Be
  | S24_BE => CopyCaptureS24Be
  | S16_BE => CopyCaptureS16Be
  end.

Definition set_rawCaptureBuffer (d : Driver) (raw : list Z) : Driver :=
  mkDriver (captureChannels d) (playbackChannels d) (captureBuffers d)
    (playbackBuffers d) raw (rawPlaybackBuffer d).

(** [memcpy(rawCaptureBuffer.data(), rawPlaybackBuffer.data(), n)] *)
Definition memcpy_playback_to_capture (d : Driver) (n : Z) : Result Driver :=
  if (n <=? Z.of_nat (length (rawPlaybackBuffer d)))
     && (n <=? Z.of_nat (length (rawCaptureBuffer d)))
  then Ok (set_rawCaptureBuffer d
             (take (Z.to_nat n) (rawPlaybackBuffer d)
              ++ drop (Z.to_nat n) (rawCaptureBuffer d)))
  else OutOfRange.

(** The round trip of [TestFormatEncodeDecode]: the playback function, the
    copy of the raw playback buffer over the raw capture buffer, the capture
    function. *)
Definition encode_decode (f : PcmFormat) (d : Driver) (frames : Z)
  : Result Driver :=
  do d1 <- copyOutputFn f d frames ;
  do d2 <- memcpy_playback_to_capture d1
             (sample_size f * captureChannels d1 * frames) ;
  copyInputFn f d2 frames.

(** The value of a float as a rational number; zero for what is not finite. *)
Definition Q_of_float (x : float) : Q :=
  match x with
  | S754_finite s m e => (inject_Z (cond_Zopp s (Zpos m)) * Qpower 2 e)%Q
  | _ => 0%Q
  end.

End Codec.

(** ** Moving periods to and from the device: ReadBuffer and WriteBuffer *)

Module Transfer.

Definition EAGAIN : Z := 11.

(** [size_t] and [snd_pcm_uframes_t] on the 64-bit target. *)
Definition uint64 (z : Z) : Z := z mod 18446744073709551616.

(** A call of [snd_pcm_writei] or [snd_pcm_readi]: where in the raw buffer
    it starts, in bytes, and how many frames it asks for. *)
Record Call : Type := mkCall {
  call_offset : Z;
  call_frames : Z
}.

(** How a loop over the device ended: with a value, or still running when
    the answers at hand were used up. *)
Inductive Ended : Type :=
| Returned (value : Z)
| Running.

(** [long WriteBuffer(snd_pcm_t *handle, uint8_t *buf, size_t frames)];
    [answers] is what [snd_pcm_writei] returns, call after call, and the
    result lists the calls made. *)
Fixpoint WriteBuffer (frame_bytes : Z) (answers : list Z) (buf frames : Z)
  : Ended * list Call :=
  if 0 <? frames then
    match answers with
    | [] => (Running, [])
    | framesRead :: rest =>
        let call := mkCall buf frames in
        if framesRead =? - EAGAIN then
          let '(r, calls) := WriteBuffer frame_bytes rest buf frames in
          (r, call :: calls)
        else if framesRead <? 0 then (Returned framesRead, [call])
        else
          let '(r, calls) :=
            WriteBuffer frame_bytes rest (buf + framesRead * frame_bytes)
              (uint64 (frames - framesRead)) in
          (r, call :: calls)
    end
  else (Returned 0, []).

(** [snd_pcm_sframes_t ReadBuffer(snd_pcm_t *handle, uint8_t *buffer,
    snd_pcm_uframes_t frames)]; a [do ... while], so the first call is made
    whatever [frames] is. The wait after an empty read has no result the
    loop looks at. *)
Fixpoint ReadBuffer (frame_bytes : Z) (answers : list Z) (buffer frames : Z)
  : Ended * list Call :=
  match answers with
  | [] => (Running, [])
  | framesRead :: rest =>
      let call := mkCall buffer frames in
      if framesRead <? 0 then (Returned framesRead, [call])
      else
        let buffer' :=
          if 0 <? framesRead then buffer + framesRead * frame_bytes
          else buffer in
        let frames' :=
          if 0 <? framesRead then uint64 (frames - framesRead) else frames in
        if 0 <? frames' then
          let '(r, calls) := ReadBuffer frame_bytes rest buffer' frames' in
          (r, call :: calls)
        else (Returned framesRead, [call])
  end.

End Transfer.

(** ** Port names and the channels of an activation *)

Module Ports.

(** What a function that can throw ends with. *)
Inductive Outcome (A : Type) : Type :=
| Returned (a : A)
| InvalidArgument
| AlreadyActivated
| UndefinedBehaviour.

Arguments Returned {A} a.
Arguments InvalidArgument {A}.
Arguments AlreadyActivated {A}.
Arguments UndefinedBehaviour {A}.

(** A [std::string] is the list of the codes of its characters. *)
Definition underscore : Z := 95.

(** [s.find_last_of(c)]; [None] is [std::string::npos]. *)
Fixpoint find_last_of (s : list Z) (c : Z) : option nat :=
  match s with
  | [] => None
  | a :: rest =>
      match find_last_of rest c with
      | Some pos => Some (S pos)
      | None => if a =? c then Some O else None
      end
  end.

Definition isspace (c : Z) : bool := (c =? 32) || ((9 <=? c) && (c <=? 13)).

Definition isdigit (c : Z) : bool := (48 <=? c) && (c <=? 57).

Fixpoint skip_spaces (s : list Z) : list Z :=
  match s with
  | c :: rest => if isspace c then skip_spaces rest else s
  | [] => []
  end.

(** The value of the digits at the start of [s], after the digits that gave
    [acc]. *)
Fixpoint digits_value (acc : Z) (s : list Z) : Z :=
  match s with
  | c :: rest => if isdigit c then digits_value (10 * acc + (c - 48)) rest
                 else acc
  | [] => acc
  end.

(** [atoi]: white space, an optional sign, decimal digits; the behaviour is
    undefined when the value is not an [int]. *)
Definition atoi (s : list Z) : option Z :=
  let s1 := skip_spaces s in
  let v :=
    match s1 with
    | 45 :: digits => - digits_value 0 digits
    | 43 :: digits => digits_value 0 digits
    | _ => digits_value 0 s1
    end in
  if (-2147483648 <=? v) && (v <=? 2147483647) then Some v else None.

(** [static int IndexFromPortName(const std::string &s)] *)
Definition IndexFromPortName (s : list Z) : Outcome Z :=
  match find_last_of s underscore with
  | None => InvalidArgument
  | Some pos =>
      match atoi (drop (S pos) s) with
      | None => UndefinedBehaviour
      | Some v => if v <? 0 then InvalidArgument else Returned v
      end
  end.

(** The characters [operator<<] writes for an unsigned number. *)
Fixpoint chars_of_uint (d : Decimal.uint) : list Z :=
  match d with
  | Decimal.Nil => []
  | Decimal.D0 d => 48 :: chars_of_uint d
  | Decimal.D1 d => 49 :: chars_of_uint d
  | Decimal.D2 d => 50 :: chars_of_uint d
  | Decimal.D3 d => 51 :: chars_of_uint d
  | Decimal.D4 d => 52 :: chars_of_uint d
  | Decimal.D5 d => 53 :: chars_of_uint d
  | Decimal.D6 d => 54 :: chars_of_uint d
  | Decimal.D7 d => 55 :: chars_of_uint d
  | Decimal.D8 d => 56 :: chars_of_uint d
  | Decimal.D9 d => 57 :: chars_of_uint d
  end.

Definition decimal (i : Z) : list Z := chars_of_uint (N.to_uint (Z.to_N i)).

(** [SS("system::capture_" << i)] and [SS("system::playback_" << i)], the
    names [GetAlsaChannels] gives the channels. *)
Definition capture_port (i : Z) : list Z :=
  [115; 121; 115; 116; 101; 109; 58; 58; 99; 97; 112; 116; 117; 114; 101; 95]
  ++ decimal i.

Definition playback_port (i : Z) : list Z :=
  [115; 121; 115; 116; 101; 109; 58; 58; 112; 108; 97; 121; 98; 97; 99; 107; 95]
  ++ decimal i.

(** [v.resize(n)] on a vector of pointers: the elements kept, null pointers
    added. A pointer to a channel buffer is the index of the channel. *)
Definition resize (n : nat) (v : list (option nat)) : list (option nat) :=
  take n v ++ replicate (n - length v) None.

(** One of the two loops of [Activate]: the ports of a selection, the
    number of channel buffers, the vector of active buffers and [ix]. The
    vector is returned as the loop leaves it, also when a name throws. *)
Fixpoint select_buffers (ports : list (list Z)) (size : Z)
    (active : list (option nat)) (ix : nat)
  : list (option nat) * Outcome unit :=
  match ports with
  | [] => (active, Returned tt)
  | x :: rest =>
      match IndexFromPortName x with
      | Returned sourceIndex =>
          if size <=? sourceIndex then select_buffers rest size active ix
          else
            if (ix <? length active)%nat
            then select_buffers rest size
                   (<[ix := Some (Z.to_nat sourceIndex)]> active) (S ix)
            else (active, UndefinedBehaviour)
      | InvalidArgument => (active, InvalidArgument)
      | AlreadyActivated => (active, AlreadyActivated)
      | UndefinedBehaviour => (active, UndefinedBehaviour)
      end
  end.

(** The members [Activate] and [Deactivate] use. *)
Record Activation : Type := mkActivation {
  activated : bool;
  captureSize : Z;
  playbackSize : Z;
  activeCaptureBuffers : list (option nat);
  activePlaybackBuffers : list (option nat);
  audioThread : bool
}.

(** [virtual void Activate()]: the state it leaves, also when it throws,
    and how it ends. *)
Definition Activate (inputs outputs : list (list Z)) (a : Activation)
  : Activation * Outcome unit :=
  if activated a then (a, AlreadyActivated)
  else
    let '(capture, r) :=
      select_buffers inputs (captureSize a)
        (resize (length inputs) (activeCaptureBuffers a)) 0 in
    match r with
    | Returned _ =>
        let '(playback, r') :=
          select_buffers outputs (playbackSize a)
            (resize (length outputs) (activePlaybackBuffers a)) 0 in
        (mkActivation true (captureSize a) (playbackSize a) capture playback
           (match r' with Returned _ => true | _ => audioThread a end), r')
    | _ =>
        (mkActivation true (captureSize a) (playbackSize a) capture
           (activePlaybackBuffers a) (audioThread a), r)
    end.

(** [virtual void Deactivate()] *)
Definition Deactivate (a : Activation) : Activation :=
  if activated a
  then mkActivation false (captureSize a) (playbackSize a)
         (activeCaptureBuffers a) (activePlaybackBuffers a) false
  else a.

End Ports.

(** ** The audio thread: filling the output and reading a period

    The answers of the sound library are given as lists, one answer for each
    call in the order the code makes them. [validate_capture_handle] has an
    empty body outside a [DEBUG] build and is left out. *)

Module Period.
Import Transfer.

Definition uint32 (z : Z) : Z := z mod 4294967296.

(** [ssize_t] on the 64-bit target. *)
Definition in_ssize (z : Z) : bool :=
  (-9223372036854775808 <=? z) && (z <=? 9223372036854775807).

(** What [FillOutputBuffer] does to the playback device, in order. *)
Inductive FillEvent : Type :=
| Prepared
| Wrote (frames : Z) (calls : list Call).

(** How [FillOutputBuffer] ends: it returns, throws one of its two
    exceptions, is still in its loop when the answers at hand are used up,
    or has left the raw buffer. *)
Inductive Fill : Type :=
| Filled
| TimedOut
| PlaybackFailed (err : Z)
| Filling
| OutsideBuffer.

(** The [while (true)] of [FillOutputBuffer]. [avails] is what
    [snd_pcm_avail] answers, call after call, [prepares] what
    [snd_pcm_prepare] answers, and [writes] holds, for each call of
    [WriteBuffer], the answers of [snd_pcm_writei]. *)
Fixpoint fill_loop (frame_bytes bufferSize : Z) (avails prepares : list Z)
    (writes : list (list Z)) (retry : Z) : Fill * list FillEvent :=
  match avails with
  | [] => (Filling, [])
  | avail :: avails' =>
      if avail <? 0 then
        if 5 <=? retry + 1 then (TimedOut, [])
        else
          match prepares with
          | [] => (Filling, [])
          | err :: prepares' =>
              if err <? 0 then (PlaybackFailed err, [Prepared])
              else
                let '(r, events) :=
                  fill_loop frame_bytes bufferSize avails' prepares' writes
                    (retry + 1) in
                (r, Prepared :: events)
          end
      else if avail =? 0 then (Filled, [])
      else
        let avail1 := if bufferSize <? avail then bufferSize else avail in
        match writes with
        | [] => (Filling, [])
        | w :: writes' =>
            match WriteBuffer frame_bytes w 0 (uint64 avail1) with
            | (Running, calls) => (Filling, [Wrote avail1 calls])
            | (Returned err, calls) =>
                if err <? 0
                then (PlaybackFailed err, [Wrote avail1 calls])
                else
                  let '(r, events) :=
                    fill_loop frame_bytes bufferSize avails' prepares writes'
                      retry in
                  (r, Wrote avail1 calls :: events)
            end
        end
  end.

(** [void FillOutputBuffer()]: the raw playback buffer it leaves, how it
    ends and what it did. *)
Definition FillOutputBuffer (frame_bytes bufferSize : Z) (raw : list Z)
    (avails prepares : list Z) (writes : list (list Z))
  : Fill * list Z * list FillEvent :=
  let n := Z.to_nat (uint32 (frame_bytes * bufferSize)) in
  if (n <=? length raw)%nat then
    let '(r, events) :=
      fill_loop frame_bytes bufferSize avails prepares writes 0 in
    (r, replicate n 0 ++ drop n raw, events)
  else (OutsideBuffer, raw, []).

(** One turn of the [while (framesToRead != 0)] of [AudioThread]: the frame
    handed to [ReadMidiData] and the calls [ReadBuffer] makes. *)
Record ReadStep : Type := mkStep {
  midi_frame : Z;
  step_calls : list Call
}.

(** How that loop ends: with [framesRead], with [xrun] set by a negative
    result of [ReadBuffer], still running, or with an [ssize_t] that cannot
    hold a sum. *)
Inductive PeriodEnd : Type :=
| PeriodRead (framesRead : Z)
| PeriodXrun (nFrames : Z)
| PeriodRunning
| PeriodOverflow.

(** [while (framesToRead != 0)] in [AudioThread]; [reads] holds, for each
    call of [ReadBuffer], the answers of [snd_pcm_readi]. *)
Fixpoint read_period (frame_bytes : Z) (reads : list (list Z))
    (framesToRead framesRead : Z) : PeriodEnd * list ReadStep :=
  if framesToRead =? 0 then (PeriodRead framesRead, [])
  else
    match reads with
    | [] => (PeriodRunning, [])
    | w :: rest =>
        match ReadBuffer frame_bytes w (frame_bytes * framesRead)
                (uint64 framesToRead) with
        | (Running, calls) =>
            (PeriodRunning, [mkStep (uint32 framesRead) calls])
        | (Returned nFrames, calls) =>
            let step := mkStep (uint32 framesRead) calls in
            if nFrames <? 0 then (PeriodXrun nFrames, [step])
            else if in_ssize (framesRead + nFrames)
                    && in_ssize (framesToRead - nFrames)
            then
              let '(r, steps) :=
                read_period frame_bytes rest (framesToRead - nFrames)
                  (framesRead + nFrames) in
              (r, step :: steps)
            else (PeriodOverflow, [step])
        end
    end.

(** What [AudioThread] does after the loop. *)
Inductive PeriodAction : Type :=
| Process (frames : Z)
| Recover (err : Z)
| NextPeriod
| InvalidRead
| KeepReading
| Undefined.

Definition after_read (bufferSize : Z) (r : PeriodEnd) : PeriodAction :=
  match r with
  | PeriodXrun err => Recover err
  | PeriodRead framesRead =>
      if framesRead =? 0 then NextPeriod
      else if negb (framesRead =? bufferSize) then InvalidRead
      else Process framesRead
  | PeriodRunning => KeepReading
  | PeriodOverflow => Undefined
  end.

Definition EPIPE : Z := 32.
Definition ESTRPIPE : Z := 86.

(** The answers of the device to the calls of
    [recover_from_input_underrun], and the answers [FillOutputBuffer] gets
    when it is called from there. *)
Record RecoveryDevice : Type := mkRecovery {
  drop_capture : Z;
  drop_playback : Z;
  prepare_playback : Z;
  prepare_capture : Z;
  fill_avails : list Z;
  fill_prepares : list Z;
  fill_writes : list (list Z);
  link : Z;
  start_capture : Z;
  resumes : list Z
}.

(** The calls [recover_from_input_underrun] makes. *)
Inductive RecoverCall : Type :=
| Unlink
| DropCapture
| DropPlayback
| PreparePlayback
| PrepareCapture
| FillOutput (events : list FillEvent)
| Link
| StartCapture
| Resume.

(** The exceptions that leave [recover_from_input_underrun]. *)
Inductive RecoverFailure : Type :=
| CantRecoverFromUnderrun (err : Z)
| CannotPreparePlayback (err : Z)
| CannotPrepareCapture (err : Z)
| FillTimedOut
| FillFailed (err : Z)
| CannotRelink (err : Z)
| CannotRestartCapture (err : Z)
| CantRecoverFromSuspend (err : Z)
| CantRestartAudio (err : Z).

Inductive Recovery : Type :=
| Recovered
| Threw (why : RecoverFailure)
| Recovering
| RecoveryOutsideBuffer.

(** [while ((err = snd_pcm_resume(capture_handle)) == -EAGAIN) sleep(1);]:
    the last answer, and the calls made. *)
Fixpoint resume_loop (answers : list Z) : option Z * list RecoverCall :=
  match answers with
  | [] => (None, [])
  | err :: rest =>
      if err =? - EAGAIN
      then let '(r, calls) := resume_loop rest in (r, Resume :: calls)
      else (Some err, [Resume])
  end.

(** [void recover_from_input_underrun(capture_handle, playback_handle,
    err)]: how it ends, the raw playback buffer and [audioRunning] as it
    leaves them, and the calls it made. *)
Definition recover_from_input_underrun (frame_bytes bufferSize : Z)
    (dev : RecoveryDevice) (raw : list Z) (audioRunning : bool) (err : Z)
  : Recovery * list Z * bool * list RecoverCall :=
  if err =? - EPIPE then
    if drop_capture dev <? 0
    then (Threw (CantRecoverFromUnderrun (drop_capture dev)), raw,
          audioRunning, [Unlink; DropCapture])
    else if drop_playback dev <? 0
    then (Threw (CantRecoverFromUnderrun (drop_playback dev)), raw,
          audioRunning, [Unlink; DropCapture; DropPlayback])
    else if prepare_playback dev <? 0
    then (Threw (CannotPreparePlayback (prepare_playback dev)), raw,
          audioRunning, [Unlink; DropCapture; DropPlayback; PreparePlayback])
    else if prepare_capture dev <? 0
    then (Threw (CannotPrepareCapture (prepare_capture dev)), raw,
          audioRunning,
          [Unlink; DropCapture; DropPlayback; PreparePlayback;
           PrepareCapture])
    else
      let '(r, raw', events) :=
        FillOutputBuffer frame_bytes bufferSize raw (fill_avails dev)
          (fill_prepares dev) (fill_writes dev) in
      let calls :=
        [Unlink; DropCapture; DropPlayback; PreparePlayback; PrepareCapture;
         FillOutput events] in
      match r with
      | TimedOut => (Threw FillTimedOut, raw', audioRunning, calls)
      | PlaybackFailed e => (Threw (FillFailed e), raw', audioRunning, calls)
      | Filling => (Recovering, raw', audioRunning, calls)
      | OutsideBuffer => (RecoveryOutsideBuffer, raw', audioRunning, calls)
      | Filled =>
          if link dev <? 0
          then (Threw (CannotRelink (link dev)), raw', audioRunning,
                calls ++ [Link])
          else if start_capture dev <? 0
          then (Threw (CannotRestartCapture (start_capture dev)), raw',
                audioRunning, calls ++ [Link; StartCapture])
          else (Recovered, raw', audioRunning, calls ++ [Link; StartCapture])
      end
  else if err =? ESTRPIPE then
    match resume_loop (resumes dev) with
    | (None, calls) => (Recovering, raw, false, calls)
    | (Some e, calls) =>
        if e <? 0 then
          if prepare_capture dev <? 0
          then (Threw (CantRecoverFromSuspend (prepare_capture dev)), raw,
                false, calls ++ [PrepareCapture])
          else (Recovered, raw, true, calls ++ [PrepareCapture])
        else (Recovered, raw, true, calls)
    end
  else (Threw (CantRestartAudio err), raw, audioRunning, []).

(** [int] on the target. *)
Definition int32 (z : Z) : Z := (z + 2147483648) mod 4294967296 - 2147483648.

(** The reading part of one turn of the [while (true)] of [AudioThread]:
    the read loop and, when [ReadBuffer] returned an error, the recovery.
    [recover_from_input_underrun] takes [int err], so the [ssize_t] result
    [nFrames] is narrowed to 32 bits on the way in. *)
Definition read_turn (frame_bytes playback_frame_bytes bufferSize : Z)
    (reads : list (list Z)) (dev : RecoveryDevice) (raw : list Z)
    (audioRunning : bool)
  : PeriodEnd * list ReadStep
    * option (Recovery * list Z * bool * list RecoverCall) :=
  let '(r, steps) := read_period frame_bytes reads bufferSize 0 in
  match r with
  | PeriodXrun nFrames =>
      (r, steps,
       Some (recover_from_input_underrun playback_frame_bytes bufferSize dev
               raw audioRunning (int32 nFrames)))
  | _ => (r, steps, None)
  end.

End Period.

(** ** UTF-8 to UTF-32: pipedal::ToUtf32 (src/PiPedalCommon/src/util.cpp) *)

Module Util.

Definition uint8 (z : Z) : Z := z mod 256.
Definition uint32 (z : Z) : Z := z mod 4294967296.

(** [static const uint8_t utf8extraBytes[256]]: 192 zeros, then 32 ones,
    16 twos, 8 threes, 4 fours and 4 fives. *)
Definition utf8extraBytes : list Z :=
  replicate 192 0 ++ replicate 32 1 ++ replicate 16 2 ++ replicate 8 3
  ++ replicate 4 4 ++ replicate 4 5.

Definition ILLEGAL_CHAR32 : Z := 8855.

Definition utf8Offset : list Z := [0; 192; 224; 240; 248; 252].

(** [std::char_traits<char32_t>::eof()], the one value of [char32_t] the
    stream does not take as a character. *)
Definition CHAR32_EOF : Z := 4294967295.

(** What [ToUtf32] ends with: the string; a read outside the string or a
    table; no end within the turns of the loop it was given; or the loop
    handed the stream [CHAR32_EOF]. What [result << c] does with that value
    (drop it, or store it and fail from then on) is decided inside the
    C++ stream library, not in this function: the model follows the run no
    further. *)
Inductive Decoded : Type :=
| Text (chars : list Z)
| ReadOutside
| OutOfFuel
| StreamEof.

Definition prepend (chars : list Z) (d : Decoded) : Decoded :=
  match d with
  | Text rest => Text (chars ++ rest)
  | ReadOutside => ReadOutside
  | OutOfFuel => OutOfFuel
  | StreamEof => StreamEof
  end.

(** [result << c], and then the run [d] of what follows it. *)
Definition put (c : Z) (d : Decoded) : Decoded :=
  if c =? CHAR32_EOF then StreamEof else prepend [c] d.

(** The inner [while (extraBytes != 0)] up to the [result << cResult] after
    it: the values it hands to [result <<], in order, and where [p] then
    stands; [None] when it reads or moves [p] past the end of the string. *)
Fixpoint continuation (extraBytes : nat) (cResult : Z) (p : list Z)
  : option (list Z * list Z) :=
  match extraBytes with
  | O => Some ([cResult], p)
  | S n =>
      match p with
      | [] => None
      | x :: p' =>
          let c := uint8 x in
          if (c <? 128) || (192 <=? c) then
            if (n <=? length p')%nat
            then Some ([ILLEGAL_CHAR32; cResult], drop n p')
            else None
          else continuation n (uint32 (cResult * 64 + Z.land c 63)) p'
      end
  end.

(** [while (p != end)], for at most [fuel] turns. *)
Fixpoint ToUtf32_loop (fuel : nat) (p : list Z) : Decoded :=
  match p with
  | [] => Text []
  | x :: p1 =>
      match fuel with
      | O => OutOfFuel
      | S fuel' =>
          let c := uint8 x in
          if c <? 128 then put c (ToUtf32_loop fuel' p1)
          else
            match utf8extraBytes !! Z.to_nat c with
            | None => ReadOutside
            | Some extraBytes =>
                if extraBytes =? 0
                then put ILLEGAL_CHAR32 (ToUtf32_loop fuel' p1)
                else if Z.of_nat (length p1) <? extraBytes
                then put ILLEGAL_CHAR32 (Text [])
                else
                  match utf8Offset !! Z.to_nat extraBytes with
                  | None => ReadOutside
                  | Some offset =>
                      match continuation (Z.to_nat extraBytes)
                              (uint8 (c - offset)) p1 with
                      | None => ReadOutside
                      | Some (values, p2) =>
                          fold_right put (ToUtf32_loop fuel' p2) values
                      end
                  end
            end
      end
  end.

(** [std::u32string ToUtf32(const std::string &s)]: every turn of the loop
    takes a byte, so as many turns as the string has bytes are enough. *)
Definition ToUtf32 (s : list Z) : Decoded := ToUtf32_loop (length s) s.

End Util.

(** ** The decoder on the byte streams of the specification *)

Section MidiDecoder.
Import Midi.

(** The state a run ends in, for runs that are evaluated. *)
Definition state_of (r : Result MidiState) : MidiState :=
  match r with Ok s => s | _ => Opened end.

(** System Realtime bytes leave the loop body through [continue]. *)
Lemma process_byte_realtime (st : MidiState) (b : Z) :
  248 <= b <= 255 -> process_byte st b = Ok (Next, st).
Proof.
  intros Hb. unfold process_byte.
  replace (128 <=? b) with true by (symmetry; apply Z.leb_le; lia).
  replace (240 <=? b) with true by (symmetry; apply Z.leb_le; lia).
  replace (b =? 240) with false by (symmetry; apply Z.eqb_neq; lia).
  replace (248 <=? b) with true by (symmetry; apply Z.leb_le; lia).
  reflexivity.
Qed.

Lemma ProcessInputBuffer_skip_realtime (b : Z) (pre post : list Z) :
  248 <= b <= 255 ->
  forall st, ProcessInputBuffer st (pre ++ b :: post)
             = ProcessInputBuffer st (pre ++ post).
Proof.
  intros Hb. induction pre as [|v pre IH]; intros st; simpl.
  - rewrite process_byte_realtime by exact Hb. reflexivity.
  - destruct (process_byte st v) as [[[|] st']| | | | |]; simpl; auto.
Qed.

(** C1: from a freshly opened decoder, the bytes 80 01 02 03 04 05 give the
    two events [80,01,02] and [80,03,04] and leave the data byte 05 held in
    the decoder (running status 80, one data byte accumulated); the bytes
    06 C0 01 02 fed next give three further events, [80,05,06], [C0,01] and
    [C0,02]. *)
Theorem running_status_two_feeds :
  exists s1 s2,
    ProcessInputBuffer (attach Opened 0) [128; 1; 2; 3; 4; 5] = Ok s1 /\
    events_from 0 s1 = [[128; 1; 2]; [128; 3; 4]] /\
    inputEventBufferIndex s1 = 2 /\
    runningStatus s1 = 128 /\ dataIndex s1 = 1 /\ data0 s1 = 5 /\
    ProcessInputBuffer s1 [6; 192; 1; 2] = Ok s2 /\
    events_from 2 s2 = [[128; 5; 6]; [192; 1]; [192; 2]] /\
    inputEventBufferIndex s2 = 5.
Proof.
  pose (s1 := state_of (ProcessInputBuffer (attach Opened 0) [128; 1; 2; 3; 4; 5])).
  exists s1, (state_of (ProcessInputBuffer s1 [6; 192; 1; 2])).
  subst s1.
  repeat (apply conj; [vm_compute; reflexivity|]).
  vm_compute; reflexivity.
Qed.

(** *** Invariants of the decoder and of the sink it writes to *)

Definition decoder_ok (st : MidiState) : Prop :=
  dataIndex st <= 2 /\
  0 < Z.of_nat (length (inputSysexBuffer st)) /\
  0 <= inputSysexBufferCount st <= Z.of_nat (length (inputSysexBuffer st)).

Definition sink_ok (st : MidiState) (events : list MidiEvent) : Prop :=
  pInputEventBuffer st = Some events /\
  0 <= inputEventBufferIndex st <= Z.of_nat (length events) /\
  Forall (fun e => length (buffer e) = Z.to_nat MAX_MIDI_EVENT_SIZE) events.

(** What a run may do to the sink: the cursor only advances, the slots it
    passed hold events of one to three bytes, every other slot is untouched. *)
Definition sink_grows (lo hi : Z) (events events' : list MidiEvent) : Prop :=
  length events' = length events /\
  lo <= hi /\
  (forall i e, lo <= Z.of_nat i < hi -> events' !! i = Some e ->
               1 <= size e <= MAX_MIDI_EVENT_SIZE) /\
  (forall i, ~ (lo <= Z.of_nat i < hi) -> events' !! i = events !! i).

Lemma sink_grows_refl (i : Z) (events : list MidiEvent) :
  sink_grows i i events events.
Proof.
  repeat split; intros; try lia.
Qed.

Lemma sink_grows_trans (a b c : Z) (e1 e2 e3 : list MidiEvent) :
  sink_grows a b e1 e2 -> sink_grows b c e2 e3 -> sink_grows a c e1 e3.
Proof.
  intros (L1 & O1 & S1 & U1) (L2 & O2 & S2 & U2).
  split; [congruence|]. split; [lia|]. split.
  - intros i e Hi He. destruct (Z_lt_dec (Z.of_nat i) b) as [Hlt|Hge].
    + apply (S1 i e); [lia|]. rewrite <- U2 by lia. exact He.
    + apply (S2 i e); [lia|exact He].
  - intros i Hi. rewrite U2 by lia. apply U1. lia.
Qed.

Lemma vec_set_ok {A : Type} (l : list A) (i : Z) (x : A) :
  0 <= i < Z.of_nat (length l) ->
  vec_set l i x = Ok (<[Z.to_nat i := x]> l).
Proof.
  intros Hi. unfold vec_set.
  replace (0 <=? i) with true by (symmetry; apply Z.leb_le; lia).
  replace (i <? Z.of_nat (length l)) with true by (symmetry; apply Z.ltb_lt; lia).
  reflexivity.
Qed.

(** [MidiPut] under the condition its caller tests first. *)
Lemma MidiPut_ok (st : MidiState) (events : list MidiEvent) (cc d0 d1 : Z) :
  sink_ok st events -> 0 <= dataLength st <= 2 ->
  exists idx' events',
    MidiPut st cc d0 d1
    = Ok (set_sink st (inputSampleFrame st) idx' (Some events')) /\
    0 <= idx' <= Z.of_nat (length events') /\
    Forall (fun e => length (buffer e) = Z.to_nat MAX_MIDI_EVENT_SIZE) events' /\
    sink_grows (inputEventBufferIndex st) idx' events events'.
Proof.
  intros (Hp & Hi & Hb) Hl.
  assert (Hsame : set_sink st (inputSampleFrame st) (inputEventBufferIndex st)
                    (Some events) = st)
    by (destruct st; unfold set_sink; simpl in *; rewrite Hp; reflexivity).
  unfold MidiPut. destruct (cc =? 0).
  { exists (inputEventBufferIndex st), events. rewrite Hsame.
    auto using sink_grows_refl. }
  rewrite Hp. destruct (Z.leb_spec (Z.of_nat (length events)) (inputEventBufferIndex st)) as [Hfull|Hroom].
  { exists (inputEventBufferIndex st), events. rewrite Hsame.
    auto using sink_grows_refl. }
  destruct (lookup_lt_is_Some_2 events (Z.to_nat (inputEventBufferIndex st)))
    as [event Hev]; [lia|].
  rewrite Hev.
  assert (Hlen : length (buffer event) = 3%nat).
  { rewrite Forall_lookup in Hb. apply (Hb _ _ Hev). }
  replace (dataLength st + 1 <=? MAX_MIDI_EVENT_SIZE) with true
    by (symmetry; apply Z.leb_le; unfold MAX_MIDI_EVENT_SIZE; lia).
  simpl negb. cbv iota.
  rewrite vec_set_ok by (rewrite Hlen; lia). simpl rbind.
  rewrite vec_set_ok by (rewrite length_insert, Hlen; lia). simpl rbind.
  rewrite vec_set_ok by (rewrite !length_insert, Hlen; lia). simpl rbind.
  eexists _, _. split; [reflexivity|].
  rewrite length_insert. split; [lia|]. split.
  - apply Forall_insert; [exact Hb|]. simpl. rewrite !length_insert. exact Hlen.
  - split; [apply length_insert|]. split; [lia|]. split.
    + intros i e Hrange He.
      assert (i = Z.to_nat (inputEventBufferIndex st)) by lia. subst i.
      rewrite list_lookup_insert_eq in He by lia.
      injection He as <-. simpl. unfold MAX_MIDI_EVENT_SIZE. lia.
    + intros i Hout. apply list_lookup_insert_ne. lia.
Qed.

Definition safe_step (st st' : MidiState) (events : list MidiEvent) : Prop :=
  exists events',
    decoder_ok st' /\ sink_ok st' events' /\
    sink_grows (inputEventBufferIndex st) (inputEventBufferIndex st')
      events events'.

Lemma emit_if_complete_ok (st m : MidiState) (events : list MidiEvent) :
  decoder_ok m -> sink_ok m events ->
  inputEventBufferIndex m = inputEventBufferIndex st ->
  exists fl st', emit_if_complete m = Ok (fl, st') /\ safe_step st st' events.
Proof.
  intros Hd Hs Hidx. unfold emit_if_complete.
  destruct ((dataIndex m =? dataLength m) && (0 <=? dataLength m)
            && negb (runningStatus m =? 0)) eqn:Hc.
  - apply andb_prop in Hc as [Hc _]. apply andb_prop in Hc as [He Hn].
    apply Z.eqb_eq in He. apply Z.leb_le in Hn.
    destruct Hd as (Hd1 & Hd2 & Hd3).
    destruct (MidiPut_ok m events (runningStatus m) (data0 m mod 256)
                (data1 m mod 256) Hs ltac:(lia))
      as (idx' & events' & Hput & Hi' & Hb' & Hg).
    rewrite Hput. simpl rbind. eexists _, _. split; [reflexivity|].
    exists events'. rewrite <- Hidx.
    split; [|split; [|exact Hg]].
    + destruct m; unfold decoder_ok; simpl in *. lia.
    + destruct m; unfold sink_ok; simpl in *. auto.
  - eexists _, _. split; [reflexivity|].
    exists events. rewrite <- Hidx. auto using sink_grows_refl.
Qed.

Lemma GetDataLength_le (v : Z) : GetDataLength v <= 2.
Proof.
  unfold GetDataLength.
  generalize (Z.to_nat (Z.shiftr v 4)). intros n.
  do 16 (destruct n as [|n]; [simpl; lia|]). destruct n; simpl; lia.
Qed.

Ltac decoder_fields st :=
  destruct st; unfold decoder_ok, sink_ok, FlushSysex in *; simpl in *;
  rewrite ?length_insert; auto; try lia.

(** One iteration of the loop keeps the invariants, whatever the byte. *)
Lemma process_byte_ok (st : MidiState) (events : list MidiEvent) (v : Z) :
  decoder_ok st -> sink_ok st events ->
  exists fl st', process_byte st v = Ok (fl, st') /\ safe_step st st' events.
Proof.
  intros Hd Hs. unfold process_byte.
  destruct (128 <=? v).
  - destruct (240 <=? v).
    + destruct (v =? 240).
      * rewrite vec_set_ok by (decoder_fields st).
        simpl rbind. apply emit_if_complete_ok; decoder_fields st.
      * destruct (248 <=? v).
        { eexists _, _. split; [reflexivity|]. exists events.
          auto using sink_grows_refl. }
        destruct (GetSystemCommonLength v =? -1).
        { eexists _, _. split; [reflexivity|]. exists events.
          split; [|split]; [decoder_fields st..|].
          destruct st; simpl. apply sink_grows_refl. }
        apply emit_if_complete_ok; decoder_fields st.
    + destruct (GetDataLength v =? -1);
        apply emit_if_complete_ok; decoder_fields st.
  - destruct (inputProcessingSysex st) eqn:Hx.
    + destruct (Z.eqb_spec (inputSysexBufferCount st)
                  (Z.of_nat (length (inputSysexBuffer st)))) as [Heq|Hne];
        simpl negb; cbv iota.
      * apply emit_if_complete_ok; auto.
      * rewrite vec_set_ok by (decoder_fields st).
        simpl rbind. apply emit_if_complete_ok; decoder_fields st.
    + destruct (dataIndex st =? 0);
        [apply emit_if_complete_ok; decoder_fields st|].
      destruct (dataIndex st =? 1);
        apply emit_if_complete_ok; decoder_fields st.
Qed.

(** A whole buffer keeps the invariants and never aborts. *)
Lemma ProcessInputBuffer_ok (readBuffer : list Z) :
  forall (st : MidiState) (events : list MidiEvent),
    decoder_ok st -> sink_ok st events ->
    exists st', ProcessInputBuffer st readBuffer = Ok st' /\
                safe_step st st' events.
Proof.
  induction readBuffer as [|v rest IH]; intros st events Hd Hs; simpl.
  - exists st. split; [reflexivity|]. exists events.
    auto using sink_grows_refl.
  - destruct (process_byte_ok st events v Hd Hs)
      as (fl & st1 & Hstep & events1 & Hd1 & Hs1 & Hg1).
    rewrite Hstep. simpl rbind. destruct fl.
    + destruct (IH st1 events1 Hd1 Hs1) as (st2 & Hrun & events2 & Hd2 & Hs2 & Hg2).
      exists st2. split; [exact Hrun|]. exists events2.
      eauto using sink_grows_trans.
    + exists st1. split; [reflexivity|]. exists events1. auto.
Qed.

Lemma attach_ok (sampleFrame : Z) :
  decoder_ok (attach Opened sampleFrame) /\
  sink_ok (attach Opened sampleFrame) midiEvents_init.
Proof.
  unfold decoder_ok, sink_ok, attach, Opened, set_sink.
  cbn [dataIndex inputSysexBuffer inputSysexBufferCount pInputEventBuffer
       inputEventBufferIndex].
  unfold midiEvents_init. rewrite !length_replicate.
  repeat (apply conj; [first [reflexivity | vm_compute; intuition congruence]|]).
  apply Forall_replicate. apply length_replicate.
Qed.

Lemma sink_grows_full (lo hi : Z) (events events' : list MidiEvent) :
  sink_grows lo hi events events' ->
  hi <= Z.of_nat (length events') -> lo = Z.of_nat (length events) ->
  events' = events /\ hi = lo.
Proof.
  intros (Hl & Ho & _ & Hu) Hhi Hlo. rewrite Hl in Hhi.
  split; [|lia]. apply list_eq. intros i.
  destruct (decide (i < length events)%nat) as [Hi|Hi].
  - apply Hu. lia.
  - rewrite !lookup_ge_None_2 by lia. reflexivity.
Qed.

Definition delivers_bytes (r : RawMidiRead) : Prop :=
  match r with ReadBytes _ => True | ReadFailed _ => False end.

Lemma FillInputBuffer_ok (reads : list RawMidiRead) :
  Forall delivers_bytes reads ->
  forall (st : MidiState) (events : list MidiEvent),
    decoder_ok st -> sink_ok st events ->
    exists st', FillInputBuffer st reads = Ok st' /\ safe_step st st' events.
Proof.
  induction 1 as [|r reads Hr _ IH]; intros st events Hd Hs; simpl.
  - exists st. split; [reflexivity|]. exists events.
    auto using sink_grows_refl.
  - destruct r as [bytes|code]; [|destruct Hr].
    destruct (ProcessInputBuffer_ok bytes st events Hd Hs)
      as (st1 & Hrun & events1 & Hd1 & Hs1 & Hg1).
    rewrite Hrun. simpl rbind.
    destruct (IH st1 events1 Hd1 Hs1) as (st2 & Hfill & events2 & Hd2 & Hs2 & Hg2).
    exists st2. split; [exact Hfill|]. exists events2.
    eauto using sink_grows_trans.
Qed.

Definition buffers_ok (events : list MidiEvent) : Prop :=
  Forall (fun e => length (buffer e) = Z.to_nat MAX_MIDI_EVENT_SIZE) events.

Lemma ReadMidiEvents_ok (st : MidiState) (outputBuffer : list MidiEvent)
    (startIndex sampleFrame : Z) (reads : list RawMidiRead) :
  decoder_ok st -> Forall delivers_bytes reads ->
  buffers_ok outputBuffer ->
  0 <= startIndex <= Z.of_nat (length outputBuffer) ->
  exists st' events' nRead,
    ReadMidiEvents st outputBuffer startIndex sampleFrame reads
    = Ok (st', events', nRead) /\
    decoder_ok st' /\ buffers_ok events' /\
    startIndex + nRead <= Z.of_nat (length events') /\
    sink_grows startIndex (startIndex + nRead) outputBuffer events'.
Proof.
  intros Hd Hr Hb Hi. unfold ReadMidiEvents.
  set (st1 := set_sink st sampleFrame startIndex (Some outputBuffer)).
  assert (Hd1 : decoder_ok st1) by (destruct st; exact Hd).
  assert (Hs1 : sink_ok st1 outputBuffer)
    by (destruct st; unfold sink_ok; simpl; auto).
  destruct (FillInputBuffer_ok reads Hr st1 outputBuffer Hd1 Hs1)
    as (st2 & Hfill & events2 & Hd2 & (Hp2 & Hi2 & Hb2) & Hg2).
  rewrite Hfill. simpl rbind. rewrite Hp2.
  eexists _, _, _. split; [reflexivity|].
  replace (startIndex + (inputEventBufferIndex st2 - startIndex))
    with (inputEventBufferIndex st2) by lia.
  split; [destruct st2; exact Hd2|]. split; [exact Hb2|]. split; [lia|].
  replace startIndex with (inputEventBufferIndex st1) at 1
    by (destruct st; reflexivity).
  exact Hg2.
Qed.

(** C9: during one period [ReadMidiData] drains every endpoint into the one
    event vector. Started with the counter inside the vector, it never aborts
    (no assertion fails, no index leaves a vector or a three-byte event
    buffer), the counter it returns is still inside the vector, the slots
    between the old and the new counter hold events of one to three bytes, and
    no other slot changes; with the vector already full, the events that
    arrive are dropped and vector and counter stay as they were. *)
Theorem midi_event_buffer_never_overflows
    (midiDevices : list (MidiState * list RawMidiRead))
    (midiEvents : list MidiEvent) (midiEventCount audioFrame : Z) :
  Forall (fun d => decoder_ok (fst d) /\ Forall delivers_bytes (snd d))
    midiDevices ->
  buffers_ok midiEvents ->
  0 <= midiEventCount <= Z.of_nat (length midiEvents) ->
  exists devices' midiEvents' midiEventCount',
    ReadMidiData midiDevices midiEvents midiEventCount audioFrame
    = Ok (devices', midiEvents', midiEventCount') /\
    Forall decoder_ok devices' /\ buffers_ok midiEvents' /\
    midiEventCount <= midiEventCount' <= Z.of_nat (length midiEvents) /\
    length midiEvents' = length midiEvents /\
    (forall i e, midiEventCount <= Z.of_nat i < midiEventCount' ->
                 midiEvents' !! i = Some e ->
                 1 <= size e <= MAX_MIDI_EVENT_SIZE /\
                 length (buffer e) = Z.to_nat MAX_MIDI_EVENT_SIZE) /\
    (forall i, ~ (midiEventCount <= Z.of_nat i < midiEventCount') ->
               midiEvents' !! i = midiEvents !! i) /\
    (midiEventCount = Z.of_nat (length midiEvents) ->
     midiEvents' = midiEvents /\ midiEventCount' = midiEventCount).
Proof.
  intros Hdev Hb Hc.
  assert (Hmain : exists devices' midiEvents' midiEventCount',
    ReadMidiData midiDevices midiEvents midiEventCount audioFrame
    = Ok (devices', midiEvents', midiEventCount') /\
    Forall decoder_ok devices' /\ buffers_ok midiEvents' /\
    midiEventCount' <= Z.of_nat (length midiEvents') /\
    sink_grows midiEventCount midiEventCount' midiEvents midiEvents').
  { revert midiEvents midiEventCount Hb Hc.
    induction Hdev as [|[dev reads] rest [Hd Hr] _ IH];
      intros midiEvents midiEventCount Hb Hc; simpl.
    - exists [], midiEvents, midiEventCount.
      split; [reflexivity|]. split; [constructor|]. split; [exact Hb|].
      split; [lia|]. apply sink_grows_refl.
    - simpl in Hd, Hr.
      destruct (ReadMidiEvents_ok dev midiEvents midiEventCount audioFrame
                  reads Hd Hr Hb Hc)
        as (dev' & events1 & nRead & Hread & Hd' & Hb1 & Hi1 & Hg1).
      rewrite Hread. simpl rbind.
      destruct (IH events1 (midiEventCount + nRead) Hb1) as
        (devs' & events2 & count2 & Hrest & Hds & Hb2 & Hi2 & Hg2).
      { destruct Hg1 as (_ & Ho & _). lia. }
      rewrite Hrest. simpl rbind.
      eexists _, _, _. split; [reflexivity|].
      split; [constructor; assumption|]. split; [exact Hb2|].
      split; [exact Hi2|]. eauto using sink_grows_trans. }
  destruct Hmain as (devices' & midiEvents' & count' & Hrun & Hds & Hb' & Hi' & Hg).
  exists devices', midiEvents', count'.
  pose proof Hg as (Hl & Ho & Hsz & Hu).
  split; [exact Hrun|]. split; [exact Hds|]. split; [exact Hb'|].
  split; [lia|]. split; [exact Hl|]. split.
  - intros i e Hi He. split; [eauto|].
    unfold buffers_ok in Hb'. rewrite Forall_lookup in Hb'. eauto.
  - split; [exact Hu|]. intros Hfull.
    eapply sink_grows_full; eauto.
Qed.

Lemma midi_event_buffer_never_overflows_witness :
  exists devices' midiEvents' midiEventCount',
    ReadMidiData [(Opened, [ReadBytes [144; 60; 127]])] midiEvents_init 0 0
    = Ok (devices', midiEvents', midiEventCount') /\
    Forall decoder_ok devices' /\ buffers_ok midiEvents' /\
    0 <= midiEventCount' <= Z.of_nat (length midiEvents_init) /\
    length midiEvents' = length midiEvents_init /\
    (forall i e, 0 <= Z.of_nat i < midiEventCount' ->
                 midiEvents' !! i = Some e ->
                 1 <= size e <= MAX_MIDI_EVENT_SIZE /\
                 length (buffer e) = Z.to_nat MAX_MIDI_EVENT_SIZE) /\
    (forall i, ~ (0 <= Z.of_nat i < midiEventCount') ->
               midiEvents' !! i = midiEvents_init !! i) /\
    (0 = Z.of_nat (length midiEvents_init) ->
     midiEvents' = midiEvents_init /\ midiEventCount' = 0).
Proof.
  apply (midi_event_buffer_never_overflows
           [(Opened, [ReadBytes [144; 60; 127]])] midiEvents_init 0 0).
  - constructor; [|constructor]. split.
    + apply (attach_ok 0).
    + constructor; [exact I|constructor].
  - apply (attach_ok 0).
  - unfold midiEvents_init. rewrite length_replicate. vm_compute.
    intuition congruence.
Defined.

(** C3 (the code at the failing input): [GetSystemCommonLength] indexes its
    table with [(cc >> 4) & 7], which is 7 for every byte F1..F7, so the
    length it returns is always 0; the bytes F2 10 20 give the one-byte event
    [F2] at the status byte and the two data bytes complete nothing. *)
Theorem system_common_length_is_zero :
  Forall (fun v => GetSystemCommonLength v = 0)
    [241; 242; 243; 244; 245; 246; 247] /\
  exists s,
    ProcessInputBuffer (attach Opened 0) [242; 16; 32] = Ok s /\
    events_from 0 s = [[242]] /\
    dataLength s = 0 /\ dataIndex s = 2.
Proof.
  split.
  - repeat (constructor; [vm_compute; reflexivity|]). constructor.
  - exists (state_of (ProcessInputBuffer (attach Opened 0) [242; 16; 32])).
    repeat (apply conj; [vm_compute; reflexivity|]).
    vm_compute; reflexivity.
Qed.

(** C4: a System Realtime byte (F8..FF) leaves the loop body with the
    decoder and its sink exactly as they were, so it can be deleted from any
    position of a stream without changing the result; the bytes
    90 F8 3C FA 7F give the single event [90,3C,7F]. *)
Theorem realtime_bytes_are_transparent (st : MidiState) (b : Z)
    (pre post : list Z) :
  248 <= b <= 255 ->
  process_byte st b = Ok (Next, st) /\
  ProcessInputBuffer st (pre ++ b :: post) = ProcessInputBuffer st (pre ++ post) /\
  exists s,
    ProcessInputBuffer (attach Opened 0) [144; 248; 60; 250; 127] = Ok s /\
    events_from 0 s = [[144; 60; 127]] /\
    inputEventBufferIndex s = 1.
Proof.
  intros Hb. split; [apply process_byte_realtime; exact Hb|].
  split; [apply ProcessInputBuffer_skip_realtime; exact Hb|].
  exists (state_of (ProcessInputBuffer (attach Opened 0) [144; 248; 60; 250; 127])).
  repeat (apply conj; [vm_compute; reflexivity|]).
  vm_compute; reflexivity.
Qed.

Lemma realtime_bytes_are_transparent_witness :
  process_byte (attach Opened 0) 248 = Ok (Next, attach Opened 0) /\
  ProcessInputBuffer (attach Opened 0) ([144] ++ 248 :: [60; 127])
  = ProcessInputBuffer (attach Opened 0) ([144] ++ [60; 127]) /\
  exists s,
    ProcessInputBuffer (attach Opened 0) [144; 248; 60; 250; 127] = Ok s /\
    events_from 0 s = [[144; 60; 127]] /\
    inputEventBufferIndex s = 1.
Proof.
  apply (realtime_bytes_are_transparent (attach Opened 0) 248 [144] [60; 127]).
  lia.
Defined.

(** *** System Exclusive *)

Definition in_sysex (st : MidiState) : Prop :=
  inputProcessingSysex st = true /\ runningStatus st = 0 /\
  0 <= inputSysexBufferCount st <= Z.of_nat (length (inputSysexBuffer st)).

Definition same_sink (st st' : MidiState) : Prop :=
  pInputEventBuffer st' = pInputEventBuffer st /\
  inputEventBufferIndex st' = inputEventBufferIndex st.

Lemma emit_if_complete_no_status (st : MidiState) :
  runningStatus st = 0 -> emit_if_complete st = Ok (Next, st).
Proof.
  intros H. unfold emit_if_complete. rewrite H.
  rewrite andb_false_r. reflexivity.
Qed.

Lemma process_byte_sysex_begin (st : MidiState) :
  0 < Z.of_nat (length (inputSysexBuffer st)) ->
  exists st', process_byte st 240 = Ok (Next, st') /\
              in_sysex st' /\ same_sink st st'.
Proof.
  intros Hlen. unfold process_byte. simpl (128 <=? 240).
  simpl (240 <=? 240). simpl (240 =? 240). cbv iota.
  rewrite vec_set_ok by (destruct st; simpl in *; lia). simpl rbind.
  rewrite emit_if_complete_no_status by reflexivity.
  eexists. split; [reflexivity|].
  destruct st; unfold in_sysex, same_sink; simpl in *.
  rewrite length_insert. repeat split; lia.
Qed.

Lemma process_byte_sysex_data (st : MidiState) (v : Z) :
  in_sysex st -> 0 <= v < 128 ->
  exists st', process_byte st v = Ok (Next, st') /\
              in_sysex st' /\ same_sink st st'.
Proof.
  intros (Hx & Hr & Hc) Hv. unfold process_byte.
  replace (128 <=? v) with false by (symmetry; apply Z.leb_gt; lia).
  rewrite Hx.
  destruct (Z.eqb_spec (inputSysexBufferCount st)
              (Z.of_nat (length (inputSysexBuffer st)))) as [Heq|Hne];
    simpl negb; cbv iota.
  - rewrite emit_if_complete_no_status by exact Hr.
    exists st. unfold in_sysex, same_sink. auto.
  - rewrite vec_set_ok by lia. simpl rbind.
    rewrite emit_if_complete_no_status by (destruct st; exact Hr).
    eexists. split; [reflexivity|].
    destruct st; unfold in_sysex, same_sink; simpl in *.
    rewrite length_insert. repeat split; auto; lia.
Qed.

Lemma ProcessInputBuffer_sysex_data (payload : list Z) :
  Forall (fun v => 0 <= v < 128) payload ->
  forall st, in_sysex st ->
    exists st', ProcessInputBuffer st payload = Ok st' /\
                in_sysex st' /\ same_sink st st'.
Proof.
  induction 1 as [|v payload Hv _ IH]; intros st Hx; simpl.
  - exists st. unfold same_sink. auto.
  - destruct (process_byte_sysex_data st v Hx Hv) as (st1 & Hstep & Hx1 & Hs1 & Hi1).
    rewrite Hstep. simpl rbind.
    destruct (IH st1 Hx1) as (st2 & Hrun & Hx2 & Hs2 & Hi2).
    exists st2. split; [exact Hrun|]. split; [exact Hx2|].
    split; congruence.
Qed.

(** C5, as the code has it: the bytes of a System Exclusive message, from
    F0 through its data bytes, in one buffer or continued in the next, store
    no event and leave the sink as it was; the status that ends the message
    is handled as any System Common status, so that F0 76 3B followed by
    77 F7 90 40 50 gives two events, the one-byte [F7] and [90,40,50]. *)
Theorem sysex_payload_is_dropped (st : MidiState) (first second : list Z) :
  0 < Z.of_nat (length (inputSysexBuffer st)) ->
  Forall (fun v => 0 <= v < 128) first ->
  Forall (fun v => 0 <= v < 128) second ->
  (exists s1 s2,
     ProcessInputBuffer st (240 :: first) = Ok s1 /\
     inputProcessingSysex s1 = true /\ same_sink st s1 /\
     ProcessInputBuffer s1 second = Ok s2 /\
     inputProcessingSysex s2 = true /\ same_sink st s2) /\
  (exists s1 s2,
     ProcessInputBuffer (attach Opened 0) [240; 118; 59] = Ok s1 /\
     events_from 0 s1 = [] /\
     ProcessInputBuffer s1 [119; 247; 144; 64; 80] = Ok s2 /\
     events_from 0 s2 = [[247]; [144; 64; 80]]).
Proof.
  intros Hlen Hf Hs. split.
  - destruct (process_byte_sysex_begin st Hlen) as (s0 & Hstep & Hx0 & Hp0 & Hi0).
    destruct (ProcessInputBuffer_sysex_data first Hf s0 Hx0)
      as (s1 & Hrun1 & Hx1 & Hp1 & Hi1).
    destruct (ProcessInputBuffer_sysex_data second Hs s1 Hx1)
      as (s2 & Hrun2 & Hx2 & Hp2 & Hi2).
    exists s1, s2. simpl. rewrite Hstep. simpl rbind.
    destruct Hx1 as (Hx1 & _), Hx2 as (Hx2 & _).
    split; [exact Hrun1|]. split; [exact Hx1|].
    split; [split; congruence|]. split; [exact Hrun2|].
    split; [exact Hx2|]. split; congruence.
  - pose (s1 := state_of (ProcessInputBuffer (attach Opened 0) [240; 118; 59])).
    exists s1, (state_of (ProcessInputBuffer s1 [119; 247; 144; 64; 80])).
    subst s1.
    repeat (apply conj; [vm_compute; reflexivity|]).
    vm_compute; reflexivity.
Qed.

Lemma sysex_payload_is_dropped_witness :
  (exists s1 s2,
     ProcessInputBuffer (attach Opened 0) (240 :: [118; 59]) = Ok s1 /\
     inputProcessingSysex s1 = true /\ same_sink (attach Opened 0) s1 /\
     ProcessInputBuffer s1 [119] = Ok s2 /\
     inputProcessingSysex s2 = true /\ same_sink (attach Opened 0) s2) /\
  (exists s1 s2,
     ProcessInputBuffer (attach Opened 0) [240; 118; 59] = Ok s1 /\
     events_from 0 s1 = [] /\
     ProcessInputBuffer s1 [119; 247; 144; 64; 80] = Ok s2 /\
     events_from 0 s2 = [[247]; [144; 64; 80]]).
Proof.
  apply (sysex_payload_is_dropped (attach Opened 0) [118; 59] [119]).
  - vm_compute. reflexivity.
  - repeat (constructor; [lia|]). constructor.
  - repeat (constructor; [lia|]). constructor.
Defined.

(** C5, as the specification words it, fails: the two feeds do not leave
    [90,40,50] as the only event. *)
Lemma sysex_split_single_event_counterexample :
  ~ exists s1 s2,
      ProcessInputBuffer (attach Opened 0) [240; 118; 59] = Ok s1 /\
      ProcessInputBuffer s1 [119; 247; 144; 64; 80] = Ok s2 /\
      events_from 0 s2 = [[144; 64; 80]].
Proof.
  intros (s1 & s2 & H1 & H2 & H3).
  assert (E1 : s1 = state_of (ProcessInputBuffer (attach Opened 0) [240; 118; 59]))
    by (rewrite H1; reflexivity).
  assert (E2 : s2 = state_of (ProcessInputBuffer s1 [119; 247; 144; 64; 80]))
    by (rewrite H2; reflexivity).
  clear H1 H2. rewrite E2, E1 in H3. clear E1 E2.
  vm_compute in H3. discriminate H3.
Qed.

End MidiDecoder.

(** *** Stream configuration *)

Section StreamConfiguration.
Import Config.

(** A device that accepts every request and answers [periods] to
    [snd_pcm_hw_params_set_periods_near]. *)
Definition obliging_device (periods : Z) : AlsaPcm :=
  mkPcm 0 0 (fun _ => 0) (fun _ => 0) (fun rate => (0, rate)) (0, 2) (0, 1)
    (fun _ => 0) (fun _ => 0) (fun frames => (0, frames)) (fun p => p)
    (fun _ => (0, periods)) 0 (fun _ => 0) (fun _ => 0) (fun _ => 0)
    (fun _ => 0) 0 0.

Definition requested : StreamConfig := mkConfig 48000 64 3 0 0 None.

(** C8: when [snd_pcm_hw_params_set_periods_near] leaves fewer periods than
    [numberOfBuffers], [AlsaConfigureStream] ends in [AlsaError]; and when it
    returns normally the periods it leaves are the negotiated ones and are at
    least [numberOfBuffers], which it does not change. *)
Theorem smaller_periods_are_rejected (native_big soft_mode is_capture : bool)
    (dev : AlsaPcm) (c : StreamConfig) :
  (negotiated_periods dev (numberOfBuffers c) < numberOfBuffers c ->
   failed (AlsaConfigureStream native_big soft_mode is_capture dev c)) /\
  (forall c',
     AlsaConfigureStream native_big soft_mode is_capture dev c = Configured c' ->
     numberOfBuffers c' = numberOfBuffers c /\
     periods c' = negotiated_periods dev (numberOfBuffers c) /\
     numberOfBuffers c <= periods c').
Proof.
  unfold AlsaConfigureStream, negotiated_periods.
  destruct (hw_set_periods_near dev (requested_periods dev (numberOfBuffers c)))
    as [err periods'] eqn:Hnear. simpl snd.
  split.
  - intros Hsmall.
    repeat match goal with
           | |- failed (Failed _) => exact I
           | |- failed (if ?b then _ else _) => destruct b eqn:?
           | |- failed (match ?x with _ => _ end) => destruct x eqn:?
           | H : (periods' <? numberOfBuffers c) = false |- _ =>
               apply Z.ltb_ge in H; lia
           end.
  - intros c'.
    repeat match goal with
           | |- Failed _ = Configured _ -> _ => intros H; discriminate H
           | |- (if ?b then _ else _) = Configured _ -> _ => destruct b eqn:?
           | |- (match ?x with _ => _ end) = Configured _ -> _ => destruct x eqn:?
           end.
    intros H. injection H as <-. simpl.
    match goal with
    | H : (periods' <? numberOfBuffers c) = false |- _ => apply Z.ltb_ge in H
    end.
    auto.
Qed.

Lemma smaller_periods_are_rejected_witness :
  failed (AlsaConfigureStream false false true (obliging_device 2) requested) /\
  (numberOfBuffers requested = 3 /\
   4 = negotiated_periods (obliging_device 4) (numberOfBuffers requested) /\
   numberOfBuffers requested <= 4).
Proof.
  split.
  - apply (proj1 (smaller_periods_are_rejected false false true
                    (obliging_device 2) requested)).
    vm_compute. reflexivity.
  - apply (proj2 (smaller_periods_are_rejected false false true
                    (obliging_device 4) requested)
             (mkConfig 48000 64 3 2 4 (Some FLOAT_LE))).
    vm_compute. reflexivity.
Defined.

End StreamConfiguration.

(** ** The sample codecs *)

Section SampleCodecs.
Import Codec.

Lemma int32_small (z : Z) : -2147483648 <= z < 2147483648 -> int32 z = z.
Proof.
  intros H. unfold int32. rewrite Z.mod_small by lia. lia.
Qed.

Lemma int32_range (z : Z) : -2147483648 <= int32 z < 2147483648.
Proof.
  unfold int32. pose proof (Z.mod_pos_bound (z + 2147483648) 4294967296). lia.
Qed.

(** The reading of the packed 24-bit expression the specification gives:
    bitwise or throughout. *)
Definition s24_3_bitor (p0 p1 p2 : Z) : Z :=
  Z.lor (Z.lor (int32 (Z.shiftl p0 8)) (int32 (Z.shiftl p1 16)))
    (int32 (Z.shiftl p2 24)).

Lemma shifted_bytes_disjoint (p0 p1 : Z) :
  0 <= p0 < 256 -> Z.land (Z.shiftl p0 8) (Z.shiftl p1 16) = 0.
Proof.
  intros H0. rewrite <- (Z.mod_small p0 (2 ^ 8)) by (change (2 ^ 8) with 256; lia).
  Z.bitblast. rewrite (Z.testbit_neg_r p1) by lia. apply andb_false_r.
Qed.

(** C6: for bytes [p0], [p1], [p2] the expression of the source,
    [((p0 << 8) + (p1 << 16)) | (p2 << 24)] in 32-bit arithmetic, has the
    value of the pure bitwise-or form of the specification, and the sample
    [CopyCaptureS24_3Le] decodes from the three bytes is the same under both
    readings. *)
Theorem s24_3_sum_is_bitor (p0 p1 p2 : Z) :
  is_byte p0 -> is_byte p1 -> is_byte p2 ->
  s24_3_value p0 p1 p2 = s24_3_bitor p0 p1 p2 /\
  CopyCaptureS24_3Le_sample [p0; p1; p2]
  = fmul capture_scale32 (float_of_int (s24_3_bitor p0 p1 p2)).
Proof.
  unfold is_byte. intros H0 H1 H2.
  assert (E : s24_3_value p0 p1 p2 = s24_3_bitor p0 p1 p2).
  { unfold s24_3_value, s24_3_bitor.
    rewrite !Z.shiftl_mul_pow2 by lia.
    rewrite (int32_small (p0 * 2 ^ 8)) by lia.
    rewrite (int32_small (p1 * 2 ^ 16)) by lia.
    rewrite (int32_small (p0 * 2 ^ 8 + p1 * 2 ^ 16)) by lia.
    f_equal. rewrite <- !Z.shiftl_mul_pow2 by lia.
    symmetry. apply Z.or_to_plus. apply shifted_bytes_disjoint. exact H0. }
  split; [exact E|]. unfold CopyCaptureS24_3Le_sample. rewrite E. reflexivity.
Qed.

Lemma s24_3_sum_is_bitor_witness :
  s24_3_value 255 255 255 = s24_3_bitor 255 255 255 /\
  CopyCaptureS24_3Le_sample [255; 255; 255]
  = fmul capture_scale32 (float_of_int (s24_3_bitor 255 255 255)).
Proof.
  apply (s24_3_sum_is_bitor 255 255 255); unfold is_byte; lia.
Defined.

End SampleCodecs.

(** ** The copy loops *)

Section CopyLoops.
Import Codec.

(** The bytes a playback loop writes for one (frame, channel) pair. *)
Definition encoded (sample : float -> Result (list Z))
    (buffers : list (list float)) (fc : nat * nat) : list Z :=
  match buffers !! snd fc with
  | Some chan =>
      match chan !! fst fc with
      | Some v => match sample v with Ok bytes => bytes | _ => [] end
      | None => []
      end
  | None => []
  end.

Definition encodable (sample : float -> Result (list Z))
    (buffers : list (list float)) (n : nat) (fc : nat * nat) : Prop :=
  exists chan v bytes,
    buffers !! snd fc = Some chan /\ chan !! fst fc = Some v /\
    sample v = Ok bytes /\ length bytes = n.

Lemma copy_playback_written (sample : float -> Result (list Z))
    (buffers : list (list float)) (n : nat) (order : list (nat * nat)) :
  Forall (encodable sample buffers n) order ->
  forall (p : nat) (raw : list Z),
    (p + n * length order <= length raw)%nat ->
    copy_playback sample buffers order p raw
    = Ok (take p raw ++ concat (map (encoded sample buffers) order)
            ++ drop (p + n * length order) raw).
Proof.
  induction 1 as [|[f c] order (chan & v & bytes & Hc & Hv & Hs & Hn) _ IH];
    intros p raw Hlen; simpl.
  - rewrite Nat.mul_0_r, Nat.add_0_r, take_drop. reflexivity.
  - simpl in *. rewrite Hc, Hv, Hs. simpl rbind. rewrite Hn.
    destruct (Nat.leb_spec (p + n) (length raw)) as [Hle|Hgt]; [|lia].
    rewrite IH.
    2: { rewrite !length_app, length_take, length_drop, Hn. lia. }
    f_equal. unfold encoded at 2. simpl. rewrite Hc, Hv, Hs.
    rewrite (app_assoc (take p raw) bytes).
    rewrite take_app_length' by (rewrite length_app, length_take; lia).
    rewrite drop_app_ge by (rewrite length_app, length_take; lia).
    rewrite length_app, length_take, Hn, drop_drop.
    rewrite <- !app_assoc. do 3 f_equal. f_equal. lia.
Qed.


Lemma loop_order_length (frames channels : Z) :
  length (loop_order frames channels)
  = (Z.to_nat frames * Z.to_nat channels)%nat.
Proof.
  unfold loop_order. generalize 0%nat at 2.
  induction (Z.to_nat frames) as [|k IH]; intros start; simpl; [reflexivity|].
  rewrite length_app, length_map, length_seq, IH. reflexivity.
Qed.

Lemma loop_order_In (frames channels : Z) (f c : nat) :
  In (f, c) (loop_order frames channels)
  <-> (f < Z.to_nat frames /\ c < Z.to_nat channels)%nat.
Proof.
  unfold loop_order. rewrite in_flat_map. split.
  - intros (f' & Hf & Hc). apply in_map_iff in Hc as (c' & Heq & Hc).
    injection Heq as -> ->. apply in_seq in Hf, Hc. lia.
  - intros [Hf Hc]. exists f. split; [apply in_seq; lia|].
    apply in_map_iff. exists c. split; [reflexivity|apply in_seq; lia].
Qed.

(** Buffers as [PreparePlaybackFunctions] allocates them for a period of
    [frames] frames and four-byte samples. *)
Definition prepared (d : Driver) (frames : Z) : Prop :=
  0 <= frames /\ 0 <= playbackChannels d /\
  length (playbackBuffers d) = Z.to_nat (playbackChannels d) /\
  Forall (fun chan => length chan = Z.to_nat frames) (playbackBuffers d) /\
  length (rawPlaybackBuffer d) = Z.to_nat (4 * playbackChannels d * frames).

Section FourByteSamples.
Variable sample : float -> Result (list Z).
Hypothesis sample_total :
  forall v, exists bytes, sample v = Ok bytes /\ length bytes = 4%nat.

Lemma prepared_encodable (d : Driver) (frames channels : Z) :
  prepared d frames -> channels <= playbackChannels d ->
  Forall (encodable sample (playbackBuffers d) 4) (loop_order frames channels).
Proof using sample_total.
  intros (Hf & Hp & Hlen & Hall & _) Hc.
  apply List.Forall_forall. intros [f c] Hin.
  apply loop_order_In in Hin as [Hf' Hc'].
  destruct (lookup_lt_is_Some_2 (playbackBuffers d) c) as [chan Hchan]; [lia|].
  rewrite Forall_lookup in Hall. specialize (Hall _ _ Hchan).
  destruct (lookup_lt_is_Some_2 chan f) as [v Hv]; [lia|].
  destruct (sample_total v) as (bytes & Hs & Hb).
  exists chan, v, bytes. auto.
Qed.

(** With no more channels than were allocated, the loop writes
    [channels] samples for each frame, one after the other from the start
    of the raw buffer, and leaves the rest of the buffer alone. *)
Lemma copy_out_written (d : Driver) (frames channels : Z) :
  prepared d frames -> 0 <= channels <= playbackChannels d ->
  copy_out sample channels d frames
  = Ok (set_rawPlaybackBuffer d
          (concat (map (encoded sample (playbackBuffers d))
                     (loop_order frames channels))
           ++ drop (Z.to_nat (4 * channels * frames)) (rawPlaybackBuffer d))).
Proof using sample_total.
  intros Hprep Hc. unfold copy_out.
  rewrite (copy_playback_written sample (playbackBuffers d) 4).
  - simpl rbind. rewrite loop_order_length. simpl take. simpl app.
    do 4 f_equal. destruct Hprep as (Hf & _). lia.
  - apply prepared_encodable; [exact Hprep|lia].
  - rewrite loop_order_length. destruct Hprep as (Hf & Hp & _ & _ & Hraw).
    rewrite Hraw. nia.
Qed.


(** One frame of [pc] channels that hold the sample [v0], and a cleared raw
    buffer. *)
Variable v0 : float.



End FourByteSamples.

Lemma CopyPlaybackFloatLe_sample_total (v : float) :
  exists bytes, CopyPlaybackFloatLe_sample v = Ok bytes /\ length bytes = 4%nat.
Proof.
  eexists. split; reflexivity.
Qed.

Lemma CopyPlaybackFloatBe_sample_total (v : float) :
  exists bytes, CopyPlaybackFloatBe_sample v = Ok bytes /\ length bytes = 4%nat.
Proof.
  eexists. split; reflexivity.
Qed.

End CopyLoops.

(** ** binary32 rounding *)

Section Binary32.
Import Codec.

Lemma digits2_pos_bounds (m : positive) :
  2 ^ (Zpos (digits2_pos m) - 1) <= Zpos m < 2 ^ Zpos (digits2_pos m).
Proof.
  induction m as [p IH|p IH|]; simpl digits2_pos.
  - rewrite Pos2Z.inj_succ. replace (Z.succ (Zpos (digits2_pos p)) - 1)
      with (Z.succ (Zpos (digits2_pos p) - 1)) by lia.
    rewrite !Z.pow_succ_r by lia. lia.
  - rewrite Pos2Z.inj_succ. replace (Z.succ (Zpos (digits2_pos p)) - 1)
      with (Z.succ (Zpos (digits2_pos p) - 1)) by lia.
    rewrite !Z.pow_succ_r by lia. lia.
  - simpl. lia.
Qed.

Lemma iter_pos_nat {A : Type} (f : A -> A) (p : positive) :
  forall x, SpecFloat.iter_pos f p x = Nat.iter (Pos.to_nat p) f x.
Proof.
  induction p as [p IH|p IH|]; intros x; simpl SpecFloat.iter_pos.
  - rewrite !IH, Pos2Nat.inj_xI.
    replace (S (2 * Pos.to_nat p)) with (Pos.to_nat p + S (Pos.to_nat p))%nat by lia.
    rewrite Nat.iter_add, Nat.iter_succ_r. reflexivity.
  - rewrite !IH, Pos2Nat.inj_xO.
    replace (2 * Pos.to_nat p)%nat with (Pos.to_nat p + Pos.to_nat p)%nat by lia.
    rewrite Nat.iter_add. reflexivity.
  - reflexivity.
Qed.

Lemma shr_1_nonneg (m : Z) (r s : bool) :
  0 <= m ->
  shr_1 (Build_shr_record m r s)
  = Build_shr_record (m / 2) (Z.odd m) (r || s).
Proof.
  intros Hm. destruct m as [|[p|p|]|p]; try lia; simpl shr_1; simpl Z.odd.
  - reflexivity.
  - f_equal. rewrite Pos2Z.inj_xI.
    apply (Z.div_unique _ 2 _ 1); lia.
  - f_equal. rewrite Pos2Z.inj_xO.
    apply (Z.div_unique _ 2 _ 0); lia.
  - reflexivity.
Qed.

(** What [k] steps of [shr_1] keep of a mantissa [M]: its quotient by
    [2 ^ k], and in the two flags the place of the remainder against half of
    [2 ^ k]. *)
Definition shr_inv (M : Z) (k : nat) (mrs : shr_record) : Prop :=
  shr_m mrs = M / 2 ^ Z.of_nat k /\
  exists u, 0 <= u < 2 ^ Z.of_nat k /\
            2 * (M mod 2 ^ Z.of_nat k)
            = (if shr_r mrs then 2 ^ Z.of_nat k else 0) + u /\
            (shr_s mrs = false -> u = 0) /\ (shr_s mrs = true -> 0 < u).

Lemma shr_iter_inv (M : Z) (k : nat) :
  0 <= M ->
  shr_inv M k (Nat.iter k shr_1 (Build_shr_record M false false)).
Proof.
  intros HM. induction k as [|k IH].
  - simpl. split; [simpl; rewrite Z.div_1_r; reflexivity|].
    exists 0. simpl. rewrite Z.mod_1_r. repeat split; try lia; discriminate.
  - simpl Nat.iter.
    destruct (Nat.iter k shr_1 (Build_shr_record M false false)) as [m r s].
    destruct IH as (Hm & u & Hu & Hrem & Hs0 & Hs1).
    cbn [shr_m shr_r shr_s] in Hm, Hrem, Hs0, Hs1.
    assert (Hp : 0 < 2 ^ Z.of_nat k) by (apply Z.pow_pos_nonneg; lia).
    assert (Hm0 : 0 <= m) by (subst m; apply Z.div_pos; lia).
    rewrite shr_1_nonneg by exact Hm0. unfold shr_inv.
    cbn [shr_m shr_r shr_s].
    rewrite Nat2Z.inj_succ, Z.pow_succ_r by lia.
    assert (Hdiv : M / (2 * 2 ^ Z.of_nat k) = m / 2).
    { subst m. rewrite (Z.mul_comm 2), Z.div_div by lia. reflexivity. }
    assert (Hmod : M mod (2 * 2 ^ Z.of_nat k)
                   = M mod 2 ^ Z.of_nat k + 2 ^ Z.of_nat k * (m mod 2)).
    { subst m. rewrite (Z.mul_comm 2). apply Z.rem_mul_r; lia. }
    split; [symmetry; exact Hdiv|].
    exists (2 * (M mod 2 ^ Z.of_nat k)).
    pose proof (Z.mod_pos_bound M (2 ^ Z.of_nat k) Hp) as Hb.
    rewrite Hmod, Zmod_odd.
    destruct (Z.odd m); (split; [lia|]); (split; [lia|]);
      destruct r, s; simpl; split; intros; try discriminate; lia.
Qed.

(** Rounding to nearest (ties to even) after [k] steps: the result is within
    half of [2 ^ k] of [M], and is the exact quotient when there is one. *)
Lemma round_after_shift (M : Z) (k : nat) :
  0 <= M ->
  let mrs := Nat.iter k shr_1 (Build_shr_record M false false) in
  let R := round_nearest_even (shr_m mrs) (loc_of_shr_record mrs) in
  M / 2 ^ Z.of_nat k <= R <= M / 2 ^ Z.of_nat k + 1 /\
  2 * M - 2 ^ Z.of_nat k <= 2 * (R * 2 ^ Z.of_nat k) <= 2 * M + 2 ^ Z.of_nat k /\
  (M mod 2 ^ Z.of_nat k = 0 -> R = M / 2 ^ Z.of_nat k).
Proof.
  intros HM mrs R.
  pose proof (shr_iter_inv M k HM) as (Hm & u & Hu & Hrem & Hs0 & Hs1).
  fold mrs in Hm, Hrem, Hs0, Hs1.
  assert (Hp : 0 < 2 ^ Z.of_nat k) by (apply Z.pow_pos_nonneg; lia).
  pose proof (Z.div_mod M (2 ^ Z.of_nat k) ltac:(lia)) as Hdm.
  pose proof (Z.mod_pos_bound M (2 ^ Z.of_nat k) Hp) as Hb.
  subst R. destruct mrs as [m r s]. simpl in *. subst m.
  set (q := M / 2 ^ Z.of_nat k) in *. set (P := 2 ^ Z.of_nat k) in *.
  set (rem := M mod P) in *.
  destruct r, s; simpl;
    try (specialize (Hs0 eq_refl)); try (specialize (Hs1 eq_refl));
    try destruct (Z.even q); nia.
Qed.

(** The exponent [binary_round_aux] rounds a mantissa [M] with exponent [E]
    to. *)
Definition round_exp (M E : Z) : Z :=
  Z.max E (fexp prec emax (Zdigits2 M + E)).

(** A float that stands for [R * 2 ^ e1] with sign [s]. *)
Definition represents (s : bool) (R e1 : Z) (x : float) : Prop :=
  (R = 0 /\ x = S754_zero s) \/
  (0 < R < 2 ^ 24 /\ x = S754_finite s (Z.to_pos R) e1) \/
  (R = 2 ^ 24 /\ x = S754_finite s (Z.to_pos (2 ^ 23)) (e1 + 1)).

Lemma shr_none (mrs : shr_record) (e n : Z) : n <= 0 -> shr mrs e n = (mrs, e).
Proof.
  intros Hn. unfold shr. destruct n; try reflexivity. lia.
Qed.

Lemma shr_some (M e n : Z) :
  0 < n ->
  shr (Build_shr_record M false false) e n
  = (Nat.iter (Z.to_nat n) shr_1 (Build_shr_record M false false), e + n).
Proof.
  intros Hn. unfold shr. destruct n as [|p|p]; try lia.
  rewrite iter_pos_nat. reflexivity.
Qed.

Lemma Zdigits2_le (R k : Z) : 0 < R -> R < 2 ^ k -> 0 <= k -> Zdigits2 R <= k.
Proof.
  intros HR Hlt Hk. destruct R as [|p|p]; try lia. simpl.
  pose proof (digits2_pos_bounds p) as [Hlo _].
  destruct (Z_le_gt_dec (Zpos (digits2_pos p)) k) as [|Hgt]; [assumption|].
  exfalso. assert (2 ^ k <= 2 ^ (Zpos (digits2_pos p) - 1))
    by (apply Z.pow_le_mono_r; lia). lia.
Qed.

(** [binary_round_aux] on an exact mantissa: the mantissa it keeps is within
    half a unit of the last place of the one it was given, is the exact
    quotient when there is one, and the float it returns stands for it. *)
Lemma binary_round_aux_spec (s : bool) (M : positive) (E : Z) :
  round_exp (Zpos M) E <= 103 ->
  exists R,
    (2 * Zpos M - 2 ^ (round_exp (Zpos M) E - E)
     <= 2 * (R * 2 ^ (round_exp (Zpos M) E - E))
     <= 2 * Zpos M + 2 ^ (round_exp (Zpos M) E - E)) /\
    (Zpos M mod 2 ^ (round_exp (Zpos M) E - E) = 0 ->
     R = Zpos M / 2 ^ (round_exp (Zpos M) E - E)) /\
    represents s R (round_exp (Zpos M) E)
      (binary_round_aux prec emax s (Zpos M) E loc_Exact).
Proof.
  unfold round_exp. intros Hov.
  pose proof (digits2_pos_bounds M) as HdM.
  change (Zdigits2 (Zpos M)) with (Zpos (digits2_pos M)) in *.
  set (d := Zpos (digits2_pos M)) in *.
  assert (Hd : 1 <= d) by (subst d; lia).
  assert (Hfexp : fexp prec emax (d + E) = Z.max (d + E - 24) (-149))
    by reflexivity.
  unfold binary_round_aux, shr_fexp. cbn [shr_record_of_loc].
  change (Zdigits2 (Zpos M)) with d.
  set (ef := fexp prec emax (d + E)) in *.
  destruct (Z_le_gt_dec ef E) as [Hle|Hgt].
  - (* the mantissa already fits *)
    rewrite shr_none by lia.
    cbn [shr_m shr_r shr_s loc_of_shr_record round_nearest_even].
    change (Zdigits2 (Zpos M)) with d. fold ef. rewrite shr_none by lia.
    cbn [shr_m]. rewrite Z.max_l in * by lia.
    replace (E <=? emax - prec) with true
      by (symmetry; apply Z.leb_le; unfold emax, prec; lia).
    exists (Zpos M). replace (E - E) with 0 by lia.
    change (2 ^ 0) with 1. rewrite Z.div_1_r.
    split; [lia|]. split; [reflexivity|]. right. left.
    split; [|reflexivity]. split; [lia|].
    assert (d <= 24) by lia.
    assert (2 ^ d <= 2 ^ 24) by (apply Z.pow_le_mono_r; lia). lia.
  - (* some bits are shifted out and the rest is rounded *)
    rewrite Z.max_r in * by lia.
    rewrite shr_some by lia.
    pose proof (round_after_shift (Zpos M) (Z.to_nat (ef - E)) ltac:(lia))
      as Hround. cbv zeta in Hround.
    rewrite Z2Nat.id in Hround by lia.
    set (mrs := Nat.iter (Z.to_nat (ef - E)) shr_1
                  (Build_shr_record (Zpos M) false false)) in *.
    set (R := round_nearest_even (shr_m mrs) (loc_of_shr_record mrs)) in *.
    destruct Hround as (Hq & Hnear & Hexact).
    replace (E + (ef - E)) with ef by lia.
    assert (Hp : 0 < 2 ^ (ef - E)) by (apply Z.pow_pos_nonneg; lia).
    assert (Hef : -149 <= ef) by lia.
    assert (Hquot : Zpos M / 2 ^ (ef - E) < 2 ^ 24).
    { apply Z.div_lt_upper_bound; [lia|].
      rewrite <- Z.pow_add_r by lia.
      assert (2 ^ d <= 2 ^ (ef - E + 24)) by (apply Z.pow_le_mono_r; lia).
      lia. }
    assert (HR0 : 0 <= R).
    { pose proof (Z.div_pos (Zpos M) (2 ^ (ef - E)) ltac:(lia) Hp). lia. }
    exists R. split; [exact Hnear|]. split; [exact Hexact|].
    destruct (Z.eq_dec R 0) as [HRz|HRnz].
    + left. split; [exact HRz|]. rewrite HRz.
      change (Zdigits2 0) with 0. rewrite shr_none.
      * reflexivity.
      * change (fexp prec emax (0 + ef)) with (Z.max (0 + ef - 24) (-149)). lia.
    + destruct (Z_lt_ge_dec R (2 ^ 24)) as [Hsmall|Hbig].
      * right. left. split; [lia|].
        pose proof (Zdigits2_le R 24 ltac:(lia) Hsmall ltac:(lia)) as HdR.
        rewrite shr_none.
        2: { change (fexp prec emax (Zdigits2 R + ef))
               with (Z.max (Zdigits2 R + ef - 24) (-149)). lia. }
        cbn [shr_m]. destruct R as [|r|r]; try lia.
        replace (ef <=? emax - prec) with true
          by (symmetry; apply Z.leb_le; unfold emax, prec; lia).
        reflexivity.
      * right. right. assert (HR : R = 2 ^ 24) by lia.
        split; [exact HR|]. rewrite HR.
        change (Zdigits2 (2 ^ 24)) with 25.
        change (fexp prec emax (25 + ef)) with (Z.max (25 + ef - 24) (-149)).
        rewrite Z.max_l by lia.
        replace (25 + ef - 24 - ef) with 1 by lia.
        change (shr (Build_shr_record (2 ^ 24) false false) ef 1)
          with (Build_shr_record (2 ^ 23) false false, ef + 1).
        cbn [shr_m]. change (2 ^ 23) with (Zpos (Z.to_pos (2 ^ 23))) at 1.
        cbv iota beta.
        replace (ef + 1 <=? emax - prec) with true
          by (symmetry; apply Z.leb_le; unfold emax, prec; lia).
        reflexivity.
Qed.

(** *** Well-formed floats and their values *)

(** What [valid_binary] says of a finite binary32 value: a mantissa below
    [2 ^ 24] that is normalised unless the exponent is the least one. *)
Lemma valid_finite (s : bool) (m : positive) (e : Z) :
  valid_binary prec emax (S754_finite s m e) = true ->
  Zpos m < 2 ^ 24 /\ -149 <= e <= 104 /\
  (e = -149 \/ Zpos (digits2_pos m) = 24) /\ (e = -149 \/ 2 ^ 23 <= Zpos m).
Proof.
  simpl. unfold bounded, canonical_mantissa. intros H.
  apply andb_prop in H as [Hc He]. apply Z.eqb_eq in Hc. apply Z.leb_le in He.
  change (fexp prec emax (Zpos (digits2_pos m) + e))
    with (Z.max (Zpos (digits2_pos m) + e - 24) (-149)) in Hc.
  change (emax - prec) with 104 in He.
  pose proof (digits2_pos_bounds m) as [Hlo Hhi].
  assert (Hd : Zpos (digits2_pos m) <= 24) by lia.
  assert (2 ^ Zpos (digits2_pos m) <= 2 ^ 24) by (apply Z.pow_le_mono_r; lia).
  split; [lia|]. split; [lia|]. split; [lia|].
  destruct (Z.eq_dec e (-149)) as [|Hne]; [left; assumption|right].
  replace (Zpos (digits2_pos m)) with 24 in Hlo by lia. exact Hlo.
Qed.

(** The value of a float in units of [2 ^ -149], the least exponent. *)
Definition scaled (x : float) : Z :=
  match x with
  | S754_finite s m e => cond_Zopp s (Zpos m * 2 ^ (e + 149))
  | _ => 0
  end.

Definition finite (x : float) : Prop :=
  match x with
  | S754_zero _ | S754_finite _ _ _ => True
  | S754_infinity _ | S754_nan => False
  end.

(** A finite float whose exponent is not below the least one. *)
Definition in_range (x : float) : Prop :=
  match x with
  | S754_finite _ _ e => -149 <= e
  | S754_zero _ => True
  | S754_infinity _ | S754_nan => False
  end.

Lemma Qpower2_scaled (e : Z) :
  -149 <= e ->
  (Qpower 2 e == inject_Z (2 ^ (e + 149)) / inject_Z (2 ^ 149))%Q.
Proof.
  intros He.
  rewrite !Zpower_Qpower by lia.
  change (inject_Z 2) with 2%Q.
  rewrite Qpower_plus by discriminate.
  field.
Qed.

Lemma Q_of_float_scaled (x : float) :
  in_range x ->
  (Q_of_float x == inject_Z (scaled x) / inject_Z (2 ^ 149))%Q.
Proof.
  destruct x as [s|s| |s m e]; simpl; try (intros _; reflexivity); try tauto.
  intros He. rewrite Qpower2_scaled by exact He.
  destruct s; simpl cond_Zopp.
  - rewrite <- Z.mul_opp_l, !inject_Z_mult. field. discriminate.
  - rewrite !inject_Z_mult. field. discriminate.
Qed.

(** Two floats are closer than [num / den] when their scaled values are. *)
Lemma Q_of_float_close (x y : float) (num den : Z) :
  in_range x -> in_range y -> 0 < den ->
  Z.abs (scaled y - scaled x) * den < num * 2 ^ 149 ->
  (Qabs (Q_of_float y - Q_of_float x) < inject_Z num / inject_Z den)%Q.
Proof.
  intros Hx Hy Hden Hlt.
  rewrite (Q_of_float_scaled x Hx), (Q_of_float_scaled y Hy).
  set (D := 2 ^ 149) in *. assert (HD : 0 < D) by (subst D; lia).
  assert (E : (inject_Z (scaled y) / inject_Z D - inject_Z (scaled x) / inject_Z D
               == inject_Z (scaled y - scaled x) / inject_Z D)%Q).
  { unfold Z.sub. rewrite inject_Z_plus, inject_Z_opp. field.
    intros H0. apply (Qlt_irrefl 0). rewrite <- H0 at 2.
    change 0%Q with (inject_Z 0). rewrite <- Zlt_Qlt. exact HD. }
  rewrite E. clear E.
  set (a := scaled y - scaled x) in *.
  assert (HDq : (0 < inject_Z D)%Q)
    by (change 0%Q with (inject_Z 0); rewrite <- Zlt_Qlt; exact HD).
  assert (Hdq : (0 < inject_Z den)%Q)
    by (change 0%Q with (inject_Z 0); rewrite <- Zlt_Qlt; exact Hden).
  assert (Hdne : ~ (inject_Z den == 0)%Q)
    by (intros H0; rewrite H0 in Hdq; exact (Qlt_irrefl 0 Hdq)).
  apply Qabs_Qlt_condition. split.
  - apply Qlt_shift_div_l; [exact HDq|].
    rewrite <- (Qmult_lt_r _ _ (inject_Z den)) by exact Hdq.
    assert (E : (- (inject_Z num / inject_Z den) * inject_Z D * inject_Z den
                 == inject_Z (- (num * D)))%Q)
      by (rewrite inject_Z_opp, inject_Z_mult; field; exact Hdne).
    rewrite E, <- inject_Z_mult, <- Zlt_Qlt. lia.
  - apply Qlt_shift_div_r; [exact HDq|].
    rewrite <- (Qmult_lt_r _ _ (inject_Z den)) by exact Hdq.
    assert (E : (inject_Z num / inject_Z den * inject_Z D * inject_Z den
                 == inject_Z (num * D))%Q)
      by (rewrite inject_Z_mult; field; exact Hdne).
    rewrite E, <- inject_Z_mult, <- Zlt_Qlt. lia.
Qed.

(** *** The clamp *)

Definition float_one : float := S754_finite false 8388608 (-23).

Lemma one_is_float_one : one = float_one.
Proof. reflexivity. Qed.

Lemma scaled_big (m : positive) (e : Z) :
  -22 <= e -> 2 ^ 23 <= Zpos m -> 2 ^ 149 < Zpos m * 2 ^ (e + 149).
Proof.
  intros He Hm.
  assert (2 ^ 127 <= 2 ^ (e + 149)) by (apply Z.pow_le_mono_r; lia).
  change (2 ^ 149) with (2 ^ 22 * 2 ^ 127). nia.
Qed.

Lemma scaled_small (m : positive) (e : Z) :
  -149 <= e <= -24 -> Zpos m < 2 ^ 24 -> Zpos m * 2 ^ (e + 149) < 2 ^ 149.
Proof.
  intros He Hm.
  assert (0 < 2 ^ (e + 149)) by (apply Z.pow_pos_nonneg; lia).
  assert (2 ^ (e + 149) <= 2 ^ 125) by (apply Z.pow_le_mono_r; lia).
  change (2 ^ 149) with (2 ^ 24 * 2 ^ 125). nia.
Qed.

(** The comparison of a well-formed positive float with 1.0, by its value. *)
Lemma compare_with_one (m : positive) (e : Z) :
  valid_binary prec emax (S754_finite false m e) = true ->
  match Z.compare (-23) e with
  | Lt => Lt
  | Gt => Gt
  | Eq => Pos.compare_cont Eq 8388608 m
  end = Z.compare (2 ^ 149) (Zpos m * 2 ^ (e + 149)).
Proof.
  intros Hv. apply valid_finite in Hv as (Hm & He & _ & Hn).
  symmetry. destruct (Z.compare_spec (-23) e) as [Heq|Hlt|Hgt].
  - subst e. change (2 ^ (-23 + 149)) with (2 ^ 126).
    change (2 ^ 149) with (8388608 * 2 ^ 126).
    rewrite <- Zmult_compare_compat_r by lia. reflexivity.
  - apply Z.compare_lt_iff. apply scaled_big; [lia|]. lia.
  - apply Z.compare_gt_iff. apply scaled_small; lia.
Qed.

(** The two tests of the clamp, by the value of the sample. *)
Lemma fgt_one_spec (v : float) :
  valid_binary prec emax v = true -> in_range v ->
  fgt v one = (2 ^ 149 <? scaled v).
Proof.
  rewrite one_is_float_one. unfold fgt, float_one, SFltb.
  destruct v as [s|s| |s m e]; simpl in_range; try tauto; intros Hv _;
    try reflexivity.
  destruct s.
    + cbn [SFcompare]. cbn [scaled cond_Zopp]. symmetry. apply Z.ltb_ge. lia.
    + cbn [SFcompare]. rewrite (compare_with_one m e Hv). cbn [scaled cond_Zopp].
      unfold Z.ltb. destruct (2 ^ 149 ?= Zpos m * 2 ^ (e + 149)); reflexivity.
Qed.

Lemma flt_minus_one_spec (v : float) :
  valid_binary prec emax v = true -> in_range v ->
  flt v (fneg one) = (scaled v <? - 2 ^ 149).
Proof.
  rewrite one_is_float_one. unfold flt, fneg, float_one, SFltb.
  destruct v as [s|s| |s m e]; simpl in_range; try tauto; intros Hv _;
    try reflexivity.
  destruct s.
    + cbn [SFopp negb]. cbn [SFcompare].
      pose proof (compare_with_one m e Hv) as Hc.
      rewrite (Z.compare_antisym (-23) e).
      rewrite (Pos.compare_cont_antisym m 8388608 Eq). simpl (CompOpp Eq).
      cbn [scaled cond_Zopp]. unfold Z.ltb.
      rewrite Z.compare_opp.
      rewrite <- Hc. destruct (-23 ?= e); try reflexivity.
    + cbn [SFopp negb]. cbn [SFcompare]. cbn [scaled cond_Zopp]. symmetry.
      apply Z.ltb_ge. lia.
Qed.

(** A sample that is a number leaves the clamp between -1.0 and 1.0, and a
    sample that already lies there leaves it unchanged. *)
Lemma clamp_spec (v : float) :
  valid_binary prec emax v = true -> v <> S754_nan ->
  (in_range (clamp v) /\ - 2 ^ 149 <= scaled (clamp v) <= 2 ^ 149) /\
  (in_range v -> - 2 ^ 149 <= scaled v <= 2 ^ 149 -> clamp v = v).
Proof.
  intros Hv Hnan.
  assert (Hone : in_range one /\ scaled one = 2 ^ 149)
    by (rewrite one_is_float_one; split; [simpl; lia|reflexivity]).
  assert (Hmone : in_range (fneg one) /\ scaled (fneg one) = - 2 ^ 149)
    by (rewrite one_is_float_one; split; [simpl; lia|reflexivity]).
  destruct v as [s|s| |s m e]; try congruence.
  - split; [split; [exact I|simpl; lia]|reflexivity].
  - split; [|simpl; tauto]. destruct s; [apply Hmone || idtac|].
    + change (clamp (S754_infinity true)) with (fneg one).
      destruct Hmone as [? ->]. split; [assumption|lia].
    + change (clamp (S754_infinity false)) with one.
      destruct Hone as [? ->]. split; [assumption|lia].
  - assert (Hr : in_range (S754_finite s m e))
      by (apply valid_finite in Hv; simpl; lia).
    unfold clamp.
    rewrite (fgt_one_spec _ Hv Hr), (flt_minus_one_spec _ Hv Hr).
    destruct (Z.ltb_spec (2 ^ 149) (scaled (S754_finite s m e))) as [H1|H1].
    + destruct Hone as [? ->]. split; [split; [assumption|lia]|]. lia.
    + destruct (Z.ltb_spec (scaled (S754_finite s m e)) (- 2 ^ 149)) as [H2|H2].
      * destruct Hmone as [? ->]. split; [split; [assumption|lia]|]. lia.
      * split; [split; [exact Hr|lia]|reflexivity].
Qed.

(** *** Products and their integer parts *)

(** The integer part of [R * 2 ^ e]. *)
Definition trunc_val (R e : Z) : Z :=
  if 0 <=? e then R * 2 ^ e else R / 2 ^ (- e).

Lemma cond_Zopp_0 (s : bool) : cond_Zopp s 0 = 0.
Proof. destruct s; reflexivity. Qed.

Lemma trunc_val_carry (e : Z) :
  trunc_val (2 ^ 23) (e + 1) = trunc_val (2 ^ 24) e.
Proof.
  unfold trunc_val.
  destruct (Z.leb_spec 0 e) as [He|He].
  - replace (0 <=? e + 1) with true by (symmetry; apply Z.leb_le; lia).
    rewrite Z.pow_add_r by lia. change (2 ^ 24) with (2 ^ 23 * 2 ^ 1). ring.
  - destruct (Z.eq_dec e (-1)) as [->|Hne]; [reflexivity|].
    replace (0 <=? e + 1) with false by (symmetry; apply Z.leb_gt; lia).
    replace (- e) with (Z.succ (- (e + 1))) by lia.
    rewrite Z.pow_succ_r by lia.
    change (2 ^ 24) with (2 * 2 ^ 23).
    rewrite Z.div_mul_cancel_l; [reflexivity| |lia].
    apply Z.pow_nonzero; lia.
Qed.

Lemma truncate_represents (s : bool) (R e1 : Z) (x : float) :
  represents s R e1 x -> truncate x = Some (cond_Zopp s (trunc_val R e1)).
Proof.
  intros [[-> ->]|[[HR ->]|[-> ->]]].
  - simpl. unfold trunc_val.
    destruct (0 <=? e1); rewrite ?Z.mul_0_l, ?Zdiv_0_l, cond_Zopp_0; reflexivity.
  - simpl. unfold trunc_val. rewrite Z2Pos.id by lia. reflexivity.
  - simpl truncate. rewrite <- trunc_val_carry. reflexivity.
Qed.

(** A product below [2 ^ 24] whose exponents add up to less than zero, taken
    to its integer part: the integer [t] lies within one (less half a unit
    of the last place [A]) below the exact product and half a unit above. *)
Lemma fmul_truncate (s : bool) (ms mx : positive) (es ex : Z) :
  es + ex < 0 ->
  Zpos ms * Zpos mx < 2 ^ 24 * 2 ^ (- (es + ex)) ->
  exists t A,
    truncate (fmul (S754_finite false ms es) (S754_finite s mx ex))
    = Some (cond_Zopp s t) /\
    0 <= t /\ 1 <= A <= 2 ^ (- (es + ex)) /\
    2 * (Zpos ms * Zpos mx) + A - 2 * 2 ^ (- (es + ex))
    <= 2 * (t * 2 ^ (- (es + ex)))
    <= 2 * (Zpos ms * Zpos mx) + A.
Proof.
  intros HE HM. unfold fmul, SFmul. cbn [xorb].
  set (E := es + ex) in *. rewrite <- Pos2Z.inj_mul in *.
  set (M := (ms * mx)%positive) in *.
  assert (HW : 0 < 2 ^ (- E)) by (apply Z.pow_pos_nonneg; lia).
  assert (HdM : Zdigits2 (Zpos M) <= 24 - E).
  { apply Zdigits2_le; [lia| |lia].
    replace (24 - E) with (24 + - E) by lia.
    rewrite Z.pow_add_r by lia. exact HM. }
  assert (Hfexp : fexp prec emax (Zdigits2 (Zpos M) + E)
                  = Z.max (Zdigits2 (Zpos M) + E - 24) (-149)) by reflexivity.
  assert (He1 : E <= round_exp (Zpos M) E <= 0) by (unfold round_exp; lia).
  destruct (binary_round_aux_spec s M E ltac:(lia)) as (R & Hnear & _ & Hrep).
  set (e1 := round_exp (Zpos M) E) in *.
  rewrite (truncate_represents _ _ _ _ Hrep).
  set (A := 2 ^ (e1 - E)) in *. set (B := 2 ^ (- e1)).
  assert (HA : 0 < A) by (apply Z.pow_pos_nonneg; lia).
  assert (HB : 0 < B) by (apply Z.pow_pos_nonneg; lia).
  assert (HAB : 2 ^ (- E) = A * B).
  { subst A B. rewrite <- Z.pow_add_r by lia. f_equal. lia. }
  assert (Ht : trunc_val R e1 = R / B).
  { unfold trunc_val. destruct (Z.leb_spec 0 e1) as [H0|H0].
    - assert (e1 = 0) by lia. subst B. replace e1 with 0 by lia.
      simpl. rewrite Z.div_1_r. lia.
    - reflexivity. }
  rewrite Ht.
  pose proof (Z.div_mod R B ltac:(lia)) as Hdm.
  pose proof (Z.mod_pos_bound R B HB) as Hrb.
  assert (HR : 0 <= R) by nia.
  exists (R / B), A. split; [reflexivity|].
  split; [apply Z.div_pos; lia|].
  rewrite HAB. split; [nia|].
  set (t := R / B) in *. set (r := R mod B) in *.
  assert (HRA : R * A = t * (A * B) + r * A) by (rewrite Hdm; ring).
  nia.
Qed.

(** *** Exact operations *)

Lemma Zdigits2_unique (X d : Z) :
  2 ^ (d - 1) <= X < 2 ^ d -> 1 <= d -> Zdigits2 X = d.
Proof.
  intros [Hlo Hhi] Hd.
  assert (0 < 2 ^ (d - 1)) by (apply Z.pow_pos_nonneg; lia).
  destruct X as [|p|p]; try lia. simpl.
  pose proof (digits2_pos_bounds p) as [Hlo' Hhi'].
  set (d' := Zpos (digits2_pos p)) in *.
  destruct (Z.lt_trichotomy d' d) as [Hlt|[Heq|Hgt]]; [|exact Heq|].
  - assert (2 ^ d' <= 2 ^ (d - 1)) by (apply Z.pow_le_mono_r; lia). lia.
  - assert (2 ^ d <= 2 ^ (d' - 1)) by (apply Z.pow_le_mono_r; lia). lia.
Qed.

(** A mantissa brought to 24 digits. *)
Definition normalised (m : positive) : Z :=
  Zpos m * 2 ^ (24 - Zpos (digits2_pos m)).

Lemma normalised_bounds (m : positive) :
  Zpos (digits2_pos m) <= 24 -> 2 ^ 23 <= normalised m < 2 ^ 24.
Proof.
  intros Hd. unfold normalised.
  pose proof (digits2_pos_bounds m) as [Hlo Hhi].
  set (d := Zpos (digits2_pos m)) in *.
  assert (1 <= d) by (subst d; lia).
  assert (0 < 2 ^ (24 - d)) by (apply Z.pow_pos_nonneg; lia).
  replace (2 ^ 23) with (2 ^ (d - 1) * 2 ^ (24 - d))
    by (rewrite <- Z.pow_add_r by lia; f_equal; lia).
  replace (2 ^ 24) with (2 ^ d * 2 ^ (24 - d))
    by (rewrite <- Z.pow_add_r by lia; f_equal; lia).
  nia.
Qed.

(** Multiplication by a power of two is exact: the mantissa is normalised
    and the exponents add up. *)
Lemma fmul_pow2 (s : bool) (mx : positive) (es ex : Z) :
  Zpos (digits2_pos mx) <= 24 ->
  -149 <= Zpos (digits2_pos mx) + es + ex - 1 <= 103 ->
  fmul (S754_finite false 8388608 es) (S754_finite s mx ex)
  = S754_finite s (Z.to_pos (normalised mx))
      (Zpos (digits2_pos mx) + es + ex - 1).
Proof.
  intros Hdx Hrange. unfold fmul, SFmul. cbn [xorb].
  pose proof (digits2_pos_bounds mx) as [Hlo Hhi].
  pose proof (normalised_bounds mx Hdx) as HN. unfold normalised in *.
  set (dx := Zpos (digits2_pos mx)) in *.
  assert (Hdx1 : 1 <= dx) by (subst dx; lia).
  set (M := (8388608 * mx)%positive).
  assert (HM : Zpos M = 2 ^ 23 * Zpos mx) by reflexivity.
  assert (HdM : Zdigits2 (Zpos M) = dx + 23).
  { apply Zdigits2_unique; [|lia]. rewrite HM.
    replace (dx + 23 - 1) with (23 + (dx - 1)) by lia.
    replace (dx + 23) with (23 + dx) by lia.
    rewrite !Z.pow_add_r by lia. nia. }
  assert (He1 : round_exp (Zpos M) (es + ex) = dx + es + ex - 1).
  { unfold round_exp. rewrite HdM.
    change (fexp prec emax (dx + 23 + (es + ex)))
      with (Z.max (dx + 23 + (es + ex) - 24) (-149)). lia. }
  destruct (binary_round_aux_spec s M (es + ex) ltac:(lia))
    as (R & _ & Hexact & Hrep).
  rewrite He1 in *.
  replace (dx + es + ex - 1 - (es + ex)) with (dx - 1) in * by lia.
  assert (Hp : 0 < 2 ^ (dx - 1)) by (apply Z.pow_pos_nonneg; lia).
  assert (Hsplit : Zpos M = Zpos mx * 2 ^ (24 - dx) * 2 ^ (dx - 1)).
  { rewrite HM, <- Z.mul_assoc, <- Z.pow_add_r by lia.
    replace (24 - dx + (dx - 1)) with 23 by lia. ring. }
  assert (HR : R = Zpos mx * 2 ^ (24 - dx)).
  { rewrite Hexact.
    - rewrite Hsplit. apply Z.div_mul. lia.
    - rewrite Hsplit. apply Z.mod_mul. lia. }
  destruct Hrep as [[H0 _]|[[_ ->]|[H24 _]]]; [lia| |lia].
  rewrite HR. reflexivity.
Qed.

Lemma shift_pos_value (n m : positive) :
  Zpos (Pos.iter xO m n) = Zpos m * 2 ^ Zpos n.
Proof.
  change (Pos.iter xO m n) with (shift_pos n m).
  rewrite shift_pos_correct. change (Z.pow_pos 2 n) with (2 ^ Zpos n). ring.
Qed.

(** An integer of at most 24 significant bits converts exactly. *)
Lemma binary_round_int (s : bool) (p : positive) :
  Zpos (digits2_pos p) <= 100 ->
  (24 < Zpos (digits2_pos p) ->
   Zpos p mod 2 ^ (Zpos (digits2_pos p) - 24) = 0) ->
  exists m' : positive,
    binary_round prec emax s p 0 = S754_finite s m' (Zpos (digits2_pos p) - 24) /\
    Zpos (digits2_pos m') = 24 /\
    (Zpos (digits2_pos p) <= 24 ->
     Zpos m' = Zpos p * 2 ^ (24 - Zpos (digits2_pos p))) /\
    (24 <= Zpos (digits2_pos p) ->
     Zpos m' * 2 ^ (Zpos (digits2_pos p) - 24) = Zpos p).
Proof.
  intros Hd100 Hdiv.
  pose proof (digits2_pos_bounds p) as [Hlo Hhi].
  unfold binary_round, shl_align.
  set (d := Zpos (digits2_pos p)) in *.
  assert (Hd1 : 1 <= d) by (subst d; lia).
  change (fexp prec emax (d + 0)) with (Z.max (d + 0 - 24) (-149)).
  rewrite Z.max_l by lia.
  destruct (Z_lt_ge_dec d 24) as [Hlt|Hge].
  - (* fewer than 24 bits: the mantissa is shifted left *)
    destruct (d + 0 - 24 - 0) as [|q|q] eqn:Hq; try lia.
    assert (Hqd : Zpos q = 24 - d) by lia.
    pose proof (normalised_bounds p ltac:(fold d; lia)) as HN.
    unfold normalised in HN. fold d in HN.
    set (mz := Pos.iter xO p q).
    assert (Hmz : Zpos mz = Zpos p * 2 ^ (24 - d))
      by (subst mz; rewrite shift_pos_value, Hqd; reflexivity).
    assert (Hdz : Zdigits2 (Zpos mz) = 24)
      by (apply Zdigits2_unique; [rewrite Hmz; simpl; lia|lia]).
    assert (He1 : round_exp (Zpos mz) (d + 0 - 24) = d + 0 - 24).
    { unfold round_exp. rewrite Hdz.
      change (fexp prec emax (24 + (d + 0 - 24)))
        with (Z.max (24 + (d + 0 - 24) - 24) (-149)). lia. }
    destruct (binary_round_aux_spec s mz (d + 0 - 24) ltac:(lia))
      as (R & _ & Hexact & Hrep).
    rewrite He1, Z.sub_diag in *. change (2 ^ 0) with 1 in Hexact.
    rewrite Z.mod_1_r, Z.div_1_r in Hexact. specialize (Hexact eq_refl).
    destruct Hrep as [[H0 _]|[[_ Hx]|[H24 _]]]; [lia| |lia].
    exists mz. rewrite Hx, Hexact. simpl Z.to_pos.
    split; [f_equal; lia|]. split; [exact Hdz|]. split; [auto|lia].
  - (* 24 bits or more: the low bits are zero and are shifted out *)
    assert (Hsame : (match d + 0 - 24 - 0 with
                     | Z.neg q => (Pos.iter xO p q, d + 0 - 24)
                     | _ => (p, 0)
                     end) = (p, 0))
      by (destruct (d + 0 - 24 - 0) eqn:Hq; try reflexivity; lia).
    rewrite Hsame.
    assert (He1 : round_exp (Zpos p) 0 = d - 24).
    { unfold round_exp. change (Zdigits2 (Zpos p)) with d.
      change (fexp prec emax (d + 0)) with (Z.max (d + 0 - 24) (-149)). lia. }
    destruct (binary_round_aux_spec s p 0 ltac:(lia))
      as (R & _ & Hexact & Hrep).
    rewrite He1, Z.sub_0_r in *.
    assert (Hp : 0 < 2 ^ (d - 24)) by (apply Z.pow_pos_nonneg; lia).
    assert (Hmod : Zpos p mod 2 ^ (d - 24) = 0).
    { destruct (Z.eq_dec d 24) as [->|Hne]; [apply Z.mod_1_r|].
      apply Hdiv. lia. }
    specialize (Hexact Hmod).
    assert (HRp : R * 2 ^ (d - 24) = Zpos p).
    { pose proof (Z.div_mod (Zpos p) (2 ^ (d - 24)) ltac:(lia)) as Hdm.
      rewrite Hmod in Hdm. rewrite Hexact. lia. }
    assert (HRb : 2 ^ 23 <= R < 2 ^ 24).
    { replace (2 ^ (d - 1)) with (2 ^ 23 * 2 ^ (d - 24)) in Hlo
        by (rewrite <- Z.pow_add_r by lia; f_equal; lia).
      replace (2 ^ d) with (2 ^ 24 * 2 ^ (d - 24)) in Hhi
        by (rewrite <- Z.pow_add_r by lia; f_equal; lia).
      nia. }
    destruct Hrep as [[H0 _]|[[_ Hx]|[H24 _]]]; [lia| |lia].
    exists (Z.to_pos R). rewrite Hx. replace (d + 0 - 24) with (d - 24) by lia.
    split; [reflexivity|]. rewrite Z2Pos.id by lia.
    split; [|split; [intros Hle; replace d with 24 in * by lia|auto]].
    + change (Zpos (digits2_pos (Z.to_pos R))) with (Zdigits2 (Zpos (Z.to_pos R))).
      rewrite Z2Pos.id by lia. apply Zdigits2_unique; [simpl; lia|lia].
    + change (2 ^ (24 - 24)) with 1 in *. lia.
Qed.

(** Decoding an integer sample: the conversion to [float] and the product
    with the scale [2 ^ -k] are both exact. *)
Lemma decode_scaled (k t : Z) :
  0 <= k <= 31 -> Zdigits2 t <= 32 ->
  (24 < Zdigits2 t -> Z.abs t mod 2 ^ (Zdigits2 t - 24) = 0) ->
  in_range (fmul (S754_finite false 8388608 (- k - 23)) (float_of_int t)) /\
  scaled (fmul (S754_finite false 8388608 (- k - 23)) (float_of_int t))
  = t * 2 ^ (149 - k).
Proof.
  intros Hk Hd Hdiv. unfold float_of_int, binary_normalize.
  assert (Hgen : forall (s : bool) (p : positive),
             Zpos (digits2_pos p) <= 32 ->
             (24 < Zpos (digits2_pos p) ->
              Zpos p mod 2 ^ (Zpos (digits2_pos p) - 24) = 0) ->
             in_range (fmul (S754_finite false 8388608 (- k - 23))
                         (binary_round prec emax s p 0)) /\
             scaled (fmul (S754_finite false 8388608 (- k - 23))
                       (binary_round prec emax s p 0))
             = cond_Zopp s (Zpos p * 2 ^ (149 - k))).
  { intros s p Hdp Hdivp.
    destruct (binary_round_int s p ltac:(lia) Hdivp)
      as (m' & -> & Hdm & Hsmall & Hlarge).
    set (d := Zpos (digits2_pos p)) in *.
    assert (Hd1 : 1 <= d) by (subst d; lia).
    rewrite fmul_pow2 by lia.
    unfold normalised. rewrite Hdm. change (2 ^ (24 - 24)) with 1.
    rewrite Z.mul_1_r. simpl Z.to_pos.
    split; [simpl; lia|]. cbn [scaled]. f_equal.
    replace (24 + (- k - 23) + (d - 24) - 1 + 149) with (d + 125 - k) by lia.
    destruct (Z_le_gt_dec d 24) as [Hle|Hgt].
    - rewrite (Hsmall Hle), <- Z.mul_assoc, <- Z.pow_add_r by lia.
      do 2 f_equal. lia.
    - rewrite <- (Hlarge ltac:(lia)).
      rewrite <- Z.mul_assoc, <- Z.pow_add_r by lia. do 2 f_equal. lia. }
  destruct t as [|p|p].
  - split; [exact I|reflexivity].
  - destruct (Hgen false p Hd Hdiv) as [Hr Hs]. split; [exact Hr|].
    rewrite Hs. reflexivity.
  - destruct (Hgen true p Hd Hdiv) as [Hr Hs]. split; [exact Hr|].
    rewrite Hs. simpl cond_Zopp. lia.
Qed.

(** *** Quantisation of a sample *)

(** A well-formed sample strictly between -1.0 and 1.0. *)
Definition sample_ok (x : float) : Prop :=
  valid_binary prec emax x = true /\ in_range x /\
  - 2 ^ 149 < scaled x < 2 ^ 149.

Lemma sample_ok_clamp (x : float) : sample_ok x -> clamp x = x.
Proof.
  intros (Hv & Hr & Hs). apply clamp_spec; auto; try lia.
  intros ->. exact Hr.
Qed.

Lemma sample_ok_finite (s : bool) (m : positive) (e : Z) :
  sample_ok (S754_finite s m e) ->
  Zpos m < 2 ^ 24 /\ -149 <= e < 0 /\ Zpos m * 2 ^ (e + 149) < 2 ^ 149 /\
  Zpos (digits2_pos m) <= 24.
Proof.
  intros (Hv & Hr & Hs). apply valid_finite in Hv as (Hm & He & Hd & _).
  assert (Hlt : Zpos m * 2 ^ (e + 149) < 2 ^ 149)
    by (destruct s; simpl in Hs; lia).
  split; [exact Hm|]. split; [|split; [exact Hlt|]].
  - split; [lia|]. destruct (Z_lt_ge_dec e 0) as [|Hge]; [assumption|].
    assert (2 ^ 149 <= 2 ^ (e + 149)) by (apply Z.pow_le_mono_r; lia). nia.
  - pose proof (digits2_pos_bounds m) as [Hlo _].
    destruct (Z_le_gt_dec (Zpos (digits2_pos m)) 24) as [|Hgt]; [assumption|].
    assert (2 ^ 24 <= 2 ^ (Zpos (digits2_pos m) - 1))
      by (apply Z.pow_le_mono_r; lia). lia.
Qed.

Lemma int_of_float_truncate (bits : Z) (x : float) (z : Z) :
  truncate x = Some z -> - 2 ^ (bits - 1) <= z < 2 ^ (bits - 1) ->
  int_of_float bits x = Ok z.
Proof.
  intros Ht Hz. unfold int_of_float. rewrite Ht.
  replace (- 2 ^ (bits - 1) <=? z) with true by (symmetry; apply Z.leb_le; lia).
  replace (z <? 2 ^ (bits - 1)) with true by (symmetry; apply Z.ltb_lt; lia).
  reflexivity.
Qed.

Lemma abs_cond_Zopp_sub (s : bool) (a b : Z) :
  Z.abs (cond_Zopp s a - cond_Zopp s b) = Z.abs (a - b).
Proof. destruct s; simpl; lia. Qed.

Lemma cond_Zopp_mul (s : bool) (a b : Z) :
  cond_Zopp s a * b = cond_Zopp s (a * b).
Proof. destruct s; simpl; lia. Qed.

(** A 16-bit sample: within [-32767, 32767], and less than [2 ^ -14] away
    from the float once it is divided by [2 ^ 15]. *)
Lemma quantize16_spec (x : float) :
  sample_ok x ->
  exists t, quantize16 x = Ok t /\ -32767 <= t <= 32767 /\
            Z.abs (t * 2 ^ 134 - scaled x) < 2 ^ 135.
Proof.
  intros Hok. unfold quantize16. rewrite (sample_ok_clamp x Hok).
  change playback_scale16 with (S754_finite false 16776704 (-9)).
  destruct x as [s|s| |s mx ex];
    [|exfalso; exact (proj1 (proj2 Hok))..|].
  - exists 0. split; [reflexivity|]. split; [lia|]. simpl. lia.
  - apply sample_ok_finite in Hok as (Hm & He & Hs & _).
    set (U := 2 ^ (ex + 149)) in *. set (W := 2 ^ (- (-9 + ex))).
    assert (HU : 0 < U) by (apply Z.pow_pos_nonneg; lia).
    assert (HW : 0 < W) by (apply Z.pow_pos_nonneg; lia).
    assert (HUW : U * W = 2 ^ 158).
    { subst U W. rewrite <- Z.pow_add_r by lia. f_equal. lia. }
    assert (Hmx : Zpos mx * 512 < W).
    { assert (Zpos mx * U * W < 2 ^ 149 * W) by nia.
      replace (Zpos mx * U * W) with (Zpos mx * 2 ^ 158) in * by (rewrite <- HUW; ring).
      change (2 ^ 158) with (512 * 2 ^ 149) in *. nia. }
    destruct (fmul_truncate s 16776704 mx (-9) ex ltac:(lia))
      as (t & A & Htr & Ht0 & HA & Hb).
    { fold W. nia. }
    fold W in HA, Hb.
    assert (Ht : t <= 32767) by nia.
    exists (cond_Zopp s t). split.
    + apply int_of_float_truncate; [exact Htr|]. destruct s; simpl; lia.
    + split; [destruct s; simpl; lia|].
      cbn [scaled]. fold U. rewrite cond_Zopp_mul, abs_cond_Zopp_sub.
      set (D := t * W - 2 ^ 24 * Zpos mx).
      assert (HD : - (2 * W) < D < 2 * W) by (subst D; lia).
      assert (HX : 2 ^ 24 * (t * 2 ^ 134 - Zpos mx * U) = U * D).
      { subst D. change (2 ^ 24 * (t * 2 ^ 134 - Zpos mx * U))
          with (2 ^ 24 * (t * 2 ^ 134 - Zpos mx * U)).
        replace (U * (t * W - 2 ^ 24 * Zpos mx))
          with (t * (U * W) - 2 ^ 24 * (Zpos mx * U)) by ring.
        rewrite HUW. change (2 ^ 158) with (2 ^ 24 * 2 ^ 134). ring. }
      assert (HUD : - (2 * 2 ^ 158) < U * D < 2 * 2 ^ 158)
        by (rewrite <- HUW; nia).
      change (2 ^ 158) with (2 ^ 24 * 2 ^ 134) in HUD.
      change (2 ^ 135) with (2 * 2 ^ 134). lia.
Qed.

(** A 24-bit sample in four bytes: within [-16777215, 16777215], and less
    than [2 ^ -23] away from the float once it is divided by [2 ^ 24]. *)
Lemma quantize24_spec (x : float) :
  sample_ok x ->
  exists t, quantize24 x = Ok t /\ -16777215 <= t <= 16777215 /\
            Z.abs (t * 2 ^ 125 - scaled x) < 2 ^ 126.
Proof.
  intros Hok. unfold quantize24. rewrite (sample_ok_clamp x Hok).
  change playback_scale24 with (S754_finite false 16777215 0).
  destruct x as [s|s| |s mx ex];
    [|exfalso; exact (proj1 (proj2 Hok))..|].
  - exists 0. split; [reflexivity|]. split; [lia|]. simpl. lia.
  - apply sample_ok_finite in Hok as (Hm & He & Hs & _).
    set (U := 2 ^ (ex + 149)) in *. set (W := 2 ^ (- (0 + ex))).
    assert (HU : 0 < U) by (apply Z.pow_pos_nonneg; lia).
    assert (HW : 0 < W) by (apply Z.pow_pos_nonneg; lia).
    assert (HUW : U * W = 2 ^ 149).
    { subst U W. rewrite <- Z.pow_add_r by lia. f_equal. lia. }
    assert (Hmx : Zpos mx < W).
    { assert (Zpos mx * U * W < 2 ^ 149 * W) by nia.
      replace (Zpos mx * U * W) with (Zpos mx * 2 ^ 149) in * by (rewrite <- HUW; ring).
      nia. }
    destruct (fmul_truncate s 16777215 mx 0 ex ltac:(lia))
      as (t & A & Htr & Ht0 & HA & Hb).
    { fold W. nia. }
    fold W in HA, Hb.
    assert (Ht : t <= 16777215) by nia.
    exists (cond_Zopp s t). split.
    + apply int_of_float_truncate; [exact Htr|]. destruct s; simpl; lia.
    + split; [destruct s; simpl; lia|].
      cbn [scaled]. fold U. rewrite cond_Zopp_mul, abs_cond_Zopp_sub.
      set (D := t * W - 2 ^ 24 * Zpos mx).
      assert (HD : - (2 * W) < D < 2 * W) by (subst D; lia).
      assert (HX : 2 ^ 24 * (t * 2 ^ 125 - Zpos mx * U) = U * D).
      { subst D.
        replace (U * (t * W - 2 ^ 24 * Zpos mx))
          with (t * (U * W) - 2 ^ 24 * (Zpos mx * U)) by ring.
        rewrite HUW. change (2 ^ 149) with (2 ^ 24 * 2 ^ 125). ring. }
      assert (HUD : - (2 * 2 ^ 149) < U * D < 2 * 2 ^ 149)
        by (rewrite <- HUW; nia).
      change (2 ^ 149) with (2 ^ 24 * 2 ^ 125) in HUD.
      change (2 ^ 126) with (2 * 2 ^ 125). lia.
Qed.

(** An integer the decoder converts exactly: at most 32 bits, of which at
    most the leading 24 are significant. *)
Definition exact_int (t : Z) : Prop :=
  Zdigits2 t <= 32 /\
  (24 < Zdigits2 t -> Z.abs t mod 2 ^ (Zdigits2 t - 24) = 0).

Lemma exact_int_small (t : Z) : Z.abs t < 2 ^ 24 -> exact_int t.
Proof.
  intros Ht. assert (Hd : Zdigits2 t <= 24).
  { destruct t as [|p|p]; simpl; try lia;
      apply (Zdigits2_le (Zpos p) 24); lia. }
  split; lia.
Qed.

Lemma exact_int_opp (t : Z) : exact_int t -> exact_int (- t).
Proof.
  unfold exact_int. destruct t; simpl; auto.
Qed.

(** A 32-bit sample: the scale is [2 ^ 31] as a float, the product is
    exact, and only the conversion to an integer loses anything. *)
Lemma quantize32_spec (x : float) :
  sample_ok x ->
  exists t, quantize32 x = Ok t /\ - 2 ^ 31 < t < 2 ^ 31 /\ exact_int t /\
            Z.abs (t * 2 ^ 118 - scaled x) < 2 ^ 118.
Proof.
  intros Hok. unfold quantize32. rewrite (sample_ok_clamp x Hok).
  change playback_scale32 with (S754_finite false 8388608 8).
  destruct x as [s|s| |s mx ex];
    [|exfalso; exact (proj1 (proj2 Hok))..|].
  - exists 0. split; [reflexivity|]. split; [lia|].
    split; [apply exact_int_small; simpl; lia|]. simpl. lia.
  - apply sample_ok_finite in Hok as (Hm & He & Hs & Hdx).
    pose proof (normalised_bounds mx Hdx) as HN.
    set (dx := Zpos (digits2_pos mx)) in *.
    assert (Hdx1 : 1 <= dx) by (subst dx; lia).
    rewrite fmul_pow2 by (fold dx; lia). fold dx.
    set (N := normalised mx) in *. set (e1 := dx + 8 + ex - 1).
    set (U := 2 ^ (ex + 149)) in *.
    assert (HU : 0 < U) by (apply Z.pow_pos_nonneg; lia).
    assert (Hval : N * 2 ^ (e1 + 149) = Zpos mx * U * 2 ^ 31).
    { subst N U e1. unfold normalised. fold dx.
      rewrite <- !Z.mul_assoc, <- !Z.pow_add_r by lia. do 2 f_equal. lia. }
    assert (Htrunc : truncate (S754_finite s (Z.to_pos N) e1)
                     = Some (cond_Zopp s (trunc_val N e1))).
    { simpl. unfold trunc_val. rewrite Z2Pos.id by lia. reflexivity. }
    assert (Hgoal : 0 <= trunc_val N e1 < 2 ^ 31 /\ exact_int (trunc_val N e1) /\
                    Z.abs (trunc_val N e1 * 2 ^ 118 - Zpos mx * U) < 2 ^ 118).
    { unfold trunc_val. destruct (Z.leb_spec 0 e1) as [Hpos|Hneg].
      - assert (Hp : 0 < 2 ^ e1) by (apply Z.pow_pos_nonneg; lia).
        assert (Heq : N * 2 ^ e1 * 2 ^ 118 = Zpos mx * U).
        { rewrite Z.pow_add_r in Hval by lia.
          change (2 ^ 149) with (2 ^ 118 * 2 ^ 31) in Hval. nia. }
        assert (Hlt : N * 2 ^ e1 < 2 ^ 31).
        { change (2 ^ 149) with (2 ^ 31 * 2 ^ 118) in Hs. nia. }
        assert (He7 : e1 <= 7).
        { destruct (Z_le_gt_dec e1 7) as [|Hgt]; [assumption|].
          assert (2 ^ 8 <= 2 ^ e1) by (apply Z.pow_le_mono_r; lia).
          change (2 ^ 31) with (2 ^ 23 * 2 ^ 8) in Hlt. nia. }
        assert (Hd : Zdigits2 (N * 2 ^ e1) = 24 + e1).
        { apply Zdigits2_unique; [|lia].
          replace (24 + e1 - 1) with (23 + e1) by lia.
          rewrite !Z.pow_add_r by lia. nia. }
        split; [nia|]. split.
        + split; [lia|]. intros _. rewrite Hd.
          replace (24 + e1 - 24) with e1 by lia.
          rewrite Z.abs_eq by nia. apply Z.mod_mul. lia.
        + rewrite Heq, Z.sub_diag. simpl. lia.
      - set (G := - e1) in *.
        assert (HG : 0 < 2 ^ G) by (apply Z.pow_pos_nonneg; lia).
        pose proof (Z.div_mod N (2 ^ G) ltac:(lia)) as Hdm.
        pose proof (Z.mod_pos_bound N (2 ^ G) HG) as Hr.
        assert (Hq : 0 <= N / 2 ^ G) by (apply Z.div_pos; lia).
        assert (HqN : N / 2 ^ G <= N) by nia.
        split; [lia|]. split; [apply exact_int_small; lia|].
        set (q := N / 2 ^ G) in *. set (r := N mod 2 ^ G) in *.
        set (V := 2 ^ (e1 + 149)) in *.
        assert (HV : 0 < V) by (apply Z.pow_pos_nonneg; subst e1; lia).
        assert (HGV : 2 ^ G * V = 2 ^ 149).
        { subst V G. rewrite <- Z.pow_add_r by (subst e1; lia). f_equal. lia. }
        assert (Hexp : Zpos mx * U * 2 ^ 31 = q * 2 ^ 149 + r * V).
        { rewrite <- Hval, Hdm, <- HGV. ring. }
        assert (HrV : 0 <= r * V < 2 ^ 149) by (rewrite <- HGV; nia).
        change (2 ^ 149) with (2 ^ 118 * 2 ^ 31) in Hexp, HrV. lia. }
    destruct Hgoal as (Hrange & Hexact & Herr).
    exists (cond_Zopp s (trunc_val N e1)). split.
    + apply int_of_float_truncate; [exact Htrunc|]. destruct s; simpl; lia.
    + split; [destruct s; simpl; lia|]. split.
      * destruct s; [apply exact_int_opp|]; exact Hexact.
      * cbn [scaled]. fold U. rewrite cond_Zopp_mul, abs_cond_Zopp_sub.
        exact Herr.
Qed.

(** *** Bytes in the raw buffers *)

Lemma land_shiftl_small (x y k : Z) :
  0 <= k -> 0 <= y < 2 ^ k -> Z.land (Z.shiftl x k) y = 0.
Proof.
  intros Hk Hy. rewrite <- (Z.mod_small y (2 ^ k)) by lia.
  Z.bitblast. rewrite (Z.testbit_neg_r x) by lia. reflexivity.
Qed.

(** Bits that do not overlap: the bitwise or is the sum. *)
Lemma lor_high_low (H L k : Z) :
  0 <= k -> 0 <= L < 2 ^ k -> Z.lor (H * 2 ^ k) L = H * 2 ^ k + L.
Proof.
  intros Hk HL. apply Z.or_to_plus.
  rewrite <- Z.shiftl_mul_pow2 by lia. apply land_shiftl_small; assumption.
Qed.

Lemma land_255 (v : Z) : Z.land v 255 = v mod 256.
Proof. change 255 with (Z.ones 8). apply Z.land_ones. lia. Qed.

Lemma load_store_int16 (v : Z) :
  -32768 <= v < 32768 -> load_int16 (store_int16 v) = v.
Proof.
  intros Hv. unfold load_int16, store_int16, uint8, int16.
  Z.div_mod_to_equations. lia.
Qed.

Lemma load_store_int32 (v : Z) :
  -2147483648 <= v < 2147483648 -> load_int32 (store_int32 v) = v.
Proof.
  intros Hv. unfold load_int32, store_int32, uint8, int32.
  Z.div_mod_to_equations. lia.
Qed.

Lemma load_store_uint32 (b : Z) :
  0 <= b < 4294967296 -> uint32 (load_int32 (store_int32 b)) = b.
Proof.
  intros Hb. unfold load_int32, store_int32, uint8, uint32, int32.
  Z.div_mod_to_equations. lia.
Qed.

(** [EndianSwap] by arithmetic on the four bytes. *)
Lemma EndianSwap32_bytes (v : Z) :
  EndianSwap32 v
  = int32 (v mod 256 * 2 ^ 24) + (v / 2 ^ 8) mod 256 * 2 ^ 16
    + (v / 2 ^ 16) mod 256 * 2 ^ 8 + (v / 2 ^ 24) mod 256.
Proof.
  unfold EndianSwap32. cbv zeta.
  rewrite !land_255, !Z.shiftr_div_pow2, !Z.shiftl_mul_pow2 by lia.
  set (b0 := v mod 256). set (b1 := (v / 2 ^ 8) mod 256).
  set (b2 := (v / 2 ^ 16) mod 256). set (b3 := (v / 2 ^ 24) mod 256).
  assert (H0 : 0 <= b0 < 256) by (apply Z.mod_pos_bound; lia).
  assert (H1 : 0 <= b1 < 256) by (apply Z.mod_pos_bound; lia).
  assert (H2 : 0 <= b2 < 256) by (apply Z.mod_pos_bound; lia).
  assert (H3 : 0 <= b3 < 256) by (apply Z.mod_pos_bound; lia).
  rewrite (int32_small (b1 * 2 ^ 16)) by lia.
  rewrite (int32_small (b2 * 2 ^ 8)) by lia.
  assert (Hhi : exists h, int32 (b0 * 2 ^ 24) = h * 2 ^ 24).
  { exists (b0 - 256 * ((b0 * 2 ^ 24 + 2147483648) / 4294967296)).
    unfold int32. Z.div_mod_to_equations. lia. }
  destruct Hhi as [h Hh]. rewrite Hh.
  rewrite (lor_high_low h (b1 * 2 ^ 16) 24) by lia.
  replace (h * 2 ^ 24 + b1 * 2 ^ 16) with ((h * 2 ^ 8 + b1) * 2 ^ 16) by lia.
  rewrite (lor_high_low _ (b2 * 2 ^ 8) 16) by lia.
  replace ((h * 2 ^ 8 + b1) * 2 ^ 16 + b2 * 2 ^ 8)
    with (((h * 2 ^ 8 + b1) * 2 ^ 8 + b2) * 2 ^ 8) by lia.
  rewrite (lor_high_low _ b3 8) by lia. lia.
Qed.

Lemma EndianSwap32_range (v : Z) :
  -2147483648 <= EndianSwap32 v < 2147483648.
Proof.
  rewrite EndianSwap32_bytes. unfold int32.
  Z.div_mod_to_equations. lia.
Qed.

Lemma EndianSwap32_involutive (v : Z) :
  -2147483648 <= v < 2147483648 -> EndianSwap32 (EndianSwap32 v) = v.
Proof.
  intros Hv. rewrite (EndianSwap32_bytes (EndianSwap32 v)).
  rewrite (EndianSwap32_bytes v). unfold int32.
  Z.div_mod_to_equations. lia.
Qed.

Lemma EndianSwap16_bytes (v : Z) :
  EndianSwap16 v = int16 (v mod 256 * 2 ^ 8 + (v / 2 ^ 8) mod 256).
Proof.
  unfold EndianSwap16. cbv zeta.
  rewrite !land_255, !Z.shiftr_div_pow2, !Z.shiftl_mul_pow2 by lia.
  set (b0 := v mod 256). set (b1 := (v / 2 ^ 8) mod 256).
  assert (H0 : 0 <= b0 < 256) by (apply Z.mod_pos_bound; lia).
  assert (H1 : 0 <= b1 < 256) by (apply Z.mod_pos_bound; lia).
  assert (E0 : int16 b0 = b0) by (unfold int16; Z.div_mod_to_equations; lia).
  assert (E1 : int16 b1 = b1) by (unfold int16; Z.div_mod_to_equations; lia).
  rewrite E0, E1, (lor_high_low b0 b1 8) by lia. reflexivity.
Qed.

Lemma EndianSwap16_range (v : Z) : -32768 <= EndianSwap16 v < 32768.
Proof.
  rewrite EndianSwap16_bytes. unfold int16. Z.div_mod_to_equations. lia.
Qed.

Lemma EndianSwap16_involutive (v : Z) :
  -32768 <= v < 32768 -> EndianSwap16 (EndianSwap16 v) = v.
Proof.
  intros Hv. rewrite (EndianSwap16_bytes (EndianSwap16 v)).
  rewrite (EndianSwap16_bytes v). unfold int16.
  Z.div_mod_to_equations. lia.
Qed.

(** The three bytes of a packed 24-bit sample give back the 32-bit value
    with its low byte cleared. *)
Lemma s24_3_value_bytes (t : Z) :
  -2147483648 <= t < 2147483648 ->
  s24_3_value (uint8 (Z.shiftr t 8)) (uint8 (Z.shiftr t 16))
    (uint8 (Z.shiftr t 24))
  = t - t mod 256.
Proof.
  intros Ht. unfold uint8. rewrite !Z.shiftr_div_pow2 by lia.
  set (b0 := (t / 2 ^ 8) mod 256). set (b1 := (t / 2 ^ 16) mod 256).
  set (b2 := (t / 2 ^ 24) mod 256).
  assert (H0 : 0 <= b0 < 256) by (apply Z.mod_pos_bound; lia).
  assert (H1 : 0 <= b1 < 256) by (apply Z.mod_pos_bound; lia).
  assert (H2 : 0 <= b2 < 256) by (apply Z.mod_pos_bound; lia).
  unfold s24_3_value. rewrite !Z.shiftl_mul_pow2 by lia.
  rewrite (int32_small (b0 * 2 ^ 8)) by lia.
  rewrite (int32_small (b1 * 2 ^ 16)) by lia.
  rewrite (int32_small (b0 * 2 ^ 8 + b1 * 2 ^ 16)) by lia.
  assert (Hhi : int32 (b2 * 2 ^ 24) = t / 2 ^ 24 * 2 ^ 24).
  { subst b2. unfold int32. Z.div_mod_to_equations. lia. }
  rewrite Hhi, Z.lor_comm, (lor_high_low _ (b0 * 2 ^ 8 + b1 * 2 ^ 16) 24) by lia.
  subst b0 b1. Z.div_mod_to_equations. lia.
Qed.

(** *** The bits of a float *)

Lemma bits_of_float_range (x : float) :
  valid_binary prec emax x = true -> 0 <= bits_of_float x < 4294967296.
Proof.
  destruct x as [s|s| |s m e]; intros Hv.
  - destruct s; simpl; lia.
  - destruct s; simpl; lia.
  - simpl. lia.
  - apply valid_finite in Hv as (Hm & He & _ & _). unfold bits_of_float.
    change (2 ^ 24) with 16777216 in Hm.
    destruct s, (Z.ltb_spec (Zpos m) 8388608); lia.
Qed.

Lemma float_of_bits_of_float (x : float) :
  valid_binary prec emax x = true -> float_of_bits (bits_of_float x) = x.
Proof.
  destruct x as [s|s| |s m e]; intros Hv.
  - destruct s; reflexivity.
  - destruct s; reflexivity.
  - reflexivity.
  - apply valid_finite in Hv as (Hm & He & _ & Hn).
    change (2 ^ 24) with 16777216 in Hm. change (2 ^ 23) with 8388608 in Hn.
    unfold bits_of_float, float_of_bits.
    destruct (Z.ltb_spec (Zpos m) 8388608) as [Hsub|Hnorm].
    + assert (e = -149) by lia. subst e.
      set (b := (if s then 2147483648 else 0) + Zpos m).
      assert (Hs : (2147483648 <=? b) = s)
        by (subst b; destruct s; [apply Z.leb_le|apply Z.leb_gt]; lia).
      assert (Hex : (b / 8388608) mod 256 = 0)
        by (subst b; destruct s; Z.div_mod_to_equations; lia).
      assert (Hmant : b mod 8388608 = Zpos m)
        by (subst b; destruct s; Z.div_mod_to_equations; lia).
      rewrite Hs, Hex, Hmant. reflexivity.
    + set (b := (if s then 2147483648 else 0)
                + ((e + 150) * 8388608 + (Zpos m - 8388608))).
      assert (Hs : (2147483648 <=? b) = s)
        by (subst b; destruct s; [apply Z.leb_le|apply Z.leb_gt]; lia).
      assert (Hex : (b / 8388608) mod 256 = e + 150)
        by (subst b; destruct s; Z.div_mod_to_equations; lia).
      assert (Hmant : b mod 8388608 + 8388608 = Zpos m)
        by (subst b; destruct s; Z.div_mod_to_equations; lia).
      rewrite Hs, Hex, Hmant.
      replace (e + 150 =? 0) with false by (symmetry; apply Z.eqb_neq; lia).
      replace (e + 150 =? 255) with false by (symmetry; apply Z.eqb_neq; lia).
      f_equal. lia.
Qed.

(** *** One sample through a playback and a capture function *)

Lemma exact_int_multiple_of_256 (v : Z) :
  - 2 ^ 31 <= v <= 2 ^ 31 -> v mod 256 = 0 -> exact_int v.
Proof.
  intros Hv Hm.
  assert (Hd : Zdigits2 v <= 32).
  { destruct v as [|p|p]; simpl; try lia;
      apply (Zdigits2_le (Zpos p) 32); lia. }
  split; [exact Hd|]. intros H24.
  assert (Ha : Z.abs v mod 256 = 0).
  { destruct (Z.abs_spec v) as [[_ ->]|[_ ->]]; [exact Hm|].
    Z.div_mod_to_equations. lia. }
  set (d := Zdigits2 v) in *.
  pose proof (Z.div_mod (Z.abs v) 256 ltac:(lia)) as Hdm. rewrite Ha in Hdm.
  rewrite Hdm, Z.add_0_r.
  change 256 with (2 ^ 8) at 1.
  replace 8 with (d - 24 + (32 - d)) at 1 by lia.
  rewrite Z.pow_add_r by lia.
  rewrite <- Z.mul_assoc, Z.mul_comm. apply Z.mod_mul.
  apply Z.pow_nonzero; lia.
Qed.

(** The scaled distance a round trip stays below, per format: [2 ^ -14] for
    the 16-bit formats, [2 ^ -23] for the others. *)
Definition scaled_bound (f : PcmFormat) : Z :=
  match f with
  | S16_LE | S16_BE => 2 ^ 135
  | _ => 2 ^ 126
  end.

Lemma sample_round_trip_scaled (f : PcmFormat) (x : float) :
  sample_ok x ->
  exists bytes,
    copyOutputFn_sample f x = Ok bytes /\
    length bytes = Z.to_nat (sample_size f) /\
    in_range (copyInputFn_sample f bytes) /\
    Z.abs (scaled (copyInputFn_sample f bytes) - scaled x) < scaled_bound f.
Proof.
  intros Hok.
  assert (H16 : forall g, (forall t, -32768 <= t < 32768 ->
                             -32768 <= g t < 32768)
                -> forall h, (forall t, -32768 <= t < 32768 -> h (g t) = t) ->
    exists bytes,
      (do i <- quantize16 x ; Ok (store_int16 (g i))) = Ok bytes /\
      length bytes = 2%nat /\
      in_range (fmul capture_scale16 (float_of_int (h (load_int16 bytes)))) /\
      Z.abs (scaled (fmul capture_scale16 (float_of_int (h (load_int16 bytes))))
             - scaled x) < 2 ^ 135).
  { intros g Hg h Hh.
    destruct (quantize16_spec x Hok) as (t & -> & Ht & Herr).
    eexists. split; [reflexivity|]. split; [reflexivity|].
    rewrite load_store_int16 by (apply Hg; lia). rewrite Hh by lia.
    change capture_scale16 with (S754_finite false 8388608 (Z.opp 15 - 23)).
    destruct (decode_scaled 15 t ltac:(lia)) as [Hr Hs];
      try (apply exact_int_small; lia).
    split; [exact Hr|]. rewrite Hs. exact Herr. }
  assert (H32 : forall g, (forall t, -2147483648 <= t < 2147483648 ->
                             -2147483648 <= g t < 2147483648)
                -> forall h, (forall t, -2147483648 <= t < 2147483648 ->
                                h (g t) = t) ->
    exists bytes,
      (do i <- quantize32 x ; Ok (store_int32 (g i))) = Ok bytes /\
      length bytes = 4%nat /\
      in_range (fmul capture_scale32 (float_of_int (h (load_int32 bytes)))) /\
      Z.abs (scaled (fmul capture_scale32 (float_of_int (h (load_int32 bytes))))
             - scaled x) < 2 ^ 126).
  { intros g Hg h Hh.
    destruct (quantize32_spec x Hok) as (t & -> & Ht & Hex & Herr).
    eexists. split; [reflexivity|]. split; [reflexivity|].
    change (2 ^ 31) with 2147483648 in Ht.
    rewrite load_store_int32 by (apply Hg; lia). rewrite Hh by lia.
    change capture_scale32 with (S754_finite false 8388608 (Z.opp 31 - 23)).
    destruct (decode_scaled 31 t ltac:(lia)) as [Hr Hs]; try apply Hex.
    split; [exact Hr|]. rewrite Hs. change (2 ^ (149 - 31)) with (2 ^ 118).
    change (2 ^ 126) with (256 * 2 ^ 118). lia. }
  assert (H24 : forall g, (forall t, -2147483648 <= t < 2147483648 ->
                             -2147483648 <= g t < 2147483648)
                -> forall h, (forall t, -2147483648 <= t < 2147483648 ->
                                h (g t) = t) ->
    exists bytes,
      (do i <- quantize24 x ; Ok (store_int32 (g i))) = Ok bytes /\
      length bytes = 4%nat /\
      in_range (fmul capture_scale24 (float_of_int (h (load_int32 bytes)))) /\
      Z.abs (scaled (fmul capture_scale24 (float_of_int (h (load_int32 bytes))))
             - scaled x) < 2 ^ 126).
  { intros g Hg h Hh.
    destruct (quantize24_spec x Hok) as (t & -> & Ht & Herr).
    eexists. split; [reflexivity|]. split; [reflexivity|].
    rewrite load_store_int32 by (apply Hg; lia). rewrite Hh by lia.
    change capture_scale24 with (S754_finite false 8388608 (Z.opp 24 - 23)).
    destruct (decode_scaled 24 t ltac:(lia)) as [Hr Hs];
      try (apply exact_int_small; lia).
    split; [exact Hr|]. rewrite Hs. exact Herr. }
  assert (H24_3 : exists t,
             quantize32 x = Ok t /\
             in_range (fmul capture_scale32
                         (float_of_int
                            (s24_3_value (uint8 (Z.shiftr t 8))
                               (uint8 (Z.shiftr t 16)) (uint8 (Z.shiftr t 24))))) /\
             Z.abs (scaled (fmul capture_scale32
                              (float_of_int
                                 (s24_3_value (uint8 (Z.shiftr t 8))
                                    (uint8 (Z.shiftr t 16))
                                    (uint8 (Z.shiftr t 24)))))
                    - scaled x) < 2 ^ 126).
  { destruct (quantize32_spec x Hok) as (t & Hq & Ht & _ & Herr).
    exists t. split; [exact Hq|].
    change (2 ^ 31) with 2147483648 in Ht.
    rewrite s24_3_value_bytes by lia.
    pose proof (Z.mod_pos_bound t 256 ltac:(lia)) as Hlow.
    change capture_scale32 with (S754_finite false 8388608 (Z.opp 31 - 23)).
    destruct (decode_scaled 31 (t - t mod 256) ltac:(lia)) as [Hr Hs];
      try (apply exact_int_multiple_of_256;
           [change (2 ^ 31) with 2147483648|]; Z.div_mod_to_equations; lia).
    split; [exact Hr|]. rewrite Hs. change (2 ^ (149 - 31)) with (2 ^ 118).
    change (2 ^ 126) with (256 * 2 ^ 118). lia. }
  assert (HF : 0 <= bits_of_float x < 4294967296 /\
               float_of_bits (bits_of_float x) = x /\ in_range x).
  { destruct Hok as (Hv & Hr & _).
    auto using bits_of_float_range, float_of_bits_of_float. }
  destruct f; simpl copyOutputFn_sample; simpl copyInputFn_sample;
    simpl sample_size; simpl scaled_bound.
  - (* FLOAT_LE *)
    destruct HF as (Hb & Hfb & Hr). eexists. split; [reflexivity|].
    split; [reflexivity|]. unfold CopyCaptureFloatLe_sample, load_float, store_float.
    rewrite load_store_uint32 by exact Hb. rewrite Hfb.
    split; [exact Hr|]. rewrite Z.sub_diag. simpl. lia.
  - (* S32_LE *)
    apply (H32 (fun t => t) ltac:(auto) (fun t => t) ltac:(auto)).
  - (* S24_LE *)
    apply (H24 (fun t => t) ltac:(auto) (fun t => t) ltac:(auto)).
  - (* S24_3LE *)
    destruct H24_3 as (t & Hq & Hr & Herr).
    unfold CopyPlaybackS24_3Le_sample. rewrite Hq. simpl rbind.
    eexists. split; [reflexivity|]. split; [reflexivity|].
    split; assumption.
  - (* S16_LE *)
    apply (H16 (fun t => t) ltac:(auto) (fun t => t) ltac:(auto)).
  - (* FLOAT_BE *)
    destruct HF as (Hb & Hfb & Hr). eexists. split; [reflexivity|].
    split; [reflexivity|]. unfold CopyCaptureFloatBe_sample.
    rewrite load_store_int32 by apply EndianSwap32_range.
    rewrite EndianSwap32_involutive by apply int32_range.
    replace (uint32 (int32 (bits_of_float x))) with (bits_of_float x)
      by (unfold uint32, int32; Z.div_mod_to_equations; lia).
    rewrite Hfb. split; [exact Hr|]. rewrite Z.sub_diag. simpl. lia.
  - (* S32_BE *)
    apply (H32 EndianSwap32 ltac:(intros; apply EndianSwap32_range)
             EndianSwap32 EndianSwap32_involutive).
  - (* S24_BE *)
    apply (H24 EndianSwap32 ltac:(intros; apply EndianSwap32_range)
             EndianSwap32 EndianSwap32_involutive).
  - (* S24_3BE *)
    destruct H24_3 as (t & Hq & Hr & Herr).
    unfold CopyPlaybackS24_3Be_sample. rewrite Hq. simpl rbind.
    eexists. split; [reflexivity|]. split; [reflexivity|].
    split; assumption.
  - (* S16_BE *)
    apply (H16 EndianSwap16 ltac:(intros; apply EndianSwap16_range)
             EndianSwap16 EndianSwap16_involutive).
Qed.

End Binary32.

(** ** A period through a playback and a capture loop *)

Section RoundTrip.
Import Codec.

(** [buffers[channel][frame]], when both indices are inside. *)
Definition cell (buffers : list (list float)) (c f : nat) : option float :=
  match buffers !! c with
  | Some chan => chan !! f
  | None => None
  end.

Lemma cell_insert (buffers : list (list float)) (c0 f0 : nat)
    (chan : list float) (v : float) (c f : nat) :
  buffers !! c0 = Some chan -> (f0 < length chan)%nat ->
  cell (<[c0 := <[f0 := v]> chan]> buffers) c f
  = if decide (c = c0 /\ f = f0) then Some v else cell buffers c f.
Proof.
  intros Hc Hf. unfold cell.
  assert (Hlt : (c0 < length buffers)%nat) by (apply lookup_lt_is_Some; eauto).
  destruct (decide (c = c0)) as [->|Hne].
  - rewrite list_lookup_insert_eq by exact Hlt. rewrite Hc.
    destruct (decide (f = f0)) as [->|Hnf].
    + rewrite list_lookup_insert_eq by exact Hf.
      destruct (decide (c0 = c0 /\ f0 = f0)); tauto.
    + rewrite list_lookup_insert_ne by congruence.
      destruct (decide (c0 = c0 /\ f = f0)); tauto.
  - rewrite list_lookup_insert_ne by congruence.
    destruct (decide (c = c0 /\ f = f0)); tauto.
Qed.

(** A capture loop over distinct cells that exist: the cell of the [k]-th
    pair holds the sample decoded from the [k]-th group of [size] bytes, and
    the other cells are as they were. *)
Lemma copy_capture_cells (sample : list Z -> float) (size : nat)
    (raw : list Z) (order : list (nat * nat)) :
  NoDup order ->
  forall (p : nat) (buffers : list (list float)),
    Forall (fun fc => is_Some (cell buffers (snd fc) (fst fc))) order ->
    (p + size * length order <= length raw)%nat ->
    exists buffers',
      copy_capture sample size raw order p buffers = Ok buffers' /\
      (forall k f c, order !! k = Some (f, c) ->
         cell buffers' c f
         = Some (sample (take size (drop (p + size * k) raw)))) /\
      (forall f c, (f, c) ∉ order -> cell buffers' c f = cell buffers c f).
Proof.
  induction 1 as [|[f0 c0] order Hnotin Hnodup IH]; intros p buffers Hall Hlen.
  - exists buffers. split; [reflexivity|]. split; [|reflexivity].
    intros k f c Hk. rewrite lookup_nil in Hk. discriminate Hk.
  - simpl copy_capture. simpl length in Hlen.
    destruct (Nat.leb_spec (p + size) (length raw)) as [_|Hgt]; [|lia].
    apply Forall_cons in Hall as [Hhead Hall]. simpl in Hhead.
    unfold cell in Hhead. destruct (buffers !! c0) as [chan|] eqn:Hc;
      [|destruct Hhead as [? Hbad]; discriminate Hbad].
    apply lookup_lt_is_Some in Hhead.
    destruct (Nat.ltb_spec f0 (length chan)) as [_|Hge]; [|lia].
    set (v := sample (take size (drop p raw))).
    set (buffers1 := <[c0 := <[f0 := v]> chan]> buffers).
    assert (Hcell1 : forall c f,
               cell buffers1 c f
               = if decide (c = c0 /\ f = f0) then Some v else cell buffers c f)
      by (intros; apply cell_insert; assumption).
    destruct (IH (p + size)%nat buffers1) as (buffers' & Hrun & Hwritten & Hkept).
    { eapply Forall_impl; [exact Hall|]. intros [f c] Hsome. simpl in *.
      rewrite Hcell1. destruct (decide (c = c0 /\ f = f0)); eauto. }
    { lia. }
    exists buffers'. split; [exact Hrun|]. split.
    + intros [|k] f c Hk; simpl in Hk.
      * injection Hk as <- <-. rewrite Hkept by exact Hnotin.
        rewrite Hcell1. rewrite Nat.mul_0_r, Nat.add_0_r.
        destruct (decide (c0 = c0 /\ f0 = f0)); tauto.
      * rewrite (Hwritten k f c Hk). do 4 f_equal. lia.
    + intros f c Hout. apply not_elem_of_cons in Hout as [Hne Hout].
      rewrite (Hkept f c Hout), Hcell1.
      destruct (decide (c = c0 /\ f = f0)) as [[-> ->]|]; congruence.
Qed.

(** The [k]-th group of a buffer made of groups of [size] bytes. *)
Lemma concat_chunk (size : nat) (chunks : list (list Z)) (tail : list Z) :
  Forall (fun l => length l = size) chunks ->
  forall k l, chunks !! k = Some l ->
    take size (drop (size * k) (concat chunks ++ tail)) = l.
Proof.
  induction 1 as [|l0 chunks Hl0 _ IH]; intros k l Hk.
  - rewrite lookup_nil in Hk. discriminate Hk.
  - simpl concat. rewrite <- app_assoc. destruct k as [|k]; simpl in Hk.
    + injection Hk as <-. rewrite Nat.mul_0_r. simpl drop.
      apply take_app_length'. symmetry. exact Hl0.
    + replace (size * S k)%nat with (length l0 + size * k)%nat by lia.
      rewrite drop_app_add. apply IH. exact Hk.
Qed.

Lemma NoDup_loop_order (frames channels : Z) :
  NoDup (loop_order frames channels).
Proof.
  unfold loop_order. generalize 0%nat at 2.
  induction (Z.to_nat frames) as [|n IH]; intros start; simpl.
  - constructor.
  - apply NoDup_app. split; [|split; [|apply IH]].
    + apply (NoDup_fmap_2 (fun channel => (start, channel))).
      apply NoDup_seq.
    + intros [f c] Hin Hin'.
      apply list_elem_of_In, in_map_iff in Hin as (c' & Heq & _).
      apply list_elem_of_In, in_flat_map in Hin' as (f' & Hf' & Hc').
      apply in_map_iff in Hc' as (c'' & Heq' & _).
      apply in_seq in Hf'. congruence || (injection Heq; injection Heq'; lia).
Qed.

Lemma sample_ok_of_Q (x : float) :
  valid_binary prec emax x = true -> finite x ->
  (Qabs (Q_of_float x) < 1)%Q -> sample_ok x.
Proof.
  intros Hv Hf Hq.
  assert (Hr : in_range x).
  { destruct x as [s|s| |s m e]; try exact Hf. simpl.
    apply valid_finite in Hv. lia. }
  split; [exact Hv|]. split; [exact Hr|].
  rewrite (Q_of_float_scaled x Hr) in Hq.
  apply Qabs_Qlt_condition in Hq as [Hlo Hhi].
  assert (HD : (0 < inject_Z (2 ^ 149))%Q) by reflexivity.
  assert (Hmul : (inject_Z (scaled x) / inject_Z (2 ^ 149) * inject_Z (2 ^ 149)
                  == inject_Z (scaled x))%Q) by (field; discriminate).
  apply (Qmult_lt_r _ _ _ HD) in Hlo, Hhi.
  rewrite Hmul in Hlo, Hhi.
  assert (E1 : (-(1) * inject_Z (2 ^ 149) == inject_Z (- 2 ^ 149))%Q)
    by (rewrite inject_Z_opp; ring).
  assert (E2 : (1 * inject_Z (2 ^ 149) == inject_Z (2 ^ 149))%Q) by ring.
  rewrite E1 in Hlo. rewrite E2 in Hhi.
  rewrite <- Zlt_Qlt in Hlo, Hhi. lia.
Qed.

(** The distance the round trip stays below: [2 ^ -14] for the 16-bit
    formats and [4e-5] for the others. *)
Definition round_trip_bound (f : PcmFormat) : Q :=
  match f with
  | S16_LE | S16_BE => 1 # 16384
  | _ => 4 # 100000
  end.

(** One sample, encoded by the playback function of a format and decoded by
    its capture function. *)
Lemma sample_round_trip (f : PcmFormat) (x : float) :
  sample_ok x ->
  exists bytes,
    copyOutputFn_sample f x = Ok bytes /\
    length bytes = Z.to_nat (sample_size f) /\
    (Qabs (Q_of_float (copyInputFn_sample f bytes) - Q_of_float x)
     < round_trip_bound f)%Q.
Proof.
  intros Hok.
  destruct (sample_round_trip_scaled f x Hok) as (bytes & Henc & Hlen & Hr & Herr).
  exists bytes. split; [exact Henc|]. split; [exact Hlen|].
  destruct Hok as (_ & Hx & _).
  assert (Hb : (round_trip_bound f
                == inject_Z (Qnum (round_trip_bound f))
                   / inject_Z (Zpos (Qden (round_trip_bound f))))%Q)
    by (destruct f; reflexivity).
  rewrite Hb. apply Q_of_float_close; [exact Hx|exact Hr|reflexivity|].
  destruct f; simpl in *; lia.
Qed.

Lemma length_concat_chunks (size : nat) (chunks : list (list Z)) :
  Forall (fun l => length l = size) chunks ->
  length (concat chunks) = (size * length chunks)%nat.
Proof.
  induction 1 as [|l chunks Hl _ IH]; simpl; [lia|].
  rewrite length_app, IH, Hl. lia.
Qed.

Lemma lookup_mapped {A B : Type} (g : A -> B) (l : list A) (k : nat) (x : A) :
  l !! k = Some x -> map g l !! k = Some (g x).
Proof.
  revert k. induction l as [|a l IH]; intros [|k] Hk;
    try discriminate Hk; simpl in *.
  - congruence.
  - apply IH. exact Hk.
Qed.

(** A sample of the open interval (-1, 1). *)
Definition unit_sample (x : float) : Prop :=
  valid_binary prec emax x = true /\ finite x /\
  (Qabs (Q_of_float x) < 1)%Q.

(** The buffers as [TestFormatEncodeDecode] prepares them: as many capture
    as playback channels, every channel [frames] samples long, and raw
    buffers of [frames] frames of the format. *)
Definition round_trip_ready (f : PcmFormat) (d : Driver) (frames : Z) : Prop :=
  0 <= frames /\ 0 <= playbackChannels d /\
  captureChannels d = playbackChannels d /\
  length (playbackBuffers d) = Z.to_nat (playbackChannels d) /\
  Forall (fun chan => length chan = Z.to_nat frames) (playbackBuffers d) /\
  length (captureBuffers d) = Z.to_nat (captureChannels d) /\
  Forall (fun chan => length chan = Z.to_nat frames) (captureBuffers d) /\
  length (rawPlaybackBuffer d)
  = Z.to_nat (sample_size f * playbackChannels d * frames) /\
  length (rawCaptureBuffer d)
  = Z.to_nat (sample_size f * captureChannels d * frames).

Lemma sample_size_pos (f : PcmFormat) : 0 < sample_size f.
Proof. destruct f; reflexivity. Qed.

Lemma raw_length (size channels frames : Z) :
  0 <= size -> 0 <= channels -> 0 <= frames ->
  Z.to_nat (size * channels * frames)
  = (Z.to_nat size * (Z.to_nat frames * Z.to_nat channels))%nat.
Proof.
  intros Hs Hc Hf. rewrite !Z2Nat.inj_mul by nia. lia.
Qed.

Lemma copyOutputFn_loop (f : PcmFormat) (d : Driver) (frames : Z) :
  captureChannels d = playbackChannels d ->
  copyOutputFn f d frames
  = copy_out (copyOutputFn_sample f) (playbackChannels d) d frames.
Proof.
  intros Hcc. destruct f; simpl;
    unfold CopyPlaybackFloatLe, CopyPlaybackFloatBe; rewrite ?Hcc; reflexivity.
Qed.

Lemma copyInputFn_loop (f : PcmFormat) (d : Driver) (frames : Z) :
  copyInputFn f d frames
  = copy_in (copyInputFn_sample f) (sample_size f) d frames.
Proof. destruct f; reflexivity. Qed.

(** On prepared buffers of unit samples the playback function fills the raw
    buffer with the encodings, in loop order. *)
Lemma copyOutputFn_written (f : PcmFormat) (d : Driver) (frames : Z) :
  round_trip_ready f d frames ->
  Forall (Forall unit_sample) (playbackBuffers d) ->
  Forall (encodable (copyOutputFn_sample f) (playbackBuffers d)
            (Z.to_nat (sample_size f)))
    (loop_order frames (playbackChannels d)) /\
  copyOutputFn f d frames
  = Ok (set_rawPlaybackBuffer d
          (concat (map (encoded (copyOutputFn_sample f) (playbackBuffers d))
                     (loop_order frames (playbackChannels d))))).
Proof.
  intros (Hfr & Hch & Hcc & Hpl & Hps & _ & _ & Hrp & _) Hvals.
  assert (Hsz := sample_size_pos f).
  assert (Henc : Forall (encodable (copyOutputFn_sample f) (playbackBuffers d)
                           (Z.to_nat (sample_size f)))
                   (loop_order frames (playbackChannels d))).
  { apply Forall_forall. intros [i c] Hin.
    apply list_elem_of_In, loop_order_In in Hin as [Hi Hc].
    destruct (lookup_lt_is_Some_2 (playbackBuffers d) c) as [chan Hchan];
      [lia|].
    assert (Hlen := Forall_lookup_1 _ _ _ _ Hps Hchan). simpl in Hlen.
    destruct (lookup_lt_is_Some_2 chan i) as [x Hx]; [lia|].
    assert (Hu : unit_sample x).
    { eapply Forall_lookup_1; [|exact Hx].
      eapply Forall_lookup_1; [exact Hvals|exact Hchan]. }
    destruct Hu as (Hv & Hf & Hq).
    destruct (sample_round_trip f x (sample_ok_of_Q x Hv Hf Hq))
      as (bytes & Hbytes & Hlenb & _).
    exists chan, x, bytes. simpl. auto. }
  split; [exact Henc|].
  rewrite (copyOutputFn_loop f d frames Hcc). unfold copy_out.
  rewrite (copy_playback_written _ _ _ _ Henc).
  2: { rewrite loop_order_length, Hrp, raw_length by lia. lia. }
  cbn [rbind]. do 2 f_equal. rewrite take_0. simpl app.
  rewrite drop_ge, app_nil_r; [reflexivity|].
  rewrite loop_order_length, Hrp, raw_length by lia. lia.
Qed.

(** C2 (amended): for each of the ten formats, on buffers prepared as
    [TestFormatEncodeDecode] prepares them and playback samples inside the
    open interval (-1, 1), the playback function, the copy of the raw buffer
    and the capture function all succeed, and every capture sample differs
    from the playback sample of the same channel and frame by less than
    [2 ^ -14] for the 16-bit formats and by less than [4e-5] for the 24- and
    32-bit and the float formats. *)
Theorem codec_round_trip (f : PcmFormat) (d : Driver) (frames : Z) :
  round_trip_ready f d frames ->
  Forall (Forall unit_sample) (playbackBuffers d) ->
  exists d',
    encode_decode f d frames = Ok d' /\
    playbackBuffers d' = playbackBuffers d /\
    forall c i x, cell (playbackBuffers d) c i = Some x ->
      exists y, cell (captureBuffers d') c i = Some y /\
        (Qabs (Q_of_float y - Q_of_float x) < round_trip_bound f)%Q.
Proof.
  intros Hready Hvals.
  destruct (copyOutputFn_written f d frames Hready Hvals) as [Henc Hout].
  destruct Hready as (Hfr & Hch & Hcc & Hpl & Hps & Hcl & Hcs & Hrp & Hrc).
  assert (Hsz := sample_size_pos f).
  set (order := loop_order frames (playbackChannels d)) in *.
  set (chunks := map (encoded (copyOutputFn_sample f) (playbackBuffers d))
                   order) in *.
  set (n := sample_size f * captureChannels d * frames) in *.
  assert (Hchunks : Forall (fun l => length l = Z.to_nat (sample_size f)) chunks).
  { apply Forall_forall. intros l Hl.
    apply list_elem_of_In, in_map_iff in Hl as (fc & <- & Hfc).
    apply list_elem_of_In in Hfc.
    destruct (proj1 (Forall_forall _ _) Henc fc Hfc)
      as (chan & v & bytes & Hc & Hv & Hs & Hn).
    unfold encoded. rewrite Hc, Hv, Hs. exact Hn. }
  assert (Hraw : length (concat chunks) = Z.to_nat n).
  { rewrite (length_concat_chunks _ _ Hchunks). unfold chunks, order, n.
    rewrite length_map, loop_order_length, Hcc, raw_length by lia.
    reflexivity. }
  unfold encode_decode. rewrite Hout. cbn [rbind].
  unfold memcpy_playback_to_capture, set_rawPlaybackBuffer.
  cbn [captureChannels playbackChannels captureBuffers playbackBuffers
       rawCaptureBuffer rawPlaybackBuffer].
  fold n.
  assert (Hcond : (n <=? Z.of_nat (length (concat chunks)))
                  && (n <=? Z.of_nat (length (rawCaptureBuffer d))) = true).
  { rewrite Hraw, Hrc. fold n. rewrite Z2Nat.id by (unfold n; nia).
    rewrite Z.leb_refl. reflexivity. }
  rewrite Hcond. cbn [rbind].
  rewrite take_ge by lia. rewrite drop_ge by (rewrite Hrc; fold n; lia).
  rewrite copyInputFn_loop. unfold copy_in, set_rawCaptureBuffer.
  cbn [captureChannels playbackChannels captureBuffers playbackBuffers
       rawCaptureBuffer rawPlaybackBuffer].
  rewrite Hcc. fold order.
  destruct (copy_capture_cells (copyInputFn_sample f)
              (Z.to_nat (sample_size f)) (concat chunks ++ []) order
              (NoDup_loop_order _ _) 0%nat (captureBuffers d))
    as (buffers' & Hrun & Hwritten & _).
  { apply Forall_forall. intros [i c] Hin.
    apply list_elem_of_In, loop_order_In in Hin as [Hi Hc]. simpl.
    unfold cell.
    destruct (lookup_lt_is_Some_2 (captureBuffers d) c) as [chan Hchan];
      [lia|].
    rewrite Hchan. apply lookup_lt_is_Some_2.
    rewrite (Forall_lookup_1 _ _ _ _ Hcs Hchan). exact Hi. }
  { rewrite length_app, Hraw. unfold order, n.
    rewrite loop_order_length, Hcc, raw_length by lia. simpl. lia. }
  rewrite Hrun. cbn [rbind].
  eexists. split; [reflexivity|]. split; [reflexivity|].
  unfold set_captureBuffers.
  cbn [captureChannels playbackChannels captureBuffers playbackBuffers
       rawCaptureBuffer rawPlaybackBuffer].
  intros c i x Hcell. unfold cell in Hcell.
  destruct (playbackBuffers d !! c) as [chan|] eqn:Hchan; [|discriminate Hcell].
  assert (Hc := lookup_lt_Some _ _ _ Hchan).
  assert (Hi := lookup_lt_Some _ _ _ Hcell).
  rewrite (Forall_lookup_1 _ _ _ _ Hps Hchan) in Hi.
  assert (Hin : (i, c) ∈ order).
  { apply list_elem_of_In, loop_order_In. lia. }
  apply list_elem_of_lookup_1 in Hin as [k Hk].
  rewrite (Hwritten k i c Hk). simpl plus.
  rewrite (concat_chunk _ chunks [] Hchunks k _ (lookup_mapped _ _ _ _ Hk)).
  assert (Hu : unit_sample x).
  { eapply Forall_lookup_1; [|exact Hcell].
    eapply Forall_lookup_1; [exact Hvals|exact Hchan]. }
  destruct Hu as (Hv & Hf & Hq).
  destruct (sample_round_trip f x (sample_ok_of_Q x Hv Hf Hq))
    as (bytes & Hbytes & _ & Hbound).
  unfold encoded. cbn [fst snd]. rewrite Hchan, Hcell, Hbytes.
  eexists. split; [reflexivity|exact Hbound].
Qed.

(** 0.75 + 2 ^ -16 *)
Definition above_three_quarters : float := S754_finite false 12583168 (-24).

(** Two channels of two frames, for the 16-bit little-endian format. *)
Definition two_by_two : Driver :=
  mkDriver 2 2
    [[S754_zero false; S754_zero false]; [S754_zero false; S754_zero false]]
    [[S754_finite false 8388608 (-24); above_three_quarters];
     [S754_finite true 8388608 (-24); S754_zero false]]
    [0; 0; 0; 0; 0; 0; 0; 0] [0; 0; 0; 0; 0; 0; 0; 0].

Lemma codec_round_trip_witness :
  exists d',
    encode_decode S16_LE two_by_two 2 = Ok d' /\
    playbackBuffers d' = playbackBuffers two_by_two /\
    forall c i x, cell (playbackBuffers two_by_two) c i = Some x ->
      exists y, cell (captureBuffers d') c i = Some y /\
        (Qabs (Q_of_float y - Q_of_float x) < round_trip_bound S16_LE)%Q.
Proof.
  apply (codec_round_trip S16_LE two_by_two 2).
  - unfold round_trip_ready. simpl.
    repeat (apply conj; [first [lia | reflexivity | repeat constructor]|]).
    reflexivity.
  - repeat constructor.
Defined.

(** One channel of one frame holding 0.75 + 2 ^ -16. *)
Definition one_by_one : Driver :=
  mkDriver 1 1 [[S754_zero false]] [[above_three_quarters]] [0; 0] [0; 0].

(** The 16-bit round trip of 0.75 + 2 ^ -16 gives 0.75 - 2 ^ -15: the
    distance is [3 * 2 ^ -16], which is neither below [2 ^ -15] nor below
    [4e-5]. *)
Lemma codec_round_trip_16bit_counterexample :
  round_trip_ready S16_LE one_by_one 1 /\
  Forall (Forall unit_sample) (playbackBuffers one_by_one) /\
  exists y,
    (do d' <- encode_decode S16_LE one_by_one 1 ; Ok (captureBuffers d'))
    = Ok [[y]] /\
    (Q_of_float y - Q_of_float above_three_quarters == - (3 # 65536))%Q /\
    ~ (Qabs (Q_of_float y - Q_of_float above_three_quarters) < 1 # 32768)%Q /\
    ~ (Qabs (Q_of_float y - Q_of_float above_three_quarters) < 4 # 100000)%Q.
Proof.
  split.
  { unfold round_trip_ready. simpl.
    repeat (apply conj; [first [lia | reflexivity | repeat constructor]|]).
    reflexivity. }
  split; [repeat constructor|].
  eexists. split; [vm_compute; reflexivity|].
  split; [reflexivity|]. split; intros H; vm_compute in H; discriminate H.
Qed.

End RoundTrip.

(** ** Saturation and truncation of the playback conversions *)

Section Saturation.
Import Codec.

Lemma scaled_one_unique (s : bool) (m : positive) (e : Z) :
  valid_binary prec emax (S754_finite s m e) = true ->
  Zpos m * 2 ^ (e + 149) = 2 ^ 149 -> m = 8388608%positive /\ e = -23.
Proof.
  intros Hv Hs. apply valid_finite in Hv as (Hm & He & _ & Hn).
  destruct (Z_lt_le_dec e (-23)) as [Hlo|Hhi].
  - pose proof (scaled_small m e ltac:(lia) Hm). lia.
  - destruct (Z.eq_dec e (-23)) as [->|Hne].
    + change (2 ^ (-23 + 149)) with (2 ^ 126) in Hs.
      change (2 ^ 149) with (8388608 * 2 ^ 126) in Hs.
      split; [|reflexivity]. apply Z.mul_cancel_r in Hs; [|lia].
      injection Hs as ->. reflexivity.
    + destruct Hn as [->|Hn]; [lia|].
      pose proof (scaled_big m e ltac:(lia) Hn). lia.
Qed.

(** The three branches of the clamp. *)
Lemma clamp_cases (v : float) :
  valid_binary prec emax v = true -> v <> S754_nan ->
  (fgt v one = true /\ flt v (fneg one) = false /\ clamp v = one) \/
  (fgt v one = false /\ flt v (fneg one) = true /\ clamp v = fneg one) \/
  (fgt v one = false /\ flt v (fneg one) = false /\ clamp v = v /\
   (v = one \/ v = fneg one \/ sample_ok v)).
Proof.
  intros Hv Hnan.
  destruct v as [s|s| |s m e].
  - right. right. repeat (split; [destruct s; reflexivity|]).
    right. right. split; [exact Hv|]. split; [exact I|]. simpl. lia.
  - destruct s; [right; left|left]; repeat split; reflexivity.
  - congruence.
  - assert (Hr : in_range (S754_finite s m e))
      by (simpl; apply valid_finite in Hv; lia).
    pose proof (fgt_one_spec _ Hv Hr) as Hgt.
    pose proof (flt_minus_one_spec _ Hv Hr) as Hlt.
    unfold clamp. rewrite Hgt, Hlt.
    destruct (Z.ltb_spec (2 ^ 149) (scaled (S754_finite s m e))) as [H1|H1];
      destruct (Z.ltb_spec (scaled (S754_finite s m e)) (- 2 ^ 149)) as [H2|H2];
      try lia.
    + left. repeat split; reflexivity.
    + right. left. repeat split; reflexivity.
    + right. right. repeat (split; [reflexivity|]).
      destruct (Z.eq_dec (scaled (S754_finite s m e)) (2 ^ 149)) as [E|E].
      { left. destruct s; simpl in E; [lia|].
        destruct (scaled_one_unique false m e Hv E) as [-> ->]. reflexivity. }
      destruct (Z.eq_dec (scaled (S754_finite s m e)) (- 2 ^ 149)) as [E'|E'].
      { right. left. destruct s; simpl in E'; [|lia].
        destruct (scaled_one_unique true m e Hv ltac:(lia)) as [-> ->].
        reflexivity. }
      right. right. split; [exact Hv|]. split; [exact Hr|]. lia.
Qed.



Lemma Qabs_le_one (x : float) :
  in_range x -> - 2 ^ 149 <= scaled x <= 2 ^ 149 ->
  (Qabs (Q_of_float x) <= 1)%Q.
Proof.
  intros Hr Hs. rewrite (Q_of_float_scaled x Hr).
  assert (HD : (0 < inject_Z (2 ^ 149))%Q) by reflexivity.
  apply Qabs_Qle_condition. split.
  - apply Qle_shift_div_l; [exact HD|].
    change (-(1))%Q with (inject_Z (-1)).
    rewrite <- inject_Z_mult, <- Zle_Qle. lia.
  - apply Qle_shift_div_r; [exact HD|].
    change 1%Q with (inject_Z 1).
    rewrite <- inject_Z_mult, <- Zle_Qle. lia.
Qed.

Lemma int_of_float_Ok (bits : Z) (p : float) (t : Z) :
  int_of_float bits p = Ok t -> truncate p = Some t.
Proof.
  unfold int_of_float. destruct (truncate p) as [z|]; [|discriminate].
  destruct (_ && _); [|discriminate]. intros [= ->]. reflexivity.
Qed.


Lemma quantize16_total (v : float) :
  valid_binary prec emax v = true -> v <> S754_nan ->
  exists t, quantize16 v = Ok t /\ - INT16_MAX <= t <= INT16_MAX.
Proof.
  intros Hv Hnan.
  destruct (clamp_cases v Hv Hnan)
    as [(_ & _ & Hc)|[(_ & _ & Hc)|(_ & _ & Hc & [->|[->|Hok]])]].
  - unfold quantize16. rewrite Hc. eexists. split; [vm_compute; reflexivity|].
    unfold INT16_MAX. lia.
  - unfold quantize16. rewrite Hc. eexists. split; [vm_compute; reflexivity|].
    unfold INT16_MAX. lia.
  - eexists. split; [vm_compute; reflexivity|]. unfold INT16_MAX. lia.
  - eexists. split; [vm_compute; reflexivity|]. unfold INT16_MAX. lia.
  - destruct (quantize16_spec v Hok) as (t & Hq & Ht & _).
    exists t. split; [exact Hq|]. unfold INT16_MAX. lia.
Qed.

Lemma quantize24_total (v : float) :
  valid_binary prec emax v = true -> v <> S754_nan ->
  exists t, quantize24 v = Ok t /\ - S24_MAX <= t <= S24_MAX.
Proof.
  intros Hv Hnan.
  destruct (clamp_cases v Hv Hnan)
    as [(_ & _ & Hc)|[(_ & _ & Hc)|(_ & _ & Hc & [->|[->|Hok]])]].
  - unfold quantize24. rewrite Hc. eexists. split; [vm_compute; reflexivity|].
    unfold S24_MAX. lia.
  - unfold quantize24. rewrite Hc. eexists. split; [vm_compute; reflexivity|].
    unfold S24_MAX. lia.
  - eexists. split; [vm_compute; reflexivity|]. unfold S24_MAX. lia.
  - eexists. split; [vm_compute; reflexivity|]. unfold S24_MAX. lia.
  - destruct (quantize24_spec v Hok) as (t & Hq & Ht & _).
    exists t. split; [exact Hq|]. unfold S24_MAX. lia.
Qed.


End Saturation.

(** ** More of the decoder: messages, frames and what is dropped *)

Section MidiStreams.
Import Midi.

Lemma emit_if_complete_next (st : MidiState) (fl : Flow) (st' : MidiState) :
  emit_if_complete st = Ok (fl, st') -> fl = Next.
Proof.
  unfold emit_if_complete.
  destruct (_ && _); [|congruence].
  destruct (MidiPut _ _ _ _); simpl; congruence.
Qed.

Lemma GetSystemCommonLength_status (v : Z) :
  240 < v < 248 -> GetSystemCommonLength v = 0.
Proof.
  intros Hv.
  assert (H : v = 241 \/ v = 242 \/ v = 243 \/ v = 244 \/ v = 245 \/ v = 246
              \/ v = 247) by lia.
  repeat (destruct H as [->|H]; [reflexivity|]). subst v. reflexivity.
Qed.

(** The [break] of the loop is never taken: no byte has length -1 in
    the table as [GetSystemCommonLength] indexes it. *)
Lemma process_byte_next (st : MidiState) (v : Z) (fl : Flow) (st' : MidiState) :
  process_byte st v = Ok (fl, st') -> fl = Next.
Proof.
  unfold process_byte.
  destruct (128 <=? v).
  - destruct (Z.leb_spec 240 v) as [H240|H240].
    + destruct (Z.eqb_spec v 240) as [->|Hne].
      * destruct (vec_set _ _ _); simpl; try congruence.
        apply emit_if_complete_next.
      * destruct (Z.leb_spec 248 v) as [H248|H248]; [congruence|].
        rewrite GetSystemCommonLength_status by lia. simpl.
        apply emit_if_complete_next.
    + destruct (_ =? -1); apply emit_if_complete_next.
  - destruct (inputProcessingSysex st).
    + destruct (negb _).
      * destruct (vec_set _ _ _); simpl; try congruence.
        apply emit_if_complete_next.
      * apply emit_if_complete_next.
    + destruct (_ =? 0); [apply emit_if_complete_next|].
      destruct (_ =? 1); apply emit_if_complete_next.
Qed.

Lemma ProcessInputBuffer_app (a b : list Z) :
  forall st,
    ProcessInputBuffer st (a ++ b)
    = do st' <- ProcessInputBuffer st a ; ProcessInputBuffer st' b.
Proof.
  induction a as [|v a IH]; intros st; simpl; [reflexivity|].
  destruct (process_byte st v) as [[fl st1]| | | | |] eqn:Hstep;
    simpl; try reflexivity.
  rewrite (process_byte_next _ _ _ _ Hstep). apply IH.
Qed.

(** X1: the decoder sees one byte stream: draining the endpoint in several
    reads is processing the concatenation of what they deliver, and a buffer
    cut in two at any place gives what the whole buffer gives. *)
Theorem midi_stream_split_anywhere (st : MidiState) (chunks : list (list Z)) :
  FillInputBuffer st (map ReadBytes chunks)
  = ProcessInputBuffer st (concat chunks) /\
  forall a b, concat chunks = a ++ b ->
    ProcessInputBuffer st (concat chunks)
    = do st' <- ProcessInputBuffer st a ; ProcessInputBuffer st' b.
Proof.
  split.
  - revert st. induction chunks as [|c chunks IH]; intros st; simpl;
      [reflexivity|].
    rewrite ProcessInputBuffer_app.
    destruct (ProcessInputBuffer st c); simpl; try reflexivity. apply IH.
  - intros a b ->. apply ProcessInputBuffer_app.
Qed.

(** The decoder has a status and waits for the first data byte of a message
    of [n] data bytes. *)
Definition awaiting (st : MidiState) (s n : Z) : Prop :=
  runningStatus st = s /\ dataLength st = n /\ dataIndex st = 0 /\
  inputProcessingSysex st = false.

Lemma process_byte_data0 (st : MidiState) (v : Z) :
  0 <= v < 128 -> inputProcessingSysex st = false -> dataIndex st = 0 ->
  process_byte st v = emit_if_complete (set_dataIndex (set_data0 st v) 1).
Proof.
  intros Hv Hx Hi. unfold process_byte.
  replace (128 <=? v) with false by (symmetry; apply Z.leb_gt; lia).
  rewrite Hx, Hi. reflexivity.
Qed.

Lemma process_byte_data1 (st : MidiState) (v : Z) :
  0 <= v < 128 -> inputProcessingSysex st = false -> dataIndex st = 1 ->
  process_byte st v = emit_if_complete (set_dataIndex (set_data1 st v) 2).
Proof.
  intros Hv Hx Hi. unfold process_byte.
  replace (128 <=? v) with false by (symmetry; apply Z.leb_gt; lia).
  rewrite Hx, Hi. reflexivity.
Qed.

Lemma emit_if_complete_waits (st : MidiState) :
  dataIndex st <> dataLength st -> emit_if_complete st = Ok (Next, st).
Proof.
  intros H. unfold emit_if_complete.
  replace (dataIndex st =? dataLength st) with false
    by (symmetry; apply Z.eqb_neq; exact H).
  reflexivity.
Qed.

Lemma emit_if_complete_puts (st : MidiState) :
  dataIndex st = dataLength st -> 0 <= dataLength st -> runningStatus st <> 0 ->
  emit_if_complete st
  = do st' <- MidiPut st (runningStatus st) (data0 st mod 256) (data1 st mod 256) ;
    Ok (Next, set_dataIndex st' 0).
Proof.
  intros Hi Hl Hr. unfold emit_if_complete.
  replace (dataIndex st =? dataLength st) with true
    by (symmetry; apply Z.eqb_eq; exact Hi).
  replace (0 <=? dataLength st) with true by (symmetry; apply Z.leb_le; exact Hl).
  replace (runningStatus st =? 0) with false
    by (symmetry; apply Z.eqb_neq; exact Hr).
  reflexivity.
Qed.

(** [MidiPut] with room in the sink: the slot under the cursor becomes the
    event and the cursor moves by one. *)
Lemma MidiPut_room (st : MidiState) (events : list MidiEvent) (cc d0 d1 : Z) :
  sink_ok st events -> inputEventBufferIndex st < Z.of_nat (length events) ->
  cc <> 0 -> 0 <= dataLength st <= 2 ->
  MidiPut st cc d0 d1
  = Ok (set_sink st (inputSampleFrame st) (inputEventBufferIndex st + 1)
          (Some (<[Z.to_nat (inputEventBufferIndex st) :=
                     mkEvent (inputSampleFrame st) (dataLength st + 1)
                       [cc; d0; d1]]> events))).
Proof.
  intros (Hp & Hi & Hb) Hroom Hcc Hl. unfold MidiPut.
  replace (cc =? 0) with false by (symmetry; apply Z.eqb_neq; exact Hcc).
  rewrite Hp.
  replace (Z.of_nat (length events) <=? inputEventBufferIndex st) with false
    by (symmetry; apply Z.leb_gt; lia).
  destruct (lookup_lt_is_Some_2 events (Z.to_nat (inputEventBufferIndex st)))
    as [event Hev]; [lia|].
  rewrite Hev.
  assert (Hlen : length (buffer event) = 3%nat).
  { rewrite Forall_lookup in Hb. apply (Hb _ _ Hev). }
  replace (dataLength st + 1 <=? MAX_MIDI_EVENT_SIZE) with true
    by (symmetry; apply Z.leb_le; unfold MAX_MIDI_EVENT_SIZE; lia).
  destruct (buffer event) as [|x [|y [|z [|? ?]]]]; try discriminate Hlen.
  reflexivity.
Qed.

(** A status byte of a channel message: whatever was pending is dropped. *)
Lemma process_byte_channel_status (st : MidiState) (s : Z) :
  128 <= s < 240 ->
  process_byte st s
  = Ok (Next, set_dataIndex
                (set_dataLength (set_runningStatus (FlushSysex st) s)
                   (GetDataLength s)) 0) /\
  1 <= GetDataLength s <= 2 /\
  (s < 192 -> GetDataLength s = 2) /\ (192 <= s -> GetDataLength s = 1).
Proof.
  intros Hs.
  assert (Hlen : 1 <= GetDataLength s <= 2 /\
                 (s < 192 -> GetDataLength s = 2) /\
                 (192 <= s -> GetDataLength s = 1)).
  { unfold GetDataLength. rewrite Z.shiftr_div_pow2 by lia.
    change (2 ^ 4) with 16.
    assert (H : s / 16 = 8 \/ s / 16 = 9 \/ s / 16 = 10 \/ s / 16 = 11
                \/ s / 16 = 12 \/ s / 16 = 13 \/ s / 16 = 14)
      by (Z.div_mod_to_equations; lia).
    destruct H as [H|[H|[H|[H|[H|[H|H]]]]]]; rewrite H; simpl;
      (split; [lia|]); split; intros; try reflexivity;
      Z.div_mod_to_equations; lia. }
  split; [|exact Hlen]. unfold process_byte.
  replace (128 <=? s) with true by (symmetry; apply Z.leb_le; lia).
  replace (240 <=? s) with false by (symmetry; apply Z.leb_gt; lia).
  replace (GetDataLength s =? -1) with false
    by (symmetry; apply Z.eqb_neq; lia).
  apply emit_if_complete_waits. destruct st; simpl. lia.
Qed.

Definition data_byte (v : Z) : Prop := 0 <= v < 128.

(** One message of two data bytes, received by a decoder that has the status. *)
Lemma two_data_bytes (st : MidiState) (events : list MidiEvent) (s d0 d1 : Z) :
  awaiting st s 2 -> s <> 0 -> sink_ok st events ->
  inputEventBufferIndex st < Z.of_nat (length events) ->
  data_byte d0 -> data_byte d1 ->
  exists st',
    ProcessInputBuffer st [d0; d1] = Ok st' /\
    awaiting st' s 2 /\
    inputSampleFrame st' = inputSampleFrame st /\
    inputEventBufferIndex st' = inputEventBufferIndex st + 1 /\
    sink_ok st'
      (<[Z.to_nat (inputEventBufferIndex st) :=
           mkEvent (inputSampleFrame st) 3 [s; d0; d1]]> events).
Proof.
  intros (Hr & Hl & Hi & Hx) Hs Hsink Hroom H0 H1.
  unfold data_byte in *. simpl.
  rewrite process_byte_data0 by assumption.
  rewrite emit_if_complete_waits by (destruct st; simpl in *; lia).
  simpl rbind.
  rewrite process_byte_data1 by (destruct st; simpl in *; auto).
  rewrite emit_if_complete_puts by (destruct st; simpl in *; lia).
  rewrite (MidiPut_room _ events)
    by (destruct st; unfold sink_ok in *; simpl in *; auto; lia).
  simpl rbind. eexists. split; [reflexivity|].
  destruct Hsink as (Hp & Hidx & Hb).
  destruct st; unfold awaiting, sink_ok; simpl in *. subst.
  rewrite !Z.mod_small by lia. rewrite length_insert.
  repeat (split; [first [reflexivity | lia]|]).
  apply Forall_insert; [exact Hb|reflexivity].
Qed.

(** One message of one data byte; the third byte of the slot is the second
    data byte the decoder last held. *)
Lemma one_data_byte (st : MidiState) (events : list MidiEvent) (s d0 : Z) :
  awaiting st s 1 -> s <> 0 -> sink_ok st events ->
  inputEventBufferIndex st < Z.of_nat (length events) ->
  data_byte d0 ->
  exists st',
    ProcessInputBuffer st [d0] = Ok st' /\
    awaiting st' s 1 /\
    inputSampleFrame st' = inputSampleFrame st /\
    inputEventBufferIndex st' = inputEventBufferIndex st + 1 /\
    data1 st' = data1 st /\
    sink_ok st'
      (<[Z.to_nat (inputEventBufferIndex st) :=
           mkEvent (inputSampleFrame st) 2 [s; d0; data1 st mod 256]]> events).
Proof.
  intros (Hr & Hl & Hi & Hx) Hs Hsink Hroom H0.
  unfold data_byte in *. simpl.
  rewrite process_byte_data0 by assumption.
  rewrite emit_if_complete_puts by (destruct st; simpl in *; lia).
  rewrite (MidiPut_room _ events)
    by (destruct st; unfold sink_ok in *; simpl in *; auto; lia).
  simpl rbind. eexists. split; [reflexivity|].
  destruct Hsink as (Hp & Hidx & Hb).
  destruct st; unfold awaiting, sink_ok; simpl in *. subst.
  rewrite !(Z.mod_small d0) by lia. rewrite length_insert.
  repeat (split; [first [reflexivity | lia]|]).
  apply Forall_insert; [exact Hb|reflexivity].
Qed.

Lemma running_pairs (s : Z) (pairs : list (Z * Z)) :
  s <> 0 ->
  Forall (fun p => data_byte (fst p) /\ data_byte (snd p)) pairs ->
  forall (st : MidiState) (events : list MidiEvent),
    awaiting st s 2 -> sink_ok st events ->
    inputEventBufferIndex st + Z.of_nat (length pairs)
    <= Z.of_nat (length events) ->
    exists st' events',
      ProcessInputBuffer st (flat_map (fun p => [fst p; snd p]) pairs) = Ok st' /\
      awaiting st' s 2 /\ sink_ok st' events' /\
      inputEventBufferIndex st'
      = inputEventBufferIndex st + Z.of_nat (length pairs) /\
      length events' = length events /\
      (forall k p, pairs !! k = Some p ->
         events' !! (Z.to_nat (inputEventBufferIndex st) + k)%nat
         = Some (mkEvent (inputSampleFrame st) 3 [s; fst p; snd p])) /\
      (forall i, ~ (inputEventBufferIndex st <= Z.of_nat i
                    < inputEventBufferIndex st + Z.of_nat (length pairs)) ->
                 events' !! i = events !! i).
Proof.
  intros Hs. induction 1 as [|[d0 d1] pairs [H0 H1] _ IH];
    intros st events Haw Hsink Hroom.
  - exists st, events. simpl. split; [reflexivity|].
    split; [exact Haw|]. split; [exact Hsink|]. split; [lia|].
    split; [reflexivity|]. split; [|reflexivity].
    intros k p Hk. rewrite lookup_nil in Hk. discriminate Hk.
  - simpl in H0, H1. simpl length in Hroom.
    pose proof Hsink as (_ & Hidx & _).
    destruct (two_data_bytes st events s d0 d1 Haw Hs Hsink ltac:(lia) H0 H1)
      as (st1 & Hrun1 & Haw1 & Hfr1 & Hi1 & Hsink1).
    destruct (IH st1 _ Haw1 Hsink1) as
      (st2 & events2 & Hrun2 & Haw2 & Hsink2 & Hi2 & Hlen2 & Hnew2 & Hold2).
    { rewrite length_insert. lia. }
    exists st2, events2.
    change (flat_map (fun p => [fst p; snd p]) ((d0, d1) :: pairs))
      with ([d0; d1] ++ flat_map (fun p => [fst p; snd p]) pairs).
    split; [rewrite ProcessInputBuffer_app, Hrun1; exact Hrun2|].
    split; [exact Haw2|]. split; [exact Hsink2|].
    simpl length.
    split; [rewrite Hi2, Hi1; lia|].
    split; [rewrite Hlen2, length_insert; reflexivity|].
    split.
    + intros [|k] p Hk; simpl in Hk.
      * injection Hk as <-. rewrite Nat.add_0_r.
        rewrite Hold2 by (rewrite Hi1; lia).
        rewrite list_lookup_insert_eq by lia. reflexivity.
      * specialize (Hnew2 k p Hk). rewrite Hfr1, Hi1 in Hnew2.
        rewrite <- Hnew2. f_equal. lia.
    + intros i Hi. rewrite Hold2 by (rewrite Hi1; lia).
      apply list_lookup_insert_ne. lia.
Qed.

Lemma running_singles (s : Z) (ds : list Z) :
  s <> 0 -> Forall data_byte ds ->
  forall (st : MidiState) (events : list MidiEvent),
    awaiting st s 1 -> sink_ok st events ->
    inputEventBufferIndex st + Z.of_nat (length ds)
    <= Z.of_nat (length events) ->
    exists st' events',
      ProcessInputBuffer st ds = Ok st' /\
      awaiting st' s 1 /\ sink_ok st' events' /\
      inputEventBufferIndex st'
      = inputEventBufferIndex st + Z.of_nat (length ds) /\
      length events' = length events /\
      (forall k d, ds !! k = Some d ->
         events' !! (Z.to_nat (inputEventBufferIndex st) + k)%nat
         = Some (mkEvent (inputSampleFrame st) 2 [s; d; data1 st mod 256])) /\
      (forall i, ~ (inputEventBufferIndex st <= Z.of_nat i
                    < inputEventBufferIndex st + Z.of_nat (length ds)) ->
                 events' !! i = events !! i).
Proof.
  intros Hs. induction 1 as [|d0 ds H0 _ IH];
    intros st events Haw Hsink Hroom.
  - exists st, events. simpl. split; [reflexivity|].
    split; [exact Haw|]. split; [exact Hsink|]. split; [lia|].
    split; [reflexivity|]. split; [|reflexivity].
    intros k p Hk. rewrite lookup_nil in Hk. discriminate Hk.
  - simpl length in Hroom.
    pose proof Hsink as (_ & Hidx & _).
    destruct (one_data_byte st events s d0 Haw Hs Hsink ltac:(lia) H0)
      as (st1 & Hrun1 & Haw1 & Hfr1 & Hi1 & Hd1 & Hsink1).
    destruct (IH st1 _ Haw1 Hsink1) as
      (st2 & events2 & Hrun2 & Haw2 & Hsink2 & Hi2 & Hlen2 & Hnew2 & Hold2).
    { rewrite length_insert. lia. }
    exists st2, events2.
    change (d0 :: ds) with ([d0] ++ ds) at 1.
    split; [rewrite ProcessInputBuffer_app, Hrun1; exact Hrun2|].
    split; [exact Haw2|]. split; [exact Hsink2|].
    simpl length.
    split; [rewrite Hi2, Hi1; lia|].
    split; [rewrite Hlen2, length_insert; reflexivity|].
    split.
    + intros [|k] p Hk; simpl in Hk.
      * injection Hk as <-. rewrite Nat.add_0_r.
        rewrite Hold2 by (rewrite Hi1; lia).
        rewrite list_lookup_insert_eq by lia. reflexivity.
      * specialize (Hnew2 k p Hk). rewrite Hfr1, Hi1, Hd1 in Hnew2.
        rewrite <- Hnew2. f_equal. lia.
    + intros i Hi. rewrite Hold2 by (rewrite Hi1; lia).
      apply list_lookup_insert_ne. lia.
Qed.

Lemma channel_status_awaits (st : MidiState) (events : list MidiEvent) (s : Z) :
  128 <= s < 240 -> sink_ok st events ->
  exists st0,
    process_byte st s = Ok (Next, st0) /\
    awaiting st0 s (GetDataLength s) /\ sink_ok st0 events /\
    inputSampleFrame st0 = inputSampleFrame st /\
    inputEventBufferIndex st0 = inputEventBufferIndex st /\
    data1 st0 = data1 st.
Proof.
  intros Hs Hsink.
  destruct (process_byte_channel_status st s Hs) as (Hstep & _).
  eexists. split; [exact Hstep|].
  destruct st; unfold awaiting, sink_ok in *; simpl in *. auto 10.
Qed.

(** X2: a status byte 80..BF followed by any number of pairs of data bytes
    stores one three-byte event per pair, each with that status (running
    status) and the frame of the read, in consecutive slots; whatever message
    was pending before the status byte is dropped. *)
Theorem three_byte_messages_with_running_status
    (st : MidiState) (events : list MidiEvent) (s : Z) (pairs : list (Z * Z)) :
  sink_ok st events -> 128 <= s < 192 ->
  Forall (fun p => data_byte (fst p) /\ data_byte (snd p)) pairs ->
  inputEventBufferIndex st + Z.of_nat (length pairs)
  <= Z.of_nat (length events) ->
  exists st' events',
    ProcessInputBuffer st (s :: flat_map (fun p => [fst p; snd p]) pairs)
    = Ok st' /\
    pInputEventBuffer st' = Some events' /\
    runningStatus st' = s /\
    inputEventBufferIndex st'
    = inputEventBufferIndex st + Z.of_nat (length pairs) /\
    length events' = length events /\
    (forall k p, pairs !! k = Some p ->
       events' !! (Z.to_nat (inputEventBufferIndex st) + k)%nat
       = Some (mkEvent (inputSampleFrame st) 3 [s; fst p; snd p])) /\
    (forall i, ~ (inputEventBufferIndex st <= Z.of_nat i
                  < inputEventBufferIndex st + Z.of_nat (length pairs)) ->
               events' !! i = events !! i).
Proof.
  intros Hsink Hs Hpairs Hroom.
  destruct (channel_status_awaits st events s ltac:(lia) Hsink)
    as (st0 & Hstep & Haw & Hsink0 & Hfr0 & Hi0 & _).
  destruct (process_byte_channel_status st s ltac:(lia)) as (_ & _ & Hlen & _).
  rewrite Hlen in Haw by lia.
  destruct (running_pairs s pairs ltac:(lia) Hpairs st0 events Haw Hsink0)
    as (st' & events' & Hrun & Haw' & Hsink' & Hi' & Hlen' & Hnew & Hold).
  { rewrite Hi0. exact Hroom. }
  exists st', events'. simpl. rewrite Hstep. simpl rbind.
  rewrite Hi0, Hfr0 in *.
  destruct Haw' as (Hr' & _). destruct Hsink' as (Hp' & _).
  auto 10.
Qed.

Lemma three_byte_messages_with_running_status_witness :
  exists st' events',
    ProcessInputBuffer (attach Opened 7)
      (144 :: flat_map (fun p => [fst p; snd p]) [(60, 127); (64, 100)])
    = Ok st' /\
    pInputEventBuffer st' = Some events' /\
    runningStatus st' = 144 /\
    inputEventBufferIndex st'
    = inputEventBufferIndex (attach Opened 7)
      + Z.of_nat (length [(60, 127); (64, 100)]) /\
    length events' = length midiEvents_init /\
    (forall k p, [(60, 127); (64, 100)] !! k = Some p ->
       events' !! (Z.to_nat (inputEventBufferIndex (attach Opened 7)) + k)%nat
       = Some (mkEvent (inputSampleFrame (attach Opened 7)) 3
                 [144; fst p; snd p])) /\
    (forall i, ~ (inputEventBufferIndex (attach Opened 7) <= Z.of_nat i
                  < inputEventBufferIndex (attach Opened 7)
                    + Z.of_nat (length [(60, 127); (64, 100)])) ->
               events' !! i = midiEvents_init !! i).
Proof.
  apply (three_byte_messages_with_running_status (attach Opened 7)
           midiEvents_init 144 [(60, 127); (64, 100)]).
  - apply (attach_ok 7).
  - lia.
  - repeat (constructor; [unfold data_byte; simpl; lia|]). constructor.
  - unfold midiEvents_init. rewrite length_replicate. vm_compute.
    intros H; discriminate H.
Defined.

(** X3: a status byte C0..EF (program change, channel pressure, and pitch
    bend as well) takes one data byte: each data byte that follows stores a
    two-byte event, the third byte of the slot being the stale second data
    byte of the decoder. *)
Theorem two_byte_messages_with_running_status
    (st : MidiState) (events : list MidiEvent) (s : Z) (ds : list Z) :
  sink_ok st events -> 192 <= s < 240 ->
  Forall data_byte ds ->
  inputEventBufferIndex st + Z.of_nat (length ds)
  <= Z.of_nat (length events) ->
  exists st' events',
    ProcessInputBuffer st (s :: ds) = Ok st' /\
    pInputEventBuffer st' = Some events' /\
    runningStatus st' = s /\
    inputEventBufferIndex st'
    = inputEventBufferIndex st + Z.of_nat (length ds) /\
    length events' = length events /\
    (forall k d, ds !! k = Some d ->
       events' !! (Z.to_nat (inputEventBufferIndex st) + k)%nat
       = Some (mkEvent (inputSampleFrame st) 2 [s; d; data1 st mod 256])) /\
    (forall i, ~ (inputEventBufferIndex st <= Z.of_nat i
                  < inputEventBufferIndex st + Z.of_nat (length ds)) ->
               events' !! i = events !! i).
Proof.
  intros Hsink Hs Hds Hroom.
  destruct (channel_status_awaits st events s ltac:(lia) Hsink)
    as (st0 & Hstep & Haw & Hsink0 & Hfr0 & Hi0 & Hd0).
  destruct (process_byte_channel_status st s ltac:(lia)) as (_ & _ & _ & Hlen).
  rewrite Hlen in Haw by lia.
  destruct (running_singles s ds ltac:(lia) Hds st0 events Haw Hsink0)
    as (st' & events' & Hrun & Haw' & Hsink' & Hi' & Hlen' & Hnew & Hold).
  { rewrite Hi0. exact Hroom. }
  exists st', events'. simpl. rewrite Hstep. simpl rbind.
  rewrite Hi0, Hfr0, Hd0 in *.
  destruct Haw' as (Hr' & _). destruct Hsink' as (Hp' & _).
  auto 10.
Qed.

Lemma two_byte_messages_with_running_status_witness :
  exists st' events',
    ProcessInputBuffer (attach Opened 7) (224 :: [0; 64]) = Ok st' /\
    pInputEventBuffer st' = Some events' /\
    runningStatus st' = 224 /\
    inputEventBufferIndex st'
    = inputEventBufferIndex (attach Opened 7) + Z.of_nat (length [0; 64]) /\
    length events' = length midiEvents_init /\
    (forall k d, [0; 64] !! k = Some d ->
       events' !! (Z.to_nat (inputEventBufferIndex (attach Opened 7)) + k)%nat
       = Some (mkEvent (inputSampleFrame (attach Opened 7)) 2
                 [224; d; data1 (attach Opened 7) mod 256])) /\
    (forall i, ~ (inputEventBufferIndex (attach Opened 7) <= Z.of_nat i
                  < inputEventBufferIndex (attach Opened 7)
                    + Z.of_nat (length [0; 64])) ->
               events' !! i = midiEvents_init !! i).
Proof.
  apply (two_byte_messages_with_running_status (attach Opened 7)
           midiEvents_init 224 [0; 64]).
  - apply (attach_ok 7).
  - lia.
  - repeat (constructor; [unfold data_byte; simpl; lia|]). constructor.
  - unfold midiEvents_init. rewrite length_replicate. vm_compute.
    intros H; discriminate H.
Defined.

(** What a run leaves in the sink it found with cursor [idx] and contents
    [events]: at most [n] more events, each stamped with [frame]. *)
Definition stamped (n frame idx : Z) (events : list MidiEvent)
    (st' : MidiState) (events' : list MidiEvent) : Prop :=
  pInputEventBuffer st' = Some events' /\
  inputSampleFrame st' = frame /\
  idx <= inputEventBufferIndex st' <= idx + n /\
  length events' = length events /\
  (forall i e, idx <= Z.of_nat i < inputEventBufferIndex st' ->
               events' !! i = Some e -> time e = frame) /\
  (forall i, ~ (idx <= Z.of_nat i < inputEventBufferIndex st') ->
             events' !! i = events !! i).

Lemma stamped_refl (st : MidiState) (events : list MidiEvent) :
  pInputEventBuffer st = Some events ->
  stamped 0 (inputSampleFrame st) (inputEventBufferIndex st) events st events.
Proof.
  intros Hp. unfold stamped. repeat split; auto; try lia.
Qed.

Lemma stamped_weaken (n m frame idx : Z) (events : list MidiEvent)
    (st' : MidiState) (events' : list MidiEvent) :
  n <= m -> stamped n frame idx events st' events' ->
  stamped m frame idx events st' events'.
Proof.
  intros Hnm (Hp & Hf & Hi & Hl & Hnew & Hold).
  unfold stamped. repeat split; auto; lia.
Qed.

Lemma stamped_trans (n m frame idx : Z) (e0 : list MidiEvent)
    (st1 : MidiState) (e1 : list MidiEvent) (st2 : MidiState)
    (e2 : list MidiEvent) :
  stamped n frame idx e0 st1 e1 ->
  stamped m (inputSampleFrame st1) (inputEventBufferIndex st1) e1 st2 e2 ->
  stamped (n + m) frame idx e0 st2 e2.
Proof.
  intros (Hp1 & Hf1 & Hi1 & Hl1 & Hnew1 & Hold1)
         (Hp2 & Hf2 & Hi2 & Hl2 & Hnew2 & Hold2).
  unfold stamped. split; [exact Hp2|]. split; [congruence|].
  split; [lia|]. split; [congruence|]. split.
  - intros i e Hi He.
    destruct (Z_lt_dec (Z.of_nat i) (inputEventBufferIndex st1)) as [Hlt|Hge].
    + apply (Hnew1 i e); [lia|]. rewrite <- Hold2 by lia. exact He.
    + rewrite <- Hf1. apply (Hnew2 i e); [lia|exact He].
  - intros i Hi. rewrite Hold2 by lia. apply Hold1. lia.
Qed.

Lemma MidiPut_stamped (st : MidiState) (events : list MidiEvent)
    (cc d0 d1 : Z) (st' : MidiState) :
  pInputEventBuffer st = Some events -> 0 <= inputEventBufferIndex st ->
  MidiPut st cc d0 d1 = Ok st' ->
  exists events',
    stamped 1 (inputSampleFrame st) (inputEventBufferIndex st) events st' events' /\
    runningStatus st' = runningStatus st /\ dataLength st' = dataLength st /\
    dataIndex st' = dataIndex st /\ data0 st' = data0 st /\
    data1 st' = data1 st /\
    inputProcessingSysex st' = inputProcessingSysex st /\
    inputSysexBufferCount st' = inputSysexBufferCount st /\
    inputSysexBuffer st' = inputSysexBuffer st.
Proof.
  intros Hp Hidx. unfold MidiPut.
  assert (Hsame : exists events',
    stamped 1 (inputSampleFrame st) (inputEventBufferIndex st) events st events').
  { exists events. apply (stamped_weaken 0); [lia|]. apply stamped_refl, Hp. }
  destruct (cc =? 0).
  { intros [= <-]. destruct Hsame as [ev H]. exists ev. auto 10. }
  rewrite Hp.
  destruct (Z.leb_spec (Z.of_nat (length events)) (inputEventBufferIndex st))
    as [Hfull|Hroom].
  { intros [= <-]. destruct Hsame as [ev H]. exists ev. auto 10. }
  destruct (events !! Z.to_nat (inputEventBufferIndex st)) as [event|];
    [|discriminate].
  destruct (negb _); [discriminate|].
  destruct (vec_set (buffer event) 0 cc) as [b0| | | | |]; try discriminate.
  simpl rbind.
  destruct (vec_set b0 1 d0) as [b1| | | | |]; try discriminate. simpl rbind.
  destruct (vec_set b1 2 d1) as [b2| | | | |]; try discriminate. simpl rbind.
  intros [= <-]. clear Hsame. destruct st; simpl in *.
  eexists. split; [|auto 10].
  unfold stamped; simpl.
  split; [reflexivity|]. split; [reflexivity|]. split; [lia|].
  split; [apply length_insert|]. split.
  - intros i e Hi He.
    match type of He with
    | <[?j := _]> _ !! _ = _ => assert (i = j) by lia; subst i
    end.
    rewrite list_lookup_insert_eq in He by lia. injection He as <-. reflexivity.
  - intros i Hi. apply list_lookup_insert_ne. lia.
Qed.

Lemma emit_if_complete_stamped (m : MidiState) (events : list MidiEvent)
    (fl : Flow) (st' : MidiState) :
  pInputEventBuffer m = Some events -> 0 <= inputEventBufferIndex m ->
  emit_if_complete m = Ok (fl, st') ->
  exists events',
    stamped 1 (inputSampleFrame m) (inputEventBufferIndex m) events st' events'.
Proof.
  intros Hp Hidx. unfold emit_if_complete.
  destruct (_ && _).
  - destruct (MidiPut m _ _ _) as [st1| | | | |] eqn:Hput; try discriminate.
    simpl rbind. intros [= _ <-].
    destruct (MidiPut_stamped _ _ _ _ _ _ Hp Hidx Hput) as (events' & Hst & _).
    exists events'. destruct st1; exact Hst.
  - intros [= _ <-]. exists events. apply (stamped_weaken 0); [lia|].
    apply stamped_refl, Hp.
Qed.

(** One byte stores at most one event, stamped with the frame of the read. *)
Lemma process_byte_stamped (st : MidiState) (events : list MidiEvent) (v : Z)
    (fl : Flow) (st' : MidiState) :
  pInputEventBuffer st = Some events -> 0 <= inputEventBufferIndex st ->
  process_byte st v = Ok (fl, st') ->
  exists events',
    stamped 1 (inputSampleFrame st) (inputEventBufferIndex st) events st' events'.
Proof.
  intros Hp Hidx.
  assert (Hsame : forall s : MidiState,
    pInputEventBuffer s = pInputEventBuffer st ->
    inputSampleFrame s = inputSampleFrame st ->
    inputEventBufferIndex s = inputEventBufferIndex st ->
    exists events',
      stamped 1 (inputSampleFrame st) (inputEventBufferIndex st) events s events').
  { intros s H1 H2 H3. exists events. rewrite <- H2, <- H3.
    apply (stamped_weaken 0); [lia|]. apply stamped_refl. congruence. }
  assert (Hemit : forall m : MidiState,
    pInputEventBuffer m = pInputEventBuffer st ->
    inputSampleFrame m = inputSampleFrame st ->
    inputEventBufferIndex m = inputEventBufferIndex st ->
    emit_if_complete m = Ok (fl, st') ->
    exists events',
      stamped 1 (inputSampleFrame st) (inputEventBufferIndex st) events st' events').
  { intros m H1 H2 H3 He. rewrite <- H2, <- H3.
    apply (emit_if_complete_stamped m events fl st'); congruence. }
  unfold process_byte.
  destruct (128 <=? v).
  - destruct (240 <=? v).
    + destruct (v =? 240).
      * destruct (vec_set _ _ _); simpl; try discriminate.
        apply Hemit; destruct st; reflexivity.
      * destruct (248 <=? v).
        { intros [= _ <-]. apply Hsame; reflexivity. }
        destruct (_ =? -1).
        { intros [= _ <-]. apply Hsame; destruct st; reflexivity. }
        apply Hemit; destruct st; reflexivity.
    + destruct (_ =? -1); apply Hemit; destruct st; reflexivity.
  - destruct (inputProcessingSysex st).
    + destruct (negb _).
      * destruct (vec_set _ _ _); simpl; try discriminate.
        apply Hemit; destruct st; reflexivity.
      * apply Hemit; reflexivity.
    + destruct (_ =? 0); [apply Hemit; destruct st; reflexivity|].
      destruct (_ =? 1); apply Hemit; destruct st; reflexivity.
Qed.

Lemma ProcessInputBuffer_stamped (readBuffer : list Z) :
  forall (st : MidiState) (events : list MidiEvent) (st' : MidiState),
    pInputEventBuffer st = Some events -> 0 <= inputEventBufferIndex st ->
    ProcessInputBuffer st readBuffer = Ok st' ->
    exists events',
      stamped (Z.of_nat (length readBuffer)) (inputSampleFrame st)
        (inputEventBufferIndex st) events st' events'.
Proof.
  induction readBuffer as [|v rest IH]; intros st events st' Hp Hidx; simpl.
  - intros [= <-]. exists events. apply stamped_refl, Hp.
  - destruct (process_byte st v) as [[fl st1]| | | | |] eqn:Hstep;
      try discriminate.
    simpl rbind.
    destruct (process_byte_stamped _ _ _ _ _ Hp Hidx Hstep) as (events1 & H1).
    replace (Z.of_nat (S (length rest))) with (1 + Z.of_nat (length rest))
      by lia.
    destruct fl.
    + intros Hrun. pose proof H1 as (Hp1 & _ & Hi1 & _).
      destruct (IH st1 events1 st' Hp1 ltac:(lia) Hrun) as (events2 & H2).
      exists events2. eapply stamped_trans; eauto.
    + intros [= <-]. exists events1. apply (stamped_weaken 1); [lia|exact H1].
Qed.

(** The number of bytes the endpoint delivers during a drain. *)
Definition bytes_delivered (reads : list RawMidiRead) : Z :=
  fold_right (fun r n => match r with
                         | ReadBytes bytes => Z.of_nat (length bytes) + n
                         | ReadFailed _ => n
                         end) 0 reads.

Lemma FillInputBuffer_stamped (reads : list RawMidiRead) :
  forall (st : MidiState) (events : list MidiEvent) (st' : MidiState),
    pInputEventBuffer st = Some events -> 0 <= inputEventBufferIndex st ->
    FillInputBuffer st reads = Ok st' ->
    exists events',
      stamped (bytes_delivered reads) (inputSampleFrame st)
        (inputEventBufferIndex st) events st' events'.
Proof.
  induction reads as [|r reads IH]; intros st events st' Hp Hidx; simpl.
  - intros [= <-]. exists events. apply stamped_refl, Hp.
  - destruct r as [bytes|code]; [|discriminate].
    destruct (ProcessInputBuffer st bytes) as [st1| | | | |] eqn:Hrun;
      try discriminate.
    simpl rbind. intros Hfill.
    destruct (ProcessInputBuffer_stamped _ _ _ _ Hp Hidx Hrun) as (events1 & H1).
    pose proof H1 as (Hp1 & _ & Hi1 & _).
    destruct (IH st1 events1 st' Hp1 ltac:(lia) Hfill) as (events2 & H2).
    exists events2. eapply stamped_trans; eauto.
Qed.

Lemma ReadMidiEvents_stamped (st : MidiState) (outputBuffer : list MidiEvent)
    (startIndex sampleFrame : Z) (reads : list RawMidiRead)
    (st' : MidiState) (events' : list MidiEvent) (nRead : Z) :
  0 <= startIndex ->
  ReadMidiEvents st outputBuffer startIndex sampleFrame reads
  = Ok (st', events', nRead) ->
  0 <= nRead <= bytes_delivered reads /\
  length events' = length outputBuffer /\
  (forall i e, startIndex <= Z.of_nat i < startIndex + nRead ->
               events' !! i = Some e -> time e = sampleFrame) /\
  (forall i, ~ (startIndex <= Z.of_nat i < startIndex + nRead) ->
             events' !! i = outputBuffer !! i).
Proof.
  intros Hstart. unfold ReadMidiEvents.
  set (st1 := set_sink st sampleFrame startIndex (Some outputBuffer)).
  destruct (FillInputBuffer st1 reads) as [st2| | | | |] eqn:Hfill;
    try discriminate.
  simpl rbind.
  destruct (FillInputBuffer_stamped reads st1 outputBuffer st2)
    as (events2 & Hp2 & Hf2 & Hi2 & Hl2 & Hnew & Hold);
    [destruct st; reflexivity|destruct st; exact Hstart|exact Hfill|].
  replace (inputSampleFrame st1) with sampleFrame in *
    by (destruct st; reflexivity).
  replace (inputEventBufferIndex st1) with startIndex in *
    by (destruct st; reflexivity).
  rewrite Hp2. intros [= _ <- <-].
  replace (startIndex + (inputEventBufferIndex st2 - startIndex))
    with (inputEventBufferIndex st2) by lia.
  split; [lia|]. split; [exact Hl2|]. split; [exact Hnew|exact Hold].
Qed.

(** The bytes all the endpoints deliver during one [ReadMidiData]. *)
Definition bytes_of_devices (midiDevices : list (MidiState * list RawMidiRead))
  : Z :=
  fold_right (fun d n => bytes_delivered (snd d) + n) 0 midiDevices.

Lemma ReadMidiData_stamped
    (midiDevices : list (MidiState * list RawMidiRead)) (audioFrame : Z) :
  Forall (fun d => decoder_ok (fst d) /\ Forall delivers_bytes (snd d))
    midiDevices ->
  forall (midiEvents : list MidiEvent) (midiEventCount : Z),
    buffers_ok midiEvents ->
    0 <= midiEventCount <= Z.of_nat (length midiEvents) ->
    exists devices' midiEvents' midiEventCount',
      ReadMidiData midiDevices midiEvents midiEventCount audioFrame
      = Ok (devices', midiEvents', midiEventCount') /\
      length devices' = length midiDevices /\
      midiEventCount <= midiEventCount'
      <= midiEventCount + bytes_of_devices midiDevices /\
      midiEventCount' <= Z.of_nat (length midiEvents) /\
      length midiEvents' = length midiEvents /\
      (forall i e, midiEventCount <= Z.of_nat i < midiEventCount' ->
                   midiEvents' !! i = Some e -> time e = audioFrame) /\
      (forall i, ~ (midiEventCount <= Z.of_nat i < midiEventCount') ->
                 midiEvents' !! i = midiEvents !! i).
Proof.
  induction 1 as [|[dev reads] rest [Hd Hr] _ IH];
    intros midiEvents midiEventCount Hb Hc; simpl.
  - exists [], midiEvents, midiEventCount.
    repeat split; auto; try lia.
  - simpl in Hd, Hr.
    destruct (ReadMidiEvents_ok dev midiEvents midiEventCount audioFrame
                reads Hd Hr Hb Hc)
      as (dev' & events1 & nRead & Hread & Hd' & Hb1 & Hi1 & Hg1).
    destruct (ReadMidiEvents_stamped _ _ _ _ _ _ _ _ (proj1 Hc) Hread)
      as (Hn & Hl1 & Hnew1 & Hold1).
    rewrite Hread. simpl rbind.
    destruct (IH events1 (midiEventCount + nRead) Hb1 ltac:(lia)) as
      (devs' & events2 & count2 & Hrest & Hlen & Hc2 & Hi2 & Hl2 & Hnew2 & Hold2).
    rewrite Hrest. simpl rbind.
    eexists _, _, _. split; [reflexivity|].
    split; [simpl; congruence|]. split; [lia|]. split; [lia|].
    split; [congruence|]. split.
    + intros i e Hi He.
      destruct (Z_lt_dec (Z.of_nat i) (midiEventCount + nRead)) as [Hlt|Hge].
      * apply (Hnew1 i e); [lia|]. rewrite <- Hold2 by lia. exact He.
      * apply (Hnew2 i e); [lia|exact He].
    + intros i Hi. rewrite Hold2 by lia. apply Hold1. lia.
Qed.

(** X4: every event [ReadMidiData] stores during a call carries the audio
    frame of that call as its time, whichever endpoint it came from. *)
Theorem midi_events_carry_the_audio_frame
    (midiDevices : list (MidiState * list RawMidiRead))
    (midiEvents : list MidiEvent) (midiEventCount audioFrame : Z) :
  Forall (fun d => decoder_ok (fst d) /\ Forall delivers_bytes (snd d))
    midiDevices ->
  buffers_ok midiEvents ->
  0 <= midiEventCount <= Z.of_nat (length midiEvents) ->
  exists devices' midiEvents' midiEventCount',
    ReadMidiData midiDevices midiEvents midiEventCount audioFrame
    = Ok (devices', midiEvents', midiEventCount') /\
    forall i e, midiEventCount <= Z.of_nat i < midiEventCount' ->
                midiEvents' !! i = Some e -> time e = audioFrame.
Proof.
  intros Hdev Hb Hc.
  destruct (ReadMidiData_stamped midiDevices audioFrame Hdev midiEvents
              midiEventCount Hb Hc)
    as (devices' & midiEvents' & count' & Hrun & _ & _ & _ & _ & Hnew & _).
  exists devices', midiEvents', count'. auto.
Qed.

Lemma midi_events_carry_the_audio_frame_witness :
  exists devices' midiEvents' midiEventCount',
    ReadMidiData [(Opened, [ReadBytes [144; 60]; ReadBytes [127; 62; 100]])]
      midiEvents_init 0 48
    = Ok (devices', midiEvents', midiEventCount') /\
    forall i e, 0 <= Z.of_nat i < midiEventCount' ->
                midiEvents' !! i = Some e -> time e = 48.
Proof.
  apply (midi_events_carry_the_audio_frame
           [(Opened, [ReadBytes [144; 60]; ReadBytes [127; 62; 100]])]
           midiEvents_init 0 48).
  - constructor; [|constructor]. split.
    + apply (attach_ok 0).
    + repeat (constructor; [exact I|]). constructor.
  - apply (attach_ok 0).
  - unfold midiEvents_init. rewrite length_replicate. vm_compute.
    intuition congruence.
Defined.

(** X5: a call of [ReadMidiData] stores at most one event for each byte the
    endpoints deliver, and none when they deliver nothing. *)
Theorem at_most_one_event_per_byte
    (midiDevices : list (MidiState * list RawMidiRead))
    (midiEvents : list MidiEvent) (midiEventCount audioFrame : Z) :
  Forall (fun d => decoder_ok (fst d) /\ Forall delivers_bytes (snd d))
    midiDevices ->
  buffers_ok midiEvents ->
  0 <= midiEventCount <= Z.of_nat (length midiEvents) ->
  exists devices' midiEvents' midiEventCount',
    ReadMidiData midiDevices midiEvents midiEventCount audioFrame
    = Ok (devices', midiEvents', midiEventCount') /\
    length devices' = length midiDevices /\
    midiEventCount <= midiEventCount'
    <= midiEventCount + bytes_of_devices midiDevices /\
    (bytes_of_devices midiDevices = 0 -> midiEvents' = midiEvents).
Proof.
  intros Hdev Hb Hc.
  destruct (ReadMidiData_stamped midiDevices audioFrame Hdev midiEvents
              midiEventCount Hb Hc)
    as (devices' & midiEvents' & count' & Hrun & Hlen & Hcount & _ & Hl & _ & Hold).
  exists devices', midiEvents', count'.
  split; [exact Hrun|]. split; [exact Hlen|]. split; [exact Hcount|].
  intros Hzero. apply list_eq. intros i. apply Hold. lia.
Qed.

Lemma at_most_one_event_per_byte_witness :
  exists devices' midiEvents' midiEventCount',
    ReadMidiData [(Opened, [ReadBytes [144; 60; 127]]); (Opened, [])]
      midiEvents_init 0 0
    = Ok (devices', midiEvents', midiEventCount') /\
    length devices'
    = length [(Opened, [ReadBytes [144; 60; 127]]); (Opened, [])] /\
    0 <= midiEventCount'
    <= 0 + bytes_of_devices
             [(Opened, [ReadBytes [144; 60; 127]]); (Opened, [])] /\
    (bytes_of_devices [(Opened, [ReadBytes [144; 60; 127]]); (Opened, [])] = 0 ->
     midiEvents' = midiEvents_init).
Proof.
  apply (at_most_one_event_per_byte
           [(Opened, [ReadBytes [144; 60; 127]]); (Opened, [])]
           midiEvents_init 0 0).
  - repeat (constructor; [split; [apply (attach_ok 0)|]|]).
    + repeat (constructor; [exact I|]). constructor.
    + constructor.
    + constructor.
  - apply (attach_ok 0).
  - unfold midiEvents_init. rewrite length_replicate. vm_compute.
    intuition congruence.
Defined.

Definition sysex_room (st : MidiState) : Prop :=
  0 <= inputSysexBufferCount st <= Z.of_nat (length (inputSysexBuffer st)).

Lemma process_byte_no_status (st : MidiState) (v : Z) :
  runningStatus st = 0 -> sysex_room st -> data_byte v ->
  exists st', process_byte st v = Ok (Next, st') /\
              runningStatus st' = 0 /\ sysex_room st' /\ same_sink st st' /\
              inputProcessingSysex st' = inputProcessingSysex st.
Proof.
  intros Hr Hc Hv. unfold data_byte, sysex_room in *. unfold process_byte.
  replace (128 <=? v) with false by (symmetry; apply Z.leb_gt; lia).
  destruct (inputProcessingSysex st) eqn:Hx.
  - destruct (Z.eqb_spec (inputSysexBufferCount st)
                (Z.of_nat (length (inputSysexBuffer st)))) as [Heq|Hne];
      simpl negb; cbv iota.
    + rewrite emit_if_complete_no_status by exact Hr.
      exists st. unfold same_sink. auto 10.
    + rewrite vec_set_ok by lia. simpl rbind.
      rewrite emit_if_complete_no_status by (destruct st; exact Hr).
      eexists. split; [reflexivity|].
      destruct st; unfold same_sink; simpl in *.
      rewrite length_insert. repeat split; auto; lia.
  - destruct (dataIndex st =? 0).
    + rewrite emit_if_complete_no_status by (destruct st; exact Hr).
      eexists. split; [reflexivity|].
      destruct st; unfold same_sink; simpl in *. auto 10.
    + destruct (dataIndex st =? 1).
      * rewrite emit_if_complete_no_status by (destruct st; exact Hr).
        eexists. split; [reflexivity|].
        destruct st; unfold same_sink; simpl in *. auto 10.
      * rewrite emit_if_complete_no_status by exact Hr.
        exists st. unfold same_sink. auto 10.
Qed.

(** X6: data bytes that arrive while the decoder has no status (after
    [Open], or after the F0 of a System Exclusive message) store nothing:
    the sink and its cursor are as they were, and the decoder still has no
    status. *)
Theorem data_bytes_without_status_are_dropped
    (st : MidiState) (payload : list Z) :
  runningStatus st = 0 ->
  0 <= inputSysexBufferCount st <= Z.of_nat (length (inputSysexBuffer st)) ->
  Forall data_byte payload ->
  exists st',
    ProcessInputBuffer st payload = Ok st' /\
    runningStatus st' = 0 /\
    pInputEventBuffer st' = pInputEventBuffer st /\
    inputEventBufferIndex st' = inputEventBufferIndex st.
Proof.
  intros Hr Hc Hp. revert st Hr Hc.
  induction Hp as [|v payload Hv _ IH]; intros st Hr Hc; simpl.
  - exists st. auto.
  - destruct (process_byte_no_status st v Hr Hc Hv)
      as (st1 & Hstep & Hr1 & Hc1 & (Hp1 & Hi1) & _).
    rewrite Hstep. simpl rbind.
    destruct (IH st1 Hr1 Hc1) as (st2 & Hrun & Hr2 & Hp2 & Hi2).
    exists st2. split; [exact Hrun|]. split; [exact Hr2|].
    split; congruence.
Qed.

Lemma data_bytes_without_status_are_dropped_witness :
  exists st',
    ProcessInputBuffer (attach Opened 0) [60; 127; 1; 2; 3] = Ok st' /\
    runningStatus st' = 0 /\
    pInputEventBuffer st' = pInputEventBuffer (attach Opened 0) /\
    inputEventBufferIndex st' = inputEventBufferIndex (attach Opened 0).
Proof.
  apply (data_bytes_without_status_are_dropped (attach Opened 0)
           [60; 127; 1; 2; 3]).
  - reflexivity.
  - vm_compute. intuition congruence.
  - repeat (constructor; [unfold data_byte; lia|]). constructor.
Defined.

Lemma insert_after_written (w B : list Z) (v : Z) :
  (length w < length B)%nat ->
  <[length w := v]> (take (length B) w ++ drop (length w) B)
  = take (length B) (w ++ [v]) ++ drop (S (length w)) B.
Proof.
  intros Hlt.
  rewrite take_ge by lia.
  rewrite (take_ge (w ++ [v])) by (rewrite length_app; simpl; lia).
  rewrite insert_app_r_alt by lia. rewrite Nat.sub_diag.
  destruct (drop (length w) B) as [|x rest] eqn:Hd.
  - apply (f_equal length) in Hd. rewrite length_drop in Hd. simpl in Hd. lia.
  - simpl. rewrite <- app_assoc. simpl. do 2 f_equal.
    replace (S (length w)) with (length w + 1)%nat by lia.
    rewrite <- drop_drop, Hd. reflexivity.
Qed.

(** X7: the bytes of a System Exclusive message go to the scratch buffer
    until it is full; what does not fit is dropped without an error, and the
    count never passes the size of the buffer. *)
Theorem sysex_scratch_buffer_is_truncated (st : MidiState) (payload : list Z) :
  (0 < length (inputSysexBuffer st))%nat ->
  Forall data_byte payload ->
  exists st',
    ProcessInputBuffer st (240 :: payload) = Ok st' /\
    inputProcessingSysex st' = true /\ runningStatus st' = 0 /\
    inputSysexBuffer st'
    = take (length (inputSysexBuffer st)) (240 :: payload)
      ++ drop (S (length payload)) (inputSysexBuffer st) /\
    inputSysexBufferCount st'
    = Z.of_nat (Nat.min (length (inputSysexBuffer st)) (S (length payload))).
Proof.
  intros Hlen. induction payload as [|v payload IH] using rev_ind; intros Hp.
  - destruct (process_byte_sysex_begin st ltac:(lia))
      as (s0 & Hstep & (Hx & Hr & _) & _).
    exists s0. simpl. rewrite Hstep. simpl rbind.
    split; [reflexivity|]. split; [exact Hx|]. split; [exact Hr|].
    revert Hstep. unfold process_byte. simpl (128 <=? 240).
    simpl (240 <=? 240). simpl (240 =? 240). cbv iota.
    rewrite vec_set_ok by (destruct st; simpl in *; lia). simpl rbind.
    rewrite emit_if_complete_no_status by reflexivity.
    intros [= <-]. destruct st as [? ? ? ? ? ? ? buf ? ? ?]; simpl in *.
    destruct buf as [|b B]; [simpl in Hlen; lia|].
    simpl. rewrite take_nil, drop_0. split; [reflexivity|]. lia.
  - apply Forall_app in Hp as [Hp Hv]. apply Forall_cons in Hv as [Hv _].
    destruct (IH Hp) as (s1 & Hrun & Hx & Hr & Hbuf & Hcount).
    change (240 :: payload ++ [v]) with ((240 :: payload) ++ [v]).
    rewrite ProcessInputBuffer_app, Hrun. simpl rbind.
    simpl ProcessInputBuffer. unfold process_byte. unfold data_byte in Hv.
    replace (128 <=? v) with false by (symmetry; apply Z.leb_gt; lia).
    rewrite Hx.
    assert (Hlen1 : length (inputSysexBuffer s1) = length (inputSysexBuffer st)).
    { rewrite Hbuf, length_app, length_take, length_drop. simpl length. lia. }
    set (L := length (inputSysexBuffer st)) in *.
    set (w := 240 :: payload) in *.
    assert (Hw : length w = S (length payload)) by reflexivity.
    rewrite <- Hw in *.
    rewrite length_app. simpl length.
    replace (S (length payload + 1)) with (S (length w)) by lia.
    assert (HL : length (inputSysexBuffer st) = L) by reflexivity.
    clearbody w L. clear Hw.
    destruct (Z.eqb_spec (inputSysexBufferCount s1)
                (Z.of_nat (length (inputSysexBuffer s1)))) as [Heq|Hne];
      simpl negb; cbv iota.
    + rewrite emit_if_complete_no_status by exact Hr. simpl rbind.
      exists s1. split; [reflexivity|]. split; [exact Hx|]. split; [exact Hr|].
      rewrite Hlen1, Hcount in Heq.
      assert (Hge : (L <= length w)%nat) by lia.
      split.
      * rewrite Hbuf. rewrite take_app_le by lia.
        rewrite !drop_ge by lia. reflexivity.
      * rewrite Hcount. lia.
    + rewrite Hlen1, Hcount in Hne.
      assert (Hlt : (length w < L)%nat) by lia.
      rewrite vec_set_ok by (rewrite Hlen1, Hcount; lia). simpl rbind.
      rewrite emit_if_complete_no_status by (destruct s1; exact Hr).
      simpl rbind. eexists. split; [reflexivity|].
      destruct s1 as [? ? ? ? ? ? cnt buf ? ? ?]; simpl in *.
      split; [exact Hx|]. split; [exact Hr|]. subst cnt buf.
      replace (Z.to_nat (Z.of_nat (L `min` length w))) with (length w) by lia.
      split; [|lia]. subst L. apply insert_after_written. exact Hlt.
Qed.

Lemma sysex_scratch_buffer_is_truncated_witness :
  exists st',
    ProcessInputBuffer (set_inputSysexBuffer Opened [0; 0; 0])
      (240 :: [1; 2; 3; 4]) = Ok st' /\
    inputProcessingSysex st' = true /\ runningStatus st' = 0 /\
    inputSysexBuffer st'
    = take (length (inputSysexBuffer (set_inputSysexBuffer Opened [0; 0; 0])))
        (240 :: [1; 2; 3; 4])
      ++ drop (S (length [1; 2; 3; 4]))
           (inputSysexBuffer (set_inputSysexBuffer Opened [0; 0; 0])) /\
    inputSysexBufferCount st'
    = Z.of_nat (Nat.min
                  (length (inputSysexBuffer
                             (set_inputSysexBuffer Opened [0; 0; 0])))
                  (S (length [1; 2; 3; 4]))).
Proof.
  apply (sysex_scratch_buffer_is_truncated
           (set_inputSysexBuffer Opened [0; 0; 0]) [1; 2; 3; 4]).
  - simpl. lia.
  - repeat (constructor; [unfold data_byte; lia|]). constructor.
Defined.

End MidiStreams.

(** ** Laws of the sample conversions *)

Section CodecLaws.
Import Codec.

(** The format of the same samples in the other byte order. *)
Definition other_endian (f : PcmFormat) : PcmFormat :=
  match f with
  | FLOAT_LE => FLOAT_BE | FLOAT_BE => FLOAT_LE
  | S32_LE => S32_BE | S32_BE => S32_LE
  | S24_LE => S24_BE | S24_BE => S24_LE
  | S24_3LE => S24_3BE | S24_3BE => S24_3LE
  | S16_LE => S16_BE | S16_BE => S16_LE
  end.

Lemma store_int16_swapped (v : Z) :
  store_int16 (EndianSwap16 v) = rev (store_int16 v).
Proof.
  rewrite EndianSwap16_bytes. unfold store_int16, uint8, int16. simpl rev.
  f_equal; [|f_equal]; Z.div_mod_to_equations; lia.
Qed.

Lemma store_int32_swapped (v : Z) :
  store_int32 (EndianSwap32 v) = rev (store_int32 v).
Proof.
  rewrite EndianSwap32_bytes. unfold store_int32, uint8, int32. simpl rev.
  change (2 ^ 8) with 256. change (2 ^ 16) with 65536.
  change (2 ^ 24) with 16777216.
  f_equal; [|f_equal; [|f_equal; [|f_equal]]]; Z.div_mod_to_equations; lia.
Qed.

Lemma store_int32_int32 (v : Z) : store_int32 (int32 v) = store_int32 v.
Proof.
  unfold store_int32, uint8, int32.
  f_equal; [|f_equal; [|f_equal; [|f_equal]]]; Z.div_mod_to_equations; lia.
Qed.

Lemma rbind_rev_rev (r : Result (list Z)) :
  (do a <- (do b <- r ; Ok (rev b)) ; Ok (rev a)) = r.
Proof. destruct r; simpl; try reflexivity. rewrite rev_involutive. reflexivity. Qed.

Lemma playback_be_is_reversed_le (f : PcmFormat) (v : float) :
  In f [FLOAT_LE; S32_LE; S24_LE; S24_3LE; S16_LE] ->
  copyOutputFn_sample (other_endian f) v
  = do bytes <- copyOutputFn_sample f v ; Ok (rev bytes).
Proof.
  intros Hf. simpl in Hf.
  destruct Hf as [<-|[<-|[<-|[<-|[<-|[]]]]]]; simpl.
  - unfold CopyPlaybackFloatBe_sample, CopyPlaybackFloatLe_sample, store_float.
    simpl rbind. rewrite store_int32_swapped, store_int32_int32. reflexivity.
  - unfold CopyPlaybackS32Be_sample, CopyPlaybackS32Le_sample.
    destruct (quantize32 v); simpl; try reflexivity.
    rewrite store_int32_swapped. reflexivity.
  - unfold CopyPlaybackS24Be_sample, CopyPlaybackS24Le_sample.
    destruct (quantize24 v); simpl; try reflexivity.
    rewrite store_int32_swapped. reflexivity.
  - unfold CopyPlaybackS24_3Be_sample, CopyPlaybackS24_3Le_sample.
    destruct (quantize32 v); reflexivity.
  - unfold CopyPlaybackS16Be_sample, CopyPlaybackS16Le_sample.
    destruct (quantize16 v); simpl; try reflexivity.
    rewrite store_int16_swapped. reflexivity.
Qed.

(** X8: for every format and every sample, the playback function of the
    other byte order writes the same bytes in reverse order, and fails
    where this one fails. *)
Theorem playback_bytes_reverse_with_the_byte_order (f : PcmFormat) (v : float) :
  copyOutputFn_sample (other_endian f) v
  = do bytes <- copyOutputFn_sample f v ; Ok (rev bytes).
Proof.
  destruct f;
    first [ apply playback_be_is_reversed_le; simpl; tauto
          | match goal with
            | |- copyOutputFn_sample (other_endian ?g) _ = _ =>
                rewrite (playback_be_is_reversed_le (other_endian g))
                  by (simpl; tauto);
                symmetry; apply rbind_rev_rev
            end ].
Qed.

(** A word without its wrap-around: the value of four bytes and the carry
    [int32] takes off. *)
Lemma int32_of_bytes (b0 b1 b2 b3 : Z) :
  is_byte b0 -> is_byte b1 -> is_byte b2 -> is_byte b3 ->
  exists c, 0 <= c <= 1 /\
    int32 (b0 + 256 * b1 + 65536 * b2 + 16777216 * b3)
    = b0 + 256 * b1 + 65536 * b2 + 16777216 * b3 - 4294967296 * c.
Proof.
  unfold is_byte. intros H0 H1 H2 H3.
  destruct (Z_lt_dec b3 128) as [Hlo|Hhi].
  - exists 0. split; [lia|]. rewrite int32_small by lia. lia.
  - exists 1. split; [lia|]. unfold int32.
    rewrite <- (Z.mod_unique_pos
               (b0 + 256 * b1 + 65536 * b2 + 16777216 * b3 + 2147483648)
               4294967296 1
               (b0 + 256 * b1 + 65536 * b2 + 16777216 * b3 - 2147483648))
      by lia.
    lia.
Qed.

Lemma bytes_of_int32 (b0 b1 b2 b3 : Z) :
  is_byte b0 -> is_byte b1 -> is_byte b2 -> is_byte b3 ->
  let v := int32 (b0 + 256 * b1 + 65536 * b2 + 16777216 * b3) in
  v mod 256 = b0 /\ (v / 256) mod 256 = b1 /\
  (v / 65536) mod 256 = b2 /\ (v / 16777216) mod 256 = b3.
Proof.
  intros H0 H1 H2 H3 v.
  destruct (int32_of_bytes b0 b1 b2 b3 H0 H1 H2 H3) as (c & Hc & Hv).
  fold v in Hv. unfold is_byte in *.
  assert (E1 : v / 256 = b1 + 256 * b2 + 65536 * b3 - 16777216 * c)
    by (symmetry; apply (Z.div_unique_pos v 256 _ b0); lia).
  assert (E2 : v / 65536 = b2 + 256 * b3 - 65536 * c)
    by (symmetry; apply (Z.div_unique_pos v 65536 _ (b0 + 256 * b1)); lia).
  assert (E3 : v / 16777216 = b3 - 256 * c)
    by (symmetry;
        apply (Z.div_unique_pos v 16777216 _ (b0 + 256 * b1 + 65536 * b2)); lia).
  rewrite E1, E2, E3.
  split; [symmetry; apply (Z.mod_unique_pos v 256
            (b1 + 256 * b2 + 65536 * b3 - 16777216 * c)); lia|].
  split; [symmetry; apply (Z.mod_unique_pos _ 256
            (b2 + 256 * b3 - 65536 * c)); lia|].
  split; [symmetry; apply (Z.mod_unique_pos _ 256 (b3 - 256 * c)); lia|].
  symmetry; apply (Z.mod_unique_pos _ 256 (- c)); lia.
Qed.

Lemma load_int32_swapped (b0 b1 b2 b3 : Z) :
  is_byte b0 -> is_byte b1 -> is_byte b2 -> is_byte b3 ->
  EndianSwap32 (load_int32 [b0; b1; b2; b3]) = load_int32 [b3; b2; b1; b0].
Proof.
  intros H0 H1 H2 H3. rewrite EndianSwap32_bytes. unfold load_int32.
  change (2 ^ 8) with 256. change (2 ^ 16) with 65536.
  change (2 ^ 24) with 16777216.
  destruct (bytes_of_int32 b0 b1 b2 b3 H0 H1 H2 H3) as (E0 & E1 & E2 & E3).
  rewrite E0, E1, E2, E3.
  destruct (int32_of_bytes b3 b2 b1 b0 H3 H2 H1 H0) as (c & Hc & Hv).
  rewrite Hv. unfold is_byte in *.
  destruct (Z_lt_dec b0 128) as [Hlo|Hhi].
  - rewrite int32_small by lia.
    assert (c = 0) by (pose proof (int32_range (b3 + 256 * b2 + 65536 * b1
                                                + 16777216 * b0)); lia).
    lia.
  - assert (Hb : int32 (b0 * 16777216) = b0 * 16777216 - 4294967296).
    { unfold int32.
      rewrite <- (Z.mod_unique_pos (b0 * 16777216 + 2147483648) 4294967296 1
                 (b0 * 16777216 - 2147483648)) by lia. lia. }
    rewrite Hb.
    assert (c = 1) by (pose proof (int32_range (b3 + 256 * b2 + 65536 * b1
                                                + 16777216 * b0)); lia).
    lia.
Qed.

Lemma load_int16_swapped (b0 b1 : Z) :
  is_byte b0 -> is_byte b1 ->
  EndianSwap16 (load_int16 [b0; b1]) = load_int16 [b1; b0].
Proof.
  unfold is_byte. intros H0 H1. rewrite EndianSwap16_bytes.
  unfold load_int16.
  assert (Hc : exists c, 0 <= c <= 1 /\
                 int16 (b0 + 256 * b1) = b0 + 256 * b1 - 65536 * c).
  { destruct (Z_lt_dec b1 128) as [Hlo|Hhi].
    - exists 0. split; [lia|]. unfold int16.
      rewrite Z.mod_small by lia. lia.
    - exists 1. split; [lia|]. unfold int16.
      rewrite <- (Z.mod_unique_pos (b0 + 256 * b1 + 32768) 65536 1
                 (b0 + 256 * b1 - 32768)) by lia. lia. }
  destruct Hc as (c & Hc & Hv). rewrite Hv. change (2 ^ 8) with 256.
  assert (E1 : (b0 + 256 * b1 - 65536 * c) / 256 = b1 - 256 * c)
    by (symmetry; apply (Z.div_unique_pos _ 256 _ b0); lia).
  rewrite E1.
  rewrite <- (Z.mod_unique_pos (b0 + 256 * b1 - 65536 * c) 256
                (b1 - 256 * c) b0) by lia.
  rewrite <- (Z.mod_unique_pos (b1 - 256 * c) 256 (- c) b1) by lia.
  f_equal. lia.
Qed.

(** X9: on the bytes of one sample, the capture function of the other byte
    order reads what this one reads from the bytes in reverse order. *)
Theorem capture_reads_reversed_bytes (f : PcmFormat) (bytes : list Z) :
  length bytes = Z.to_nat (sample_size f) -> Forall is_byte bytes ->
  copyInputFn_sample (other_endian f) bytes
  = copyInputFn_sample f (rev bytes).
Proof.
  intros Hlen Hb.
  assert (H2 : sample_size f = 2 -> exists b0 b1,
               bytes = [b0; b1] /\ is_byte b0 /\ is_byte b1).
  { intros E. rewrite E in Hlen.
    destruct bytes as [|b0 [|b1 [|? ?]]]; try discriminate Hlen.
    exists b0, b1. inversion Hb as [|? ? H0 Hb']. inversion Hb'. auto. }
  assert (H3 : sample_size f = 3 -> exists b0 b1 b2, bytes = [b0; b1; b2]).
  { intros E. rewrite E in Hlen.
    destruct bytes as [|b0 [|b1 [|b2 [|? ?]]]]; try discriminate Hlen. eauto. }
  assert (H4 : sample_size f = 4 -> exists b0 b1 b2 b3,
               bytes = [b0; b1; b2; b3] /\ is_byte b0 /\ is_byte b1 /\
               is_byte b2 /\ is_byte b3).
  { intros E. rewrite E in Hlen.
    destruct bytes as [|b0 [|b1 [|b2 [|b3 [|? ?]]]]]; try discriminate Hlen.
    exists b0, b1, b2, b3. inversion Hb as [|? ? H0 Hb1].
    inversion Hb1 as [|? ? ? Hb2]. inversion Hb2 as [|? ? ? Hb3].
    inversion Hb3. auto 10. }
  destruct f; simpl other_endian; simpl copyInputFn_sample;
    try (destruct (H4 eq_refl) as (b0 & b1 & b2 & b3 & -> & B0 & B1 & B2 & B3));
    try (destruct (H3 eq_refl) as (b0 & b1 & b2 & ->));
    try (destruct (H2 eq_refl) as (b0 & b1 & -> & B0 & B1));
    simpl rev;
    unfold CopyCaptureFloatBe_sample, CopyCaptureFloatLe_sample, load_float,
      CopyCaptureS32Be_sample, CopyCaptureS32Le_sample,
      CopyCaptureS24Be_sample, CopyCaptureS24Le_sample,
      CopyCaptureS24_3Be_sample, CopyCaptureS24_3Le_sample,
      CopyCaptureS16Be_sample, CopyCaptureS16Le_sample;
    rewrite ?load_int32_swapped, ?load_int16_swapped by assumption;
    try reflexivity.
Qed.

Lemma capture_reads_reversed_bytes_witness :
  copyInputFn_sample (other_endian S16_LE) [1; 128]
  = copyInputFn_sample S16_LE (rev [1; 128]).
Proof.
  apply (capture_reads_reversed_bytes S16_LE [1; 128]).
  - reflexivity.
  - repeat (constructor; [unfold is_byte; lia|]). constructor.
Defined.

(** The product of the capture functions, [scale * v] with [scale] a power
    of two, for an integer the conversion to float keeps as it is. *)
Lemma capture_value (k t : Z) :
  0 <= k <= 31 -> exact_int t ->
  (Q_of_float (fmul (S754_finite false 8388608 (Z.opp k - 23)) (float_of_int t))
   == inject_Z t / inject_Z (2 ^ k))%Q.
Proof.
  intros Hk [Hd He].
  destruct (decode_scaled k t Hk Hd He) as [Hr Hs].
  rewrite (Q_of_float_scaled _ Hr), Hs.
  replace (2 ^ 149) with (2 ^ (149 - k) * 2 ^ k)
    by (rewrite <- Z.pow_add_r by lia; f_equal; lia).
  rewrite !inject_Z_mult.
  assert (H1 : 0 < 2 ^ (149 - k)) by (apply Z.pow_pos_nonneg; lia).
  assert (H2 : 0 < 2 ^ k) by (apply Z.pow_pos_nonneg; lia).
  field. split; intros H; unfold Qeq in H; simpl in H; lia.
Qed.

Lemma Q_fraction_range (t D : Z) :
  0 < D -> - D <= t < D ->
  (- (1) <= inject_Z t / inject_Z D)%Q /\ (inject_Z t / inject_Z D < 1)%Q.
Proof.
  intros HD Ht.
  assert (HDq : (0 < inject_Z D)%Q) by (rewrite <- (Zlt_Qlt 0); exact HD).
  split.
  - apply Qle_shift_div_l; [exact HDq|].
    change (- (1))%Q with (inject_Z (-1)).
    rewrite <- inject_Z_mult, <- Zle_Qle. lia.
  - apply Qlt_shift_div_r; [exact HDq|].
    change 1%Q with (inject_Z 1).
    rewrite <- inject_Z_mult, <- Zlt_Qlt. lia.
Qed.

(** The value of bytes read as an unsigned number, least significant byte
    first, and the signed value of its low [bits] bits. *)
Definition unsigned_le (bytes : list Z) : Z :=
  fold_right (fun b acc => b + 256 * acc) 0 bytes.

Definition twos_complement (bits u : Z) : Z :=
  if u <? 2 ^ (bits - 1) then u else u - 2 ^ bits.

Lemma load_int16_value (b0 b1 : Z) :
  is_byte b0 -> is_byte b1 ->
  load_int16 [b0; b1] = twos_complement 16 (unsigned_le [b0; b1]) /\
  -32768 <= load_int16 [b0; b1] < 32768.
Proof.
  unfold is_byte, load_int16, twos_complement, unsigned_le. simpl fold_right.
  intros H0 H1. change (2 ^ (16 - 1)) with 32768. change (2 ^ 16) with 65536.
  replace (b0 + 256 * (b1 + 256 * 0)) with (b0 + 256 * b1) by lia.
  unfold int16.
  destruct (Z.ltb_spec (b0 + 256 * b1) 32768) as [Hlo|Hhi].
  - rewrite Z.mod_small by lia. lia.
  - rewrite <- (Z.mod_unique_pos (b0 + 256 * b1 + 32768) 65536 1
                  (b0 + 256 * b1 - 32768)) by lia. lia.
Qed.

Lemma s24_3_value_value (p0 p1 p2 : Z) :
  is_byte p0 -> is_byte p1 -> is_byte p2 ->
  s24_3_value p0 p1 p2
  = 256 * twos_complement 24 (unsigned_le [p0; p1; p2]) /\
  -8388608 <= twos_complement 24 (unsigned_le [p0; p1; p2]) < 8388608.
Proof.
  unfold is_byte, twos_complement, unsigned_le. simpl fold_right.
  intros H0 H1 H2.
  change (2 ^ (24 - 1)) with 8388608. change (2 ^ 24) with 16777216.
  replace (p0 + 256 * (p1 + 256 * (p2 + 256 * 0)))
    with (p0 + 256 * p1 + 65536 * p2) by lia.
  unfold s24_3_value. rewrite !Z.shiftl_mul_pow2 by lia.
  change (2 ^ 8) with 256. change (2 ^ 16) with 65536.
  change (2 ^ 24) with 16777216.
  rewrite (int32_small (p0 * 256)) by lia.
  rewrite (int32_small (p1 * 65536)) by lia.
  rewrite (int32_small (p0 * 256 + p1 * 65536)) by lia.
  assert (Hhi : exists h, -128 <= h < 128 /\
                  int32 (p2 * 16777216) = h * 2 ^ 24 /\
                  h = if p2 <? 128 then p2 else p2 - 256).
  { destruct (Z.ltb_spec p2 128) as [Hlo|Hge].
    - exists p2. rewrite int32_small by lia. lia.
    - exists (p2 - 256). split; [lia|]. split; [|reflexivity]. unfold int32.
      rewrite <- (Z.mod_unique_pos (p2 * 16777216 + 2147483648) 4294967296 1
                    (p2 * 16777216 - 2147483648)) by lia. lia. }
  destruct Hhi as (h & Hh & Hv & Hdef). rewrite Hv.
  rewrite Z.lor_comm, (lor_high_low h (p0 * 256 + p1 * 65536) 24) by lia.
  change (2 ^ 24) with 16777216.
  destruct (Z.ltb_spec p2 128) as [Hlo|Hge];
    destruct (Z.ltb_spec (p0 + 256 * p1 + 65536 * p2) 8388608) as [Hl|Hg];
    lia.
Qed.

(** X10: the 16-bit and the packed 24-bit capture functions are exact:
    the sample they store is the signed integer of the bytes over 2 ^ 15,
    or over 2 ^ 23, with no rounding, and lies in [-1, 1). *)
Theorem capture_of_16_and_packed_24_bit_is_exact (bytes : list Z) :
  Forall is_byte bytes ->
  (length bytes = 2%nat ->
   (Q_of_float (copyInputFn_sample S16_LE bytes)
    == inject_Z (twos_complement 16 (unsigned_le bytes)) / 32768)%Q /\
   (Q_of_float (copyInputFn_sample S16_BE bytes)
    == inject_Z (twos_complement 16 (unsigned_le (rev bytes))) / 32768)%Q /\
   (- (1) <= Q_of_float (copyInputFn_sample S16_LE bytes) < 1)%Q /\
   (- (1) <= Q_of_float (copyInputFn_sample S16_BE bytes) < 1)%Q) /\
  (length bytes = 3%nat ->
   (Q_of_float (copyInputFn_sample S24_3LE bytes)
    == inject_Z (twos_complement 24 (unsigned_le bytes)) / 8388608)%Q /\
   (Q_of_float (copyInputFn_sample S24_3BE bytes)
    == inject_Z (twos_complement 24 (unsigned_le (rev bytes))) / 8388608)%Q /\
   (- (1) <= Q_of_float (copyInputFn_sample S24_3LE bytes) < 1)%Q /\
   (- (1) <= Q_of_float (copyInputFn_sample S24_3BE bytes) < 1)%Q).
Proof.
  intros Hb.
  assert (H16 : forall b0 b1, is_byte b0 -> is_byte b1 ->
    (Q_of_float (fmul capture_scale16 (float_of_int (load_int16 [b0; b1])))
     == inject_Z (twos_complement 16 (unsigned_le [b0; b1])) / 32768)%Q /\
    (- (1) <= Q_of_float
                (fmul capture_scale16 (float_of_int (load_int16 [b0; b1])))
     < 1)%Q).
  { intros b0 b1 B0 B1.
    destruct (load_int16_value b0 b1 B0 B1) as [Hv Hr].
    change capture_scale16 with (S754_finite false 8388608 (Z.opp 15 - 23)).
    rewrite (capture_value 15 _ ltac:(lia))
      by (apply exact_int_small; change (2 ^ 24) with 16777216; lia).
    rewrite <- Hv. change (inject_Z (2 ^ 15)) with 32768%Q.
    split; [reflexivity|].
    apply (Q_fraction_range _ 32768); lia. }
  assert (H24 : forall p0 p1 p2, is_byte p0 -> is_byte p1 -> is_byte p2 ->
    (Q_of_float (fmul capture_scale32 (float_of_int (s24_3_value p0 p1 p2)))
     == inject_Z (twos_complement 24 (unsigned_le [p0; p1; p2])) / 8388608)%Q /\
    (- (1) <= Q_of_float
                (fmul capture_scale32 (float_of_int (s24_3_value p0 p1 p2)))
     < 1)%Q).
  { intros p0 p1 p2 B0 B1 B2.
    destruct (s24_3_value_value p0 p1 p2 B0 B1 B2) as [Hv Hr].
    set (t := twos_complement 24 (unsigned_le [p0; p1; p2])) in *.
    change capture_scale32 with (S754_finite false 8388608 (Z.opp 31 - 23)).
    rewrite (capture_value 31 _ ltac:(lia)).
    2: { apply exact_int_multiple_of_256.
         - change (2 ^ 31) with 2147483648. lia.
         - rewrite Hv, Z.mul_comm. apply Z.mod_mul. lia. }
    rewrite Hv. change (inject_Z (2 ^ 31)) with (inject_Z (256 * 8388608)).
    assert (E : (inject_Z (256 * t) / inject_Z (256 * 8388608)
                 == inject_Z t / 8388608)%Q).
    { rewrite !inject_Z_mult. change (inject_Z 8388608) with 8388608%Q.
      field. }
    rewrite E. split; [reflexivity|].
    apply (Q_fraction_range t 8388608); lia. }
  split; intros Hlen.
  - destruct bytes as [|b0 [|b1 [|? ?]]]; try discriminate Hlen.
    inversion Hb as [|? ? B0 Hb']. inversion Hb' as [|? ? B1 _]. subst.
    simpl copyInputFn_sample. simpl rev.
    unfold CopyCaptureS16Le_sample, CopyCaptureS16Be_sample.
    rewrite load_int16_swapped by assumption.
    destruct (H16 b0 b1 B0 B1) as [E1 R1].
    destruct (H16 b1 b0 B1 B0) as [E2 R2]. auto.
  - destruct bytes as [|p0 [|p1 [|p2 [|? ?]]]]; try discriminate Hlen.
    inversion Hb as [|? ? B0 Hb1]. inversion Hb1 as [|? ? B1 Hb2].
    inversion Hb2 as [|? ? B2 _]. subst.
    simpl copyInputFn_sample. simpl rev.
    unfold CopyCaptureS24_3Le_sample, CopyCaptureS24_3Be_sample.
    destruct (H24 p0 p1 p2 B0 B1 B2) as [E1 R1].
    destruct (H24 p2 p1 p0 B2 B1 B0) as [E2 R2]. auto.
Qed.

(** The 16-bit little-endian bytes of -16384. *)
Definition minus_half_bytes : list Z := [0; 192].

Lemma capture_of_16_and_packed_24_bit_is_exact_witness :
  (Q_of_float (copyInputFn_sample S16_LE minus_half_bytes)
   == inject_Z (twos_complement 16 (unsigned_le minus_half_bytes)) / 32768)%Q.
Proof.
  assert (Hb : Forall is_byte [0; 192])
    by (repeat (constructor; [unfold is_byte; lia|]); constructor).
  destruct (capture_of_16_and_packed_24_bit_is_exact [0; 192] Hb) as [H16 _].
  exact (proj1 (H16 eq_refl)).
Defined.

Lemma Q_fraction_bounds (t D lo hi : Z) :
  0 < D -> lo * D <= t < hi * D ->
  (inject_Z lo <= inject_Z t / inject_Z D)%Q /\
  (inject_Z t / inject_Z D < inject_Z hi)%Q.
Proof.
  intros HD Ht.
  assert (HDq : (0 < inject_Z D)%Q) by (rewrite <- (Zlt_Qlt 0); exact HD).
  split.
  - apply Qle_shift_div_l; [exact HDq|].
    rewrite <- inject_Z_mult, <- Zle_Qle. lia.
  - apply Qlt_shift_div_r; [exact HDq|].
    rewrite <- inject_Z_mult, <- Zlt_Qlt. lia.
Qed.

Lemma capture24_word (t : Z) :
  - 16777216 <= t < 16777216 ->
  (Q_of_float (fmul capture_scale24 (float_of_int t))
   == inject_Z t / 16777216)%Q.
Proof.
  intros Ht.
  change capture_scale24 with (S754_finite false 8388608 (Z.opp 24 - 23)).
  rewrite (capture_value 24 t ltac:(lia)); [reflexivity|].
  destruct (Z.eq_dec t (-16777216)) as [->|Hne].
  - apply exact_int_multiple_of_256; [|reflexivity].
    change (2 ^ 31) with 2147483648. lia.
  - apply exact_int_small. change (2 ^ 24) with 16777216. lia.
Qed.

(** X11: the capture functions of the 24-bit samples stored in four bytes
    divide the whole 32-bit word by 2 ^ 24, so the sign of the sample is the
    sign of the fourth byte and bit 23 is a value bit: with the fourth byte
    0 the sample is in [0, 1), with the fourth byte FF it is in [-1, 0). *)
Theorem capture_of_24_in_32_bit_reads_the_whole_word (b0 b1 b2 : Z) :
  is_byte b0 -> is_byte b1 -> is_byte b2 ->
  let u := unsigned_le [b0; b1; b2] in
  (Q_of_float (copyInputFn_sample S24_LE [b0; b1; b2; 0%Z])
   == inject_Z u / 16777216)%Q /\
  (Q_of_float (copyInputFn_sample S24_BE [0%Z; b2; b1; b0])
   == inject_Z u / 16777216)%Q /\
  (0 <= inject_Z u / 16777216 < 1)%Q /\
  (Q_of_float (copyInputFn_sample S24_LE [b0; b1; b2; 255%Z])
   == inject_Z (u - 16777216) / 16777216)%Q /\
  (Q_of_float (copyInputFn_sample S24_BE [255%Z; b2; b1; b0])
   == inject_Z (u - 16777216) / 16777216)%Q /\
  (- (1) <= inject_Z (u - 16777216) / 16777216 < 0)%Q.
Proof.
  intros B0 B1 B2 u.
  assert (Hu : u = b0 + 256 * b1 + 65536 * b2)
    by (unfold u, unsigned_le; simpl; lia).
  assert (Z0 : is_byte 0) by (unfold is_byte; lia).
  assert (Z255 : is_byte 255) by (unfold is_byte; lia).
  assert (Hur : 0 <= u < 16777216) by (unfold is_byte in *; lia).
  assert (E0 : load_int32 [b0; b1; b2; 0] = u).
  { unfold load_int32. rewrite int32_small; unfold is_byte in *; lia. }
  assert (E255 : load_int32 [b0; b1; b2; 255] = u - 16777216).
  { destruct (int32_of_bytes b0 b1 b2 255 B0 B1 B2 Z255) as (c & Hc & Hv).
    unfold load_int32. rewrite Hv.
    pose proof (int32_range (b0 + 256 * b1 + 65536 * b2 + 16777216 * 255)).
    rewrite Hv in H. unfold is_byte in *. lia. }
  simpl copyInputFn_sample.
  unfold CopyCaptureS24Le_sample, CopyCaptureS24Be_sample.
  rewrite (load_int32_swapped 0 b2 b1 b0), (load_int32_swapped 255 b2 b1 b0)
    by assumption.
  rewrite E0, E255.
  split; [apply capture24_word; lia|]. split; [apply capture24_word; lia|].
  split; [apply (Q_fraction_bounds u 16777216 0 1); lia|].
  split; [apply capture24_word; lia|]. split; [apply capture24_word; lia|].
  apply (Q_fraction_bounds (u - 16777216) 16777216 (-1) 0); lia.
Qed.

Lemma capture_of_24_in_32_bit_reads_the_whole_word_witness :
  let u := unsigned_le [255; 255; 255] in
  (Q_of_float (copyInputFn_sample S24_LE [255; 255; 255; 0]%Z)
   == inject_Z u / 16777216)%Q /\
  (Q_of_float (copyInputFn_sample S24_BE [0; 255; 255; 255]%Z)
   == inject_Z u / 16777216)%Q /\
  (0 <= inject_Z u / 16777216 < 1)%Q /\
  (Q_of_float (copyInputFn_sample S24_LE [255; 255; 255; 255]%Z)
   == inject_Z (u - 16777216) / 16777216)%Q /\
  (Q_of_float (copyInputFn_sample S24_BE [255; 255; 255; 255]%Z)
   == inject_Z (u - 16777216) / 16777216)%Q /\
  (- (1) <= inject_Z (u - 16777216) / 16777216 < 0)%Q.
Proof.
  apply (capture_of_24_in_32_bit_reads_the_whole_word 255 255 255);
    unfold is_byte; lia.
Defined.

(** A 16-bit sample through the capture and then the playback conversion. *)
Definition through16 (i : Z) : Result Z :=
  quantize16 (fmul capture_scale16 (float_of_int i)).

Definition loses_one_step (i : Z) : bool :=
  match through16 i with
  | Ok t => t =? i - Z.sgn i
  | _ => false
  end.

Fixpoint all_from (n : nat) (i : Z) : bool :=
  match n with
  | O => true
  | S n' => loses_one_step i && all_from n' (i + 1)
  end.

Lemma all_from_spec (n : nat) :
  forall i, all_from n i = true ->
    forall j, i <= j < i + Z.of_nat n -> loses_one_step j = true.
Proof.
  induction n as [|n IH]; intros i Hall j Hj; [lia|].
  simpl in Hall. apply andb_prop in Hall as [Hi Hrest].
  destruct (Z.eq_dec j i) as [->|Hne]; [exact Hi|].
  apply (IH (i + 1) Hrest). lia.
Qed.

Lemma all_16_bit_samples : all_from (Z.to_nat 65536) (-32768) = true.
Proof. vm_compute. reflexivity. Qed.

(** X12: a 16-bit sample that is captured and played back unchanged does
    not keep its value: the capture divides by 32768, the playback multiplies
    by 32767 and cuts toward zero, so every sample but 0 comes back one step
    nearer to zero. *)
Theorem sixteen_bit_pass_through_loses_one_step (bytes : list Z) :
  length bytes = 2%nat -> Forall is_byte bytes ->
  -32768 <= load_int16 bytes < 32768 /\
  copyOutputFn_sample S16_LE (copyInputFn_sample S16_LE bytes)
  = Ok (store_int16 (load_int16 bytes - Z.sgn (load_int16 bytes))).
Proof.
  intros Hlen Hb.
  destruct bytes as [|b0 [|b1 [|? ?]]]; try discriminate Hlen.
  inversion Hb as [|? ? B0 Hb']. inversion Hb' as [|? ? B1 _]. subst.
  assert (Hr : -32768 <= load_int16 [b0; b1] < 32768).
  { unfold load_int16, int16.
    pose proof (Z.mod_pos_bound (b0 + 256 * b1 + 32768) 65536). lia. }
  split; [exact Hr|].
  pose proof (all_from_spec (Z.to_nat 65536) (-32768) all_16_bit_samples
                (load_int16 [b0; b1])) as Hone.
  rewrite Z2Nat.id in Hone by lia. specialize (Hone ltac:(lia)).
  unfold loses_one_step, through16 in Hone.
  simpl copyOutputFn_sample. simpl copyInputFn_sample.
  unfold CopyPlaybackS16Le_sample, CopyCaptureS16Le_sample.
  destruct (quantize16 _) as [t| | | | |]; try discriminate Hone.
  apply Z.eqb_eq in Hone. subst t. reflexivity.
Qed.

Lemma sixteen_bit_pass_through_loses_one_step_witness :
  -32768 <= load_int16 [0; 64] < 32768 /\
  copyOutputFn_sample S16_LE (copyInputFn_sample S16_LE [0; 64])
  = Ok (store_int16 (load_int16 [0; 64] - Z.sgn (load_int16 [0; 64]))).
Proof.
  apply (sixteen_bit_pass_through_loses_one_step [0; 64]).
  - reflexivity.
  - repeat (constructor; [unfold is_byte; lia|]). constructor.
Defined.

Lemma binary_round_aux_opp (s : bool) (m e : Z) :
  binary_round_aux prec emax (negb s) m e loc_Exact
  = fneg (binary_round_aux prec emax s m e loc_Exact).
Proof.
  unfold binary_round_aux.
  destruct (shr_fexp prec emax m e loc_Exact) as [mrs' e'].
  destruct (shr_fexp prec emax _ e' loc_Exact) as [mrs'' e''].
  destruct (shr_m mrs''); try reflexivity.
  destruct (e'' <=? emax - prec); reflexivity.
Qed.

Lemma fmul_fneg (x y : float) : fmul x (fneg y) = fneg (fmul x y).
Proof.
  destruct x as [sx|sx| |sx mx ex], y as [sy|sy| |sy my ey];
    try reflexivity; unfold fmul; simpl;
    rewrite ?xorb_negb_r, <- ?negb_xorb_r; try reflexivity.
  apply binary_round_aux_opp.
Qed.

Lemma truncate_fneg (x : float) :
  truncate (fneg x) = option_map Z.opp (truncate x).
Proof.
  destruct x as [s|s| |s m e]; try reflexivity.
  simpl. f_equal. destruct s; simpl; lia.
Qed.

Lemma valid_fneg (x : float) :
  valid_binary prec emax (fneg x) = valid_binary prec emax x.
Proof. destruct x; reflexivity. Qed.

Lemma scaled_fneg (x : float) : scaled (fneg x) = - scaled x.
Proof. destruct x as [s|s| |s m e]; try reflexivity. destruct s; simpl; lia. Qed.

Lemma fneg_involutive (x : float) : fneg (fneg x) = x.
Proof. destruct x as [s|s| |s m e]; simpl; rewrite ?negb_involutive; reflexivity. Qed.

(** The clamp of the opposite sample is the opposite of the clamp. *)
Lemma clamp_fneg (v : float) :
  valid_binary prec emax v = true -> v <> S754_nan ->
  clamp (fneg v) = fneg (clamp v).
Proof.
  intros Hv Hnan.
  destruct v as [s|s| |s m e]; try congruence.
  - destruct s; reflexivity.
  - destruct s; reflexivity.
  - assert (Hr : in_range (S754_finite s m e))
      by (simpl; apply valid_finite in Hv; lia).
    assert (Hv' : valid_binary prec emax (fneg (S754_finite s m e)) = true)
      by (rewrite valid_fneg; exact Hv).
    assert (Hr' : in_range (fneg (S754_finite s m e))) by exact Hr.
    unfold clamp.
    rewrite (fgt_one_spec _ Hv' Hr'), (flt_minus_one_spec _ Hv' Hr').
    rewrite (fgt_one_spec _ Hv Hr), (flt_minus_one_spec _ Hv Hr).
    rewrite scaled_fneg.
    destruct (Z.ltb_spec (2 ^ 149) (- scaled (S754_finite s m e)));
      destruct (Z.ltb_spec (- scaled (S754_finite s m e)) (- 2 ^ 149));
      destruct (Z.ltb_spec (2 ^ 149) (scaled (S754_finite s m e)));
      destruct (Z.ltb_spec (scaled (S754_finite s m e)) (- 2 ^ 149));
      try lia; reflexivity.
Qed.

Lemma int_of_float_fneg (bits : Z) (p : float) (t M : Z) :
  int_of_float bits p = Ok t -> - M <= t <= M -> M < 2 ^ (bits - 1) ->
  int_of_float bits (fneg p) = Ok (- t).
Proof.
  intros Hp Ht HM. apply int_of_float_Ok in Hp.
  apply int_of_float_truncate; [|lia].
  rewrite truncate_fneg, Hp. reflexivity.
Qed.

(** X13: the 16-bit and the four-byte 24-bit quantisations are odd: the
    opposite sample is quantised to the opposite integer, for every sample
    that is a number. *)
Theorem quantisation_is_odd (v : float) :
  valid_binary prec emax v = true -> v <> S754_nan ->
  exists t16 t24,
    quantize16 v = Ok t16 /\ quantize16 (fneg v) = Ok (- t16) /\
    quantize24 v = Ok t24 /\ quantize24 (fneg v) = Ok (- t24).
Proof.
  intros Hv Hnan.
  destruct (quantize16_total v Hv Hnan) as (t16 & H16 & R16).
  destruct (quantize24_total v Hv Hnan) as (t24 & H24 & R24).
  exists t16, t24. split; [exact H16|]. split; [|split; [exact H24|]].
  - unfold quantize16 in *. rewrite (clamp_fneg v Hv Hnan), fmul_fneg.
    apply (int_of_float_fneg 16 _ t16 INT16_MAX H16 R16). reflexivity.
  - unfold quantize24 in *. rewrite (clamp_fneg v Hv Hnan), fmul_fneg.
    apply (int_of_float_fneg 32 _ t24 S24_MAX H24 R24). reflexivity.
Qed.

Lemma quantisation_is_odd_witness :
  exists t16 t24,
    quantize16 (S754_finite false 12583168 (-24)) = Ok t16 /\
    quantize16 (fneg (S754_finite false 12583168 (-24))) = Ok (- t16) /\
    quantize24 (S754_finite false 12583168 (-24)) = Ok t24 /\
    quantize24 (fneg (S754_finite false 12583168 (-24))) = Ok (- t24).
Proof.
  apply (quantisation_is_odd (S754_finite false 12583168 (-24))).
  - reflexivity.
  - discriminate.
Defined.

End CodecLaws.

(** ** The sample format and the channel count a device is given *)

Section FormatNegotiation.
Import Config.

(** The device takes the format: both calls of
    [snd_pcm_hw_params_set_format] return 0. *)
Definition accepted (dev : AlsaPcm) (f : PcmFormat) : Prop :=
  hw_test_format dev f = 0 /\ hw_set_format dev f = 0.

(** The order in which the formats are tried. *)
Definition preference (native_big : bool) : list PcmFormat :=
  if native_big then beFormats ++ leFormats else leFormats ++ beFormats.

Lemma SetPreferredAlsaFormat_in_first (dev : AlsaPcm) (formats : list PcmFormat) :
  match SetPreferredAlsaFormat_in dev formats with
  | Some f => exists before after,
                formats = before ++ f :: after /\ accepted dev f /\
                Forall (fun g => ~ accepted dev g) before
  | None => Forall (fun g => ~ accepted dev g) formats
  end.
Proof.
  induction formats as [|f rest IH]; simpl; [constructor|].
  destruct ((hw_test_format dev f =? 0) && (hw_set_format dev f =? 0)) eqn:Hacc.
  - apply andb_prop in Hacc as [H1 H2]. apply Z.eqb_eq in H1, H2.
    exists [], rest. split; [reflexivity|]. split; [split; assumption|].
    constructor.
  - assert (Hno : ~ accepted dev f).
    { intros [H1 H2]. rewrite H1, H2 in Hacc. discriminate Hacc. }
    destruct (SetPreferredAlsaFormat_in dev rest) as [g|].
    + destruct IH as (before & after & -> & Hg & Hbefore).
      exists (f :: before), after. split; [reflexivity|].
      split; [exact Hg|]. constructor; assumption.
    + constructor; assumption.
Qed.

(** X14: the format chosen for a stream is the first one the device takes,
    in the order float, 32-bit, 24-bit in four bytes, packed 24-bit, 16-bit
    of the native byte order and then the same of the other byte order; no
    format is chosen only if the device takes none of the ten. *)
Theorem preferred_format_is_the_first_accepted
    (native_big : bool) (dev : AlsaPcm) :
  match SetPreferredAlsaFormat native_big dev with
  | Some f => exists before after,
                preference native_big = before ++ f :: after /\
                accepted dev f /\
                Forall (fun g => ~ accepted dev g) before
  | None => Forall (fun g => ~ accepted dev g) (preference native_big)
  end.
Proof.
  unfold SetPreferredAlsaFormat, preference.
  assert (H : forall first second,
    match match SetPreferredAlsaFormat_in dev first with
          | Some f => Some f
          | None => SetPreferredAlsaFormat_in dev second
          end with
    | Some f => exists before after,
                  first ++ second = before ++ f :: after /\
                  accepted dev f /\
                  Forall (fun g => ~ accepted dev g) before
    | None => Forall (fun g => ~ accepted dev g) (first ++ second)
    end).
  { intros first second.
    pose proof (SetPreferredAlsaFormat_in_first dev first) as H1.
    pose proof (SetPreferredAlsaFormat_in_first dev second) as H2.
    destruct (SetPreferredAlsaFormat_in dev first) as [f|].
    - destruct H1 as (before & after & -> & Hf & Hb).
      exists before, (after ++ second). rewrite <- app_assoc. auto.
    - destruct (SetPreferredAlsaFormat_in dev second) as [f|].
      + destruct H2 as (before & after & -> & Hf & Hb).
        exists (first ++ before), after. rewrite <- app_assoc.
        split; [reflexivity|]. split; [exact Hf|].
        apply Forall_app. split; assumption.
      + apply Forall_app. split; assumption. }
  destruct native_big; apply H.
Qed.

(** The device reports more than two channels and a minimum of one or two,
    and takes two channels when asked. *)
Definition stereo_offered (dev : AlsaPcm) : Prop :=
  2 < snd (hw_get_channels_max dev) /\
  0 < snd (hw_get_channels_min dev) <= 2 /\
  0 <= hw_test_channels dev 2.

(** X15: the channel count chosen when the caller asks for none is never
    above 1024. It is 2 when the device offers stereo among more channels
    and takes it. Otherwise it is the maximum the device reports, converted
    to [int], or 2 when that is above 1024; a reported maximum of 2 ^ 31 or
    more is negative after the conversion and is the count chosen. *)
Theorem default_channel_count_is_bounded (dev : AlsaPcm) (c : Z) :
  default_channels dev = inr c ->
  let m := int32 (snd (hw_get_channels_max dev)) in
  0 <= fst (hw_get_channels_max dev) /\ 0 <= fst (hw_get_channels_min dev) /\
  c <= 1024 /\
  (stereo_offered dev -> c = 2) /\
  (~ stereo_offered dev -> 1024 < m -> c = 2) /\
  (~ stereo_offered dev -> m <= 1024 -> c = m) /\
  (0 <= snd (hw_get_channels_max dev) < 2147483648 ->
   m = snd (hw_get_channels_max dev)) /\
  (2147483648 <= snd (hw_get_channels_max dev) < 4294967296 ->
   m = snd (hw_get_channels_max dev) - 4294967296 /\ m < 0).
Proof.
  unfold default_channels, stereo_offered.
  destruct (hw_get_channels_max dev) as [err_max channels_max].
  destruct (hw_get_channels_min dev) as [err_min channels_min]. simpl.
  intros H.
  assert (Hsmall : 0 <= channels_max < 2147483648 ->
                   int32 channels_max = channels_max).
  { intros Hr. unfold int32. rewrite Z.mod_small by lia. lia. }
  assert (Hbig : 2147483648 <= channels_max < 4294967296 ->
                 int32 channels_max = channels_max - 4294967296 /\
                 int32 channels_max < 0).
  { intros Hr. unfold int32.
    rewrite <- (Z.mod_unique_pos (channels_max + 2147483648) 4294967296 1
                  (channels_max - 2147483648)) by lia.
    lia. }
  revert H.
  destruct (Z.ltb_spec err_max 0) as [|Hmax]; [discriminate|].
  destruct (Z.ltb_spec err_min 0) as [|Hmin]; [discriminate|].
  destruct (Z.ltb_spec 2 channels_max) as [H2|H2];
    destruct (Z.leb_spec channels_min 2) as [Hm|Hm];
    destruct (Z.ltb_spec 0 channels_min) as [H0|H0]; simpl;
    destruct (Z.leb_spec 0 (hw_test_channels dev 2)) as [Ht|Ht];
    try (destruct (Z.ltb_spec 1024 2) as [Hbad|_]; [lia|]);
    destruct (Z.ltb_spec 1024 (int32 channels_max)) as [Hbig'|Hbig'];
    intros [= <-];
    (split; [exact Hmax|]); (split; [exact Hmin|]); (split; [lia|]);
    (split; [intros (? & ? & ?); lia || reflexivity|]);
    (split; [intros Hno ?; try reflexivity; try lia;
             exfalso; apply Hno; lia|]);
    (split; [intros Hno ?; try reflexivity; try lia;
             exfalso; apply Hno; lia|]);
    (split; [exact Hsmall|exact Hbig]).
Qed.

(** A device with one to eight channels that accepts every request. *)
Definition eight_channel_device : AlsaPcm :=
  mkPcm 0 0 (fun _ => 0) (fun _ => 0) (fun rate => (0, rate)) (0, 8) (0, 1)
    (fun _ => 0) (fun _ => 0) (fun frames => (0, frames)) (fun p => p)
    (fun p => (0, p)) 0 (fun _ => 0) (fun _ => 0) (fun _ => 0)
    (fun _ => 0) 0 0.

(** A device that reports as many channels as an [unsigned int] can hold,
    and no fewer. *)
Definition unbounded_device : AlsaPcm :=
  mkPcm 0 0 (fun _ => 0) (fun _ => 0) (fun rate => (0, rate))
    (0, 4294967295) (0, 4294967295)
    (fun _ => 0) (fun _ => 0) (fun frames => (0, frames)) (fun p => p)
    (fun p => (0, p)) 0 (fun _ => 0) (fun _ => 0) (fun _ => 0)
    (fun _ => 0) 0 0.

Lemma default_channel_count_is_bounded_witness :
  default_channels eight_channel_device = inr 2 /\
  (stereo_offered eight_channel_device -> 2 = 2) /\
  default_channels unbounded_device = inr (-1) /\
  (~ stereo_offered unbounded_device ->
   int32 (snd (hw_get_channels_max unbounded_device)) <= 1024 ->
   -1 = int32 (snd (hw_get_channels_max unbounded_device))).
Proof.
  pose proof (default_channel_count_is_bounded eight_channel_device 2 eq_refl)
    as (_ & _ & _ & H8 & _).
  pose proof (default_channel_count_is_bounded unbounded_device (-1) eq_refl)
    as (_ & _ & _ & _ & _ & Hu & _).
  split; [reflexivity|]. split; [exact H8|].
  split; [reflexivity|exact Hu].
Defined.

End FormatNegotiation.

(** ** Reading from and writing to the device *)

Section Transfers.
Import Transfer.

(** The answers keep the promise of the library: a transfer moves at most
    the frames it was asked for. [retry] is the answer the loop repeats the
    call on. *)
Fixpoint within_request (retry : Z -> bool) (answers : list Z) (frames : Z)
  : Prop :=
  match answers with
  | [] => True
  | r :: rest =>
      if retry r then within_request retry rest frames
      else if r <? 0 then True
      else r <= frames /\ within_request retry rest (frames - r)
  end.

(** The frames the first [n] calls moved: the answers that are no errors. *)
Definition moved (answers : list Z) (n : nat) : Z :=
  fold_right (fun r acc => if r <? 0 then acc else r + acc) 0 (take n answers).

Lemma moved_cons (a : Z) (rest : list Z) (n : nat) :
  moved (a :: rest) (S n) = (if a <? 0 then 0 else a) + moved rest n.
Proof. unfold moved. simpl. destruct (a <? 0); lia. Qed.

Lemma uint64_small (z : Z) : 0 <= z < 18446744073709551616 -> uint64 z = z.
Proof. intros H. unfold uint64. apply Z.mod_small. exact H. Qed.

(** X16: [WriteBuffer] asks every time for exactly the frames not yet
    written, from the byte where the last write ended, and repeats the call
    on [-EAGAIN]. It returns 0 when the device has taken all the frames, or
    the first other negative answer; it returns nothing positive, and goes on
    calling while frames are left. *)
Theorem WriteBuffer_writes_every_frame_once
    (frame_bytes : Z) (answers : list Z) :
  forall buf frames r calls,
    0 <= frames < 18446744073709551616 ->
    within_request (fun a => a =? - EAGAIN) answers frames ->
    WriteBuffer frame_bytes answers buf frames = (r, calls) ->
    (length calls <= length answers)%nat /\
    Forall (fun c => call_offset c + frame_bytes * call_frames c
                     = buf + frame_bytes * frames /\
                     0 < call_frames c <= frames) calls /\
    match r with
    | Returned v =>
        (v = 0 /\ moved answers (length calls) = frames) \/
        (v < 0 /\ v <> - EAGAIN /\ moved answers (length calls) < frames /\
         (0 < length calls)%nat /\
         answers !! (length calls - 1)%nat = Some v)
    | Running =>
        length calls = length answers /\
        moved answers (length calls) < frames
    end.
Proof.
  induction answers as [|a rest IH]; intros buf frames r calls Hf Hw.
  - simpl. destruct (Z.ltb_spec 0 frames) as [Hpos|Hz]; intros [= <- <-].
    + simpl. split; [lia|]. split; [constructor|]. unfold moved. simpl. lia.
    + split; [simpl; lia|]. split; [constructor|]. left. unfold moved.
      simpl. lia.
  - simpl WriteBuffer. destruct (Z.ltb_spec 0 frames) as [Hpos|Hz].
    2: { intros [= <- <-]. split; [simpl; lia|]. split; [constructor|].
         left. unfold moved. simpl. lia. }
    simpl in Hw.
    destruct (Z.eqb_spec a (- EAGAIN)) as [Hagain|Hnot].
    + destruct (WriteBuffer frame_bytes rest buf frames) as [r1 calls1] eqn:Hrun.
      intros [= <- <-].
      destruct (IH buf frames r1 calls1 Hf Hw Hrun) as (Hlen & Hcalls & Hres).
      split; [simpl; lia|]. split.
      { constructor; [simpl; lia|exact Hcalls]. }
      simpl length. rewrite moved_cons.
      replace (a <? 0) with true
        by (symmetry; apply Z.ltb_lt; subst a; reflexivity).
      rewrite Z.add_0_l. destruct r1 as [v|].
      * destruct Hres as [Hok|(Hv & Hne & Hlt & Hpos1 & Hlast)];
          [left; exact Hok|].
        right. split; [exact Hv|]. split; [exact Hne|]. split; [exact Hlt|].
        split; [lia|].
        replace (S (length calls1) - 1)%nat with (S (length calls1 - 1)) by lia.
        exact Hlast.
      * destruct Hres as [Hl Hlt]. split; [simpl; lia|exact Hlt].
    + destruct (Z.ltb_spec a 0) as [Hneg|Hnn].
      * intros [= <- <-]. split; [simpl; lia|]. split.
        { constructor; [simpl; lia|constructor]. }
        right. split; [exact Hneg|]. split; [exact Hnot|].
        simpl length. rewrite moved_cons.
        replace (a <? 0) with true by (symmetry; apply Z.ltb_lt; lia).
        unfold moved. simpl.
        split; [lia|]. split; [lia|reflexivity].
      * destruct Hw as [Hle Hw].
        rewrite uint64_small by lia.
        destruct (WriteBuffer frame_bytes rest (buf + a * frame_bytes)
                    (frames - a)) as [r1 calls1] eqn:Hrun.
        intros [= <- <-].
        destruct (IH (buf + a * frame_bytes) (frames - a) r1 calls1 ltac:(lia)
                    Hw Hrun) as (Hlen & Hcalls & Hres).
        split; [simpl; lia|]. split.
        { constructor; [simpl; lia|].
          eapply Forall_impl; [exact Hcalls|]. intros c [Hc1 Hc2]. simpl in *.
          split; [lia|lia]. }
        simpl length. rewrite moved_cons.
        replace (a <? 0) with false by (symmetry; apply Z.ltb_ge; lia).
        destruct r1 as [v|].
        -- destruct Hres as [[Hv Hmv]|(Hv & Hne & Hlt & Hpos1 & Hlast)].
           ++ left. split; [exact Hv|lia].
           ++ right. split; [exact Hv|]. split; [exact Hne|]. split; [lia|].
              split; [lia|].
              replace (S (length calls1) - 1)%nat
                with (S (length calls1 - 1)) by lia.
              exact Hlast.
        -- destruct Hres as [Hl Hlt]. split; [simpl; lia|lia].
Qed.

Lemma WriteBuffer_writes_every_frame_once_witness :
  WriteBuffer 8 [24; -11; 40] 0 64
  = (Returned 0, [mkCall 0 64; mkCall 192 40; mkCall 192 40]) /\
  moved [24; -11; 40] 3 = 64.
Proof.
  pose proof (WriteBuffer_writes_every_frame_once 8 [24; -11; 40] 0 64
                (Returned 0) [mkCall 0 64; mkCall 192 40; mkCall 192 40]
                ltac:(lia) ltac:(simpl; lia) eq_refl) as (_ & _ & H).
  split; [reflexivity|].
  destruct H as [[_ H]|(H & _)]; [exact H|lia].
Defined.

(** What [ReadBuffer] asks of the device and what it returns. *)
Lemma ReadBuffer_calls
    (frame_bytes : Z) (answers : list Z) :
  forall buffer frames r calls,
    0 < frames < 18446744073709551616 ->
    within_request (fun _ => false) answers frames ->
    ReadBuffer frame_bytes answers buffer frames = (r, calls) ->
    (length calls <= length answers)%nat /\
    Forall (fun c => call_offset c + frame_bytes * call_frames c
                     = buffer + frame_bytes * frames /\
                     0 < call_frames c <= frames) calls /\
    match r with
    | Returned v =>
        (0 < length calls)%nat /\
        answers !! (length calls - 1)%nat = Some v /\
        (0 <= v -> 0 < v /\ moved answers (length calls) = frames /\
                   v = frames - moved answers (length calls - 1))
    | Running =>
        length calls = length answers /\
        moved answers (length calls) < frames
    end.
Proof.
  induction answers as [|a rest IH]; intros buffer frames r calls Hf Hw.
  - simpl. intros [= <- <-]. split; [simpl; lia|]. split; [constructor|].
    split; [reflexivity|]. unfold moved. simpl. lia.
  - simpl ReadBuffer. simpl in Hw.
    destruct (Z.ltb_spec a 0) as [Hneg|Hnn].
    { intros [= <- <-]. split; [simpl; lia|]. split.
      { constructor; [simpl; lia|constructor]. }
      simpl length. split; [lia|]. split; [reflexivity|]. lia. }
    destruct Hw as [Hle Hw].
    assert (Hstep : forall buffer' frames' r1 calls1,
      frames' = frames - a ->
      0 < frames' ->
      ReadBuffer frame_bytes rest buffer' frames' = (r1, calls1) ->
      buffer' + frame_bytes * frames' = buffer + frame_bytes * frames ->
      (length (mkCall buffer frames :: calls1) <= length (a :: rest))%nat /\
      Forall (fun c => call_offset c + frame_bytes * call_frames c
                       = buffer + frame_bytes * frames /\
                       0 < call_frames c <= frames)
        (mkCall buffer frames :: calls1) /\
      match r1 with
      | Returned v =>
          (0 < length (mkCall buffer frames :: calls1))%nat /\
          (a :: rest) !! (length (mkCall buffer frames :: calls1) - 1)%nat
          = Some v /\
          (0 <= v -> 0 < v /\
                     moved (a :: rest) (length (mkCall buffer frames :: calls1))
                     = frames /\
                     v = frames
                         - moved (a :: rest)
                             (length (mkCall buffer frames :: calls1) - 1))
      | Running =>
          length (mkCall buffer frames :: calls1) = length (a :: rest) /\
          moved (a :: rest) (length (mkCall buffer frames :: calls1)) < frames
      end).
    { intros buffer' frames' r1 calls1 -> Hpos' Hrun Hend.
      destruct (IH buffer' (frames - a) r1 calls1 ltac:(lia) Hw Hrun)
        as (Hlen & Hcalls & Hres).
      split; [simpl; lia|]. split.
      { constructor; [simpl; lia|].
        eapply Forall_impl; [exact Hcalls|]. intros c [Hc1 Hc2]. simpl in *.
        split; lia. }
      simpl length. rewrite moved_cons.
      replace (a <? 0) with false by (symmetry; apply Z.ltb_ge; lia).
      destruct r1 as [v|].
      - destruct Hres as (Hpos1 & Hlast & Hcase).
        split; [lia|]. split.
        { replace (S (length calls1) - 1)%nat
            with (S (length calls1 - 1)) by lia. exact Hlast. }
        intros Hv. destruct (Hcase Hv) as (Hv0 & Hmv & Hsum).
        split; [exact Hv0|]. split; [lia|].
        replace (S (length calls1) - 1)%nat
          with (S (length calls1 - 1)) by lia.
        rewrite moved_cons.
        replace (a <? 0) with false by (symmetry; apply Z.ltb_ge; lia).
        lia.
      - destruct Hres as [Hl Hlt]. split; [simpl; lia|lia]. }
    destruct (Z.ltb_spec 0 a) as [Hpos|Hzero].
    + rewrite uint64_small by lia.
      destruct (Z.ltb_spec 0 (frames - a)) as [Hmore|Hdone].
      * destruct (ReadBuffer frame_bytes rest (buffer + a * frame_bytes)
                    (frames - a)) as [r1 calls1] eqn:Hrun.
        intros [= <- <-]. apply (Hstep _ _ _ _ eq_refl Hmore Hrun). lia.
      * intros [= <- <-]. split; [simpl; lia|]. split.
        { constructor; [simpl; lia|constructor]. }
        simpl length. split; [lia|]. split; [reflexivity|].
        intros _. split; [exact Hpos|]. unfold moved. simpl.
        replace (a <? 0) with false by (symmetry; apply Z.ltb_ge; lia).
        lia.
    + assert (a = 0) by lia. subst a.
      replace (0 <? frames) with true by (symmetry; apply Z.ltb_lt; lia).
      destruct (ReadBuffer frame_bytes rest buffer frames)
        as [r1 calls1] eqn:Hrun.
      intros [= <- <-].
      apply (Hstep buffer frames r1 calls1 ltac:(lia) ltac:(lia) Hrun).
      reflexivity.
Qed.

(** X17: [ReadBuffer] goes on reading, each time where the last read ended,
    until the frames asked for have all arrived or the device answers with
    an error, which it returns. On success it returns the count of its last
    read only: that is the number of frames asked for less what the earlier
    reads brought, so it is the whole number only when one read brought
    everything. *)
Theorem ReadBuffer_returns_the_last_count
    (frame_bytes : Z) (answers : list Z) :
  forall buffer frames r calls,
    0 < frames < 18446744073709551616 ->
    within_request (fun _ => false) answers frames ->
    ReadBuffer frame_bytes answers buffer frames = (r, calls) ->
    (length calls <= length answers)%nat /\
    Forall (fun c => call_offset c + frame_bytes * call_frames c
                     = buffer + frame_bytes * frames /\
                     0 < call_frames c <= frames) calls /\
    match r with
    | Returned v =>
        (0 < length calls)%nat /\
        answers !! (length calls - 1)%nat = Some v /\
        (0 <= v -> 0 < v /\ moved answers (length calls) = frames /\
                   v = frames - moved answers (length calls - 1))
    | Running =>
        length calls = length answers /\
        moved answers (length calls) < frames
    end.
Proof. exact (ReadBuffer_calls frame_bytes answers). Qed.

Lemma ReadBuffer_returns_the_last_count_witness :
  ReadBuffer 8 [40; 0; 24] 0 64
  = (Returned 24, [mkCall 0 64; mkCall 320 24; mkCall 320 24]) /\
  24 = 64 - moved [40; 0; 24] 2.
Proof.
  pose proof (ReadBuffer_returns_the_last_count 8 [40; 0; 24] 0 64
                (Returned 24) [mkCall 0 64; mkCall 320 24; mkCall 320 24]
                ltac:(lia) ltac:(simpl; lia) eq_refl) as (_ & _ & _ & _ & H).
  split; [reflexivity|]. exact (proj2 (proj2 (H ltac:(lia)))).
Defined.

End Transfers.

(** ** Port names and activation *)

Section PortNames.
Import Ports.

(** The value of a decimal numeral, after the digits that gave [acc]. *)
Fixpoint uint_value (acc : Z) (d : Decimal.uint) : Z :=
  match d with
  | Decimal.Nil => acc
  | Decimal.D0 d => uint_value (10 * acc) d
  | Decimal.D1 d => uint_value (10 * acc + 1) d
  | Decimal.D2 d => uint_value (10 * acc + 2) d
  | Decimal.D3 d => uint_value (10 * acc + 3) d
  | Decimal.D4 d => uint_value (10 * acc + 4) d
  | Decimal.D5 d => uint_value (10 * acc + 5) d
  | Decimal.D6 d => uint_value (10 * acc + 6) d
  | Decimal.D7 d => uint_value (10 * acc + 7) d
  | Decimal.D8 d => uint_value (10 * acc + 8) d
  | Decimal.D9 d => uint_value (10 * acc + 9) d
  end.

Lemma digits_value_chars (d : Decimal.uint) :
  forall acc, digits_value acc (chars_of_uint d) = uint_value acc d.
Proof.
  induction d; intros acc; simpl; try reflexivity;
    rewrite IHd; f_equal; lia.
Qed.

Lemma of_uint_acc_value (d : Decimal.uint) :
  forall acc, Zpos (Pos.of_uint_acc d acc) = uint_value (Zpos acc) d.
Proof.
  induction d; intros acc; simpl; try reflexivity;
    rewrite IHd; f_equal; lia.
Qed.

Lemma of_uint_value (d : Decimal.uint) :
  Z.of_N (Pos.of_uint d) = uint_value 0 d.
Proof.
  induction d; simpl; try reflexivity; try exact IHd;
    rewrite of_uint_acc_value; reflexivity.
Qed.

Lemma digits_value_decimal (i : Z) :
  0 <= i -> digits_value 0 (decimal i) = i.
Proof.
  intros Hi. unfold decimal. rewrite digits_value_chars.
  rewrite <- of_uint_value.
  change (Pos.of_uint (N.to_uint (Z.to_N i)))
    with (N.of_uint (N.to_uint (Z.to_N i))).
  rewrite DecimalN.Unsigned.of_to. lia.
Qed.

Lemma chars_of_uint_digits (d : Decimal.uint) :
  Forall (fun c => isdigit c = true) (chars_of_uint d).
Proof. induction d; simpl; constructor; auto. Qed.

Lemma find_last_of_none (s : list Z) (c : Z) :
  Forall (fun a => a <> c) s -> find_last_of s c = None.
Proof.
  induction 1 as [|a s Ha _ IH]; simpl; [reflexivity|].
  rewrite IH. destruct (Z.eqb_spec a c); congruence.
Qed.

Lemma find_last_of_last (prefix suffix : list Z) (c : Z) :
  Forall (fun a => a <> c) suffix ->
  find_last_of (prefix ++ c :: suffix) c = Some (length prefix).
Proof.
  intros Hs. induction prefix as [|a prefix IH]; simpl.
  - rewrite (find_last_of_none suffix c Hs), Z.eqb_refl. reflexivity.
  - rewrite IH. reflexivity.
Qed.

Lemma atoi_digits (s : list Z) :
  Forall (fun c => isdigit c = true) s ->
  0 <= digits_value 0 s <= 2147483647 ->
  atoi s = Some (digits_value 0 s).
Proof.
  intros Hd Hr. unfold atoi.
  assert (Hs : skip_spaces s = s).
  { destruct Hd as [|c s Hc _]; [reflexivity|]. simpl.
    unfold isdigit in Hc. unfold isspace.
    apply andb_prop in Hc as [H1 H2]. apply Z.leb_le in H1, H2.
    replace (c =? 32) with false by (symmetry; apply Z.eqb_neq; lia).
    replace (c <=? 13) with false by (symmetry; apply Z.leb_gt; lia).
    rewrite andb_false_r. reflexivity. }
  rewrite Hs.
  assert (Hv : match s with
               | 45 :: digits => - digits_value 0 digits
               | 43 :: digits => digits_value 0 digits
               | _ => digits_value 0 s
               end = digits_value 0 s).
  { destruct Hd as [|c s Hc _]; [reflexivity|].
    unfold isdigit in Hc. apply andb_prop in Hc as [H1 H2].
    apply Z.leb_le in H1, H2.
    destruct c as [|p|p]; try reflexivity.
    do 6 (destruct p as [p|p|]; try reflexivity; try lia). }
  rewrite Hv.
  replace (-2147483648 <=? digits_value 0 s) with true
    by (symmetry; apply Z.leb_le; lia).
  replace (digits_value 0 s <=? 2147483647) with true
    by (symmetry; apply Z.leb_le; lia).
  reflexivity.
Qed.

Lemma IndexFromPortName_numbered (prefix : list Z) (i : Z) :
  0 <= i <= 2147483647 ->
  IndexFromPortName (prefix ++ underscore :: decimal i) = Returned i.
Proof.
  intros Hi. unfold IndexFromPortName.
  pose proof (chars_of_uint_digits (N.to_uint (Z.to_N i))) as Hd.
  fold (decimal i) in Hd.
  rewrite find_last_of_last.
  2: { eapply Forall_impl; [exact Hd|]. intros c Hc ->. discriminate Hc. }
  replace (S (length prefix)) with (length (prefix ++ [underscore]))
    by (rewrite length_app; simpl; lia).
  replace (prefix ++ underscore :: decimal i)
    with ((prefix ++ [underscore]) ++ decimal i)
    by (rewrite <- app_assoc; reflexivity).
  rewrite drop_app_length.
  rewrite atoi_digits by (rewrite ?digits_value_decimal by lia; auto; lia).
  rewrite digits_value_decimal by lia.
  replace (i <? 0) with false by (symmetry; apply Z.ltb_ge; lia).
  reflexivity.
Qed.

Lemma capture_port_index (i : Z) :
  0 <= i <= 2147483647 -> IndexFromPortName (capture_port i) = Returned i.
Proof.
  intros Hi.
  apply (IndexFromPortName_numbered
           [115; 121; 115; 116; 101; 109; 58; 58; 99; 97; 112; 116; 117;
            114; 101] i Hi).
Qed.

Lemma playback_port_index (i : Z) :
  0 <= i <= 2147483647 -> IndexFromPortName (playback_port i) = Returned i.
Proof.
  intros Hi.
  apply (IndexFromPortName_numbered
           [115; 121; 115; 116; 101; 109; 58; 58; 112; 108; 97; 121; 98;
            97; 99; 107] i Hi).
Qed.

(** X18: the names [GetAlsaChannels] gives the channels map back to their
    numbers: [IndexFromPortName] of "system::capture_i" and of
    "system::playback_i" is [i], and so for any text in front of the last
    underscore, for every [i] an [int] can hold. *)
Theorem port_names_map_back_to_their_channel (prefix : list Z) (i : Z) :
  0 <= i <= 2147483647 ->
  IndexFromPortName (capture_port i) = Returned i /\
  IndexFromPortName (playback_port i) = Returned i /\
  IndexFromPortName (prefix ++ underscore :: decimal i) = Returned i.
Proof.
  intros Hi.
  split; [|split].
  - apply capture_port_index; exact Hi.
  - apply playback_port_index; exact Hi.
  - apply IndexFromPortName_numbered; exact Hi.
Qed.

Lemma port_names_map_back_to_their_channel_witness :
  IndexFromPortName (capture_port 12) = Returned 12 /\
  IndexFromPortName (playback_port 12) = Returned 12 /\
  IndexFromPortName ([97; 95; 98] ++ underscore :: decimal 12) = Returned 12.
Proof.
  apply (port_names_map_back_to_their_channel [97; 95; 98] 12). lia.
Defined.

Lemma IndexFromPortName_range (s : list Z) (v : Z) :
  IndexFromPortName s = Returned v -> 0 <= v <= 2147483647.
Proof.
  unfold IndexFromPortName, atoi.
  destruct (find_last_of s underscore) as [pos|]; [|discriminate].
  match goal with
  | |- context [if (?a <=? ?x) && (?x <=? ?b) then _ else _] =>
      destruct (Z.leb_spec a x); destruct (Z.leb_spec x b); simpl;
      try discriminate; destruct (Z.ltb_spec x 0); try discriminate;
      intros [= <-]; lia
  end.
Qed.

(** X19: a port name with no number after its last underscore selects
    channel 0: when the text after the last underscore is empty or starts
    with a character that is no white space, sign or digit,
    [IndexFromPortName] returns 0 and does not throw. *)
Theorem port_name_without_a_number_is_channel_0
    (prefix suffix : list Z) :
  Forall (fun c => c <> underscore) suffix ->
  match suffix with
  | [] => True
  | c :: _ => isspace c = false /\ isdigit c = false /\ c <> 43 /\ c <> 45
  end ->
  IndexFromPortName (prefix ++ underscore :: suffix) = Returned 0.
Proof.
  intros Hu Hc. unfold IndexFromPortName.
  rewrite find_last_of_last by exact Hu.
  replace (S (length prefix)) with (length (prefix ++ [underscore]))
    by (rewrite length_app; simpl; lia).
  replace (prefix ++ underscore :: suffix)
    with ((prefix ++ [underscore]) ++ suffix)
    by (rewrite <- app_assoc; reflexivity).
  rewrite drop_app_length.
  destruct suffix as [|c rest]; [reflexivity|].
  destruct Hc as (Hs & Hd & Hp & Hm).
  unfold atoi. simpl skip_spaces. rewrite Hs.
  assert (Hv : match c :: rest with
               | 45 :: digits => - digits_value 0 digits
               | 43 :: digits => digits_value 0 digits
               | _ => digits_value 0 (c :: rest)
               end = 0).
  { simpl digits_value. rewrite Hd.
    destruct c as [|p|p]; try reflexivity.
    do 6 (destruct p as [p|p|]; try reflexivity; try congruence). }
  rewrite Hv. reflexivity.
Qed.

Lemma port_name_without_a_number_is_channel_0_witness :
  IndexFromPortName ([105; 110] ++ underscore :: [108; 101; 102; 116])
  = Returned 0.
Proof.
  apply (port_name_without_a_number_is_channel_0
           [105; 110] [108; 101; 102; 116]).
  - repeat constructor; discriminate.
  - repeat split; discriminate.
Defined.

(** The channels of a selection that the device has. *)
Definition present (size : Z) (channels : list Z) : list Z :=
  List.filter (fun i => i <? size) channels.

Definition buffers_of (channels : list Z) : list (option nat) :=
  map (fun i => Some (Z.to_nat i)) channels.

Lemma length_present (size : Z) (channels : list Z) :
  (length (present size channels) <= length channels)%nat.
Proof.
  induction channels as [|i l IH]; simpl; [lia|].
  destruct (i <? size); simpl; lia.
Qed.

Lemma select_buffers_numbered (name : Z -> list Z) (size : Z) :
  (forall i, 0 <= i <= 2147483647 -> IndexFromPortName (name i) = Returned i) ->
  forall (channels : list Z) (active : list (option nat)) (ix : nat),
    Forall (fun i => 0 <= i <= 2147483647) channels ->
    (ix + length channels <= length active)%nat ->
    select_buffers (map name channels) size active ix =
    (take ix active ++ buffers_of (present size channels) ++
       drop (ix + length (present size channels)) active,
     Returned tt).
Proof.
  intros Hname. induction channels as [|i l IH]; intros active ix Hr Hl.
  - simpl. rewrite Nat.add_0_r, take_drop. reflexivity.
  - inversion Hr as [|? ? Hi Hr']; subst. simpl in Hl.
    simpl map. simpl select_buffers. rewrite (Hname i Hi).
    unfold present. simpl List.filter. fold (present size l).
    destruct (Z.leb_spec size i) as [Hge|Hlt].
    + replace (i <? size) with false by (symmetry; apply Z.ltb_ge; lia).
      apply IH; [exact Hr'|lia].
    + replace (i <? size) with true by (symmetry; apply Z.ltb_lt; lia).
      replace (ix <? length active)%nat with true
        by (symmetry; apply Nat.ltb_lt; lia).
      rewrite IH by (rewrite ?length_insert; auto; lia).
      f_equal. simpl buffers_of. simpl length.
      assert (Hlook : <[ix:=Some (Z.to_nat i)]> active !! ix
                      = Some (Some (Z.to_nat i))).
      { apply list_lookup_insert_eq. lia. }
      rewrite (take_S_r _ _ _ Hlook).
      rewrite take_insert_ge by lia.
      rewrite drop_insert_lt by lia.
      rewrite <- app_assoc. simpl.
      replace (ix + S (length (present size l)))%nat
        with (S (ix + length (present size l)))%nat by lia.
      reflexivity.
Qed.

Lemma length_resize (n : nat) (v : list (option nat)) :
  length (resize n v) = n.
Proof.
  unfold resize. rewrite length_app, length_take, length_replicate. lia.
Qed.

(** X20: activating a selection of the ports [GetAlsaChannels] names, on a
    driver that is not activated, returns and starts the audio thread. The
    active capture vector has one entry per selected port: first the
    buffers of the selected channels the device has, in the order of the
    selection, then, for every selected channel the device lacks, an entry
    the loop did not write (what the vector held before, or a null
    pointer). The same holds of the playback vector. *)
Theorem Activate_maps_the_selected_ports
    (ins outs : list Z) (a : Activation) :
  activated a = false ->
  Forall (fun i => 0 <= i <= 2147483647) ins ->
  Forall (fun i => 0 <= i <= 2147483647) outs ->
  let captured := present (captureSize a) ins in
  let played := present (playbackSize a) outs in
  Activate (map capture_port ins) (map playback_port outs) a =
  (mkActivation true (captureSize a) (playbackSize a)
     (buffers_of captured ++
        drop (length captured)
          (resize (length ins) (activeCaptureBuffers a)))
     (buffers_of played ++
        drop (length played)
          (resize (length outs) (activePlaybackBuffers a)))
     true,
   Returned tt).
Proof.
  intros Ha Hins Houts captured played. unfold Activate. rewrite Ha.
  rewrite !length_map.
  rewrite (select_buffers_numbered capture_port (captureSize a)
             capture_port_index ins _ 0%nat Hins)
    by (rewrite length_resize; lia).
  rewrite (select_buffers_numbered playback_port (playbackSize a)
             playback_port_index outs _ 0%nat Houts)
    by (rewrite length_resize; lia).
  reflexivity.
Qed.

Lemma Activate_maps_the_selected_ports_witness :
  Activate (map capture_port [1; 5; 0]) (map playback_port [0; 1])
    (mkActivation false 2 2 [] [Some 7%nat] false) =
  (mkActivation true 2 2 [Some 1%nat; Some 0%nat; None]
     [Some 0%nat; Some 1%nat] true,
   Returned tt).
Proof.
  apply (Activate_maps_the_selected_ports [1; 5; 0] [0; 1]
           (mkActivation false 2 2 [] [Some 7%nat] false)).
  - reflexivity.
  - repeat constructor; lia.
  - repeat constructor; lia.
Defined.

Lemma select_buffers_length (ports : list (list Z)) (size : Z) :
  forall active ix,
    length (fst (select_buffers ports size active ix)) = length active.
Proof.
  induction ports as [|x rest IH]; intros active ix; simpl; [reflexivity|].
  destruct (IndexFromPortName x); try reflexivity.
  destruct (size <=? a); [apply IH|].
  destruct (ix <? length active)%nat; [|reflexivity].
  rewrite IH, length_insert. reflexivity.
Qed.

(** X21: [Activate] marks the driver activated before it reads a port
    name. However a call on a driver that is not activated ends, returning
    or throwing, the driver is left activated; a call that throws starts no
    audio thread; the next [Activate] throws and changes nothing; after
    [Deactivate] the driver is not activated and has no thread. *)
Theorem activation_flag_is_set_before_the_ports_are_read
    (inputs outputs : list (list Z)) (a a' : Activation) (r : Outcome unit) :
  activated a = false ->
  Activate inputs outputs a = (a', r) ->
  activated a' = true /\
  (r <> Returned tt -> audioThread a' = audioThread a) /\
  (r = Returned tt -> audioThread a' = true) /\
  length (activeCaptureBuffers a') = length inputs /\
  (forall inputs' outputs',
     Activate inputs' outputs' a' = (a', AlreadyActivated)) /\
  activated (Deactivate a') = false /\
  audioThread (Deactivate a') = false.
Proof.
  intros Ha H. unfold Activate in H. rewrite Ha in H.
  pose proof (select_buffers_length inputs (captureSize a)
                (resize (length inputs) (activeCaptureBuffers a)) 0) as Hlen.
  rewrite length_resize in Hlen.
  destruct (select_buffers inputs (captureSize a) _ 0) as [capture rc].
  simpl in Hlen.
  assert (Hgoal : forall b, activated b = true ->
            (forall inputs' outputs',
               Activate inputs' outputs' b = (b, AlreadyActivated)) /\
            activated (Deactivate b) = false /\
            audioThread (Deactivate b) = false).
  { intros b Hb. unfold Activate, Deactivate. rewrite Hb. auto. }
  destruct rc as [[]| | |].
  - destruct (select_buffers outputs (playbackSize a) _ 0) as [playback rp].
    injection H as <- <-.
    split; [reflexivity|]. split; [|split; [|split; [exact Hlen|]]].
    + destruct rp as [[]| | |]; [congruence|reflexivity..].
    + intros ->. reflexivity.
    + apply Hgoal. reflexivity.
  - injection H as <- <-. repeat split; try reflexivity; try congruence;
      try exact Hlen.
  - injection H as <- <-. repeat split; try reflexivity; try congruence;
      try exact Hlen.
  - injection H as <- <-. repeat split; try reflexivity; try congruence;
      try exact Hlen.
Qed.

Lemma activation_flag_is_set_before_the_ports_are_read_witness :
  let a := mkActivation false 2 2 [] [] false in
  let a' := mkActivation true 2 2 [Some 1%nat; None] [] false in
  activated a' = true /\
  (@InvalidArgument unit <> Returned tt -> audioThread a' = audioThread a) /\
  (@InvalidArgument unit = Returned tt -> audioThread a' = true) /\
  length (activeCaptureBuffers a') = length [capture_port 1; [108]] /\
  (forall inputs' outputs',
     Activate inputs' outputs' a' = (a', AlreadyActivated)) /\
  activated (Deactivate a') = false /\
  audioThread (Deactivate a') = false.
Proof.
  apply (activation_flag_is_set_before_the_ports_are_read
           [capture_port 1; [108]] [playback_port 0]
           (mkActivation false 2 2 [] [] false)
           (mkActivation true 2 2 [Some 1%nat; None] [] false)
           InvalidArgument).
  - reflexivity.
  - reflexivity.
Defined.

End PortNames.

(** ** The layout of the raw buffers *)

Section Interleaving.
Import Codec.

Lemma rows_lookup (C n : nat) :
  forall (start i c : nat),
    (i < n)%nat -> (c < C)%nat ->
    flat_map (fun frame => map (fun channel => (frame, channel)) (seq 0 C))
      (seq start n) !! (i * C + c)%nat
    = Some ((start + i)%nat, c).
Proof.
  induction n as [|n IH]; intros start i c Hi Hc; [lia|].
  simpl flat_map. destruct i as [|i].
  - rewrite lookup_app_l by (rewrite length_map, length_seq; lia).
    simpl. rewrite list_lookup_fmap, lookup_seq_lt by lia.
    simpl. rewrite Nat.add_0_r. reflexivity.
  - rewrite lookup_app_r by (rewrite length_map, length_seq; simpl; lia).
    rewrite length_map, length_seq.
    replace (S i * C + c - C)%nat with (i * C + c)%nat by (simpl; lia).
    rewrite (IH (S start) i c) by lia. f_equal. f_equal. lia.
Qed.

Lemma loop_order_lookup (frames channels : Z) (i c : nat) :
  (i < Z.to_nat frames)%nat -> (c < Z.to_nat channels)%nat ->
  loop_order frames channels !! (i * Z.to_nat channels + c)%nat = Some (i, c).
Proof.
  intros Hi Hc. unfold loop_order.
  rewrite (rows_lookup _ _ 0%nat i c Hi Hc). reflexivity.
Qed.

(** Buffers large enough for the capture of [frames] frames. *)
Definition capture_ready (f : PcmFormat) (d : Driver) (frames : Z) : Prop :=
  0 <= frames /\ 0 <= captureChannels d /\
  (Z.to_nat (captureChannels d) <= length (captureBuffers d))%nat /\
  Forall (fun chan => (Z.to_nat frames <= length chan)%nat)
    (captureBuffers d) /\
  (Z.to_nat (sample_size f * captureChannels d * frames)
   <= length (rawCaptureBuffer d))%nat.

(** The bytes of sample [k] of a raw buffer of format [f]. *)
Definition raw_sample (f : PcmFormat) (raw : list Z) (k : nat) : list Z :=
  take (Z.to_nat (sample_size f)) (drop (Z.to_nat (sample_size f) * k) raw).

(** X22: the capture functions read interleaved frames. On buffers large
    enough, whatever the bytes of the raw buffer are, the capture function
    of every format returns; sample [i] of channel [c] is then the value
    decoded from sample [i * captureChannels + c] of the raw buffer, for
    [i] below the frame count and [c] below the channel count, and every
    other sample of the capture buffers, the raw buffers and the playback
    buffers are as before. *)
Theorem capture_reads_interleaved_frames
    (f : PcmFormat) (d : Driver) (frames : Z) :
  capture_ready f d frames ->
  exists d',
    copyInputFn f d frames = Ok d' /\
    (forall i c : nat,
       (i < Z.to_nat frames)%nat -> (c < Z.to_nat (captureChannels d))%nat ->
       cell (captureBuffers d') c i
       = Some (copyInputFn_sample f
                 (raw_sample f (rawCaptureBuffer d)
                    (i * Z.to_nat (captureChannels d) + c)))) /\
    (forall i c : nat,
       ~ (i < Z.to_nat frames /\ c < Z.to_nat (captureChannels d))%nat ->
       cell (captureBuffers d') c i = cell (captureBuffers d) c i) /\
    rawCaptureBuffer d' = rawCaptureBuffer d /\
    rawPlaybackBuffer d' = rawPlaybackBuffer d /\
    playbackBuffers d' = playbackBuffers d.
Proof.
  intros (Hfr & Hch & Hcl & Hcs & Hraw).
  assert (Hsz := sample_size_pos f).
  rewrite copyInputFn_loop. unfold copy_in.
  destruct (copy_capture_cells (copyInputFn_sample f)
              (Z.to_nat (sample_size f)) (rawCaptureBuffer d)
              (loop_order frames (captureChannels d))
              (NoDup_loop_order _ _) 0%nat (captureBuffers d))
    as (buffers' & Hrun & Hwritten & Hkept).
  { apply Forall_forall. intros [i c] Hin.
    apply list_elem_of_In, loop_order_In in Hin as [Hi Hc]. simpl.
    unfold cell.
    destruct (lookup_lt_is_Some_2 (captureBuffers d) c) as [chan Hchan];
      [lia|].
    rewrite Hchan. apply lookup_lt_is_Some_2.
    pose proof (Forall_lookup_1 _ _ _ _ Hcs Hchan) as Hlen. simpl in Hlen.
    lia. }
  { rewrite loop_order_length, <- raw_length by lia. simpl. exact Hraw. }
  rewrite Hrun. cbn [rbind].
  eexists. split; [reflexivity|]. simpl.
  split; [|split; [|auto]].
  - intros i c Hi Hc.
    rewrite (Hwritten _ i c (loop_order_lookup frames _ i c Hi Hc)).
    reflexivity.
  - intros i c Hout. apply Hkept. intros Hin.
    apply list_elem_of_In, loop_order_In in Hin. tauto.
Qed.

Definition two_channels : Driver :=
  mkDriver 2 2 [[S754_zero false; S754_zero false];
                [S754_zero false; S754_zero false]]
    [[S754_zero false; S754_zero true]; [S754_zero false; S754_zero false]]
    [1; 0; 2; 0; 3; 0; 4; 0] [9; 9; 9; 9; 9; 9; 9; 9; 9].

Lemma capture_reads_interleaved_frames_witness :
  exists d', copyInputFn S16_LE two_channels 2 = Ok d'.
Proof.
  destruct (capture_reads_interleaved_frames S16_LE two_channels 2)
    as (d' & Hrun & _).
  - unfold capture_ready. simpl.
    split; [lia|]. split; [lia|]. split; [lia|].
    split; [repeat constructor|lia].
  - exists d'. exact Hrun.
Defined.

(** A playback loop over [channels] channels, on buffers that hold every
    sample it reads and a raw buffer with room for what it writes: sample
    [i * channels + c] of the raw buffer becomes the encoding of sample [i]
    of channel [c], and the bytes after the last frame stay. *)
Lemma copy_out_layout (sample : float -> Result (list Z)) (size : nat)
    (d : Driver) (frames channels : Z) :
  0 <= frames -> 0 <= channels ->
  (forall i c : nat,
     (i < Z.to_nat frames)%nat -> (c < Z.to_nat channels)%nat ->
     exists chan x bytes,
       playbackBuffers d !! c = Some chan /\ chan !! i = Some x /\
       sample x = Ok bytes /\ length bytes = size) ->
  (size * (Z.to_nat frames * Z.to_nat channels)
   <= length (rawPlaybackBuffer d))%nat ->
  exists raw',
    copy_out sample channels d frames = Ok (set_rawPlaybackBuffer d raw') /\
    (forall i c : nat,
       (i < Z.to_nat frames)%nat -> (c < Z.to_nat channels)%nat ->
       exists x,
         cell (playbackBuffers d) c i = Some x /\
         sample x
         = Ok (take size (drop (size * (i * Z.to_nat channels + c)) raw'))) /\
    drop (size * (Z.to_nat frames * Z.to_nat channels)) raw'
    = drop (size * (Z.to_nat frames * Z.to_nat channels))
        (rawPlaybackBuffer d) /\
    length raw' = length (rawPlaybackBuffer d).
Proof.
  intros Hfr Hch Hcell Hraw.
  set (order := loop_order frames channels).
  assert (Henc : Forall (encodable sample (playbackBuffers d) size) order).
  { apply Forall_forall. intros [i c] Hin.
    apply list_elem_of_In, loop_order_In in Hin as [Hi Hc].
    exact (Hcell i c Hi Hc). }
  set (chunks := map (encoded sample (playbackBuffers d)) order).
  assert (Hchunks : Forall (fun l => length l = size) chunks).
  { apply Forall_forall. intros l Hl.
    apply list_elem_of_In, in_map_iff in Hl as (fc & <- & Hfc).
    apply list_elem_of_In in Hfc.
    destruct (proj1 (Forall_forall _ _) Henc fc Hfc)
      as (chan & x & bytes & Hc & Hx & Hs & Hn).
    unfold encoded. rewrite Hc, Hx, Hs. exact Hn. }
  assert (Hn : length order = (Z.to_nat frames * Z.to_nat channels)%nat)
    by apply loop_order_length.
  unfold copy_out. fold order.
  rewrite (copy_playback_written _ _ _ _ Henc) by (simpl; rewrite Hn; lia).
  cbn [rbind]. fold chunks. rewrite take_0. simpl app. rewrite Hn.
  eexists. split; [reflexivity|].
  split; [|split].
  - intros i c Hi Hc.
    destruct (Hcell i c Hi Hc) as (chan & x & bytes & Hchan & Hx & Hs & Hlen).
    exists x. split; [unfold cell; rewrite Hchan; exact Hx|].
    rewrite Hs. f_equal. symmetry.
    apply concat_chunk; [exact Hchunks|].
    unfold chunks. rewrite list_lookup_fmap.
    unfold order. rewrite (loop_order_lookup frames _ i c Hi Hc). simpl.
    unfold encoded. simpl. rewrite Hchan, Hx, Hs. reflexivity.
  - rewrite drop_app_length'
      by (rewrite (length_concat_chunks size) by exact Hchunks;
          unfold chunks; rewrite length_map, Hn; reflexivity).
    reflexivity.
  - rewrite length_app, length_drop,
      (length_concat_chunks size) by exact Hchunks.
    unfold chunks. rewrite length_map, Hn. lia.
Qed.

(** The [int channels] of the playback function of a format:
    [this->captureChannels] in the two float functions,
    [this->playbackChannels] in the eight others. *)
Definition playback_loop_channels (f : PcmFormat) (d : Driver) : Z :=
  match f with
  | FLOAT_LE | FLOAT_BE => captureChannels d
  | _ => playbackChannels d
  end.

Lemma copyOutputFn_channels (f : PcmFormat) (d : Driver) (frames : Z) :
  copyOutputFn f d frames
  = copy_out (copyOutputFn_sample f) (playback_loop_channels f d) d frames.
Proof. destruct f; reflexivity. Qed.

(** Buffers large enough for the playback of [frames] frames over the
    channels of the loop. *)
Definition playback_ready (f : PcmFormat) (d : Driver) (frames : Z) : Prop :=
  0 <= frames /\ 0 <= playback_loop_channels f d /\
  (Z.to_nat (playback_loop_channels f d) <= length (playbackBuffers d))%nat /\
  Forall (fun chan => (Z.to_nat frames <= length chan)%nat)
    (playbackBuffers d) /\
  (Z.to_nat (sample_size f * playback_loop_channels f d * frames)
   <= length (rawPlaybackBuffer d))%nat.

(** X23: the playback functions write interleaved frames, [n] samples to a
    frame, where [n] is the channel count of their loop: [playbackChannels]
    for the integer formats and [captureChannels] for the float formats. On
    buffers large enough, holding samples inside the open interval (-1, 1),
    the playback function of every format returns; sample [i * n + c] of
    the raw buffer is then the encoding of sample [i] of channel [c], for
    [i] below the frame count and [c] below [n]; the bytes of the raw
    buffer after the last frame, its length and the other buffers are as
    before. *)
Theorem playback_writes_interleaved_frames
    (f : PcmFormat) (d : Driver) (frames : Z) :
  playback_ready f d frames ->
  Forall (Forall unit_sample) (playbackBuffers d) ->
  let n := playback_loop_channels f d in
  exists d',
    copyOutputFn f d frames = Ok d' /\
    (forall i c : nat,
       (i < Z.to_nat frames)%nat -> (c < Z.to_nat n)%nat ->
       exists x,
         cell (playbackBuffers d) c i = Some x /\
         copyOutputFn_sample f x
         = Ok (raw_sample f (rawPlaybackBuffer d') (i * Z.to_nat n + c))) /\
    drop (Z.to_nat (sample_size f * n * frames)) (rawPlaybackBuffer d')
    = drop (Z.to_nat (sample_size f * n * frames)) (rawPlaybackBuffer d) /\
    length (rawPlaybackBuffer d') = length (rawPlaybackBuffer d) /\
    playbackBuffers d' = playbackBuffers d /\
    captureBuffers d' = captureBuffers d /\
    rawCaptureBuffer d' = rawCaptureBuffer d /\
    captureChannels d' = captureChannels d /\
    playbackChannels d' = playbackChannels d.
Proof.
  intros (Hfr & Hch & Hpl & Hps & Hraw) Hvals n. fold n in Hch, Hpl, Hraw.
  assert (Hsz := sample_size_pos f).
  assert (Hn : Z.to_nat (sample_size f * n * frames)
               = (Z.to_nat (sample_size f)
                  * (Z.to_nat frames * Z.to_nat n))%nat)
    by (apply raw_length; lia).
  destruct (copy_out_layout (copyOutputFn_sample f)
              (Z.to_nat (sample_size f)) d frames n Hfr Hch)
    as (raw' & Hrun & Hcells & Hrest & Hlen).
  { intros i c Hi Hc.
    destruct (lookup_lt_is_Some_2 (playbackBuffers d) c) as [chan Hchan];
      [lia|].
    assert (Hl := Forall_lookup_1 _ _ _ _ Hps Hchan). simpl in Hl.
    destruct (lookup_lt_is_Some_2 chan i) as [x Hx]; [lia|].
    assert (Hu : unit_sample x).
    { eapply Forall_lookup_1; [|exact Hx].
      eapply Forall_lookup_1; [exact Hvals|exact Hchan]. }
    destruct Hu as (Hv & Hf & Hq).
    destruct (sample_round_trip f x (sample_ok_of_Q x Hv Hf Hq))
      as (bytes & Hbytes & Hlenb & _).
    exists chan, x, bytes. auto. }
  { rewrite <- Hn. exact Hraw. }
  exists (set_rawPlaybackBuffer d raw').
  split; [rewrite copyOutputFn_channels; exact Hrun|].
  simpl. split; [exact Hcells|]. rewrite Hn.
  split; [exact Hrest|]. split; [exact Hlen|]. auto.
Qed.

(** 0.75 *)
Definition three_quarters : float := S754_finite false 12582912 (-24).

(** One capture channel and two playback channels. *)
Definition uneven_channels : Driver :=
  mkDriver 1 2 [[S754_zero false; S754_zero false]]
    [[three_quarters; S754_zero true]; [S754_zero false; S754_zero false]]
    [1; 0; 2; 0] [9; 9; 9; 9; 9; 9; 9; 9; 9; 9; 9; 9; 9; 9; 9; 9; 9].

Lemma playback_writes_interleaved_frames_witness :
  (exists d', copyOutputFn S16_LE two_channels 2 = Ok d' /\
              drop 8 (rawPlaybackBuffer d') = [9]) /\
  (exists d', copyOutputFn FLOAT_LE uneven_channels 2 = Ok d' /\
              drop 8 (rawPlaybackBuffer d') = [9; 9; 9; 9; 9; 9; 9; 9; 9]).
Proof.
  split.
  - destruct (playback_writes_interleaved_frames S16_LE two_channels 2)
      as (d' & Hrun & _ & Hrest & _).
    + unfold playback_ready. simpl.
      split; [lia|]. split; [lia|]. split; [lia|].
      split; [repeat constructor|lia].
    + repeat constructor; try reflexivity; simpl; try exact I.
    + exists d'. split; [exact Hrun|exact Hrest].
  - destruct (playback_writes_interleaved_frames FLOAT_LE uneven_channels 2)
      as (d' & Hrun & _ & Hrest & _).
    + unfold playback_ready. simpl.
      split; [lia|]. split; [lia|]. split; [lia|].
      split; [repeat constructor|lia].
    + repeat constructor; try reflexivity; simpl; try exact I.
    + exists d'. split; [exact Hrun|exact Hrest].
Defined.

End Interleaving.

(** ** The audio thread *)

Section AudioPeriods.
Import Transfer Period.

Definition prepared_count (events : list FillEvent) : nat :=
  length (List.filter (fun e => match e with Prepared => true | _ => false end)
            events).

Definition negative_count (answers : list Z) : nat :=
  length (List.filter (fun a => a <? 0) answers).

Lemma fill_loop_retries (frame_bytes bufferSize : Z) :
  0 < bufferSize ->
  forall (avails prepares : list Z) (writes : list (list Z)) (retry : Z)
         (r : Fill) (events : list FillEvent),
    0 <= retry <= 4 ->
    fill_loop frame_bytes bufferSize avails prepares writes retry
    = (r, events) ->
    (Z.of_nat (prepared_count events) <= 4 - retry) /\
    Forall (fun e => match e with
                     | Wrote n _ => 0 < n <= bufferSize
                     | Prepared => True
                     end) events /\
    (length events <= length avails)%nat /\
    Forall (fun a => a <> 0) (take (length events) avails) /\
    match r with
    | Filled => avails !! length events = Some 0
    | TimedOut =>
        Z.of_nat (prepared_count events) = 4 - retry /\
        Z.of_nat (negative_count (take (S (length events)) avails))
        = 5 - retry
    | PlaybackFailed err => err < 0
    | Filling => True
    | OutsideBuffer => False
    end.
Proof.
  intros Hbs. induction avails as [|avail avails IH];
    intros prepares writes retry r events Hretry.
  - simpl. intros [= <- <-]. simpl.
    split; [unfold prepared_count; simpl; lia|].
    split; [constructor|]. split; [lia|]. split; [constructor|exact I].
  - simpl fill_loop. destruct (Z.ltb_spec avail 0) as [Hneg|Hnn].
    + destruct (Z.leb_spec 5 (retry + 1)) as [Hfive|Hless].
      * intros [= <- <-]. simpl.
        split; [unfold prepared_count; simpl; lia|].
        split; [constructor|]. split; [lia|]. split; [constructor|].
        split; [unfold prepared_count; simpl; lia|].
        unfold negative_count. simpl. rewrite ?take_0. simpl.
        replace (avail <? 0) with true by (symmetry; apply Z.ltb_lt; lia).
        simpl. lia.
      * destruct prepares as [|err prepares].
        { intros [= <- <-]. simpl.
          split; [unfold prepared_count; simpl; lia|].
          split; [constructor|]. split; [lia|]. split; [constructor|exact I]. }
        destruct (Z.ltb_spec err 0) as [Herr|Hok].
        { intros [= <- <-]. simpl.
          split; [unfold prepared_count; simpl; lia|].
          split; [repeat constructor|]. split; [lia|].
          split; [repeat constructor; lia|exact Herr]. }
        destruct (fill_loop frame_bytes bufferSize avails prepares writes
                    (retry + 1)) as [r1 events1] eqn:Hrun.
        intros [= <- <-].
        destruct (IH prepares writes (retry + 1) r1 events1 ltac:(lia) Hrun)
          as (Hp & Hw & Hlen & Hnz & Hres).
        split; [unfold prepared_count in *; simpl; lia|].
        split; [constructor; [exact I|exact Hw]|].
        split; [simpl; lia|].
        split; [simpl; constructor; [lia|exact Hnz]|].
        destruct r1; try exact Hres.
        destruct Hres as [Hc Hn].
        split; [unfold prepared_count in *; simpl; lia|].
        unfold negative_count in *. simpl length. simpl take.
        simpl List.filter.
        replace (avail <? 0) with true by (symmetry; apply Z.ltb_lt; lia).
        simpl length. simpl in Hn. lia.
    + destruct (Z.eqb_spec avail 0) as [Hzero|Hpos].
      { intros [= <- <-]. simpl.
        split; [unfold prepared_count; simpl; lia|].
        split; [constructor|]. split; [lia|]. split; [constructor|].
        subst avail. reflexivity. }
      set (avail1 := if bufferSize <? avail then bufferSize else avail).
      assert (Havail1 : 0 < avail1 <= bufferSize)
        by (unfold avail1; destruct (Z.ltb_spec bufferSize avail); lia).
      destruct writes as [|w writes].
      { intros [= <- <-]. simpl.
        split; [unfold prepared_count; simpl; lia|].
        split; [constructor|]. split; [lia|]. split; [constructor|exact I]. }
      destruct (WriteBuffer frame_bytes w 0 (uint64 avail1)) as [[err|] calls].
      2: { intros [= <- <-]. simpl.
           split; [unfold prepared_count; simpl; lia|].
           split; [repeat constructor; lia|]. split; [lia|].
           split; [repeat constructor; lia|exact I]. }
      destruct (Z.ltb_spec err 0) as [Herr|Hok].
      { intros [= <- <-]. simpl.
        split; [unfold prepared_count; simpl; lia|].
        split; [repeat constructor; lia|]. split; [lia|].
        split; [repeat constructor; lia|exact Herr]. }
      destruct (fill_loop frame_bytes bufferSize avails prepares writes retry)
        as [r1 events1] eqn:Hrun.
      intros [= <- <-].
      destruct (IH prepares writes retry r1 events1 Hretry Hrun)
        as (Hp & Hw & Hlen & Hnz & Hres).
      split; [unfold prepared_count in *; simpl; exact Hp|].
      split; [constructor; [lia|exact Hw]|].
      split; [simpl; lia|].
      split; [simpl; constructor; [lia|exact Hnz]|].
      destruct r1; try exact Hres.
      destruct Hres as [Hc Hn].
      split; [unfold prepared_count in *; simpl; exact Hc|].
      unfold negative_count in *. simpl length. simpl take.
      simpl List.filter.
      replace (avail <? 0) with false by (symmetry; apply Z.ltb_ge; lia).
      simpl in Hn. exact Hn.
Qed.

(** X24: [FillOutputBuffer] clears the raw playback buffer and then writes
    silence: every [WriteBuffer] it calls is for at least one and at most
    [bufferSize] frames, taken from the start of the buffer, where the bytes
    are zero. It returns at the first [snd_pcm_avail] that answers 0. The
    count of negative answers is never reset: it prepares the device at most
    four times and throws at the fifth negative answer of the call, whatever
    was written in between. *)
Theorem FillOutputBuffer_writes_silence_and_gives_up
    (frame_bytes bufferSize : Z) (raw : list Z) (avails prepares : list Z)
    (writes : list (list Z)) (r : Fill) (raw' : list Z)
    (events : list FillEvent) :
  0 < bufferSize -> 0 <= frame_bytes ->
  frame_bytes * bufferSize < 4294967296 ->
  (Z.to_nat (frame_bytes * bufferSize) <= length raw)%nat ->
  FillOutputBuffer frame_bytes bufferSize raw avails prepares writes
  = (r, raw', events) ->
  (prepared_count events <= 4)%nat /\
  Forall (fun e => match e with
                   | Wrote n _ =>
                       0 < n <= bufferSize /\
                       take (Z.to_nat (frame_bytes * n)) raw'
                       = replicate (Z.to_nat (frame_bytes * n)) 0
                   | Prepared => True
                   end) events /\
  length raw' = length raw /\
  Forall (fun a => a <> 0) (take (length events) avails) /\
  match r with
  | Filled => avails !! length events = Some 0
  | TimedOut =>
      prepared_count events = 4%nat /\
      negative_count (take (S (length events)) avails) = 5%nat
  | PlaybackFailed err => err < 0
  | Filling => True
  | OutsideBuffer => False
  end.
Proof.
  intros Hbs Hfb Hwrap Hlen. unfold FillOutputBuffer.
  assert (Hn : uint32 (frame_bytes * bufferSize) = frame_bytes * bufferSize)
    by (unfold uint32; apply Z.mod_small; nia).
  rewrite Hn.
  destruct (Nat.leb_spec (Z.to_nat (frame_bytes * bufferSize)) (length raw))
    as [_|Hgt]; [|lia].
  destruct (fill_loop frame_bytes bufferSize avails prepares writes 0)
    as [r1 events1] eqn:Hrun.
  intros [= <- <- <-].
  destruct (fill_loop_retries frame_bytes bufferSize Hbs avails prepares
              writes 0 r1 events1 ltac:(lia) Hrun)
    as (Hp & Hw & _ & Hnz & Hres).
  split; [lia|]. split.
  { eapply Forall_impl; [exact Hw|]. intros [|n calls]; [auto|].
    intros Hnb. split; [exact Hnb|].
    rewrite take_app_le by (rewrite length_replicate; nia).
    rewrite take_replicate. f_equal. nia. }
  split; [rewrite length_app, length_replicate, length_drop; lia|].
  split; [exact Hnz|].
  destruct r1; try exact Hres. destruct Hres as [Hc Hneg]. lia.
Qed.

Lemma FillOutputBuffer_writes_silence_and_gives_up_witness :
  FillOutputBuffer 4 2 [7; 7; 7; 7; 7; 7; 7; 7; 7]
    [-32; 5; -32; -32; 1; -32; -32; 0] [0; 0; 0; 0] [[2]; [1]]
  = (TimedOut, [0; 0; 0; 0; 0; 0; 0; 0; 7],
     [Prepared; Wrote 2 [mkCall 0 2]; Prepared; Prepared;
      Wrote 1 [mkCall 0 1]; Prepared]) /\
  negative_count [-32; 5; -32; -32; 1; -32; -32] = 5%nat.
Proof.
  pose proof (FillOutputBuffer_writes_silence_and_gives_up 4 2
                [7; 7; 7; 7; 7; 7; 7; 7; 7]
                [-32; 5; -32; -32; 1; -32; -32; 0] [0; 0; 0; 0] [[2]; [1]]
                TimedOut [0; 0; 0; 0; 0; 0; 0; 0; 7]
                [Prepared; Wrote 2 [mkCall 0 2]; Prepared; Prepared;
                 Wrote 1 [mkCall 0 1]; Prepared]
                ltac:(lia) ltac:(lia) ltac:(lia) ltac:(simpl; lia) eq_refl)
    as (_ & _ & _ & _ & _ & H).
  split; [reflexivity|exact H].
Defined.

(** The device keeps its promise during a period: no [snd_pcm_readi] brings
    more frames than it was asked for. *)
Fixpoint period_promise (frame_bytes : Z) (reads : list (list Z))
    (framesToRead framesRead : Z) : Prop :=
  match reads with
  | [] => True
  | w :: rest =>
      within_request (fun _ => false) w framesToRead /\
      match fst (ReadBuffer frame_bytes w (frame_bytes * framesRead)
                   (uint64 framesToRead)) with
      | Returned nFrames =>
          0 <= nFrames ->
          period_promise frame_bytes rest (framesToRead - nFrames)
            (framesRead + nFrames)
      | Running => True
      end
  end.

(** The frames the device delivered during the calls of [ReadBuffer]. *)
Fixpoint frames_moved (reads : list (list Z)) (steps : list ReadStep) : Z :=
  match reads, steps with
  | w :: reads', s :: steps' =>
      moved w (length (step_calls s)) + frames_moved reads' steps'
  | _, _ => 0
  end.

Lemma moved_nonneg (answers : list Z) (n : nat) : 0 <= moved answers n.
Proof.
  unfold moved. induction (take n answers) as [|a l IH]; simpl; [lia|].
  destruct (Z.ltb_spec a 0); lia.
Qed.

Lemma read_period_steps (frame_bytes bufferSize : Z) :
  0 <= frame_bytes -> 0 < bufferSize < 4294967296 ->
  forall (reads : list (list Z)) (framesToRead framesRead : Z)
         (r : PeriodEnd) (steps : list ReadStep),
    0 <= framesRead -> 0 <= framesToRead ->
    framesRead + framesToRead = bufferSize ->
    period_promise frame_bytes reads framesToRead framesRead ->
    read_period frame_bytes reads framesToRead framesRead = (r, steps) ->
    Forall (fun s =>
              0 <= midi_frame s < bufferSize /\
              Forall (fun c =>
                        frame_bytes * midi_frame s <= call_offset c /\
                        call_offset c + frame_bytes * call_frames c
                        = frame_bytes * bufferSize /\
                        0 < call_frames c) (step_calls s)) steps /\
    match r with
    | PeriodRead n =>
        n = bufferSize /\
        framesToRead <= frames_moved reads steps /\
        (frames_moved reads steps = framesToRead <-> (length steps <= 1)%nat)
    | PeriodXrun err => err < 0
    | PeriodRunning => True
    | PeriodOverflow => False
    end.
Proof.
  intros Hfb Hbs. induction reads as [|w rest IH];
    intros framesToRead framesRead r steps Hr Ht Hsum Hp.
  - simpl. destruct (Z.eqb_spec framesToRead 0) as [Hz|Hnz];
      intros [= <- <-]; (split; [constructor|]); [|exact I].
    split; [lia|]. simpl. split; [lia|]. split; [lia|]. intros; lia.
  - simpl read_period. destruct (Z.eqb_spec framesToRead 0) as [Hz|Hnz].
    { intros [= <- <-]. split; [constructor|].
      split; [lia|]. simpl. split; [lia|]. split; [lia|]. intros; lia. }
    simpl in Hp. destruct Hp as [Hw Hp].
    assert (Hu : uint64 framesToRead = framesToRead)
      by (apply uint64_small; lia).
    rewrite Hu in *.
    destruct (ReadBuffer frame_bytes w (frame_bytes * framesRead) framesToRead)
      as [r1 calls] eqn:Hrun.
    destruct (ReadBuffer_calls frame_bytes w (frame_bytes * framesRead)
                framesToRead r1 calls ltac:(lia) Hw Hrun)
      as (_ & Hcalls & Hres).
    assert (Hm : uint32 framesRead = framesRead)
      by (unfold uint32; apply Z.mod_small; lia).
    assert (Hstep : 0 <= midi_frame (mkStep (uint32 framesRead) calls)
                    < bufferSize /\
                    Forall (fun c =>
                              frame_bytes
                              * midi_frame (mkStep (uint32 framesRead) calls)
                              <= call_offset c /\
                              call_offset c + frame_bytes * call_frames c
                              = frame_bytes * bufferSize /\
                              0 < call_frames c)
                      (step_calls (mkStep (uint32 framesRead) calls))).
    { simpl. rewrite Hm. split; [lia|].
      eapply Forall_impl; [exact Hcalls|]. intros c [Hc1 Hc2].
      split; [nia|]. split; [nia|lia]. }
    simpl in Hp. destruct r1 as [nFrames|].
    2: { intros [= <- <-]. split; [repeat constructor; apply Hstep|exact I]. }
    destruct (Z.ltb_spec nFrames 0) as [Hneg|Hnn].
    { intros [= <- <-]. split; [repeat constructor; apply Hstep|exact Hneg]. }
    destruct Hres as (Hpos & Hlast & Hcase).
    destruct (Hcase Hnn) as (Hn0 & Hmv & Hn).
    pose proof (moved_nonneg w (length calls - 1)) as Hm1.
    replace (in_ssize (framesRead + nFrames)) with true
      by (symmetry; unfold in_ssize; apply andb_true_intro;
          split; apply Z.leb_le; lia).
    replace (in_ssize (framesToRead - nFrames)) with true
      by (symmetry; unfold in_ssize; apply andb_true_intro;
          split; apply Z.leb_le; lia).
    simpl andb. cbv iota.
    destruct (read_period frame_bytes rest (framesToRead - nFrames)
                (framesRead + nFrames)) as [r2 steps2] eqn:Hrest.
    intros [= <- <-].
    destruct (IH (framesToRead - nFrames) (framesRead + nFrames) r2 steps2
                ltac:(lia) ltac:(lia) ltac:(lia) (Hp Hnn) Hrest)
      as (Hsteps & Hres2).
    split; [constructor; [exact Hstep|exact Hsteps]|].
    destruct r2 as [n| | |]; try exact Hres2.
    destruct Hres2 as (Hn2 & Hle & Hiff).
    split; [exact Hn2|]. simpl frames_moved. simpl length. rewrite Hmv.
    split; [lia|]. split.
    + intros Heq. assert (Hz : frames_moved rest steps2 = 0) by lia.
      destruct steps2 as [|s2 steps2]; [simpl; lia|].
      exfalso.
      assert (Hrem : framesToRead - nFrames = 0) by lia.
      simpl in Hrest. destruct rest as [|w2 rest];
        rewrite Hrem in Hrest; simpl in Hrest; discriminate Hrest.
    + intros Hone. destruct steps2 as [|s2 steps2]; [|simpl in Hone; lia].
      destruct rest; simpl; lia.
Qed.

(** X25: the read loop of [AudioThread], on a device that never brings more
    frames than asked. Every [snd_pcm_readi] lands inside the raw capture
    buffer and ends at its end, and every [ReadMidiData] is given a frame
    below [bufferSize]. When the loop ends without an error, [framesRead] is
    [bufferSize], so neither the [continue] on 0 nor the [Invalid read.]
    exception is taken. But the device has then delivered at least
    [bufferSize] frames, and exactly that many only when the loop made a
    single call of [ReadBuffer]: since [ReadBuffer] returns the count of its
    last read, a period that arrived in pieces is followed by further reads
    into the same buffer. *)
Theorem audio_period_is_read_inside_the_buffer
    (frame_bytes bufferSize : Z) (reads : list (list Z))
    (r : PeriodEnd) (steps : list ReadStep) :
  0 <= frame_bytes -> 0 < bufferSize < 4294967296 ->
  period_promise frame_bytes reads bufferSize 0 ->
  read_period frame_bytes reads bufferSize 0 = (r, steps) ->
  Forall (fun s =>
            0 <= midi_frame s < bufferSize /\
            Forall (fun c =>
                      frame_bytes * midi_frame s <= call_offset c /\
                      call_offset c + frame_bytes * call_frames c
                      = frame_bytes * bufferSize /\
                      0 < call_frames c) (step_calls s)) steps /\
  after_read bufferSize r <> InvalidRead /\
  after_read bufferSize r <> NextPeriod /\
  after_read bufferSize r <> Undefined /\
  (forall n, r = PeriodRead n ->
     n = bufferSize /\
     bufferSize <= frames_moved reads steps /\
     (frames_moved reads steps = bufferSize <-> length steps = 1%nat)).
Proof.
  intros Hfb Hbs Hp Hrun.
  destruct (read_period_steps frame_bytes bufferSize Hfb Hbs reads
              bufferSize 0 r steps ltac:(lia) ltac:(lia) ltac:(lia) Hp Hrun)
    as (Hsteps & Hres).
  split; [exact Hsteps|].
  assert (Hne : forall n, r = PeriodRead n -> steps <> []).
  { intros n -> ->. destruct reads; simpl in Hrun;
      replace (bufferSize =? 0) with false in Hrun
        by (symmetry; apply Z.eqb_neq; lia); try discriminate Hrun.
    destruct (ReadBuffer frame_bytes l (frame_bytes * 0) (uint64 bufferSize))
      as [[v|] calls]; try discriminate Hrun.
    destruct (v <? 0); try discriminate Hrun.
    destruct (in_ssize (0 + v) && in_ssize (bufferSize - v));
      try discriminate Hrun.
    destruct (read_period frame_bytes reads (bufferSize - v) (0 + v));
      discriminate Hrun. }
  destruct r as [n| | |]; simpl; try (destruct Hres; fail).
  - destruct Hres as (-> & Hle & Hiff).
    replace (bufferSize =? 0) with false by (symmetry; apply Z.eqb_neq; lia).
    rewrite Z.eqb_refl. simpl.
    split; [discriminate|]. split; [discriminate|]. split; [discriminate|].
    intros n [= <-]. split; [reflexivity|]. split; [exact Hle|].
    rewrite Hiff. specialize (Hne _ eq_refl).
    destruct steps; [congruence|]. simpl. lia.
  - repeat split; discriminate.
  - repeat split; discriminate.
Qed.

Lemma audio_period_is_read_inside_the_buffer_witness :
  read_period 8 [[40; 24]; [40]] 64 0
  = (PeriodRead 64,
     [mkStep 0 [mkCall 0 64; mkCall 320 24]; mkStep 24 [mkCall 192 40]]) /\
  64 <= frames_moved [[40; 24]; [40]]
          [mkStep 0 [mkCall 0 64; mkCall 320 24]; mkStep 24 [mkCall 192 40]].
Proof.
  pose proof (audio_period_is_read_inside_the_buffer 8 64 [[40; 24]; [40]]
                (PeriodRead 64)
                [mkStep 0 [mkCall 0 64; mkCall 320 24];
                 mkStep 24 [mkCall 192 40]]
                ltac:(lia) ltac:(lia)
                ltac:(simpl; repeat split; try lia; intros; exact I)
                eq_refl)
    as (_ & _ & _ & _ & H).
  split; [reflexivity|]. exact (proj1 (proj2 (H 64 eq_refl))).
Defined.

Lemma ReadBuffer_error (frame_bytes : Z) (answers : list Z) :
  forall buffer frames v calls,
    ReadBuffer frame_bytes answers buffer frames = (Returned v, calls) ->
    In v answers.
Proof.
  induction answers as [|a rest IH]; intros buffer frames v calls; simpl;
    [discriminate|].
  destruct (a <? 0); [intros [= <- <-]; left; reflexivity|].
  match goal with
  | |- context [if 0 <? ?f then _ else _] => destruct (0 <? f)
  end.
  - match goal with
    | |- context [ReadBuffer frame_bytes rest ?b ?f] =>
        destruct (ReadBuffer frame_bytes rest b f) as [r1 calls1] eqn:Hrun
    end.
    intros [= -> <-]. right. exact (IH _ _ _ _ Hrun).
  - intros [= <- <-]. left. reflexivity.
Qed.

Lemma read_period_xrun (frame_bytes : Z) (reads : list (list Z)) :
  forall framesToRead framesRead nFrames steps,
    read_period frame_bytes reads framesToRead framesRead
    = (PeriodXrun nFrames, steps) ->
    nFrames < 0 /\ exists w, In w reads /\ In nFrames w.
Proof.
  induction reads as [|w rest IH]; intros framesToRead framesRead nFrames steps;
    simpl; destruct (framesToRead =? 0); try discriminate.
  destruct (ReadBuffer frame_bytes w (frame_bytes * framesRead)
              (uint64 framesToRead)) as [[v|] calls] eqn:Hread;
    try discriminate.
  destruct (Z.ltb_spec v 0) as [Hneg|Hnn].
  - intros [= <- <-]. split; [exact Hneg|].
    exists w. split; [left; reflexivity|].
    exact (ReadBuffer_error _ _ _ _ _ _ Hread).
  - destruct (in_ssize (framesRead + v) && in_ssize (framesToRead - v));
      try discriminate.
    destruct (read_period frame_bytes rest (framesToRead - v) (framesRead + v))
      as [r2 steps2] eqn:Hrest.
    intros [= -> <-].
    destruct (IH _ _ _ _ Hrest) as (Hneg & w' & Hw' & Hin).
    split; [exact Hneg|]. exists w'. split; [right; exact Hw'|exact Hin].
Qed.

(** The answers of [snd_pcm_readi] are frame counts or error codes that an
    [int] holds. *)
Definition int_answers (reads : list (list Z)) : Prop :=
  Forall (Forall (fun a => -2147483648 <= a)) reads.

(** X26: the audio thread never resumes a suspended stream. The recovery is
    given the negative result of [ReadBuffer], narrowed to [int], and
    compares it with the positive [ESTRPIPE]. When the error codes of the
    device are values an [int] holds, then whatever the device answers
    during a turn of the thread, [snd_pcm_resume] is not called and
    [audioRunning] is not touched, and every error but [-EPIPE],
    [-ESTRPIPE] among them, leaves the recovery as the exception "Can't
    restart audio" before any call to the device. *)
Theorem audio_thread_never_resumes_a_suspended_stream
    (frame_bytes playback_frame_bytes bufferSize : Z)
    (reads : list (list Z)) (dev : RecoveryDevice) (raw : list Z)
    (audioRunning : bool) :
  int_answers reads ->
  match read_turn frame_bytes playback_frame_bytes bufferSize reads dev raw
          audioRunning with
  | (PeriodXrun nFrames, _, Some (r, raw', running, calls)) =>
      -2147483648 <= nFrames < 0 /\ int32 nFrames = nFrames /\
      ~ In Resume calls /\ running = audioRunning /\
      (nFrames <> - EPIPE ->
       r = Threw (CantRestartAudio nFrames) /\ calls = [] /\ raw' = raw)
  | (PeriodXrun _, _, None) => False
  | (_, _, recovery) => recovery = None
  end.
Proof.
  intros Hint. unfold read_turn.
  destruct (read_period frame_bytes reads bufferSize 0) as [r steps] eqn:Hrun.
  destruct r as [n|nFrames| |]; try reflexivity.
  destruct (read_period_xrun _ _ _ _ _ _ Hrun) as (Hneg & w & Hw & Hin).
  assert (Hlow : -2147483648 <= nFrames).
  { unfold int_answers in Hint. rewrite List.Forall_forall in Hint.
    specialize (Hint w Hw). rewrite List.Forall_forall in Hint.
    exact (Hint nFrames Hin). }
  assert (Herr : int32 nFrames = nFrames).
  { unfold int32. rewrite Z.mod_small by lia. lia. }
  rewrite Herr.
  unfold recover_from_input_underrun.
  destruct (Z.eqb_spec nFrames (- EPIPE)) as [Hpipe|Hother].
  - destruct (drop_capture dev <? 0);
      [split; [lia|]; split; [reflexivity|];
       split; [|split; [reflexivity|congruence]];
       simpl; intuition discriminate|].
    destruct (drop_playback dev <? 0);
      [split; [lia|]; split; [reflexivity|];
       split; [|split; [reflexivity|congruence]];
       simpl; intuition discriminate|].
    destruct (prepare_playback dev <? 0);
      [split; [lia|]; split; [reflexivity|];
       split; [|split; [reflexivity|congruence]];
       simpl; intuition discriminate|].
    destruct (prepare_capture dev <? 0);
      [split; [lia|]; split; [reflexivity|];
       split; [|split; [reflexivity|congruence]];
       simpl; intuition discriminate|].
    destruct (FillOutputBuffer playback_frame_bytes bufferSize raw
                (fill_avails dev) (fill_prepares dev) (fill_writes dev))
      as [[rf raw'] events].
    destruct rf; try destruct (link dev <? 0);
      try destruct (start_capture dev <? 0);
      (split; [lia|]; split; [reflexivity|];
       split; [|split; [reflexivity|congruence]]);
      simpl; intuition discriminate.
  - replace (nFrames =? ESTRPIPE) with false
      by (symmetry; apply Z.eqb_neq; unfold ESTRPIPE; lia).
    split; [lia|]. split; [reflexivity|].
    split; [simpl; tauto|]. split; [reflexivity|].
    intros _. auto.
Qed.

(** A device that answers every call with success. *)
Definition willing_device : RecoveryDevice :=
  mkRecovery 0 0 0 0 [0] [] [] 0 0 [0].

Lemma audio_thread_never_resumes_a_suspended_stream_witness :
  int_answers [[24; - ESTRPIPE]] /\
  match read_turn 8 8 64 [[24; - ESTRPIPE]] willing_device [] true with
  | (PeriodXrun nFrames, _, Some (r, raw', running, calls)) =>
      -2147483648 <= nFrames < 0 /\ int32 nFrames = nFrames /\
      ~ In Resume calls /\ running = true /\
      (nFrames <> - EPIPE ->
       r = Threw (CantRestartAudio nFrames) /\ calls = [] /\ raw' = [])
  | (PeriodXrun _, _, None) => False
  | (_, _, recovery) => recovery = None
  end.
Proof.
  assert (Hint : int_answers [[24; - ESTRPIPE]])
    by (repeat constructor; unfold ESTRPIPE; lia).
  split; [exact Hint|].
  apply (audio_thread_never_resumes_a_suspended_stream 8 8 64
           [[24; - ESTRPIPE]] willing_device [] true Hint).
Defined.

End AudioPeriods.

(** ** UTF-8 decoding *)

Section Utf8.
Import Util.

(** The number of bytes that follow a first byte, as the table has it. *)
Definition extra_bytes (c : Z) : Z :=
  if c <? 192 then 0
  else if c <? 224 then 1
  else if c <? 240 then 2
  else if c <? 248 then 3
  else if c <? 252 then 4
  else 5.

Definition offset_of (extraBytes : Z) : Z :=
  match extraBytes with
  | 1 => 192 | 2 => 224 | 3 => 240 | 4 => 248 | 5 => 252 | _ => 0
  end.

Lemma utf8extraBytes_table :
  forallb (fun n => match utf8extraBytes !! n with
                    | Some e => e =? extra_bytes (Z.of_nat n)
                    | None => false
                    end) (seq 0 256) = true.
Proof. vm_compute. reflexivity. Qed.

Lemma utf8extraBytes_lookup (c : Z) :
  0 <= c < 256 -> utf8extraBytes !! Z.to_nat c = Some (extra_bytes c).
Proof.
  intros Hc. pose proof utf8extraBytes_table as H.
  rewrite forallb_forall in H.
  specialize (H (Z.to_nat c) ltac:(apply in_seq; lia)).
  destruct (utf8extraBytes !! Z.to_nat c) as [e|]; [|discriminate H].
  apply Z.eqb_eq in H. rewrite Z2Nat.id in H by lia. congruence.
Qed.

Lemma utf8Offset_lookup (c : Z) :
  192 <= c < 256 ->
  utf8Offset !! Z.to_nat (extra_bytes c) = Some (offset_of (extra_bytes c)) /\
  0 <= c - offset_of (extra_bytes c) < 64 /\
  1 <= extra_bytes c <= 5.
Proof.
  intros Hc. unfold extra_bytes.
  destruct (Z.ltb_spec c 192); [lia|].
  destruct (Z.ltb_spec c 224); [simpl; split; [reflexivity|lia]|].
  destruct (Z.ltb_spec c 240); [simpl; split; [reflexivity|lia]|].
  destruct (Z.ltb_spec c 248); [simpl; split; [reflexivity|lia]|].
  destruct (Z.ltb_spec c 252); simpl; (split; [reflexivity|lia]).
Qed.

Lemma uint8_range (x : Z) : 0 <= uint8 x < 256.
Proof. unfold uint8. apply Z.mod_pos_bound. lia. Qed.

(** The bits a first byte brings leave room for those of its sequence; a
    first byte other than FF leaves the value below [CHAR32_EOF]. *)
Lemma lead_bits (lead : Z) (n : nat) :
  192 <= lead < 256 -> (Z.of_nat n <= extra_bytes lead) ->
  0 <= lead - offset_of (extra_bytes lead) /\
  (lead - offset_of (extra_bytes lead) + 1) * 64 ^ Z.of_nat n <= 4294967296 /\
  (lead < 255 \/ Z.of_nat n < extra_bytes lead ->
   (lead - offset_of (extra_bytes lead) + 1) * 64 ^ Z.of_nat n <= 4294967295).
Proof.
  intros Hlead Hn.
  assert (Hpow : 0 < 64 ^ Z.of_nat n) by (apply Z.pow_pos_nonneg; lia).
  assert (Hmono : 64 ^ Z.of_nat n <= 64 ^ extra_bytes lead)
    by (apply Z.pow_le_mono_r; lia).
  assert (Hless : Z.of_nat n < extra_bytes lead ->
                  64 * 64 ^ Z.of_nat n <= 64 ^ extra_bytes lead).
  { intros Hlt. rewrite <- Z.pow_succ_r by lia.
    apply Z.pow_le_mono_r; lia. }
  revert Hn Hmono Hless. unfold extra_bytes.
  destruct (Z.ltb_spec lead 192); [lia|].
  destruct (Z.ltb_spec lead 224);
    [simpl offset_of; change (64 ^ 1) with 64; intros; nia|].
  destruct (Z.ltb_spec lead 240);
    [simpl offset_of; change (64 ^ 2) with 4096; intros; nia|].
  destruct (Z.ltb_spec lead 248);
    [simpl offset_of; change (64 ^ 3) with 262144; intros; nia|].
  destruct (Z.ltb_spec lead 252);
    [simpl offset_of; change (64 ^ 4) with 16777216; intros; nia|].
  simpl offset_of. change (64 ^ 5) with 1073741824. intros Hn Hmono Hless.
  split; [lia|]. split; [nia|].
  intros [Hl|Hl]; [nia|]. specialize (Hless Hl). nia.
Qed.

(** The inner loop stays inside the string, and hands the stream values
    below the bound its first byte sets. *)
Lemma continuation_inside (n : nat) :
  forall (cResult : Z) (p : list Z) (B : Z),
    (n <= length p)%nat ->
    0 <= cResult -> (cResult + 1) * 64 ^ Z.of_nat n <= B -> B <= 4294967296 ->
    exists values p2,
      continuation n cResult p = Some (values, p2) /\
      (length p2 <= length p)%nat /\
      (length values + length p2 <= 1 + length p)%nat /\
      Forall (fun c => c = ILLEGAL_CHAR32 \/ 0 <= c < B) values.
Proof.
  induction n as [|n IH]; intros cResult p B Hn Hr Hb HB; simpl.
  - exists [cResult], p. split; [reflexivity|]. simpl.
    split; [lia|]. split; [lia|].
    constructor; [right; simpl in Hb; lia|constructor].
  - destruct p as [|x p']; [simpl in Hn; lia|]. simpl in Hn.
    assert (Hpow : 0 < 64 ^ Z.of_nat n) by (apply Z.pow_pos_nonneg; lia).
    rewrite Nat2Z.inj_succ, Z.pow_succ_r in Hb by lia.
    destruct ((uint8 x <? 128) || (192 <=? uint8 x)) eqn:Hbad.
    + destruct (Nat.leb_spec n (length p')) as [_|Hgt]; [|lia].
      eexists _, _. split; [reflexivity|].
      rewrite length_drop. simpl.
      split; [lia|]. split; [lia|].
      constructor; [left; reflexivity|].
      constructor; [right; nia|constructor].
    + apply orb_false_iff in Hbad as [H1 H2].
      apply Z.ltb_ge in H1. apply Z.leb_gt in H2.
      assert (Hland : Z.land (uint8 x) 63 = uint8 x - 128).
      { change 63 with (Z.ones 6). rewrite Z.land_ones by lia.
        change (2 ^ 6) with 64.
        symmetry. apply (Z.mod_unique_pos (uint8 x) 64 2); lia. }
      rewrite Hland.
      assert (Hsmall : uint32 (cResult * 64 + (uint8 x - 128))
                       = cResult * 64 + (uint8 x - 128))
        by (unfold uint32; apply Z.mod_small; nia).
      rewrite Hsmall.
      destruct (IH (cResult * 64 + (uint8 x - 128)) p' B ltac:(lia)
                  ltac:(lia) ltac:(nia) HB)
        as (values & p2 & Hrun & Hlen & Hsum & Hvals).
      exists values, p2. split; [exact Hrun|]. simpl.
      split; [lia|]. split; [lia|exact Hvals].
Qed.

(** A run of the loop that has fuel: a string, or the stream was handed
    [CHAR32_EOF]. *)
Definition inside (p : list Z) (d : Decoded) : Prop :=
  match d with
  | Text chars => (length chars <= length p)%nat
  | StreamEof => Exists (fun x => uint8 x = 255) p
  | ReadOutside | OutOfFuel => False
  end.

Lemma inside_shorter (x : Z) (p p2 : list Z) (d : Decoded) (k : nat) :
  inside p2 d -> (k + length p2 <= 1 + length p)%nat ->
  (forall y, In y p2 -> In y p) ->
  match d with
  | Text chars => (k + length chars <= length (x :: p))%nat
  | StreamEof => Exists (fun y => uint8 y = 255) (x :: p)
  | _ => False
  end.
Proof.
  intros Hd Hk Hsub. destruct d; simpl in *; try contradiction.
  - lia.
  - apply Exists_cons_tl. apply List.Exists_exists in Hd as (y & Hy & H255).
    apply List.Exists_exists. exists y. split; [apply Hsub; exact Hy|exact H255].
Qed.

Lemma put_inside (c x : Z) (p : list Z) (d : Decoded) :
  c <> CHAR32_EOF ->
  match d with
  | Text chars => (1 + length chars <= length (x :: p))%nat
  | StreamEof => Exists (fun y => uint8 y = 255) (x :: p)
  | _ => False
  end ->
  inside (x :: p) (put c d).
Proof.
  intros Hc Hd. unfold put.
  replace (c =? CHAR32_EOF) with false by (symmetry; apply Z.eqb_neq; exact Hc).
  destruct d; simpl in *; try contradiction; assumption.
Qed.

Lemma In_drop (n : nat) :
  forall (l : list Z) (y : Z), In y (drop n l) -> In y l.
Proof.
  induction n as [|n IH]; intros l y; [simpl; auto|].
  destruct l as [|a l]; simpl; [auto|]. intros Hy. right. exact (IH l y Hy).
Qed.

Lemma continuation_rest (n : nat) :
  forall (cResult : Z) (p : list Z) (values p2 : list Z),
    continuation n cResult p = Some (values, p2) ->
    forall y, In y p2 -> In y p.
Proof.
  induction n as [|n IH]; intros cResult p values p2; simpl.
  - intros [= <- <-] y Hy. exact Hy.
  - destruct p as [|x p']; [discriminate|].
    destruct ((uint8 x <? 128) || (192 <=? uint8 x)).
    + destruct (n <=? length p')%nat; [|discriminate].
      intros [= <- <-] y Hy. right. exact (In_drop n p' y Hy).
    + intros Hrun y Hy. right. exact (IH _ _ _ _ Hrun y Hy).
Qed.

Lemma ToUtf32_loop_inside (fuel : nat) :
  forall p : list Z,
    (length p <= fuel)%nat -> inside p (ToUtf32_loop fuel p).
Proof.
  induction fuel as [|fuel IH]; intros p Hlen.
  - destruct p as [|x p1]; [simpl; lia|simpl in Hlen; lia].
  - destruct p as [|x p1]; [simpl; lia|].
    simpl in Hlen. simpl ToUtf32_loop.
    pose proof (uint8_range x) as Hc.
    destruct (Z.ltb_spec (uint8 x) 128) as [Hascii|Hhigh].
    { apply put_inside; [unfold CHAR32_EOF; lia|].
      apply (inside_shorter x p1 p1 _ 1 (IH p1 ltac:(lia))); [lia|auto]. }
    rewrite utf8extraBytes_lookup by exact Hc.
    destruct (Z.eqb_spec (extra_bytes (uint8 x)) 0) as [Hzero|Hsome].
    { apply put_inside; [discriminate|].
      apply (inside_shorter x p1 p1 _ 1 (IH p1 ltac:(lia))); [lia|auto]. }
    assert (Hlead : 192 <= uint8 x < 256).
    { unfold extra_bytes in Hsome.
      destruct (Z.ltb_spec (uint8 x) 192); [congruence|lia]. }
    destruct (utf8Offset_lookup _ Hlead) as (Hoff & Hval & Hn).
    destruct (Z.ltb_spec (Z.of_nat (length p1)) (extra_bytes (uint8 x)))
      as [Hshort|Hfits].
    { apply put_inside; [discriminate|]. simpl. lia. }
    rewrite Hoff.
    set (n := Z.to_nat (extra_bytes (uint8 x))).
    set (r := uint8 x - offset_of (extra_bytes (uint8 x))).
    assert (Hr8 : uint8 r = r) by (unfold uint8; apply Z.mod_small; lia).
    rewrite Hr8.
    destruct (lead_bits (uint8 x) n Hlead ltac:(lia)) as (Hr & Hbound & Hbelow).
    fold r in Hr, Hbound, Hbelow.
    destruct (Z.eq_dec (uint8 x) 255) as [H255|Hnot].
    + (* a first byte FF: the value may be the end-of-file mark *)
      destruct (continuation_inside n r p1 4294967296 ltac:(lia) Hr Hbound
                  ltac:(lia)) as (values & p2 & Hrun & Hp2 & Hsum & Hvals).
      rewrite Hrun.
      pose proof (IH p2 ltac:(lia)) as Hrest.
      assert (Hex : Exists (fun y => uint8 y = 255) (x :: p1))
        by (apply Exists_cons_hd; exact H255).
      clear Hvals.
      assert (Hgen : forall vs k,
                 (k + length vs + length p2 <= 1 + length p1)%nat ->
                 match fold_right put (ToUtf32_loop fuel p2) vs with
                 | Text chars => (k + length chars <= length (x :: p1))%nat
                 | StreamEof => Exists (fun y => uint8 y = 255) (x :: p1)
                 | _ => False
                 end).
      { induction vs as [|v vs IHvs]; intros k Hk; simpl fold_right.
        - simpl in Hk.
          destruct (ToUtf32_loop fuel p2); simpl in *; try contradiction;
            [lia|exact Hex].
        - simpl in Hk. specialize (IHvs (S k) ltac:(lia)).
          unfold put at 1. destruct (v =? CHAR32_EOF); [exact Hex|].
          destruct (fold_right put (ToUtf32_loop fuel p2) vs);
            simpl in *; try contradiction; [lia|exact Hex]. }
      specialize (Hgen values 0%nat ltac:(lia)).
      destruct (fold_right put (ToUtf32_loop fuel p2) values);
        simpl in *; try contradiction; [lia|exact Hgen].
    + destruct (continuation_inside n r p1 4294967295 ltac:(lia) Hr
                  (Hbelow ltac:(left; lia)) ltac:(lia))
        as (values & p2 & Hrun & Hp2 & Hsum & Hvals).
      rewrite Hrun.
      pose proof (IH p2 ltac:(lia)) as Hrest.
      pose proof (continuation_rest n r p1 values p2 Hrun) as Hsub.
      assert (Hgen : forall vs k,
                 Forall (fun c => c = ILLEGAL_CHAR32 \/ 0 <= c < 4294967295) vs ->
                 (k + length vs + length p2 <= 1 + length p1)%nat ->
                 match fold_right put (ToUtf32_loop fuel p2) vs with
                 | Text chars => (k + length chars <= length (x :: p1))%nat
                 | StreamEof => Exists (fun y => uint8 y = 255) (x :: p1)
                 | _ => False
                 end).
      { induction vs as [|v vs IHvs]; intros k Hv Hk; simpl fold_right.
        - simpl in Hk.
          apply (inside_shorter x p1 p2 _ k Hrest); [lia|exact Hsub].
        - simpl in Hk. inversion Hv as [|? ? Hv0 Hvs]; subst.
          specialize (IHvs (S k) Hvs ltac:(lia)).
          unfold put at 1.
          replace (v =? CHAR32_EOF) with false
            by (symmetry; apply Z.eqb_neq; unfold CHAR32_EOF, ILLEGAL_CHAR32 in *;
                lia).
          destruct (fold_right put (ToUtf32_loop fuel p2) vs);
            simpl in *; try contradiction; [lia|exact IHvs]. }
      specialize (Hgen values 0%nat Hvals ltac:(lia)).
      destruct (fold_right put (ToUtf32_loop fuel p2) values);
        simpl in *; try contradiction; [lia|exact Hgen].
Qed.

Lemma ToUtf32_loop_fuel (fuel : nat) :
  forall (p : list Z) (fuel' : nat),
    (length p <= fuel)%nat -> (length p <= fuel')%nat ->
    ToUtf32_loop fuel p = ToUtf32_loop fuel' p.
Proof.
  induction fuel as [|fuel IH]; intros p fuel' Hlen Hlen'.
  - destruct p; [destruct fuel'; reflexivity|simpl in Hlen; lia].
  - destruct p as [|x p1]; [destruct fuel'; reflexivity|].
    destruct fuel' as [|fuel']; [simpl in Hlen'; lia|].
    simpl in Hlen, Hlen'. simpl ToUtf32_loop.
    rewrite (IH p1 fuel') by lia.
    destruct (uint8 x <? 128); [reflexivity|].
    destruct (utf8extraBytes !! Z.to_nat (uint8 x)) as [e|]; [|reflexivity].
    destruct (e =? 0); [reflexivity|].
    destruct (Z.ltb_spec (Z.of_nat (length p1)) e) as [|Hfits]; [reflexivity|].
    destruct (utf8Offset !! Z.to_nat e) as [off|]; [|reflexivity].
    destruct (continuation (Z.to_nat e) (uint8 (uint8 x - off)) p1)
      as [[values p2]|] eqn:Hrun; [|reflexivity].
    assert (Hp2 : (length p2 <= length p1)%nat).
    { clear -Hrun. revert Hrun.
      generalize (uint8 (uint8 x - off)) as r. generalize (Z.to_nat e) as n.
      intros n. revert p1.
      induction n as [|n IHn]; intros p1 r; simpl.
      - intros [= <- <-]. lia.
      - destruct p1 as [|y p']; [discriminate|].
        destruct ((uint8 y <? 128) || (192 <=? uint8 y)).
        + destruct (n <=? length p')%nat; [|discriminate].
          intros [= <- <-]. rewrite length_drop. simpl. lia.
        + intros Hrun. specialize (IHn _ _ Hrun). simpl. lia. }
    rewrite (IH p2 fuel') by lia. reflexivity.
Qed.

(** The string after one turn of the loop: [ToUtf32] of a shorter string. *)
Lemma ToUtf32_loop_rest (fuel : nat) (p : list Z) :
  (length p <= fuel)%nat -> ToUtf32_loop fuel p = ToUtf32 p.
Proof.
  intros Hlen. unfold ToUtf32. apply ToUtf32_loop_fuel; [exact Hlen|lia].
Qed.

(** X27: [ToUtf32] never reads outside its string, and its loop ends
    within as many turns as the string has bytes. On a string with no byte
    FF, well-formed UTF-8 or not, it returns a string of at most as many
    characters as there are bytes; only after a byte FF can the loop hand
    the stream the value 0xFFFFFFFF, where the result is the stream
    library's. A byte below 128 is copied as it is, whatever follows it
    that is decoded to a string, so a string of such bytes is returned
    unchanged. *)
Theorem ToUtf32_stays_inside_the_string (s : list Z) :
  ToUtf32 s <> ReadOutside /\ ToUtf32 s <> OutOfFuel /\
  (forall chars, ToUtf32 s = Text chars -> (length chars <= length s)%nat) /\
  (Forall (fun x => uint8 x <> 255) s -> exists chars, ToUtf32 s = Text chars) /\
  (forall a chars, 0 <= a < 128 -> ToUtf32 s = Text chars ->
     ToUtf32 (a :: s) = Text (a :: chars)) /\
  (Forall (fun x => 0 <= x < 128) s -> ToUtf32 s = Text s).
Proof.
  pose proof (ToUtf32_loop_inside (length s) s ltac:(lia)) as H.
  fold (ToUtf32 s) in H.
  split; [intros E; rewrite E in H; exact H|].
  split; [intros E; rewrite E in H; exact H|].
  split; [intros chars E; rewrite E in H; exact H|].
  split.
  - intros Hno. destruct (ToUtf32 s) as [chars| | |]; simpl in H;
      try contradiction; [exists chars; reflexivity|].
    exfalso. apply List.Exists_exists in H as (y & Hy & H255).
    rewrite List.Forall_forall in Hno. exact (Hno y Hy H255).
  - split.
    { intros a chars Ha E. unfold ToUtf32. simpl.
      unfold uint8. rewrite Z.mod_small by lia.
      replace (a <? 128) with true by (symmetry; apply Z.ltb_lt; lia).
      rewrite ToUtf32_loop_rest by lia. rewrite E. unfold put.
      replace (a =? CHAR32_EOF) with false
        by (symmetry; apply Z.eqb_neq; unfold CHAR32_EOF; lia).
      reflexivity. }
    clear H. unfold ToUtf32. induction 1 as [|x s Hx _ IH]; [reflexivity|].
    simpl. unfold uint8. rewrite Z.mod_small by lia.
    replace (x <? 128) with true by (symmetry; apply Z.ltb_lt; lia).
    rewrite IH. unfold put.
    replace (x =? CHAR32_EOF) with false
      by (symmetry; apply Z.eqb_neq; unfold CHAR32_EOF; lia).
    reflexivity.
Qed.

(** A byte 80..BF, which continues a sequence. *)
Definition continuation_byte (c : Z) : Prop := 128 <= c < 192.

(** The value of a first byte and the bytes that continue it: six bits
    from each, after the bits the first byte has left of its marker. *)
Definition code_point (lead : Z) (conts : list Z) : Z :=
  fold_left (fun acc c => acc * 64 + (c - 128)) conts
    (lead - offset_of (extra_bytes lead)).

Lemma land_63 (c : Z) : continuation_byte c -> Z.land c 63 = c - 128.
Proof.
  intros Hc. unfold continuation_byte in Hc.
  change 63 with (Z.ones 6). rewrite Z.land_ones by lia.
  change (2 ^ 6) with 64.
  symmetry. apply (Z.mod_unique_pos c 64 2); lia.
Qed.

Lemma gathered_bound (conts : list Z) :
  forall (r B : Z),
    Forall continuation_byte conts ->
    0 <= r -> (r + 1) * 64 ^ Z.of_nat (length conts) <= B ->
    0 <= fold_left (fun acc c => acc * 64 + (c - 128)) conts r < B.
Proof.
  induction conts as [|c conts IH]; intros r B Hc Hr Hbound.
  - simpl in *. lia.
  - inversion Hc as [|? ? Hc0 Hcs]; subst. simpl fold_left.
    unfold continuation_byte in Hc0.
    assert (Hpow : 0 < 64 ^ Z.of_nat (length conts))
      by (apply Z.pow_pos_nonneg; lia).
    simpl length in Hbound.
    rewrite Nat2Z.inj_succ, Z.pow_succ_r in Hbound by lia.
    apply IH; [exact Hcs|lia|nia].
Qed.

Lemma continuation_good (conts : list Z) :
  forall (r : Z) (tail : list Z),
    Forall continuation_byte conts ->
    0 <= r -> (r + 1) * 64 ^ Z.of_nat (length conts) <= 4294967296 ->
    continuation (length conts) r (conts ++ tail)
    = Some ([fold_left (fun acc c => acc * 64 + (c - 128)) conts r], tail).
Proof.
  induction conts as [|c conts IH]; intros r tail Hc Hr Hbound;
    [reflexivity|].
  inversion Hc as [|? ? Hc0 Hcs]; subst. simpl.
  assert (Hu : uint8 c = c)
    by (unfold uint8; apply Z.mod_small; unfold continuation_byte in Hc0; lia).
  rewrite Hu. unfold continuation_byte in Hc0.
  replace (c <? 128) with false by (symmetry; apply Z.ltb_ge; lia).
  replace (192 <=? c) with false by (symmetry; apply Z.leb_gt; lia).
  simpl orb. cbv iota.
  rewrite land_63 by exact Hc0.
  assert (Hpow : 0 < 64 ^ Z.of_nat (length conts))
    by (apply Z.pow_pos_nonneg; lia).
  assert (Hstep : (r * 64 + (c - 128) + 1) * 64 ^ Z.of_nat (length conts)
                  <= 4294967296).
  { simpl length in Hbound. rewrite Nat2Z.inj_succ, Z.pow_succ_r in Hbound
      by lia. nia. }
  assert (Hsmall : uint32 (r * 64 + (c - 128)) = r * 64 + (c - 128)).
  { unfold uint32. apply Z.mod_small. nia. }
  rewrite Hsmall. apply IH; [exact Hcs|lia|exact Hstep].
Qed.

Lemma continuation_bad (goods : list Z) :
  forall (r bad : Z) (skipped tail : list Z),
    Forall continuation_byte goods ->
    0 <= bad < 128 \/ 192 <= bad < 256 ->
    0 <= r -> (r + 1) * 64 ^ Z.of_nat (length goods) <= 4294967296 ->
    continuation (length goods + S (length skipped)) r
      (goods ++ bad :: skipped ++ tail)
    = Some ([ILLEGAL_CHAR32;
             fold_left (fun acc c => acc * 64 + (c - 128)) goods r], tail).
Proof.
  induction goods as [|c goods IH]; intros r bad skipped tail Hc Hbad Hr Hbound.
  - simpl.
    assert (Hu : uint8 bad = bad) by (unfold uint8; apply Z.mod_small; lia).
    rewrite Hu.
    replace ((bad <? 128) || (192 <=? bad)) with true.
    2: { symmetry. apply orb_true_iff.
         destruct Hbad; [left; apply Z.ltb_lt|right; apply Z.leb_le]; lia. }
    rewrite length_app.
    destruct (Nat.leb_spec (length skipped) (length skipped + length tail))
      as [_|Hgt]; [|lia].
    rewrite drop_app_length. reflexivity.
  - inversion Hc as [|? ? Hc0 Hcs]; subst. simpl.
    assert (Hu : uint8 c = c)
      by (unfold uint8; apply Z.mod_small; unfold continuation_byte in Hc0;
          lia).
    rewrite Hu. unfold continuation_byte in Hc0.
    replace (c <? 128) with false by (symmetry; apply Z.ltb_ge; lia).
    replace (192 <=? c) with false by (symmetry; apply Z.leb_gt; lia).
    simpl orb. cbv iota.
    rewrite land_63 by exact Hc0.
    assert (Hpow : 0 < 64 ^ Z.of_nat (length goods))
      by (apply Z.pow_pos_nonneg; lia).
    assert (Hstep : (r * 64 + (c - 128) + 1) * 64 ^ Z.of_nat (length goods)
                    <= 4294967296).
    { simpl length in Hbound. rewrite Nat2Z.inj_succ, Z.pow_succ_r in Hbound
        by lia. nia. }
    assert (Hsmall : uint32 (r * 64 + (c - 128)) = r * 64 + (c - 128)).
    { unfold uint32. apply Z.mod_small. nia. }
    rewrite Hsmall. apply IH; [exact Hcs|exact Hbad|lia|exact Hstep].
Qed.

(** One turn of the loop on a first byte whose sequence is all there. *)
Lemma ToUtf32_lead (lead : Z) (p1 : list Z) :
  192 <= lead < 256 -> extra_bytes lead <= Z.of_nat (length p1) ->
  ToUtf32 (lead :: p1)
  = match continuation (Z.to_nat (extra_bytes lead))
            (lead - offset_of (extra_bytes lead)) p1 with
    | Some (values, p2) =>
        fold_right put (ToUtf32_loop (length p1) p2) values
    | None => ReadOutside
    end.
Proof.
  intros Hlead Hfits. unfold ToUtf32. simpl.
  assert (Hu : uint8 lead = lead) by (unfold uint8; apply Z.mod_small; lia).
  rewrite Hu.
  replace (lead <? 128) with false by (symmetry; apply Z.ltb_ge; lia).
  rewrite utf8extraBytes_lookup by lia.
  destruct (utf8Offset_lookup lead Hlead) as (Hoff & Hval & Hn).
  replace (extra_bytes lead =? 0) with false
    by (symmetry; apply Z.eqb_neq; lia).
  replace (Z.of_nat (length p1) <? extra_bytes lead) with false
    by (symmetry; apply Z.ltb_ge; lia).
  rewrite Hoff.
  replace (uint8 (lead - offset_of (extra_bytes lead)))
    with (lead - offset_of (extra_bytes lead))
    by (symmetry; unfold uint8; apply Z.mod_small; lia).
  reflexivity.
Qed.

(** X28: a first byte C0..FF followed by as many bytes 80..BF as its table
    entry asks for (one to five) is decoded to one character, six bits from
    each following byte, and the decoding goes on after the sequence. No
    sequence is refused for its value: the forms of five and six bytes,
    over-long forms and surrogates are decoded like the others. The one
    value that is not written as a character is 0xFFFFFFFF, which only a
    first byte FF gives: it is the end-of-file mark of the stream. *)
Theorem multi_byte_sequences_are_decoded
    (lead : Z) (conts rest chars : list Z) :
  192 <= lead < 256 ->
  Z.of_nat (length conts) = extra_bytes lead ->
  Forall continuation_byte conts ->
  ToUtf32 rest = Text chars ->
  0 <= code_point lead conts < 4294967296 /\
  (lead < 255 -> code_point lead conts <> CHAR32_EOF) /\
  (code_point lead conts <> CHAR32_EOF ->
   ToUtf32 (lead :: conts ++ rest) = Text (code_point lead conts :: chars)) /\
  (code_point lead conts = CHAR32_EOF ->
   ToUtf32 (lead :: conts ++ rest) = StreamEof).
Proof.
  intros Hlead Hlen Hconts Hrest.
  destruct (lead_bits lead (length conts) Hlead ltac:(lia))
    as (Hr & Hbound & Hbelow).
  assert (Hrun : ToUtf32 (lead :: conts ++ rest)
                 = put (code_point lead conts) (Text chars)).
  { rewrite ToUtf32_lead by (rewrite ?length_app; lia).
    replace (Z.to_nat (extra_bytes lead)) with (length conts) by lia.
    rewrite continuation_good by assumption.
    rewrite ToUtf32_loop_rest by (rewrite length_app; lia).
    rewrite Hrest. reflexivity. }
  split; [apply gathered_bound; assumption|].
  split.
  { intros Hl.
    pose proof (gathered_bound conts _ 4294967295 Hconts Hr
                  (Hbelow ltac:(left; exact Hl))) as Hb.
    fold (code_point lead conts) in Hb. unfold CHAR32_EOF. lia. }
  rewrite Hrun. unfold put. split.
  - intros Hne.
    replace (code_point lead conts =? CHAR32_EOF) with false
      by (symmetry; apply Z.eqb_neq; exact Hne).
    reflexivity.
  - intros ->. reflexivity.
Qed.

Lemma multi_byte_sequences_are_decoded_witness :
  ToUtf32 (226 :: [130; 172] ++ [65]) = Text [8364; 65] /\
  ToUtf32 (192 :: [128] ++ []) = Text [0] /\
  ToUtf32 (255 :: [191; 191; 191; 191; 191] ++ [65]) = StreamEof.
Proof.
  split; [|split].
  - destruct (multi_byte_sequences_are_decoded 226 [130; 172] [65] [65])
      as (_ & _ & H & _).
    + lia.
    + reflexivity.
    + repeat constructor; unfold continuation_byte; lia.
    + reflexivity.
    + apply H. discriminate.
  - destruct (multi_byte_sequences_are_decoded 192 [128] [] [])
      as (_ & _ & H & _).
    + lia.
    + reflexivity.
    + repeat constructor; unfold continuation_byte; lia.
    + reflexivity.
    + apply H. discriminate.
  - destruct (multi_byte_sequences_are_decoded 255 [191; 191; 191; 191; 191]
                [65] [65]) as (_ & _ & _ & H).
    + lia.
    + reflexivity.
    + repeat constructor; unfold continuation_byte; lia.
    + reflexivity.
    + apply H. reflexivity.
Defined.

(** X29: malformed input is not refused but written as U+2297. Where the
    rest of the string is decoded to a string: a byte 80..BF where a
    character should start gives that character alone; a byte that is no
    continuation, inside a sequence, gives it followed by a second
    character, the value gathered so far, and the bytes the sequence still
    had to come are skipped unread. A sequence cut short by the end of the
    string gives U+2297 once and ends the decoding, dropping the bytes
    left. *)
Theorem malformed_sequences_are_replaced
    (lead : Z) (goods : list Z) (bad : Z) (skipped rest chars : list Z) :
  192 <= lead < 256 ->
  Forall continuation_byte goods ->
  0 <= bad < 128 \/ 192 <= bad < 256 ->
  Z.of_nat (length goods + S (length skipped)) = extra_bytes lead ->
  ToUtf32 rest = Text chars ->
  ToUtf32 (lead :: goods ++ bad :: skipped ++ rest)
  = Text (ILLEGAL_CHAR32 :: code_point lead goods :: chars) /\
  (forall tail, Z.of_nat (length tail) < extra_bytes lead ->
     ToUtf32 (lead :: tail) = Text [ILLEGAL_CHAR32]) /\
  (forall c, continuation_byte c ->
     ToUtf32 (c :: rest) = Text (ILLEGAL_CHAR32 :: chars)).
Proof.
  intros Hlead Hgoods Hbad Hlen Hrest.
  destruct (lead_bits lead (length goods) Hlead ltac:(lia))
    as (Hr & Hbound & Hbelow).
  assert (Hu : uint8 lead = lead) by (unfold uint8; apply Z.mod_small; lia).
  split; [|split].
  - rewrite ToUtf32_lead
      by (rewrite ?length_app; simpl; rewrite ?length_app; lia).
    replace (Z.to_nat (extra_bytes lead))
      with (length goods + S (length skipped))%nat by lia.
    rewrite continuation_bad by assumption.
    rewrite ToUtf32_loop_rest
      by (rewrite length_app; simpl; rewrite length_app; lia).
    rewrite Hrest. simpl fold_right.
    pose proof (gathered_bound goods _ 4294967295 Hgoods Hr
                  (Hbelow ltac:(right; lia))) as Hb.
    fold (code_point lead goods) in Hb. fold (code_point lead goods).
    unfold put.
    replace (code_point lead goods =? CHAR32_EOF) with false
      by (symmetry; apply Z.eqb_neq; unfold CHAR32_EOF; lia).
    reflexivity.
  - intros tail Hshort. unfold ToUtf32. simpl. rewrite Hu.
    replace (lead <? 128) with false by (symmetry; apply Z.ltb_ge; lia).
    rewrite utf8extraBytes_lookup by lia.
    replace (extra_bytes lead =? 0) with false
      by (symmetry; apply Z.eqb_neq; lia).
    replace (Z.of_nat (length tail) <? extra_bytes lead) with true
      by (symmetry; apply Z.ltb_lt; lia).
    reflexivity.
  - intros c Hc. unfold continuation_byte in Hc.
    unfold ToUtf32. simpl.
    assert (Hc8 : uint8 c = c) by (unfold uint8; apply Z.mod_small; lia).
    rewrite Hc8.
    replace (c <? 128) with false by (symmetry; apply Z.ltb_ge; lia).
    rewrite utf8extraBytes_lookup by lia.
    replace (extra_bytes c) with 0
      by (unfold extra_bytes;
          replace (c <? 192) with true by (symmetry; apply Z.ltb_lt; lia);
          reflexivity).
    simpl. rewrite ToUtf32_loop_rest by lia. rewrite Hrest. reflexivity.
Qed.

Lemma malformed_sequences_are_replaced_witness :
  ToUtf32 (226 :: [130] ++ 65 :: [] ++ [66])
  = Text [ILLEGAL_CHAR32; code_point 226 [130]; 66] /\
  ToUtf32 [226; 65] = Text [ILLEGAL_CHAR32] /\
  ToUtf32 [130; 66] = Text [ILLEGAL_CHAR32; 66].
Proof.
  destruct (malformed_sequences_are_replaced 226 [130] 65 [] [66] [66])
    as (H1 & H2 & H3).
  - lia.
  - repeat constructor; unfold continuation_byte; lia.
  - left; lia.
  - reflexivity.
  - reflexivity.
  - split; [exact H1|]. split; [apply (H2 [65]); reflexivity|].
    apply (H3 130). unfold continuation_byte. lia.
Defined.

End Utf8.

(** ** What the playback conversions store *)

Section StoredSamples.
Import Codec.













End StoredSamples.

(** ** The float playback functions *)

Section FloatPlayback.
Import Codec.











End FloatPlayback.
